(** * TimSort with an asynchronous comparator: a shallow embedding

    The TypeScript function [timsort] (a port of java.util.TimSort whose
    comparator returns a promise) is embedded as a state-and-error monad
    over the variables that the nested functions share through the
    closure: the array [global_a], the run stack ([runBase], [runLen],
    [stackSize]) and a trace of what the call did.  Every [await] of the
    source is a monadic bind, so the awaited chain is sequential by
    construction; the un-awaited calls of the source are modelled as
    such (see [mergeAt_unawaited]). *)

From Stdlib Require Import ZArith List String Lia Permutation Sorted Bool.
From stdpp Require Import base list sorting.

Local Open Scope Z_scope.

(** ** JavaScript numbers and arrays *)

Module JS.

(** The bit operators of JavaScript work on 32-bit integers: the operand
    is wrapped first.  Indices and lengths are integers below 2^53, so
    [Z] is exact for everything else. *)
Definition to_uint32 (x : Z) : Z := x mod 2 ^ 32.

Definition to_int32 (x : Z) : Z :=
  let u := x mod 2 ^ 32 in if u <? 2 ^ 31 then u else u - 2 ^ 32.

(** [x >>> 1] *)
Definition ushr1 (x : Z) : Z := Z.shiftr (to_uint32 x) 1.

(** [x << 1] *)
Definition shl1 (x : Z) : Z := to_int32 (Z.shiftl (to_int32 x) 1).

(** [x | y] *)
Definition bor (x y : Z) : Z := to_int32 (Z.lor (to_int32 x) (to_int32 y)).

Section Arrays.
Context {A : Type}.

(** [a[i]]: [None] stands for [undefined]. *)
Definition get (a : list A) (i : Z) : option A :=
  if i <? 0 then None else a !! Z.to_nat i.

(** [a[i] = v]: inside the array the slot is replaced, at [a.length]
    the array grows by one element; further out JavaScript would leave
    holes, which an array of [A] cannot hold: [None]. *)
Definition set (a : list A) (i : Z) (v : A) : option (list A) :=
  if i <? 0 then None
  else if i <? Z.of_nat (length a) then Some (<[Z.to_nat i := v]> a)
  else if i =? Z.of_nat (length a) then Some (a ++ [v])
  else None.

(** Index normalisation of [Array.prototype.slice]. *)
Definition slice_index (n i : Z) : Z :=
  if i <? 0 then Z.max (n + i) 0 else Z.min i n.

(** [a.slice(b, e)] *)
Definition slice (a : list A) (b e : Z) : list A :=
  let n := Z.of_nat (length a) in
  let k := slice_index n b in
  let f := slice_index n e in
  take (Z.to_nat (f - k)) (drop (Z.to_nat k) a).
End Arrays.

End JS.

(** ** Outcomes *)

(** What a call of the model ends in: a value, a thrown [Error], a
    read of [undefined] or a write that leaves holes ([Undef]: the
    typed program has left [T[]]), or the loop bound of the model
    exhausted. *)
Inductive outcome (A : Type) : Type :=
| Ok (a : A)
| Throw (msg : string)
| Undef
| Timeout.
Arguments Ok {A} a.
Arguments Throw {A} msg.
Arguments Undef {A}.
Arguments Timeout {A}.

Definition of_option {A} (o : option A) : outcome A :=
  match o with Some a => Ok a | None => Undef end.

(** java System.arraycopy, as the port writes it: the source range is
    sliced off first, then written from the last element down. *)
Fixpoint arraycopy_loop {A} (a d : list A) (dpos : Z) (len : nat)
  : option (list A) :=
  match len with
  | O => Some d
  | S len' =>
      match JS.get a (Z.of_nat len') with
      | Some v =>
          match JS.set d (dpos + Z.of_nat len') v with
          | Some d' => arraycopy_loop a d' dpos len'
          | None => None
          end
      | None => None
      end
  end.

Definition arraycopy {A} (s : list A) (spos : Z) (d : list A) (dpos len : Z)
  : outcome (list A) :=
  let a := JS.slice s spos (spos + len) in
  if len <? 0 then Timeout (* [while(len--)] counts down for ever *)
  else of_option (arraycopy_loop a d dpos (Z.to_nat len)).

(** ** The sort *)

Section TimSort.

Context {T : Type}.

(** The comparator.  Its promise is awaited at every call, so a call is
    its answer together with a [Compare] entry in the trace. *)
Variable compareFn : T -> T -> Z.

Definition MIN_MERGE : Z := 32.
Definition MIN_GALLOP : Z := 7.

(** Where an assignment to [minGallop] stands in [mergeLo]/[mergeHi]. *)
Inductive gallop_step := GInit | GDecrement | GPenalty | GWriteBack.

Inductive event :=
| Log (msg : string)                 (* console.log(msg) *)
| Compare (x y : T)                  (* a call compare(x, y) *)
| Reversed (lo hi : Z)               (* ghost: reverseRange(a, lo, hi) *)
| Pushed (base len size : Z)         (* ghost: pushRun, [size] the new stackSize *)
| Unawaited (i : Z)                  (* ghost: mergeAt(i) called and not awaited *)
| MinGallop (s : gallop_step) (v : Z) (* ghost: minGallop set to [v] *).

Record state := mkState {
  global_a : list T;
  runBase : list Z;
  runLen : list Z;
  stackSize : Z;
  trace : list event
}.

Definition M (A : Type) : Type := state -> outcome (A * state).

Definition ret {A} (a : A) : M A := fun st => Ok (a, st).

Definition bind {A B} (m : M A) (k : A -> M B) : M B :=
  fun st =>
    match m st with
    | Ok (a, st') => k a st'
    | Throw msg => Throw msg
    | Undef => Undef
    | Timeout => Timeout
    end.

Notation "x <- m ;; k" := (bind m (fun x => k))
  (at level 100, m at next level, right associativity).
Notation "m ;; k" := (bind m (fun _ => k))
  (at level 100, right associativity).

Definition throw {A} (msg : string) : M A := fun _ => Throw msg.
Definition timeout {A} : M A := fun _ => Timeout.

Definition lift {A} (o : outcome A) : M A :=
  fun st =>
    match o with
    | Ok a => Ok (a, st)
    | Throw msg => Throw msg
    | Undef => Undef
    | Timeout => Timeout
    end.

Definition emit (e : event) : M unit :=
  fun st => Ok (tt, mkState (global_a st) (runBase st) (runLen st)
                            (stackSize st) (trace st ++ [e])).

Definition get_a : M (list T) := fun st => Ok (global_a st, st).

Definition put_a (a : list T) : M unit :=
  fun st => Ok (tt, mkState a (runBase st) (runLen st) (stackSize st) (trace st)).

Definition get_runBase : M (list Z) := fun st => Ok (runBase st, st).
Definition get_runLen : M (list Z) := fun st => Ok (runLen st, st).
Definition get_stackSize : M Z := fun st => Ok (stackSize st, st).

Definition put_runBase (l : list Z) : M unit :=
  fun st => Ok (tt, mkState (global_a st) l (runLen st) (stackSize st) (trace st)).
Definition put_runLen (l : list Z) : M unit :=
  fun st => Ok (tt, mkState (global_a st) (runBase st) l (stackSize st) (trace st)).
Definition put_stackSize (n : Z) : M unit :=
  fun st => Ok (tt, mkState (global_a st) (runBase st) (runLen st) n (trace st)).

(** [a[i]] and [a[i] = v] on the array being sorted.  Every function of
    the source that takes the array as parameter [a] is passed
    [global_a] itself, the same object: the model reads and writes the
    one shared array. *)
Definition a_get (i : Z) : M T :=
  a <- get_a ;; lift (of_option (JS.get a i)).

Definition a_set (i : Z) (v : T) : M unit :=
  a <- get_a ;; a' <- lift (of_option (JS.set a i v)) ;; put_a a'.

(** [await compare(x, y)] *)
Definition compare (x y : T) : M Z :=
  emit (Compare x y) ;; ret (compareFn x y).

Definition log (msg : string) : M unit := emit (Log msg).

(** *** rangeCheck *)
Definition rangeCheck (arrayLen fromIndex toIndex : Z) : M unit :=
  if toIndex <? fromIndex then throw "IllegalArgument fromIndex > toIndex"
  else if fromIndex <? 0 then throw "ArrayIndexOutOfBounds fromIndex"
  else if arrayLen <? toIndex then throw "ArrayIndexOutOfBounds toIndex"
  else ret tt.

(** *** reverseRange *)
Fixpoint reverseRange_loop (fuel : nat) (lo hi : Z) : M unit :=
  match fuel with
  | O => timeout
  | S fuel' =>
      if lo <? hi then
        t <- a_get lo ;;
        x <- a_get hi ;;
        a_set lo x ;;
        a_set hi t ;;
        reverseRange_loop fuel' (lo + 1) (hi - 1)
      else ret tt
  end.

Definition reverseRange (fuel : nat) (lo hi : Z) : M unit :=
  emit (Reversed lo hi) ;;
  reverseRange_loop fuel lo (hi - 1).

(** *** countRunAndMakeAscending *)

(** Both run-extending loops have the shape
    [while (runHi < hi && test(await compare(a[runHi], a[runHi - 1]))) runHi++];
    [test] is [< 0] for a descending run and [>= 0] for an ascending one. *)
Fixpoint run_loop (fuel : nat) (test : Z -> bool) (runHi hi : Z) : M Z :=
  match fuel with
  | O => timeout
  | S fuel' =>
      if runHi <? hi then
        x <- a_get runHi ;;
        y <- a_get (runHi - 1) ;;
        c <- compare x y ;;
        if test c then run_loop fuel' test (runHi + 1) hi else ret runHi
      else ret runHi
  end.

Definition countRunAndMakeAscending (fuel : nat) (lo hi : Z) : M Z :=
  log "entering count run and make ascending" ;;
  let runHi := lo + 1 in
  if runHi =? hi then ret 1
  else
    x <- a_get runHi ;;
    y <- a_get lo ;;
    c <- compare x y ;;
    let runHi := runHi + 1 in
    if c <? 0 then
      runHi <- run_loop fuel (fun c => c <? 0) runHi hi ;;
      reverseRange fuel lo runHi ;;
      ret (runHi - lo)
    else
      runHi <- run_loop fuel (fun c => 0 <=? c) runHi hi ;;
      ret (runHi - lo).

(** *** binarySort *)

(** The binary search for the slot of [pivot]:
    [while (left < right) { mid = (left + right) >>> 1; ... }] *)
Fixpoint binarySort_search (fuel : nat) (pivot : T) (left right : Z) : M Z :=
  match fuel with
  | O => timeout
  | S fuel' =>
      if left <? right then
        let mid := JS.ushr1 (left + right) in
        am <- a_get mid ;;
        comparison <- compare pivot am ;;
        if comparison <? 0 then binarySort_search fuel' pivot left mid
        else binarySort_search fuel' pivot (mid + 1) right
      else ret left
  end.

(** The [switch (n)] that slides [a[left .. left+n)] one slot up; case 2
    falls through into case 1. *)
Definition binarySort_slide (left n : Z) : M unit :=
  if n =? 2 then
    x <- a_get (left + 1) ;; a_set (left + 2) x ;;
    y <- a_get left ;; a_set (left + 1) y
  else if n =? 1 then
    y <- a_get left ;; a_set (left + 1) y
  else
    a <- get_a ;;
    a' <- lift (arraycopy a left a (left + 1) n) ;;
    put_a a'.

Fixpoint binarySort_loop (fuel n : nat) (lo hi start : Z) : M unit :=
  match n with
  | O => timeout
  | S n' =>
      if start <? hi then
        pivot <- a_get start ;;
        left <- binarySort_search fuel pivot lo start ;;
        binarySort_slide left (start - left) ;;
        a_set left pivot ;;
        log "done" ;;
        binarySort_loop fuel n' lo hi (start + 1)
      else ret tt
  end.

Definition binarySort (fuel : nat) (lo hi start : Z) : M unit :=
  log "entering binary sort" ;;
  let start := if start =? lo then start + 1 else start in
  binarySort_loop fuel fuel lo hi start.

(** *** The run stack *)

(** The port's [minRunLength]: the loop of the original is commented
    out and what is left returns [n + 1]. *)
Definition minRunLength (n : Z) : Z := n + 1.

Definition pushRun (runBaseArg runLenArg : Z) : M unit :=
  size <- get_stackSize ;;
  rb <- get_runBase ;;
  rb' <- lift (of_option (JS.set rb size runBaseArg)) ;;
  put_runBase rb' ;;
  rl <- get_runLen ;;
  rl' <- lift (of_option (JS.set rl size runLenArg)) ;;
  put_runLen rl' ;;
  put_stackSize (size + 1) ;;
  emit (Pushed runBaseArg runLenArg (size + 1)).

Definition runLen_get (i : Z) : M Z :=
  rl <- get_runLen ;; lift (of_option (JS.get rl i)).

Definition runBase_get (i : Z) : M Z :=
  rb <- get_runBase ;; lift (of_option (JS.get rb i)).

Definition runLen_set (i v : Z) : M unit :=
  rl <- get_runLen ;; rl' <- lift (of_option (JS.set rl i v)) ;; put_runLen rl'.

Definition runBase_set (i v : Z) : M unit :=
  rb <- get_runBase ;; rb' <- lift (of_option (JS.set rb i v)) ;; put_runBase rb'.

(** [mergeAt(i)] as [mergeCollapse] and [mergeForceCollapse] call it:
    without [await].  The body of the async function runs up to its
    first suspension, which is inside [gallopRight], at the answer of
    its first comparison; that much belongs to the caller's step: the
    stack bookkeeping, the two log lines and the comparator call being
    issued.  What follows runs detached from the awaited chain,
    interleaved with whatever [sort] does next, and is not part of this
    sequential model: the [Unawaited] entry marks the point from which
    the model no longer describes the call. *)
Definition mergeAt_unawaited (i : Z) : M unit :=
  log "entering mergeat" ;;
  base1 <- runBase_get i ;;
  len1 <- runLen_get i ;;
  base2 <- runBase_get (i + 1) ;;
  len2 <- runLen_get (i + 1) ;;
  runLen_set i (len1 + len2) ;;
  size <- get_stackSize ;;
  (if i =? size - 3 then
     b <- runBase_get (i + 2) ;; runBase_set (i + 1) b ;;
     l <- runLen_get (i + 2) ;; runLen_set (i + 1) l
   else ret tt) ;;
  put_stackSize (size - 1) ;;
  key <- a_get base2 ;;
  log "entering gallop right" ;;
  x <- a_get (base1 + 0) ;;
  emit (Compare key x) ;;
  emit (Unawaited i).

Fixpoint mergeCollapse (fuel : nat) : M unit :=
  match fuel with
  | O => timeout
  | S fuel' =>
      size <- get_stackSize ;;
      if 1 <? size then
        let n := size - 2 in
        c1 <- (if 0 <? n then
                 x <- runLen_get (n - 1) ;;
                 y <- runLen_get n ;;
                 z <- runLen_get (n + 1) ;;
                 ret (x <=? y + z)
               else ret false) ;;
        if c1 : bool then
          x <- runLen_get (n - 1) ;;
          z <- runLen_get (n + 1) ;;
          let n := if x <? z then n - 1 else n in
          mergeAt_unawaited n ;;
          mergeCollapse fuel'
        else
          y <- runLen_get n ;;
          z <- runLen_get (n + 1) ;;
          if y <=? z then
            mergeAt_unawaited n ;;
            mergeCollapse fuel'
          else ret tt
      else ret tt
  end.

Fixpoint mergeForceCollapse (fuel : nat) : M unit :=
  match fuel with
  | O => timeout
  | S fuel' =>
      size <- get_stackSize ;;
      if 1 <? size then
        let n := size - 2 in
        dec <- (if 0 <? n then
                  x <- runLen_get (n - 1) ;;
                  z <- runLen_get (n + 1) ;;
                  ret (x <? z)
                else ret false) ;;
        let n := if dec : bool then n - 1 else n in
        mergeAt_unawaited n ;;
        mergeForceCollapse fuel'
      else ret tt
  end.

(** *** gallopLeft and gallopRight *)

(** Reading an array passed by value: [tmp], or the array handed to the
    gallop functions, which only read it. *)
Definition arr_get (a : list T) (i : Z) : M T := lift (of_option (JS.get a i)).

(** The four galloping loops have one shape,
    [while (ofs < maxOfs && test(await compare(key, a[pos(ofs)]))) {
       lastOfs = ofs; ofs = (ofs << 1) + 1; if (ofs <= 0) ofs = maxOfs; }],
    and differ in the test on the comparison and in the probed index. *)
Fixpoint gallop_probe (fuel : nat) (test : Z -> bool) (key : T) (a : list T)
    (pos : Z -> Z) (maxOfs lastOfs ofs : Z) : M (Z * Z) :=
  match fuel with
  | O => timeout
  | S fuel' =>
      if ofs <? maxOfs then
        x <- arr_get a (pos ofs) ;;
        c <- compare key x ;;
        if test c then
          let lastOfs := ofs in
          let ofs := JS.shl1 ofs + 1 in
          let ofs := if ofs <=? 0 then maxOfs else ofs in
          gallop_probe fuel' test key a pos maxOfs lastOfs ofs
        else ret (lastOfs, ofs)
      else ret (lastOfs, ofs)
  end.

(** The closing binary search,
    [while (lastOfs < ofs) { m = lastOfs + ((ofs - lastOfs) >>> 1);
       if (right(await compare(key, a[base + m]))) lastOfs = m + 1; else ofs = m; }];
    [right] is [> 0] in gallopLeft and "not [< 0]" in gallopRight, whose
    two branches the source writes in the other order. *)
Fixpoint gallop_bisect (fuel : nat) (right : Z -> bool) (key : T) (a : list T)
    (base lastOfs ofs : Z) : M Z :=
  match fuel with
  | O => timeout
  | S fuel' =>
      if lastOfs <? ofs then
        let m := lastOfs + JS.ushr1 (ofs - lastOfs) in
        x <- arr_get a (base + m) ;;
        c <- compare key x ;;
        if right c then gallop_bisect fuel' right key a base (m + 1) ofs
        else gallop_bisect fuel' right key a base lastOfs m
      else ret ofs
  end.

Definition gallopLeft (fuel : nat) (key : T) (a : list T) (base len hint : Z)
  : M Z :=
  log "entering gallop left" ;;
  x <- arr_get a (base + hint) ;;
  c <- compare key x ;;
  p <-
    (if 0 <? c then
       let maxOfs := len - hint in
       p <- gallop_probe fuel (fun c => 0 <? c) key a
                         (fun ofs => base + hint + ofs) maxOfs 0 1 ;;
       let '(lastOfs, ofs) := p in
       let ofs := if maxOfs <? ofs then maxOfs else ofs in
       ret (lastOfs + hint, ofs + hint)
     else
       let maxOfs := hint + 1 in
       p <- gallop_probe fuel (fun c => c <=? 0) key a
                         (fun ofs => base + hint - ofs) maxOfs 0 1 ;;
       let '(lastOfs, ofs) := p in
       let ofs := if maxOfs <? ofs then maxOfs else ofs in
       let tmp := lastOfs in
       ret (hint - ofs, hint - tmp)) ;;
  let '(lastOfs, ofs) := p in
  gallop_bisect fuel (fun c => 0 <? c) key a base (lastOfs + 1) ofs.

Definition gallopRight (fuel : nat) (key : T) (a : list T) (base len hint : Z)
  : M Z :=
  log "entering gallop right" ;;
  x <- arr_get a (base + hint) ;;
  c <- compare key x ;;
  p <-
    (if c <? 0 then
       let maxOfs := hint + 1 in
       p <- gallop_probe fuel (fun c => c <? 0) key a
                         (fun ofs => base + hint - ofs) maxOfs 0 1 ;;
       let '(lastOfs, ofs) := p in
       let ofs := if maxOfs <? ofs then maxOfs else ofs in
       let tmp := lastOfs in
       ret (hint - ofs, hint - tmp)
     else
       let maxOfs := len - hint in
       p <- gallop_probe fuel (fun c => 0 <=? c) key a
                         (fun ofs => base + hint + ofs) maxOfs 0 1 ;;
       let '(lastOfs, ofs) := p in
       let ofs := if maxOfs <? ofs then maxOfs else ofs in
       ret (lastOfs + hint, ofs + hint)) ;;
  let '(lastOfs, ofs) := p in
  gallop_bisect fuel (fun c => negb (c <? 0)) key a base (lastOfs + 1) ofs.

(** *** mergeLo and mergeHi *)

(** [arraycopy(s, spos, a, dpos, len)] into the array being sorted, from
    a scratch array and from the array itself. *)
Definition a_arraycopy_from (s : list T) (spos dpos len : Z) : M unit :=
  a <- get_a ;; a' <- lift (arraycopy s spos a dpos len) ;; put_a a'.

Definition a_arraycopy (spos dpos len : Z) : M unit :=
  a <- get_a ;; a' <- lift (arraycopy a spos a dpos len) ;; put_a a'.

(** The local variables of a merge. *)
Record merge_vars := mkVars {
  cursor1 : Z; cursor2 : Z; dest : Z;
  len1 : Z; len2 : Z;
  count1 : Z; count2 : Z;
  minGallop : Z
}.

(** How a block of the [outer] loop ends: by falling out of its own
    loop, or by [break outer]. *)
Inductive ctl := Fallthrough | BreakOuter.

(** The straight merge of mergeLo:
    [do { ... } while ((count1 | count2) < minGallop)]. *)
Fixpoint mergeLo_straight (fuel : nat) (tmp : list T) (v : merge_vars)
  : M (ctl * merge_vars) :=
  match fuel with
  | O => timeout
  | S fuel' =>
      x <- a_get (cursor2 v) ;;
      y <- arr_get tmp (cursor1 v) ;;
      c <- compare x y ;;
      r <-
        (if c <? 0 then
           x <- a_get (cursor2 v) ;;
           a_set (dest v) x ;;
           let v := mkVars (cursor1 v) (cursor2 v + 1) (dest v + 1)
                           (len1 v) (len2 v - 1) 0 (count2 v + 1) (minGallop v) in
           ret (if len2 v =? 0 then BreakOuter else Fallthrough, v)
         else
           y <- arr_get tmp (cursor1 v) ;;
           a_set (dest v) y ;;
           let v := mkVars (cursor1 v + 1) (cursor2 v) (dest v + 1)
                           (len1 v - 1) (len2 v) (count1 v + 1) 0 (minGallop v) in
           ret (if len1 v =? 1 then BreakOuter else Fallthrough, v)) ;;
      let '(k, v) := r in
      match k with
      | BreakOuter => ret (BreakOuter, v)
      | Fallthrough =>
          if JS.bor (count1 v) (count2 v) <? minGallop v
          then mergeLo_straight fuel' tmp v
          else ret (Fallthrough, v)
      end
  end.

(** The galloping merge of mergeLo:
    [do { ... } while (count1 >= MIN_GALLOP || count2 >= MIN_GALLOP)]. *)
Fixpoint mergeLo_gallop (fuel n : nat) (tmp : list T) (v : merge_vars)
  : M (ctl * merge_vars) :=
  match n with
  | O => timeout
  | S n' =>
      key <- a_get (cursor2 v) ;;
      n1 <- gallopRight fuel key tmp (cursor1 v) (len1 v) 0 ;;
      let v := mkVars (cursor1 v) (cursor2 v) (dest v) (len1 v) (len2 v)
                      n1 (count2 v) (minGallop v) in
      r <-
        (if negb (count1 v =? 0) then
           a_arraycopy_from tmp (cursor1 v) (dest v) (count1 v) ;;
           let v := mkVars (cursor1 v + count1 v) (cursor2 v) (dest v + count1 v)
                           (len1 v - count1 v) (len2 v)
                           (count1 v) (count2 v) (minGallop v) in
           ret (if len1 v <=? 1 then BreakOuter else Fallthrough, v)
         else ret (Fallthrough, v)) ;;
      let '(k, v) := r in
      match k with
      | BreakOuter => ret (BreakOuter, v)
      | Fallthrough =>
          x <- a_get (cursor2 v) ;;
          a_set (dest v) x ;;
          let v := mkVars (cursor1 v) (cursor2 v + 1) (dest v + 1)
                          (len1 v) (len2 v - 1)
                          (count1 v) (count2 v) (minGallop v) in
          if len2 v =? 0 then ret (BreakOuter, v)
          else
            key <- arr_get tmp (cursor1 v) ;;
            a <- get_a ;;
            n2 <- gallopLeft fuel key a (cursor2 v) (len2 v) 0 ;;
            let v := mkVars (cursor1 v) (cursor2 v) (dest v) (len1 v) (len2 v)
                            (count1 v) n2 (minGallop v) in
            r <-
              (if negb (count2 v =? 0) then
                 a_arraycopy (cursor2 v) (dest v) (count2 v) ;;
                 let v := mkVars (cursor1 v) (cursor2 v + count2 v)
                                 (dest v + count2 v)
                                 (len1 v) (len2 v - count2 v)
                                 (count1 v) (count2 v) (minGallop v) in
                 ret (if len2 v =? 0 then BreakOuter else Fallthrough, v)
               else ret (Fallthrough, v)) ;;
            let '(k, v) := r in
            match k with
            | BreakOuter => ret (BreakOuter, v)
            | Fallthrough =>
                y <- arr_get tmp (cursor1 v) ;;
                a_set (dest v) y ;;
                let v := mkVars (cursor1 v + 1) (cursor2 v) (dest v + 1)
                                (len1 v - 1) (len2 v)
                                (count1 v) (count2 v) (minGallop v) in
                if len1 v =? 1 then ret (BreakOuter, v)
                else
                  let v := mkVars (cursor1 v) (cursor2 v) (dest v)
                                  (len1 v) (len2 v) (count1 v) (count2 v)
                                  (minGallop v - 1) in
                  emit (MinGallop GDecrement (minGallop v)) ;;
                  if (MIN_GALLOP <=? count1 v) || (MIN_GALLOP <=? count2 v)
                  then mergeLo_gallop fuel n' tmp v
                  else ret (Fallthrough, v)
            end
      end
  end.

(** The penalty for leaving gallop mode:
    [if (minGallop < 0) minGallop = 0; minGallop += 2;] *)
Definition leave_gallop (minGallop : Z) : Z :=
  (if minGallop <? 0 then 0 else minGallop) + 2.

(** [outer: while (true) { ... }] of mergeLo. *)
Fixpoint mergeLo_outer (fuel n : nat) (tmp : list T) (v : merge_vars)
  : M merge_vars :=
  match n with
  | O => timeout
  | S n' =>
      let v := mkVars (cursor1 v) (cursor2 v) (dest v) (len1 v) (len2 v)
                      0 0 (minGallop v) in
      r <- mergeLo_straight fuel tmp v ;;
      let '(k, v) := r in
      match k with
      | BreakOuter => ret v
      | Fallthrough =>
          r <- mergeLo_gallop fuel fuel tmp v ;;
          let '(k, v) := r in
          match k with
          | BreakOuter => ret v
          | Fallthrough =>
              let v := mkVars (cursor1 v) (cursor2 v) (dest v) (len1 v) (len2 v)
                              (count1 v) (count2 v) (leave_gallop (minGallop v)) in
              emit (MinGallop GPenalty (minGallop v)) ;;
              mergeLo_outer fuel n' tmp v
          end
      end
  end.

Definition contract_violation : string :=
  "IllegalArgumentException. Comparison method violates its general contract!".

(** What mergeLo does once the [outer] loop is left. *)
Definition mergeLo_end (tmp : list T) (v : merge_vars) : M unit :=
  let '(mkVars cursor1 cursor2 dest len1 len2 _ _ minGallop) := v in
  let minGallop := if minGallop <? 1 then 1 else minGallop in
  emit (MinGallop GWriteBack minGallop) ;;
  if len1 =? 1 then
    a_arraycopy cursor2 dest len2 ;;
    y <- arr_get tmp cursor1 ;;
    a_set (dest + len2) y
  else if len1 =? 0 then throw contract_violation
  else a_arraycopy_from tmp cursor1 dest len1.

Definition mergeLo (fuel : nat) (base1 len1 base2 len2 : Z) : M unit :=
  log "entering merge lo" ;;
  a <- get_a ;;
  let tmp := JS.slice a base1 (base1 + len1) in
  let cursor1 := 0 in
  let cursor2 := base2 in
  let dest := base1 in
  x <- a_get cursor2 ;;
  a_set dest x ;;
  let dest := dest + 1 in
  let cursor2 := cursor2 + 1 in
  let len2 := len2 - 1 in
  if len2 =? 0 then a_arraycopy_from tmp cursor1 dest len1
  else if len1 =? 1 then
    a_arraycopy cursor2 dest len2 ;;
    y <- arr_get tmp cursor1 ;;
    a_set (dest + len2) y
  else
    emit (MinGallop GInit MIN_GALLOP) ;;
    v <- mergeLo_outer fuel fuel tmp
           (mkVars cursor1 cursor2 dest len1 len2 0 0 MIN_GALLOP) ;;
    mergeLo_end tmp v.

(** The straight merge of mergeHi, from the high end down. *)
Fixpoint mergeHi_straight (fuel : nat) (tmp : list T) (v : merge_vars)
  : M (ctl * merge_vars) :=
  match fuel with
  | O => timeout
  | S fuel' =>
      x <- arr_get tmp (cursor2 v) ;;
      y <- a_get (cursor1 v) ;;
      c <- compare x y ;;
      r <-
        (if c <? 0 then
           y <- a_get (cursor1 v) ;;
           a_set (dest v) y ;;
           let v := mkVars (cursor1 v - 1) (cursor2 v) (dest v - 1)
                           (len1 v - 1) (len2 v) (count1 v + 1) 0 (minGallop v) in
           ret (if len1 v =? 0 then BreakOuter else Fallthrough, v)
         else
           x <- arr_get tmp (cursor2 v) ;;
           a_set (dest v) x ;;
           let v := mkVars (cursor1 v) (cursor2 v - 1) (dest v - 1)
                           (len1 v) (len2 v - 1) 0 (count2 v + 1) (minGallop v) in
           ret (if len2 v =? 1 then BreakOuter else Fallthrough, v)) ;;
      let '(k, v) := r in
      match k with
      | BreakOuter => ret (BreakOuter, v)
      | Fallthrough =>
          if JS.bor (count1 v) (count2 v) <? minGallop v
          then mergeHi_straight fuel' tmp v
          else ret (Fallthrough, v)
      end
  end.

(** The galloping merge of mergeHi. *)
Fixpoint mergeHi_gallop (fuel n : nat) (tmp : list T) (base1 : Z)
    (v : merge_vars) : M (ctl * merge_vars) :=
  match n with
  | O => timeout
  | S n' =>
      key <- arr_get tmp (cursor2 v) ;;
      a <- get_a ;;
      g <- gallopRight fuel key a base1 (len1 v) (len1 v - 1) ;;
      let v := mkVars (cursor1 v) (cursor2 v) (dest v) (len1 v) (len2 v)
                      (len1 v - g) (count2 v) (minGallop v) in
      r <-
        (if negb (count1 v =? 0) then
           let v := mkVars (cursor1 v - count1 v) (cursor2 v) (dest v - count1 v)
                           (len1 v - count1 v) (len2 v)
                           (count1 v) (count2 v) (minGallop v) in
           a_arraycopy (cursor1 v + 1) (dest v + 1) (count1 v) ;;
           ret (if len1 v =? 0 then BreakOuter else Fallthrough, v)
         else ret (Fallthrough, v)) ;;
      let '(k, v) := r in
      match k with
      | BreakOuter => ret (BreakOuter, v)
      | Fallthrough =>
          x <- arr_get tmp (cursor2 v) ;;
          a_set (dest v) x ;;
          let v := mkVars (cursor1 v) (cursor2 v - 1) (dest v - 1)
                          (len1 v) (len2 v - 1)
                          (count1 v) (count2 v) (minGallop v) in
          if len2 v =? 1 then ret (BreakOuter, v)
          else
            key <- a_get (cursor1 v) ;;
            g <- gallopLeft fuel key tmp 0 (len2 v) (len2 v - 1) ;;
            let v := mkVars (cursor1 v) (cursor2 v) (dest v) (len1 v) (len2 v)
                            (count1 v) (len2 v - g) (minGallop v) in
            r <-
              (if negb (count2 v =? 0) then
                 let v := mkVars (cursor1 v) (cursor2 v - count2 v)
                                 (dest v - count2 v)
                                 (len1 v) (len2 v - count2 v)
                                 (count1 v) (count2 v) (minGallop v) in
                 a_arraycopy_from tmp (cursor2 v + 1) (dest v + 1) (count2 v) ;;
                 ret (if len2 v <=? 1 then BreakOuter else Fallthrough, v)
               else ret (Fallthrough, v)) ;;
            let '(k, v) := r in
            match k with
            | BreakOuter => ret (BreakOuter, v)
            | Fallthrough =>
                y <- a_get (cursor1 v) ;;
                a_set (dest v) y ;;
                let v := mkVars (cursor1 v - 1) (cursor2 v) (dest v - 1)
                                (len1 v - 1) (len2 v)
                                (count1 v) (count2 v) (minGallop v) in
                if len1 v =? 0 then ret (BreakOuter, v)
                else
                  let v := mkVars (cursor1 v) (cursor2 v) (dest v)
                                  (len1 v) (len2 v) (count1 v) (count2 v)
                                  (minGallop v - 1) in
                  emit (MinGallop GDecrement (minGallop v)) ;;
                  if (MIN_GALLOP <=? count1 v) || (MIN_GALLOP <=? count2 v)
                  then mergeHi_gallop fuel n' tmp base1 v
                  else ret (Fallthrough, v)
            end
      end
  end.

(** [outer: while (true) { ... }] of mergeHi. *)
Fixpoint mergeHi_outer (fuel n : nat) (tmp : list T) (base1 : Z)
    (v : merge_vars) : M merge_vars :=
  match n with
  | O => timeout
  | S n' =>
      let v := mkVars (cursor1 v) (cursor2 v) (dest v) (len1 v) (len2 v)
                      0 0 (minGallop v) in
      r <- mergeHi_straight fuel tmp v ;;
      let '(k, v) := r in
      match k with
      | BreakOuter => ret v
      | Fallthrough =>
          r <- mergeHi_gallop fuel fuel tmp base1 v ;;
          let '(k, v) := r in
          match k with
          | BreakOuter => ret v
          | Fallthrough =>
              let v := mkVars (cursor1 v) (cursor2 v) (dest v) (len1 v) (len2 v)
                              (count1 v) (count2 v) (leave_gallop (minGallop v)) in
              emit (MinGallop GPenalty (minGallop v)) ;;
              mergeHi_outer fuel n' tmp base1 v
          end
      end
  end.

(** What mergeHi does once the [outer] loop is left.  The closing
    [global_a = a] assigns the array to itself. *)
Definition mergeHi_end (tmp : list T) (v : merge_vars) : M unit :=
  let '(mkVars cursor1 cursor2 dest len1 len2 _ _ minGallop) := v in
  let minGallop := if minGallop <? 1 then 1 else minGallop in
  emit (MinGallop GWriteBack minGallop) ;;
  if len2 =? 1 then
    let dest := dest - len1 in
    let cursor1 := cursor1 - len1 in
    a_arraycopy (cursor1 + 1) (dest + 1) len1 ;;
    y <- arr_get tmp cursor2 ;;
    a_set dest y
  else if len2 =? 0 then throw contract_violation
  else a_arraycopy_from tmp 0 (dest - (len2 - 1)) len2.

Definition mergeHi (fuel : nat) (base1 len1 base2 len2 : Z) : M unit :=
  log "entering merge hi" ;;
  a <- get_a ;;
  let tmp := JS.slice a base2 (base2 + len2) in
  let cursor1 := base1 + len1 - 1 in
  let cursor2 := len2 - 1 in
  let dest := base2 + len2 - 1 in
  x <- a_get cursor1 ;;
  a_set dest x ;;
  let dest := dest - 1 in
  let cursor1 := cursor1 - 1 in
  let len1 := len1 - 1 in
  if len1 =? 0 then a_arraycopy_from tmp 0 (dest - (len2 - 1)) len2
  else if len2 =? 1 then
    let dest := dest - len1 in
    let cursor1 := cursor1 - len1 in
    a_arraycopy (cursor1 + 1) (dest + 1) len1 ;;
    y <- arr_get tmp cursor2 ;;
    a_set dest y
  else
    emit (MinGallop GInit MIN_GALLOP) ;;
    v <- mergeHi_outer fuel fuel tmp base1
           (mkVars cursor1 cursor2 dest len1 len2 0 0 MIN_GALLOP) ;;
    mergeHi_end tmp v.

(** *** mergeAt run to its end

    [mergeAt(i)] with nothing else scheduled: the body of the function,
    every [await] a bind, and the merge that its last statement starts
    without [await] run to its end, as it is when the call is left alone
    until no work is pending.  ([mergeAt_unawaited] is the same function
    as [sort] calls it, up to its first suspension.) *)
Definition mergeAt (fuel : nat) (i : Z) : M unit :=
  log "entering mergeat" ;;
  base1 <- runBase_get i ;;
  len1 <- runLen_get i ;;
  base2 <- runBase_get (i + 1) ;;
  len2 <- runLen_get (i + 1) ;;
  runLen_set i (len1 + len2) ;;
  size <- get_stackSize ;;
  (if i =? size - 3 then
     b <- runBase_get (i + 2) ;; runBase_set (i + 1) b ;;
     l <- runLen_get (i + 2) ;; runLen_set (i + 1) l
   else ret tt) ;;
  put_stackSize (size - 1) ;;
  key <- a_get base2 ;;
  a <- get_a ;;
  k <- gallopRight fuel key a base1 len1 0 ;;
  let base1 := base1 + k in
  let len1 := len1 - k in
  if len1 =? 0 then ret tt
  else
    key <- a_get (base1 + len1 - 1) ;;
    a <- get_a ;;
    len2 <- gallopLeft fuel key a base2 len2 (len2 - 1) ;;
    if len2 =? 0 then ret tt
    else if len1 <=? len2 then mergeLo fuel base1 len1 base2 len2
    else mergeHi fuel base1 len1 base2 len2.

(** *** sort *)

(** The [do ... while (nRemaining != 0)] loop of [sort]. *)
Fixpoint sort_loop (fuel n : nat) (lo hi nRemaining minRun : Z) : M unit :=
  match n with
  | O => timeout
  | S n' =>
      runLenlet <- countRunAndMakeAscending fuel lo hi ;;
      runLenlet <-
        (if runLenlet <? minRun then
           let force := if nRemaining <=? minRun then nRemaining else minRun in
           binarySort fuel lo (lo + force) (lo + runLenlet) ;;
           ret force
         else ret runLenlet) ;;
      pushRun lo runLenlet ;;
      mergeCollapse fuel ;;
      let lo := lo + runLenlet in
      let nRemaining := nRemaining - runLenlet in
      if negb (nRemaining =? 0) then sort_loop fuel n' lo hi nRemaining minRun
      else ret tt
  end.

(** [sort(a, lo, hi, compare)].  The test [typeof compare != "function"]
    cannot fail for a comparator of the declared type and has no
    counterpart here. *)
Definition sort (fuel : nat) (lo hi : Z) : M unit :=
  log "entering sort" ;;
  put_stackSize 0 ;;
  put_runBase [] ;;
  put_runLen [] ;;
  a <- get_a ;;
  rangeCheck (Z.of_nat (length a)) lo hi ;;
  let nRemaining := hi - lo in
  if nRemaining <? 2 then ret tt
  else if nRemaining <? MIN_MERGE then
    initRunLen <- countRunAndMakeAscending fuel lo hi ;;
    binarySort fuel lo hi (lo + initRunLen)
  else
    let minRun := minRunLength nRemaining in
    sort_loop fuel fuel lo hi nRemaining minRun ;;
    mergeForceCollapse fuel.

(** *** timsort *)

Definition init_state (arr : list T) : state := mkState arr [] [] 0 [].

(** [timsort(arr, compareFn)]: the promise resolves to [global_a]. *)
Definition timsort (fuel : nat) (arr : list T) : outcome (list T * state) :=
  match sort fuel 0 (Z.of_nat (length arr)) (init_state arr) with
  | Ok (_, st) => Ok (global_a st, st)
  | Throw msg => Throw msg
  | Undef => Undef
  | Timeout => Timeout
  end.

End TimSort.


(** * Properties *)

(** ** Arrays *)

Lemma js_get_at {A} (a : list A) (i : Z) (n : nat) :
  i = Z.of_nat n -> JS.get a i = a !! n.
Proof.
  intros ->. unfold JS.get.
  destruct (Z.ltb_spec (Z.of_nat n) 0); [lia|]. by rewrite Nat2Z.id.
Qed.

Lemma js_set_at {A} (a : list A) (i : Z) (n : nat) (v : A) :
  i = Z.of_nat n -> (n < length a)%nat ->
  JS.set a i v = Some (<[n := v]> a).
Proof.
  intros -> Hn. unfold JS.set.
  destruct (Z.ltb_spec (Z.of_nat n) 0); [lia|].
  destruct (Z.ltb_spec (Z.of_nat n) (Z.of_nat (length a))); [|lia].
  by rewrite Nat2Z.id.
Qed.

Lemma lookup_middle {A} (pre : list A) (x : A) (post : list A) (n : nat) :
  n = length pre -> (pre ++ x :: post) !! n = Some x.
Proof. intros ->. by rewrite list_lookup_middle. Qed.

Lemma insert_middle {A} (pre : list A) (x y : A) (post : list A) (n : nat) :
  n = length pre -> <[n := y]> (pre ++ x :: post) = pre ++ y :: post.
Proof.
  intros ->. rewrite insert_app_r_alt by lia.
  by rewrite Nat.sub_diag.
Qed.

Lemma last_cons_shift {A} (l : list A) (x y : A) :
  List.last (y :: l) x = List.last l y.
Proof.
  revert x y. induction l as [|z l IH]; intros x y; [done|].
  change (List.last (y :: z :: l) x) with (List.last (z :: l) x).
  rewrite IH. symmetry. apply IH.
Qed.

Lemma js_get_app {A} (pre l : list A) (i : Z) (n : nat) :
  i = Z.of_nat (length pre + n) -> JS.get (pre ++ l) i = l !! n.
Proof.
  intros ->. rewrite (js_get_at _ _ (length pre + n)) by done.
  rewrite lookup_app_r by lia. f_equal. lia.
Qed.

Lemma js_set_app {A} (pre l : list A) (i : Z) (n : nat) (v : A) :
  i = Z.of_nat (length pre + n) -> (n < length l)%nat ->
  JS.set (pre ++ l) i v = Some (pre ++ <[n := v]> l).
Proof.
  intros -> Hn. rewrite (js_set_at _ _ (length pre + n)) by (rewrite ?length_app; lia).
  f_equal. rewrite insert_app_r_alt by lia. do 2 f_equal. lia.
Qed.

Lemma filter_none {A} (f : A -> bool) (l : list A) :
  Forall (fun y => f y = false) l -> List.filter f l = [].
Proof.
  induction 1 as [|y l Hy _ IH]; [done|]. simpl. by rewrite Hy.
Qed.

Lemma StronglySorted_insert {A} (R : A -> A -> Prop) (l1 l2 : list A) (x : A) :
  StronglySorted R (l1 ++ l2) ->
  Forall (fun y => R y x) l1 -> Forall (R x) l2 ->
  StronglySorted R (l1 ++ x :: l2).
Proof.
  induction l1 as [|y l1 IH]; simpl; intros Hs H1 H2.
  - by constructor.
  - inversion Hs as [|? ? Hs' Hall]; subst. inversion H1; subst.
    constructor; [by apply IH|].
    rewrite Forall_app in Hall. destruct Hall as [Ha Hb].
    rewrite Forall_app. split; [done|]. by constructor.
Qed.

Lemma StronglySorted_rev {A} (R R' : A -> A -> Prop) (l : list A) :
  (forall u v, R u v -> R' v u) ->
  StronglySorted R l -> StronglySorted R' (rev l).
Proof.
  intros HR. induction 1 as [|x l Hs IH Hall]; [constructor|].
  cbn [rev]. apply StronglySorted_insert; [by rewrite app_nil_r | | constructor].
  apply List.Forall_forall. intros y Hy. apply HR.
  rewrite List.Forall_forall in Hall. apply Hall. by apply in_rev.
Qed.

Lemma rev_short {A} (l : list A) : (length l <= 1)%nat -> rev l = l.
Proof. destruct l as [|x [|y l]]; cbn [length]; [done|done|lia]. Qed.

(** Lengths of concatenations, for [lia]. *)
Ltac list_len :=
  repeat (first [ rewrite length_app | rewrite length_rev
                | rewrite length_insert | progress cbn [length] ]);
  try lia.

Lemma js_slice_middle {A} (pre mid post : list A) (b e : Z) :
  b = Z.of_nat (length pre) -> e = b + Z.of_nat (length mid) ->
  JS.slice (pre ++ mid ++ post) b e = mid.
Proof.
  intros -> ->. unfold JS.slice, JS.slice_index.
  rewrite !length_app.
  destruct (Z.ltb_spec (Z.of_nat (length pre)) 0); [lia|].
  destruct (Z.ltb_spec (Z.of_nat (length pre) + Z.of_nat (length mid)) 0); [lia|].
  rewrite !Z.min_l by lia.
  replace (Z.of_nat (length pre) + Z.of_nat (length mid) - Z.of_nat (length pre))
    with (Z.of_nat (length mid)) by lia.
  rewrite !Nat2Z.id, drop_app_length. apply take_app_length.
Qed.

Lemma arraycopy_loop_spec {A} (s1 : list A) :
  forall (s2 dpre d1 dpost : list A),
    length d1 = length s1 ->
    arraycopy_loop (s1 ++ s2) (dpre ++ d1 ++ dpost)
                   (Z.of_nat (length dpre)) (length s1)
    = Some (dpre ++ s1 ++ dpost).
Proof.
  induction s1 as [|v s1 IH] using rev_ind; intros s2 dpre d1 dpost Hlen.
  - destruct d1; [done|]. cbn [length] in Hlen. lia.
  - destruct d1 as [|w d1 _] using rev_ind.
    { rewrite length_app in Hlen. cbn [length] in Hlen. lia. }
    rewrite !length_app in Hlen. cbn [length] in Hlen.
    rewrite length_app. cbn [length]. rewrite Nat.add_1_r.
    cbn [arraycopy_loop].
    rewrite (js_get_at _ _ (length s1)) by done.
    rewrite <- app_assoc. cbn [app].
    rewrite (lookup_middle s1 v s2) by done.
    rewrite (js_set_at _ _ (length (dpre ++ d1)) v).
    2:{ list_len. }
    2:{ list_len. }
    replace (dpre ++ (d1 ++ [w]) ++ dpost) with ((dpre ++ d1) ++ w :: dpost)
      by (by rewrite <- !app_assoc).
    rewrite insert_middle by done.
    rewrite <- app_assoc.
    rewrite (IH (v :: s2) dpre d1 (v :: dpost)) by lia.
    by rewrite <- app_assoc.
Qed.

Lemma arraycopy_spec {A} (spre smid spost dpre dmid dpost : list A)
    (spos dpos len : Z) :
  spos = Z.of_nat (length spre) -> dpos = Z.of_nat (length dpre) ->
  len = Z.of_nat (length smid) -> length dmid = length smid ->
  arraycopy (spre ++ smid ++ spost) spos (dpre ++ dmid ++ dpost) dpos len
  = Ok (dpre ++ smid ++ dpost).
Proof.
  intros -> -> -> Hlen. unfold arraycopy.
  rewrite (js_slice_middle spre smid spost) by done.
  destruct (Z.ltb_spec (Z.of_nat (length smid)) 0); [lia|].
  rewrite Nat2Z.id.
  pose proof (arraycopy_loop_spec smid [] dpre dmid dpost Hlen) as H1.
  rewrite app_nil_r in H1. by rewrite H1.
Qed.

(** Case analysis on the first integer test of the goal. *)
Ltac ztest :=
  match goal with
  | |- context [Z.ltb ?a ?b] => destruct (Z.ltb_spec a b)
  | |- context [Z.leb ?a ?b] => destruct (Z.leb_spec a b)
  | |- context [Z.eqb ?a ?b] => destruct (Z.eqb_spec a b)
  end.

Section Properties.

Context {T : Type}.
Variable compareFn : T -> T -> Z.

Local Abbreviation state := (@state T).
Local Abbreviation event := (@event T).
Local Abbreviation M := (@M T).

(** *** One step of the monad on an explicit state *)

Lemma step_a_get {B} (i : Z) (x : T) (k : T -> M B) a rb rl ss tr :
  JS.get a i = Some x ->
  bind (a_get i) k (mkState a rb rl ss tr) = k x (mkState a rb rl ss tr).
Proof. intros H. unfold bind, a_get, get_a, lift. cbn. by rewrite H. Qed.

Lemma step_a_set {B} (i : Z) (v : T) (a' : list T) (k : unit -> M B) a rb rl ss tr :
  JS.set a i v = Some a' ->
  bind (a_set i v) k (mkState a rb rl ss tr) = k tt (mkState a' rb rl ss tr).
Proof. intros H. unfold bind, a_set, bind, get_a, lift, put_a. cbn. by rewrite H. Qed.

Lemma step_arr_get {B} (l : list T) (i : Z) (x : T) (k : T -> M B) st :
  JS.get l i = Some x -> bind (arr_get l i) k st = k x st.
Proof. intros H. unfold bind, arr_get, lift. by rewrite H. Qed.

Lemma step_compare {B} (x y : T) (k : Z -> M B) a rb rl ss tr :
  bind (compare compareFn x y) k (mkState a rb rl ss tr)
  = k (compareFn x y) (mkState a rb rl ss (tr ++ [Compare x y])).
Proof. reflexivity. Qed.

Lemma step_emit {B} (e : event) (k : unit -> M B) a rb rl ss tr :
  bind (emit e) k (mkState a rb rl ss tr) = k tt (mkState a rb rl ss (tr ++ [e])).
Proof. reflexivity. Qed.

Lemma step_log {B} (msg : string) (k : unit -> M B) a rb rl ss tr :
  bind (log msg) k (mkState a rb rl ss tr)
  = k tt (mkState a rb rl ss (tr ++ [Log msg])).
Proof. reflexivity. Qed.

Lemma step_ok {A B} (m : M A) (k : A -> M B) st v st' :
  m st = Ok (v, st') -> bind m k st = k v st'.
Proof. intros H. unfold bind. by rewrite H. Qed.

Lemma bind_assoc {A B C} (m : M A) (f : A -> M B) (g : B -> M C) st :
  bind (bind m f) g st = bind m (fun x => bind (f x) g) st.
Proof. unfold bind. destruct (m st) as [[v st']| | |]; done. Qed.

Lemma step_put_stackSize {B} (n : Z) (k : unit -> M B) a rb rl ss tr :
  bind (put_stackSize n) k (mkState a rb rl ss tr) = k tt (mkState a rb rl n tr).
Proof. reflexivity. Qed.

Lemma step_put_runBase {B} (l : list Z) (k : unit -> M B) a rb rl ss tr :
  bind (put_runBase l) k (mkState a rb rl ss tr) = k tt (mkState a l rl ss tr).
Proof. reflexivity. Qed.

Lemma step_put_runLen {B} (l : list Z) (k : unit -> M B) a rb rl ss tr :
  bind (put_runLen l) k (mkState a rb rl ss tr) = k tt (mkState a rb l ss tr).
Proof. reflexivity. Qed.

Lemma step_get_a {B} (k : list T -> M B) a rb rl ss tr :
  bind get_a k (mkState a rb rl ss tr) = k a (mkState a rb rl ss tr).
Proof. reflexivity. Qed.

Lemma step_get_stackSize {B} (k : Z -> M B) a rb rl ss tr :
  bind get_stackSize k (mkState a rb rl ss tr) = k ss (mkState a rb rl ss tr).
Proof. reflexivity. Qed.

Lemma step_a_arraycopy {B} (spos dpos len : Z) (a' : list T) (k : unit -> M B)
    a rb rl ss tr :
  arraycopy a spos a dpos len = Ok a' ->
  bind (a_arraycopy spos dpos len) k (mkState a rb rl ss tr)
  = k tt (mkState a' rb rl ss tr).
Proof.
  intros H. unfold bind, a_arraycopy, bind, get_a, lift, put_a. cbn. by rewrite H.
Qed.

Lemma step_a_arraycopy_from {B} (src : list T) (spos dpos len : Z) (a' : list T)
    (k : unit -> M B) a rb rl ss tr :
  arraycopy src spos a dpos len = Ok a' ->
  bind (a_arraycopy_from src spos dpos len) k (mkState a rb rl ss tr)
  = k tt (mkState a' rb rl ss tr).
Proof.
  intros H. unfold bind, a_arraycopy_from, bind, get_a, lift, put_a. cbn.
  by rewrite H.
Qed.

Lemma run_a_set (i : Z) (v : T) (a' : list T) a rb rl ss tr :
  JS.set a i v = Some a' ->
  a_set i v (mkState a rb rl ss tr) = Ok (tt, mkState a' rb rl ss tr).
Proof. intros H. unfold a_set, bind, get_a, lift, put_a. cbn. by rewrite H. Qed.

Lemma run_a_arraycopy (spos dpos len : Z) (a' : list T) a rb rl ss tr :
  arraycopy a spos a dpos len = Ok a' ->
  a_arraycopy spos dpos len (mkState a rb rl ss tr)
  = Ok (tt, mkState a' rb rl ss tr).
Proof.
  intros H. unfold a_arraycopy, bind, get_a, lift, put_a. cbn. by rewrite H.
Qed.

Lemma run_a_arraycopy_from (src : list T) (spos dpos len : Z) (a' : list T)
    a rb rl ss tr :
  arraycopy src spos a dpos len = Ok a' ->
  a_arraycopy_from src spos dpos len (mkState a rb rl ss tr)
  = Ok (tt, mkState a' rb rl ss tr).
Proof.
  intros H. unfold a_arraycopy_from, bind, get_a, lift, put_a. cbn.
  by rewrite H.
Qed.

Lemma step_ret {A B} (v : A) (k : A -> M B) st : bind (ret v) k st = k v st.
Proof. reflexivity. Qed.

(** The comparisons a run-extending loop makes from [x] along [l]. *)
Fixpoint chain_compares (x : T) (l : list T) : list event :=
  match l with
  | [] => []
  | y :: l' => Compare y x :: chain_compares y l'
  end.

(** [l] continues a run that ends in [x], step by step under [test]. *)
Fixpoint chain (test : Z -> bool) (x : T) (l : list T) : Prop :=
  match l with
  | [] => True
  | y :: l' => test (compareFn y x) = true /\ chain test y l'
  end.

Lemma run_loop_spec (test : Z -> bool) (rest : list T) :
  forall (pre : list T) (x : T) (fuel m : nat) rb rl ss tr,
    (m <= length rest)%nat -> (m < fuel)%nat ->
    exists k : nat,
      (k <= m)%nat /\
      chain test x (take k rest) /\
      (k = m \/ exists y, rest !! k = Some y /\
                 test (compareFn y (List.last (take k rest) x)) = false) /\
      run_loop compareFn fuel test
        (Z.of_nat (length pre) + 1) (Z.of_nat (length pre) + 1 + Z.of_nat m)
        (mkState (pre ++ x :: rest) rb rl ss tr)
      = Ok (Z.of_nat (length pre) + 1 + Z.of_nat k,
            mkState (pre ++ x :: rest) rb rl ss
                    (tr ++ chain_compares x (take (Nat.min (S k) m) rest))).
Proof.
  induction rest as [|y rest IH]; intros pre x fuel m rb rl ss tr Hm Hfuel.
  - assert (m = 0%nat) as -> by (simpl in Hm; lia).
    exists 0%nat. destruct fuel as [|fuel]; [lia|].
    repeat split; auto. simpl.
    rewrite Z.add_0_r, Z.ltb_irrefl. unfold ret. by rewrite app_nil_r.
  - destruct fuel as [|fuel]; [lia|].
    destruct m as [|m].
    + exists 0%nat. repeat split; auto; try lia. simpl.
      rewrite Z.add_0_r, Z.ltb_irrefl. unfold ret. by rewrite app_nil_r.
    + simpl in Hm. simpl run_loop.
      destruct (Z.ltb_spec (Z.of_nat (length pre) + 1)
                  (Z.of_nat (length pre) + 1 + Z.of_nat (S m))); [|lia].
      rewrite (step_a_get _ y).
      2:{ rewrite (js_get_at _ _ (S (length pre))) by lia.
          replace (pre ++ x :: y :: rest) with ((pre ++ [x]) ++ y :: rest)
            by (by rewrite <- app_assoc).
          apply lookup_middle. rewrite length_app. simpl. lia. }
      rewrite (step_a_get _ x).
      2:{ rewrite (js_get_at _ _ (length pre)) by lia. by apply lookup_middle. }
      rewrite step_compare.
      destruct (test (compareFn y x)) eqn:Ht.
      * destruct (IH (pre ++ [x]) y fuel m rb rl ss (tr ++ [Compare y x]))
          as (k & Hk & Hchain & Hstop & Hrun); [lia|lia|].
        exists (S k). split; [lia|]. split; [simpl; auto|]. split.
        { destruct Hstop as [->|(z & Hz & Hzt)]; [by left|right].
          exists z. split; [done|].
          simpl take. by rewrite last_cons_shift. }
        rewrite length_app in Hrun. simpl length in Hrun.
        rewrite <- app_assoc in Hrun. cbn [app] in Hrun.
        replace (Z.of_nat (length pre) + 1 + 1)
          with (Z.of_nat (length pre + 1) + 1) by lia.
        replace (Z.of_nat (length pre) + 1 + Z.of_nat (S m))
          with (Z.of_nat (length pre + 1) + 1 + Z.of_nat m) by lia.
        rewrite Hrun. f_equal. f_equal; [lia|].
        f_equal. rewrite <- app_assoc. simpl. done.
      * exists 0%nat. split; [lia|]. split; [simpl; auto|]. split.
        { right. exists y. simpl. auto. }
        rewrite Z.add_0_r. simpl. done.
Qed.

(** *** reverseRange *)

Lemma reverseRange_loop_spec (n : nat) :
  forall (run pre post : list T) (fuel : nat) rb rl ss tr,
    length run = n -> (n < fuel)%nat ->
    reverseRange_loop fuel (Z.of_nat (length pre))
      (Z.of_nat (length pre) + Z.of_nat (length run) - 1)
      (mkState (pre ++ run ++ post) rb rl ss tr)
    = Ok (tt, mkState (pre ++ rev run ++ post) rb rl ss tr).
Proof.
  induction n as [n IH] using lt_wf_ind.
  intros run pre post fuel rb rl ss tr Hn Hfuel.
  destruct fuel as [|fuel]; [lia|]. simpl reverseRange_loop.
  destruct run as [|x run].
  { simpl. ztest; [lia|done]. }
  destruct run as [|y mid _] using rev_ind.
  { simpl. ztest; [lia|done]. }
  cbn [length] in *. rewrite length_app in *. cbn [length] in *.
  ztest; [|lia].
  assert (Hhi : Z.of_nat (length pre) + Z.of_nat (S (length mid + 1)) - 1
                = Z.of_nat (length (pre ++ x :: mid))).
  { rewrite length_app. cbn [length]. lia. }
  rewrite (step_a_get _ x).
  2:{ rewrite (js_get_at _ _ (length pre)) by lia. by apply lookup_middle. }
  rewrite (step_a_get _ y).
  2:{ rewrite (js_get_at _ _ (length (pre ++ x :: mid))) by lia.
      replace (pre ++ (x :: mid ++ [y]) ++ post)
        with ((pre ++ x :: mid) ++ y :: post)
        by (rewrite <- !app_assoc; simpl; by rewrite <- app_assoc).
      by apply lookup_middle. }
  rewrite (step_a_set _ _ (pre ++ (y :: mid ++ [y]) ++ post)).
  2:{ rewrite (js_set_at _ _ (length pre)) by (rewrite ?length_app; simpl; lia).
      f_equal. by apply insert_middle. }
  rewrite (step_a_set _ _ ((pre ++ [y]) ++ mid ++ (x :: post))).
  2:{ rewrite (js_set_at _ _ (length (pre ++ y :: mid)))
        by (rewrite ?length_app; simpl; rewrite ?length_app; simpl; lia).
      f_equal.
      replace (pre ++ (y :: mid ++ [y]) ++ post)
        with ((pre ++ y :: mid) ++ y :: post)
        by (rewrite <- !app_assoc; simpl; by rewrite <- app_assoc).
      rewrite insert_middle by done.
      rewrite <- !app_assoc. done. }
  replace (Z.of_nat (length pre) + 1) with (Z.of_nat (length (pre ++ [y])))
    by (rewrite length_app; simpl; lia).
  replace (Z.of_nat (length pre) + Z.of_nat (S (length mid + 1)) - 1 - 1)
    with (Z.of_nat (length (pre ++ [y])) + Z.of_nat (length mid) - 1)
    by (rewrite length_app; simpl; lia).
  rewrite (IH (length mid)) by lia.
  f_equal. f_equal. f_equal.
  simpl. rewrite rev_app_distr. simpl.
  by rewrite <- !app_assoc.
Qed.

(** *** The comparator as an order *)

(** A consistent total order: the sign of [compare(x, y)] is the
    opposite of the sign of [compare(y, x)], and "not after" is
    transitive.  Elements that compare equal need not be the same. *)
Record TotalOrder : Prop := {
  cmp_antisym : forall x y, compareFn x y < 0 <-> 0 < compareFn y x;
  cmp_trans : forall x y z,
    compareFn x y <= 0 -> compareFn y z <= 0 -> compareFn x z <= 0
}.

Definition le (x y : T) : Prop := compareFn x y <= 0.

(** Non-decreasing under the comparator. *)
Definition ascending (l : list T) : Prop := StronglySorted le l.

Definition eqvb (x y : T) : bool := compareFn x y =? 0.

(** [l'] keeps the elements of every class of equals in the order they
    have in [l]. *)
Definition stable (l l' : list T) : Prop :=
  forall x, List.filter (eqvb x) l' = List.filter (eqvb x) l.

Section Order.
Hypothesis order : TotalOrder.

Lemma cmp_flip x y : compareFn x y <= 0 <-> 0 <= compareFn y x.
Proof.
  pose proof (cmp_antisym order x y). pose proof (cmp_antisym order y x). lia.
Qed.

Lemma cmp_refl x : compareFn x x = 0.
Proof. pose proof (cmp_antisym order x x). lia. Qed.

Lemma cmp_lt_le_trans x y z :
  compareFn x y < 0 -> compareFn y z <= 0 -> compareFn x z < 0.
Proof.
  intros Hxy Hyz.
  destruct (Z.lt_ge_cases (compareFn x z) 0) as [|Hge]; [done|].
  assert (compareFn z x <= 0) by (apply cmp_flip; lia).
  pose proof (cmp_trans order y z x Hyz ltac:(done)).
  pose proof (cmp_antisym order x y). lia.
Qed.

Lemma cmp_le_lt_trans x y z :
  compareFn x y <= 0 -> compareFn y z < 0 -> compareFn x z < 0.
Proof.
  intros Hxy Hyz.
  destruct (Z.lt_ge_cases (compareFn x z) 0) as [|Hge]; [done|].
  assert (compareFn z x <= 0) by (apply cmp_flip; lia).
  pose proof (cmp_trans order z x y ltac:(done) Hxy).
  pose proof (cmp_antisym order y z). lia.
Qed.

Lemma cmp_lt_trans x y z :
  compareFn x y < 0 -> compareFn y z < 0 -> compareFn x z < 0.
Proof. intros. apply (cmp_lt_le_trans x y z); lia. Qed.

Lemma ascending_middle (l1 l2 : list T) (x : T) :
  ascending (l1 ++ x :: l2) ->
  Forall (fun y => le y x) l1 /\ Forall (le x) l2.
Proof.
  induction l1 as [|y l1 IH]; simpl; intros Hs.
  - inversion Hs; subst. auto.
  - inversion Hs as [|? ? Hs' Hall]; subst.
    destruct (IH Hs') as [H1 H2]. split; [|done].
    constructor; [|done].
    rewrite Forall_app in Hall. destruct Hall as [_ Hall].
    by inversion Hall.
Qed.
End Order.

(** The events of run detection and binary insertion. *)
Definition is_compare (e : event) : Prop :=
  match e with Compare _ _ => True | _ => False end.

Definition insertion_event (e : event) : Prop :=
  match e with
  | Compare _ _ => True
  | Log msg => msg = "done"%string
  | _ => False
  end.

Lemma is_compare_insertion (evs : list event) :
  Forall is_compare evs -> Forall insertion_event evs.
Proof. intros H. eapply Forall_impl; [exact H|]. by intros []. Qed.

Lemma chain_compares_are_compares (l : list T) :
  forall x, Forall is_compare (chain_compares x l).
Proof. induction l as [|y l IH]; intros x; constructor; auto. done. Qed.

Lemma half_bounds (x : Z) : 2 * (x / 2) <= x < 2 * (x / 2) + 2.
Proof.
  pose proof (Z.div_mod x 2 ltac:(lia)).
  pose proof (Z.mod_pos_bound x 2 ltac:(lia)). lia.
Qed.

Lemma ushr1_half (x : Z) : 0 <= x < 2 ^ 32 -> JS.ushr1 x = x / 2.
Proof.
  intros Hx. unfold JS.ushr1, JS.to_uint32.
  rewrite Z.mod_small by done. by rewrite Z.shiftr_div_pow2.
Qed.

(** *** binarySort *)

Lemma binarySort_search_spec (pivot : T) (pre sorted post : list T) :
  2 * Z.of_nat (length pre + length sorted) < 2 ^ 32 ->
  forall (fuel l r : nat) rb rl ss tr,
    (l <= r <= length sorted)%nat -> (r - l < fuel)%nat ->
    exists (k : nat) (evs : list event),
      (l <= k <= r)%nat /\
      binarySort_search compareFn fuel pivot
        (Z.of_nat (length pre + l)) (Z.of_nat (length pre + r))
        (mkState (pre ++ sorted ++ post) rb rl ss tr)
      = Ok (Z.of_nat (length pre + k),
            mkState (pre ++ sorted ++ post) rb rl ss (tr ++ evs)) /\
      Forall is_compare evs /\
      (TotalOrder -> ascending sorted ->
       Forall (fun x => 0 <= compareFn pivot x) (take l sorted) ->
       Forall (fun x => compareFn pivot x < 0) (drop r sorted) ->
       Forall (fun x => 0 <= compareFn pivot x) (take k sorted) /\
       Forall (fun x => compareFn pivot x < 0) (drop k sorted)).
Proof.
  intros Hsize. induction fuel as [|fuel IH]; intros l r rb rl ss tr Hlr Hfuel; [lia|].
  cbn [binarySort_search]. ztest.
  2:{ assert (l = r) as -> by lia. exists r, []. rewrite app_nil_r.
      repeat split; auto; tauto. }
  set (m := Z.to_nat (Z.of_nat (l + r) / 2)).
  pose proof (half_bounds (Z.of_nat (l + r))) as Hhalf.
  assert (Hm : (l <= m < r)%nat) by lia.
  assert (Hmid : JS.ushr1 (Z.of_nat (length pre + l) + Z.of_nat (length pre + r))
                 = Z.of_nat (length pre + m)).
  { rewrite ushr1_half by lia.
    replace (Z.of_nat (length pre + l) + Z.of_nat (length pre + r))
      with (Z.of_nat (l + r) + Z.of_nat (length pre) * 2) by lia.
    rewrite Z.div_add by lia. lia. }
  rewrite Hmid.
  destruct (lookup_lt_is_Some_2 sorted m) as [x Hx]; [lia|].
  rewrite (step_a_get _ x).
  2:{ rewrite (js_get_at _ _ (length pre + m)) by done.
      rewrite lookup_app_r by lia.
      replace (length pre + m - length pre)%nat with m by lia.
      by rewrite lookup_app_l by lia. }
  rewrite step_compare.
  assert (Hsplit : TotalOrder -> ascending sorted ->
            Forall (fun y => le y x) (take (S m) sorted)
            /\ Forall (le x) (drop m sorted)).
  { intros Hord Hasc. rewrite <- (take_drop_middle sorted m x Hx) in Hasc.
    destruct (ascending_middle _ _ _ Hasc) as [H1 H2].
    rewrite (take_S_r _ _ _ Hx), (drop_S _ _ _ Hx). split.
    - apply Forall_app. split; [done|]. constructor; [|done].
      unfold le. rewrite (cmp_refl Hord). lia.
    - constructor; [|done]. unfold le. rewrite (cmp_refl Hord). lia. }
  ztest.
  - destruct (IH l m rb rl ss (tr ++ [Compare pivot x])) as (k & evs & Hk & Hrun & Hq & Hfun);
      [lia|lia|].
    exists k, (Compare pivot x :: evs). split; [lia|]. split.
    { rewrite Hrun. by rewrite <- app_assoc. }
    split; [by constructor|].
    intros Hord Hasc Hl Hr. apply Hfun; auto.
    destruct (Hsplit Hord Hasc) as [_ H2].
    eapply Forall_impl; [exact H2|]. intros y Hy.
    apply (cmp_lt_le_trans Hord pivot x y); done.
  - replace (Z.of_nat (length pre + m) + 1) with (Z.of_nat (length pre + S m)) by lia.
    destruct (IH (S m) r rb rl ss (tr ++ [Compare pivot x])) as (k & evs & Hk & Hrun & Hq & Hfun);
      [lia|lia|].
    exists k, (Compare pivot x :: evs). split; [lia|]. split.
    { rewrite Hrun. by rewrite <- app_assoc. }
    split; [by constructor|].
    intros Hord Hasc Hl Hr. apply Hfun; auto.
    destruct (Hsplit Hord Hasc) as [H1 _].
    eapply Forall_impl; [exact H1|]. intros y Hy. simpl in Hy.
    apply (cmp_flip Hord).
    apply (cmp_trans Hord y x pivot); [done|].
    apply (cmp_flip Hord). lia.
Qed.

(** Sliding [block] one slot up and dropping [p] in front of it. *)
Lemma insert_step {B} (pre block post : list T) (p : T) (left n : Z)
    (k : unit -> M B) rb rl ss tr :
  left = Z.of_nat (length pre) -> n = Z.of_nat (length block) ->
  bind (binarySort_slide left n) (fun _ => bind (a_set left p) k)
       (mkState (pre ++ block ++ p :: post) rb rl ss tr)
  = k tt (mkState (pre ++ p :: block ++ post) rb rl ss tr).
Proof.
  intros -> ->. unfold binarySort_slide.
  destruct block as [|b0 [|b1 [|b2 block]]]; cbn [length].
  - (* nothing to move: the default case copies zero elements *)
    do 2 (ztest; [lia|]).
    rewrite !bind_assoc.
    unfold bind at 1, get_a. cbn [global_a app].
    pose proof (arraycopy_spec pre [] (p :: post) (pre ++ [p]) [] post
                  (Z.of_nat (length pre)) (Z.of_nat (length pre) + 1) (Z.of_nat 0)
                  eq_refl ltac:(list_len) eq_refl eq_refl) as Hc.
    rewrite <- app_assoc in Hc. cbn [app] in Hc.
    unfold bind at 1. rewrite Hc.
    unfold lift, bind at 1, put_a. cbn [global_a runBase runLen stackSize trace].
    rewrite (step_a_set _ _ (pre ++ p :: post)); [done|].
    by rewrite (js_set_app pre (p :: post) _ 0) by (cbn [length]; lia).
  - ztest; [lia|]. ztest; [|lia]. cbn [app]. rewrite bind_assoc.
    rewrite (step_a_get _ b0) by (by rewrite (js_get_app pre _ _ 0%nat) by lia).
    rewrite (step_a_set _ _ (pre ++ b0 :: b0 :: post))
      by (by rewrite (js_set_app pre _ _ 1%nat) by (cbn [length]; lia)).
    rewrite (step_a_set _ _ (pre ++ p :: b0 :: post))
      by (by rewrite (js_set_app pre _ _ 0%nat) by (cbn [length]; lia)).
    done.
  - ztest; [|lia]. cbn [app]. rewrite bind_assoc.
    rewrite (step_a_get _ b1) by (by rewrite (js_get_app pre _ _ 1%nat) by lia).
    rewrite bind_assoc.
    rewrite (step_a_set _ _ (pre ++ b0 :: b1 :: b1 :: post))
      by (by rewrite (js_set_app pre _ _ 2%nat) by (cbn [length]; lia)).
    rewrite bind_assoc.
    rewrite (step_a_get _ b0) by (by rewrite (js_get_app pre _ _ 0%nat) by lia).
    rewrite (step_a_set _ _ (pre ++ b0 :: b0 :: b1 :: post))
      by (by rewrite (js_set_app pre _ _ 1%nat) by (cbn [length]; lia)).
    rewrite (step_a_set _ _ (pre ++ p :: b0 :: b1 :: post))
      by (by rewrite (js_set_app pre _ _ 0%nat) by (cbn [length]; lia)).
    done.
  - do 2 (ztest; [lia|]).
    rewrite !bind_assoc.
    unfold bind at 1, get_a. cbn [global_a].
    set (blk := b0 :: b1 :: b2 :: block).
    pose proof (arraycopy_spec pre blk (p :: post)
                  (pre ++ [b0]) ((b1 :: b2 :: block) ++ [p]) post
                  (Z.of_nat (length pre)) (Z.of_nat (length pre) + 1)
                  (Z.of_nat (S (S (S (length block)))))
                  eq_refl ltac:(list_len) eq_refl ltac:(subst blk; list_len)) as Hc.
    replace ((pre ++ [b0]) ++ ((b1 :: b2 :: block) ++ [p]) ++ post)
      with (pre ++ blk ++ p :: post) in Hc
      by (subst blk; rewrite <- !app_assoc; done).
    unfold bind at 1. rewrite Hc.
    unfold lift, bind at 1, put_a. cbn [global_a runBase runLen stackSize trace].
    rewrite (step_a_set _ _ (pre ++ p :: blk ++ post)); [done|].
    rewrite <- app_assoc. subst blk. cbn [app].
    by rewrite (js_set_app pre _ _ 0%nat) by (cbn [length]; lia).
Qed.

Section Insertion.
Hypothesis order : TotalOrder.
Variables (S : list T) (p : T) (k : nat).
Hypothesis before : Forall (fun y => 0 <= compareFn p y) (take k S).
Hypothesis after : Forall (fun y => compareFn p y < 0) (drop k S).

Lemma insert_ascending :
  ascending S -> ascending (take k S ++ p :: drop k S).
Proof.
  intros Hs. apply StronglySorted_insert.
  - by rewrite take_drop.
  - eapply Forall_impl; [exact before|]. intros y Hy.
    by apply (cmp_flip order).
  - eapply Forall_impl; [exact after|]. intros y Hy. unfold le. simpl in Hy. lia.
Qed.

Lemma insert_stable (x : T) :
  List.filter (eqvb x) (take k S ++ p :: drop k S)
  = List.filter (eqvb x) (S ++ [p]).
Proof.
  rewrite <- (take_drop k S) at 3.
  rewrite !List.filter_app. cbn [List.filter].
  destruct (eqvb x p) eqn:Hxp; [|by rewrite app_nil_r].
  rewrite (filter_none (eqvb x) (drop k S)); [by rewrite app_nil_r|].
  eapply Forall_impl; [exact after|]. intros y Hy. simpl in Hy.
  unfold eqvb in *. apply Z.eqb_eq in Hxp. apply Z.eqb_neq.
  pose proof (cmp_le_lt_trans order x p y ltac:(lia) Hy). lia.
Qed.
End Insertion.

Lemma binarySort_loop_spec (pre post : list T) (rest : list T) :
  forall (sorted : list T) (fuel n : nat) rb rl ss tr,
    2 * Z.of_nat (length pre + length sorted + length rest) < 2 ^ 32 ->
    (length sorted + length rest < fuel)%nat -> (length rest < n)%nat ->
    exists (S' : list T) (evs : list event),
      binarySort_loop compareFn fuel n (Z.of_nat (length pre))
        (Z.of_nat (length pre + length sorted + length rest))
        (Z.of_nat (length pre + length sorted))
        (mkState (pre ++ sorted ++ rest ++ post) rb rl ss tr)
      = Ok (tt, mkState (pre ++ S' ++ post) rb rl ss (tr ++ evs)) /\
      Forall insertion_event evs /\
      S' ≡ₚ sorted ++ rest /\
      (rest = [] -> S' = sorted /\ evs = []) /\
      (TotalOrder -> ascending sorted ->
       ascending S' /\ stable (sorted ++ rest) S').
Proof.
  induction rest as [|p rest IH]; intros sorted fuel n rb rl ss tr Hsize Hfuel Hn.
  - destruct n as [|n]; [cbn [length] in Hn; lia|]. cbn [binarySort_loop length].
    ztest; [lia|]. exists sorted, []. rewrite !app_nil_r.
    repeat split; auto.
  - destruct n as [|n]; [lia|]. cbn [binarySort_loop length] in *.
    ztest; [|lia].
    rewrite (step_a_get _ p).
    2:{ rewrite app_assoc. rewrite (js_get_app (pre ++ sorted) _ _ 0%nat) by list_len.
        done. }
    destruct (binarySort_search_spec p pre sorted (p :: rest ++ post) ltac:(lia)
                fuel 0%nat (length sorted) rb rl ss tr ltac:(lia) ltac:(lia))
      as (k & evs & Hk & Hrun & Hq & Hfun).
    rewrite Nat.add_0_r in Hrun.
    rewrite (step_ok _ _ _ _ _ Hrun).
    replace (pre ++ sorted ++ p :: rest ++ post)
      with ((pre ++ take k sorted) ++ drop k sorted ++ p :: (rest ++ post)).
    2:{ rewrite <- app_assoc. f_equal. rewrite app_assoc. by rewrite take_drop. }
    rewrite insert_step.
    2:{ rewrite length_app, length_take. lia. }
    2:{ rewrite length_drop. lia. }
    rewrite step_log.
    set (S1 := take k sorted ++ p :: drop k sorted).
    assert (HS1 : length S1 = S (length sorted)).
    { subst S1. rewrite length_app. cbn [length].
      rewrite length_take, length_drop. lia. }
    replace ((pre ++ take k sorted) ++ p :: drop k sorted ++ rest ++ post)
      with (pre ++ S1 ++ rest ++ post)
      by (subst S1; rewrite <- !app_assoc; done).
    destruct (IH S1 fuel n rb rl ss ((tr ++ evs) ++ [Log "done"]))
      as (S' & evs' & Hrun' & Hq' & Hperm & _ & Hfun'); [lia|lia|lia|].
    replace (Z.of_nat (length pre + length sorted) + 1)
      with (Z.of_nat (length pre + length S1)) by lia.
    replace (Z.of_nat (length pre + length sorted + S (length rest)))
      with (Z.of_nat (length pre + length S1 + length rest)) by lia.
    exists S', (evs ++ Log "done" :: evs'). split.
    { rewrite Hrun'. do 3 f_equal. rewrite <- !app_assoc. done. }
    split.
    { apply Forall_app. split; [by apply is_compare_insertion|].
      by constructor. }
    split.
    { rewrite Hperm. subst S1.
      rewrite <- (take_drop k sorted) at 3. rewrite <- !app_assoc.
      apply Permutation_app_head. cbn [app].
      rewrite <- Permutation_middle. done. }
    split; [done|].
    intros Hord Hasc.
    destruct (Hfun Hord Hasc) as [Hbefore Hafter].
    { rewrite take_0. constructor. }
    { rewrite drop_ge by lia. constructor. }
    destruct (Hfun' Hord) as [Hasc' Hst'].
    { subst S1. by apply insert_ascending. }
    split; [done|].
    intros x. rewrite Hst'. subst S1.
    rewrite (List.filter_app _ _ rest).
    rewrite (insert_stable Hord sorted p k Hafter x).
    replace (sorted ++ p :: rest) with ((sorted ++ [p]) ++ rest)
      by (by rewrite <- app_assoc).
    by rewrite (List.filter_app _ _ rest).
Qed.

(** *** countRunAndMakeAscending *)

Lemma chain_lookup (test : Z -> bool) (l : list T) :
  forall (x z : T) (i : nat),
    chain test x l -> l !! i = Some z ->
    test (compareFn z (List.last (take i l) x)) = true.
Proof.
  induction l as [|y l IH]; intros x z i Hc Hz; [done|].
  destruct Hc as [Hy Hc]. destruct i as [|i].
  - simpl in Hz. injection Hz as ->. done.
  - simpl in Hz. cbn [take]. rewrite last_cons_shift. by apply IH.
Qed.

Lemma chain_take (test : Z -> bool) (l : list T) :
  forall (x : T) (i : nat), chain test x l -> chain test x (take i l).
Proof.
  induction l as [|y l IH]; intros x i Hc; [by destruct i|].
  destruct i as [|i]; [done|]. destruct Hc as [Hy Hc]. split; [done|]. by apply IH.
Qed.

Definition count_run_msg : string := "entering count run and make ascending".

Lemma countRun_spec (pre : list T) (x : T) (rest : list T) (fuel m : nat)
    rb rl ss tr :
  (m <= length rest)%nat -> (m + 1 < fuel)%nat ->
  exists (k : nat) (run' : list T) (evs : list event),
    (k <= m)%nat /\
    countRunAndMakeAscending compareFn fuel
      (Z.of_nat (length pre)) (Z.of_nat (length pre) + 1 + Z.of_nat m)
      (mkState (pre ++ x :: rest) rb rl ss tr)
    = Ok (1 + Z.of_nat k,
          mkState (pre ++ run' ++ drop k rest) rb rl ss
                  (tr ++ Log count_run_msg :: evs)) /\
    (run' = x :: take k rest /\ chain (fun c => 0 <=? c) x (take k rest)
       /\ Forall is_compare evs
     \/ run' = rev (x :: take k rest) /\ chain (fun c => c <? 0) x (take k rest)
       /\ exists cs, evs = cs ++ [Reversed (Z.of_nat (length pre))
                                          (Z.of_nat (length pre) + 1 + Z.of_nat k)]
                    /\ Forall is_compare cs) /\
    (chain (fun c => 0 <=? c) x (take m rest) ->
     k = m /\ run' = x :: take m rest /\ evs = chain_compares x (take m rest)).
Proof.
  intros Hm Hfuel. unfold countRunAndMakeAscending.
  rewrite step_log. fold count_run_msg.
  destruct m as [|m].
  { ztest; [|lia]. exists 0%nat, [x], []. rewrite drop_0, take_0.
    repeat split; auto. left. repeat split; auto. }
  ztest; [lia|].
  destruct rest as [|y rest]; [cbn [length] in Hm; lia|]. cbn [length] in Hm.
  rewrite (step_a_get _ y)
    by (by rewrite (js_get_app pre _ _ 1%nat) by lia).
  rewrite (step_a_get _ x)
    by (by rewrite (js_get_app pre _ _ 0%nat) by lia).
  rewrite step_compare.
  assert (Hidx : Z.of_nat (length pre) + 1 + 1 = Z.of_nat (length (pre ++ [x])) + 1)
    by list_len.
  assert (Hhi : Z.of_nat (length pre) + 1 + Z.of_nat (S m)
                = Z.of_nat (length (pre ++ [x])) + 1 + Z.of_nat m) by list_len.
  rewrite Hidx, Hhi.
  replace (pre ++ x :: y :: rest) with ((pre ++ [x]) ++ y :: rest)
    by (by rewrite <- app_assoc).
  cbn [chain take]. ztest.
  - (* a strictly descending run, reversed in place *)
    destruct (run_loop_spec (fun c => c <? 0) rest (pre ++ [x]) y fuel m rb rl ss
                ((tr ++ [Log count_run_msg]) ++ [Compare y x]) ltac:(lia) ltac:(lia))
      as (k & Hk & Hchain & Hstop & Hrun).
    rewrite (step_ok _ _ _ _ _ Hrun).
    unfold reverseRange. rewrite bind_assoc, step_emit.
    set (run := x :: y :: take k rest).
    replace ((pre ++ [x]) ++ y :: rest) with (pre ++ run ++ drop k rest).
    2:{ subst run. rewrite <- !app_assoc. cbn [app]. by rewrite take_drop. }
    assert (Hlen : length run = S (S k)).
    { subst run. cbn [length]. rewrite length_take. lia. }
    replace (Z.of_nat (length (pre ++ [x])) + 1 + Z.of_nat k - 1)
      with (Z.of_nat (length pre) + Z.of_nat (length run) - 1) by list_len.
    rewrite (step_ok _ _ _ _ _
               (reverseRange_loop_spec (length run) run pre (drop k rest) fuel
                  rb rl ss _ eq_refl ltac:(lia))).
    exists (S k), (rev run), (Compare y x ::
              chain_compares y (take (Nat.min (S k) m) rest)
              ++ [Reversed (Z.of_nat (length pre))
                           (Z.of_nat (length (pre ++ [x])) + 1 + Z.of_nat k)]).
    split; [lia|]. split.
    { unfold ret. f_equal. f_equal; [list_len|]. f_equal.
      rewrite <- !app_assoc. done. }
    split.
    { right. split; [done|]. split; [split; [by apply Z.ltb_lt|done]|].
      exists (Compare y x :: chain_compares y (take (Nat.min (S k) m) rest)).
      split; [|constructor; [done|apply chain_compares_are_compares]].
      cbn [app]. do 4 f_equal. list_len. }
    intros [Hc _]. apply Z.leb_le in Hc. lia.
  - destruct (run_loop_spec (fun c => 0 <=? c) rest (pre ++ [x]) y fuel m rb rl ss
                ((tr ++ [Log count_run_msg]) ++ [Compare y x]) ltac:(lia) ltac:(lia))
      as (k & Hk & Hchain & Hstop & Hrun).
    rewrite (step_ok _ _ _ _ _ Hrun).
    exists (S k), (x :: y :: take k rest),
      (Compare y x :: chain_compares y (take (Nat.min (S k) m) rest)).
    split; [lia|]. split.
    { unfold ret. f_equal. f_equal; [list_len|]. f_equal.
      - rewrite <- !app_assoc. cbn [app drop]. by rewrite take_drop.
      - rewrite <- !app_assoc. done. }
    split.
    { left. split; [done|]. split; [split; [by apply Z.leb_le|done]|].
      constructor; [done|apply chain_compares_are_compares]. }
    intros [Hyx Hall].
    assert (k = m) as ->.
    { destruct Hstop as [->|(z & Hz & Hzt)]; [done|].
      destruct (decide (k < m)%nat) as [Hlt|]; [|lia].
      assert (Hz' : take m rest !! k = Some z) by (by rewrite lookup_take_lt).
      pose proof (chain_lookup _ _ _ _ _ Hall Hz') as Ht.
      rewrite take_take in Ht. rewrite Nat.min_l in Ht by lia. congruence. }
    rewrite Nat.min_r by lia. done.
Qed.

(** What [countRunAndMakeAscending] leaves is ascending, and stable. *)
Section Runs.
Hypothesis order : TotalOrder.

Lemma chain_ascending (l : list T) :
  forall x, chain (fun c => 0 <=? c) x l -> ascending (x :: l).
Proof.
  induction l as [|y l IH]; intros x Hc.
  - repeat constructor.
  - destruct Hc as [Hxy Hc]. apply Z.leb_le in Hxy.
    specialize (IH y Hc). constructor; [done|].
    assert (Hle : le x y) by (by apply (cmp_flip order)).
    constructor; [done|].
    inversion IH as [|? ? _ Hall]; subst.
    eapply Forall_impl; [exact Hall|]. intros z Hz.
    by apply (cmp_trans order x y z).
Qed.

Lemma ascending_chain (l : list T) :
  forall x, ascending (x :: l) -> chain (fun c => 0 <=? c) x l.
Proof.
  induction l as [|y l IH]; intros x Hs; [done|].
  inversion Hs as [|? ? Hs' Hall]; subst. inversion Hall; subst.
  split; [|by apply IH]. apply Z.leb_le. by apply (cmp_flip order).
Qed.

Definition descending (l : list T) : Prop :=
  StronglySorted (fun u v => compareFn v u < 0) l.

Lemma chain_descending (l : list T) :
  forall x, chain (fun c => c <? 0) x l -> descending (x :: l).
Proof.
  induction l as [|y l IH]; intros x Hc.
  - repeat constructor.
  - destruct Hc as [Hxy Hc]. apply Z.ltb_lt in Hxy.
    specialize (IH y Hc). constructor; [done|].
    constructor; [done|].
    inversion IH as [|? ? _ Hall]; subst.
    eapply Forall_impl; [exact Hall|]. intros z Hz. simpl in Hz.
    by apply (cmp_lt_trans order z y x).
Qed.

Lemma descending_rev_ascending (l : list T) :
  descending l -> ascending (rev l).
Proof.
  apply StronglySorted_rev. intros u v Huv. unfold le. lia.
Qed.

(** A strictly descending run holds at most one element of each class
    of equals: reversing it moves no element past an equal one. *)
Lemma descending_class (l : list T) (x : T) :
  descending l -> (length (List.filter (eqvb x) l) <= 1)%nat.
Proof.
  induction 1 as [|y l Hs IH Hall]; [simpl; lia|].
  cbn [List.filter]. destruct (eqvb x y) eqn:Hxy; [|done].
  rewrite filter_none; [simpl; lia|].
  eapply Forall_impl; [exact Hall|]. intros z Hz. simpl in Hz.
  unfold eqvb in *. apply Z.eqb_eq in Hxy. apply Z.eqb_neq.
  intros Hxz.
  assert (compareFn y x <= 0) by (apply (cmp_flip order); lia).
  pose proof (cmp_trans order y x z ltac:(done) ltac:(lia)).
  pose proof (cmp_flip order y z). lia.
Qed.

Lemma descending_rev_stable (l : list T) :
  descending l -> stable l (rev l).
Proof.
  intros Hd x. rewrite List.filter_rev.
  apply rev_short. by apply descending_class.
Qed.

Lemma run_ascending (x : T) (l run' : list T) (P Q : Prop) :
  (run' = x :: l /\ chain (fun c => 0 <=? c) x l /\ P
   \/ run' = rev (x :: l) /\ chain (fun c => c <? 0) x l /\ Q) ->
  ascending run' /\ stable (x :: l) run'.
Proof.
  intros [(-> & Hc & _)|(-> & Hc & _)].
  - split; [by apply chain_ascending|done].
  - apply chain_descending in Hc. split.
    + by apply descending_rev_ascending.
    + by apply descending_rev_stable.
Qed.
End Runs.

Lemma run_permutation (x : T) (l run' : list T) (P Q : Prop) :
  (run' = x :: l /\ P \/ run' = rev (x :: l) /\ Q) -> run' ≡ₚ x :: l.
Proof.
  intros [[-> _]|[-> _]]; [done|]. symmetry. apply Permutation_rev.
Qed.

Definition binary_sort_msg : string := "entering binary sort".

Lemma binarySort_spec (run' rest2 : list T) (fuel : nat) (hi start : Z)
    rb rl ss tr :
  hi = Z.of_nat (length run' + length rest2) ->
  start = Z.of_nat (length run') -> (1 <= length run')%nat ->
  2 * Z.of_nat (length run' + length rest2) < 2 ^ 32 ->
  (length run' + length rest2 < fuel)%nat ->
  exists (out : list T) (evs : list event),
    binarySort compareFn fuel 0 hi start (mkState (run' ++ rest2) rb rl ss tr)
    = Ok (tt, mkState out rb rl ss (tr ++ Log binary_sort_msg :: evs)) /\
    Forall insertion_event evs /\
    out ≡ₚ run' ++ rest2 /\
    (rest2 = [] -> out = run' /\ evs = []) /\
    (TotalOrder -> ascending run' -> ascending out /\ stable (run' ++ rest2) out).
Proof.
  intros -> -> Hrun Hsize Hfuel. unfold binarySort.
  rewrite step_log. fold binary_sort_msg. ztest; [lia|].
  destruct (binarySort_loop_spec [] [] rest2 run' fuel fuel rb rl ss
              (tr ++ [Log binary_sort_msg]))
    as (out & evs & Hexec & Hq & Hperm & Hnil & Hfun);
    [cbn [length]; lia | lia | lia |].
  cbn [length app Nat.add] in Hexec. rewrite !app_nil_r in Hexec.
  change (Z.of_nat 0) with 0 in Hexec.
  exists out, evs. split; [|auto].
  rewrite Hexec. by rewrite <- app_assoc.
Qed.

(** *** sort *)

(** The comparisons of one pass over an array that is already in order. *)
Definition adjacent_compares (arr : list T) : list event :=
  match arr with
  | [] => []
  | x :: rest => chain_compares x rest
  end.

(** What run detection logs after its first line: comparisons, and
    after them one reversal if the run it found was strictly
    descending, each element before its predecessor. *)
Definition run_events (arr : list T) (evs : list event) : Prop :=
  Forall is_compare evs
  \/ exists (cs : list event) (x : T) (l : list T),
      evs = cs ++ [Reversed 0 (Z.of_nat (S (length l)))]
      /\ Forall is_compare cs
      /\ take (S (length l)) arr = x :: l
      /\ chain (fun c => c <? 0) x l.

(** What run detection followed by binary insertion does to [arr]:
    [evs] is what the two log, [out] what they leave. *)
Definition sort_result (arr out : list T) (evs : list event) : Prop :=
  exists evs1 evs2,
    evs = Log count_run_msg :: evs1 ++ Log binary_sort_msg :: evs2 /\
    run_events arr evs1 /\ Forall insertion_event evs2 /\
    out ≡ₚ arr /\
    (TotalOrder -> ascending out /\ stable arr out) /\
    (TotalOrder -> ascending arr ->
     evs1 = adjacent_compares arr /\ evs2 = [] /\ out = arr).

Lemma detect_insert_result (x : T) (rest run' out : list T) (k : nat)
    (evs1 evs2 : list event) :
  (k <= length rest)%nat ->
  Forall insertion_event evs2 ->
  (run' = x :: take k rest /\ chain (fun c => 0 <=? c) x (take k rest)
     /\ Forall is_compare evs1
   \/ run' = rev (x :: take k rest) /\ chain (fun c => c <? 0) x (take k rest)
     /\ exists cs, evs1 = cs ++ [Reversed (Z.of_nat 0)
                                          (Z.of_nat 0 + 1 + Z.of_nat k)]
                   /\ Forall is_compare cs) ->
  (chain (fun c => 0 <=? c) x (take (length rest) rest) ->
   k = length rest /\ run' = x :: take (length rest) rest
   /\ evs1 = chain_compares x (take (length rest) rest)) ->
  out ≡ₚ run' ++ drop k rest ->
  (drop k rest = [] -> out = run' /\ evs2 = []) ->
  (TotalOrder -> ascending run' ->
   ascending out /\ stable (run' ++ drop k rest) out) ->
  sort_result (x :: rest) out
    (Log count_run_msg :: evs1 ++ Log binary_sort_msg :: evs2).
Proof.
  intros Hk Hq2 Hrun Hsorted Hperm Hnil Hfun.
  exists evs1, evs2. split; [done|]. split; [|split; [done|split; [|split]]].
  - destruct Hrun as [(_ & _ & Hc)|(_ & Hc & cs & -> & Hcs)]; [by left|right].
    exists cs, x, (take k rest). rewrite length_take_le by done.
    repeat split; auto. do 3 f_equal. lia.
  - rewrite Hperm, (run_permutation _ _ _ _ _ Hrun).
    cbn [app]. by rewrite take_drop.
  - intros Hord. destruct (run_ascending Hord _ _ _ _ _ Hrun) as [Hasc Hst].
    destruct (Hfun Hord Hasc) as [Hasc' Hst']. split; [done|].
    intros z. rewrite Hst'. rewrite List.filter_app, Hst.
    rewrite <- List.filter_app. cbn [app]. by rewrite take_drop.
  - intros Hord Hasc.
    destruct (Hsorted ltac:(rewrite firstn_all; by apply ascending_chain))
      as (-> & -> & ->).
    rewrite firstn_all. destruct Hnil as [-> ->]; [by rewrite drop_all|].
    by rewrite firstn_all.
Qed.

Definition sort_msg : string := "entering sort".

Lemma pushRun_first (b l : Z) (a : list T) tr :
  pushRun b l (mkState a [] [] 0 tr)
  = Ok (tt, mkState a [b] [l] 1 (tr ++ [Pushed b l 1])).
Proof. reflexivity. Qed.

(** With one run on the stack neither collapse has anything to merge. *)
Lemma mergeCollapse_single (fuel : nat) (a : list T) rb rl tr :
  mergeCollapse (S fuel) (mkState a rb rl 1 tr) = Ok (tt, mkState a rb rl 1 tr).
Proof. reflexivity. Qed.

Lemma mergeForceCollapse_single (fuel : nat) (a : list T) rb rl tr :
  mergeForceCollapse (S fuel) (mkState a rb rl 1 tr)
  = Ok (tt, mkState a rb rl 1 tr).
Proof. reflexivity. Qed.

Lemma rangeCheck_full {B} (n : Z) (k : unit -> M B) st :
  0 <= n -> bind (rangeCheck n 0 n) k st = k tt st.
Proof.
  intros Hn. unfold rangeCheck. do 3 (ztest; [lia|]). done.
Qed.

(** The state a full [sort] of two or more elements ends in.  Below
    [MIN_MERGE] no run is pushed; from [MIN_MERGE] on one run is, which
    covers the array. *)
Definition sorted_state (n : Z) (out : list T) (evs : list event) : state :=
  if n <? MIN_MERGE
  then mkState out [] [] 0 (Log sort_msg :: evs)
  else mkState out [0] [n] 1 (Log sort_msg :: evs ++ [Pushed 0 n 1]).

Lemma sort_spec (arr : list T) (fuel : nat) :
  (length arr < fuel)%nat -> Z.of_nat (length arr) < 2 ^ 31 ->
  (2 <= length arr)%nat ->
  exists (out : list T) (evs : list event),
    sort compareFn fuel 0 (Z.of_nat (length arr)) (init_state arr)
    = Ok (tt, sorted_state (Z.of_nat (length arr)) out evs) /\
    sort_result arr out evs.
Proof.
  intros Hfuel Hsize Hlen.
  destruct arr as [|x rest]; [cbn [length] in Hlen; lia|].
  cbn [length] in *. set (n := Z.of_nat (S (length rest))).
  unfold sort, init_state. rewrite step_log. fold sort_msg.
  rewrite step_put_stackSize, step_put_runBase, step_put_runLen, step_get_a.
  cbn [length]. fold n. rewrite rangeCheck_full by lia.
  replace (n - 0) with n by lia.
  ztest; [lia|].
  destruct (countRun_spec [] x rest fuel (length rest) [] [] 0 [Log sort_msg]
              ltac:(lia) ltac:(lia))
    as (k & run' & evs1 & Hk & Hcount & Hrun & Hsorted).
  cbn [length app] in Hcount.
  replace (Z.of_nat 0 + 1 + Z.of_nat (length rest)) with n in Hcount by lia.
  change (Z.of_nat 0) with 0 in Hcount.
  assert (Hrunlen : length run' = S k).
  { destruct Hrun as [(-> & _)|(-> & _)]; list_len; rewrite length_take; lia. }
  destruct (binarySort_spec run' (drop k rest) fuel n (1 + Z.of_nat k)
              [] [] 0 ([Log sort_msg] ++ Log count_run_msg :: evs1))
    as (out & evs2 & Hins & Hq2 & Hperm & Hnil & Hfun);
    [ rewrite Hrunlen, length_drop; lia | lia | lia
    | rewrite Hrunlen, length_drop; lia | rewrite Hrunlen, length_drop; lia |].
  cbn [app] in Hins.
  exists out, (Log count_run_msg :: evs1 ++ Log binary_sort_msg :: evs2).
  split; [|by eapply detect_insert_result].
  unfold sorted_state. fold n. ztest.
  - (* below MIN_MERGE: run detection, then binary insertion *)
    rewrite (step_ok _ _ _ _ _ Hcount).
    replace (0 + (1 + Z.of_nat k)) with (1 + Z.of_nat k) by lia.
    rewrite Hins. done.
  - (* from MIN_MERGE on: one turn of the loop takes the whole array *)
    destruct fuel as [|fuel']; [lia|]. cbn [sort_loop].
    set (fuel := S fuel') in *.
    rewrite !bind_assoc.
    rewrite (step_ok _ _ _ _ _ Hcount).
    unfold minRunLength. rewrite !bind_assoc.
    ztest; [|lia]. ztest; [|lia]. rewrite !bind_assoc.
    replace (0 + n) with n by lia.
    replace (0 + (1 + Z.of_nat k)) with (1 + Z.of_nat k) by lia.
    rewrite (step_ok _ _ _ _ _ Hins). rewrite step_ret.
    rewrite bind_assoc.
    rewrite (step_ok _ _ _ _ _ (pushRun_first _ _ _ _)).
    rewrite bind_assoc. subst fuel.
    rewrite (step_ok _ _ _ _ _ (mergeCollapse_single _ _ _ _ _)).
    replace (n - n) with 0 by lia. cbn [Z.eqb negb]. rewrite step_ret.
    rewrite mergeForceCollapse_single. done.
Qed.

(** *** gallopLeft and gallopRight *)

(** [(ofs << 1) + 1] doubles while the result fits 31 bits and is
    negative beyond, which is what [if (ofs <= 0)] tests. *)
Lemma shl1_succ (ofs : Z) :
  0 < ofs < 2 ^ 31 ->
  (ofs < 2 ^ 30 /\ JS.shl1 ofs + 1 = 2 * ofs + 1)
  \/ (2 ^ 30 <= ofs /\ JS.shl1 ofs + 1 <= 0).
Proof.
  intros Hofs. unfold JS.shl1, JS.to_int32.
  rewrite (Z.mod_small ofs) by lia.
  destruct (Z.ltb_spec ofs (2 ^ 31)); [|lia].
  rewrite Z.shiftl_mul_pow2 by lia. change (2 ^ 1) with 2.
  rewrite (Z.mod_small (ofs * 2)) by lia.
  destruct (Z.ltb_spec (ofs * 2) (2 ^ 31)); [left|right]; lia.
Qed.

Lemma gallop_probe_spec (test : Z -> bool) (key : T) (a : list T)
    (pos : Z -> Z) (maxOfs : Z) :
  (forall o, 0 < o < maxOfs -> exists x, JS.get a (pos o) = Some x) ->
  forall (fuel : nat) (lastOfs ofs : Z) ga rb rl ss tr,
    0 <= lastOfs < ofs -> lastOfs < maxOfs ->
    (0 < ofs < 2 ^ 31 \/ ofs = maxOfs) ->
    (Z.to_nat (maxOfs - ofs) < fuel)%nat ->
    exists (lo' of' : Z) (evs : list event),
      gallop_probe compareFn fuel test key a pos maxOfs lastOfs ofs
        (mkState ga rb rl ss tr)
      = Ok ((lo', of'), mkState ga rb rl ss (tr ++ evs)) /\
      Forall is_compare evs /\
      lastOfs <= lo' < of' /\ lo' < maxOfs /\
      (lo' = lastOfs
       \/ exists x, JS.get a (pos lo') = Some x /\ test (compareFn key x) = true) /\
      (maxOfs <= of'
       \/ of' < maxOfs /\
          exists x, JS.get a (pos of') = Some x /\ test (compareFn key x) = false).
Proof.
  intros Hpos. induction fuel as [|fuel IH];
    intros lastOfs ofs ga rb rl ss tr Hlo Hmax Hofs Hfuel; [lia|].
  cbn [gallop_probe]. ztest.
  2:{ exists lastOfs, ofs, []. rewrite app_nil_r.
      repeat split; auto; try lia. }
  destruct (Hpos ofs ltac:(lia)) as [x Hx].
  rewrite (step_arr_get _ _ x) by done. rewrite step_compare.
  destruct (test (compareFn key x)) eqn:Ht.
  2:{ exists lastOfs, ofs, [Compare key x].
      repeat split; auto; try lia; [by repeat constructor|].
      right. split; [done|]. by exists x. }
  assert (Hofs' : 0 < ofs < 2 ^ 31) by (destruct Hofs; lia).
  set (ofs' := if JS.shl1 ofs + 1 <=? 0 then maxOfs else JS.shl1 ofs + 1).
  assert (Hnext : ofs < ofs' /\ (0 < ofs' < 2 ^ 31 \/ ofs' = maxOfs)).
  { subst ofs'. destruct (shl1_succ ofs Hofs') as [[? ->]|[? ?]].
    - destruct (Z.leb_spec (2 * ofs + 1) 0); lia.
    - destruct (Z.leb_spec (JS.shl1 ofs + 1) 0); lia. }
  destruct (IH ofs ofs' ga rb rl ss (tr ++ [Compare key x]))
    as (lo' & of' & evs & Hrun & Hq & Hb & Hm & Hl & Hr); [lia|lia|tauto|lia|].
  exists lo', of', (Compare key x :: evs). split.
  { rewrite Hrun. by rewrite <- app_assoc. }
  split; [by constructor|]. split; [lia|]. split; [done|].
  split; [|done]. right.
  destruct Hl as [->|Hl]; [by exists x|done].
Qed.

Lemma gallop_bisect_spec (right : Z -> bool) (key : T) (pre run post : list T) :
  Z.of_nat (length run) < 2 ^ 32 ->
  forall (fuel lo hi : nat) ga rb rl ss tr,
    (lo <= hi <= length run)%nat -> (hi - lo < fuel)%nat ->
    exists (k : nat) (evs : list event),
      (lo <= k <= hi)%nat /\
      gallop_bisect compareFn fuel right key (pre ++ run ++ post)
        (Z.of_nat (length pre)) (Z.of_nat lo) (Z.of_nat hi)
        (mkState ga rb rl ss tr)
      = Ok (Z.of_nat k, mkState ga rb rl ss (tr ++ evs)) /\
      Forall is_compare evs /\
      ((forall i j x y, (i <= j)%nat -> run !! i = Some x -> run !! j = Some y ->
                        right (compareFn key y) = true ->
                        right (compareFn key x) = true) ->
       Forall (fun x => right (compareFn key x) = true) (take lo run) ->
       Forall (fun x => right (compareFn key x) = false) (drop hi run) ->
       Forall (fun x => right (compareFn key x) = true) (take k run) /\
       Forall (fun x => right (compareFn key x) = false) (drop k run)).
Proof.
  intros Hsize. induction fuel as [|fuel IH];
    intros lo hi ga rb rl ss tr Hlh Hfuel; [lia|].
  cbn [gallop_bisect]. ztest.
  2:{ assert (lo = hi) as -> by lia. exists hi, []. rewrite app_nil_r.
      repeat split; auto; tauto. }
  set (m := Z.to_nat (Z.of_nat lo + (Z.of_nat hi - Z.of_nat lo) / 2)).
  pose proof (half_bounds (Z.of_nat hi - Z.of_nat lo)) as Hhalf.
  assert (Hm : (lo <= m < hi)%nat) by lia.
  rewrite ushr1_half by lia.
  replace (Z.of_nat lo + (Z.of_nat hi - Z.of_nat lo) / 2) with (Z.of_nat m) by lia.
  destruct (lookup_lt_is_Some_2 run m) as [x Hx]; [lia|].
  rewrite (step_arr_get _ _ x).
  2:{ rewrite (js_get_app pre _ _ m) by lia. by rewrite lookup_app_l by lia. }
  rewrite step_compare.
  destruct (right (compareFn key x)) eqn:Hr.
  - replace (Z.of_nat m + 1) with (Z.of_nat (S m)) by lia.
    destruct (IH (S m) hi ga rb rl ss (tr ++ [Compare key x]))
      as (k & evs & Hk & Hrun & Hq & Hfun); [lia|lia|].
    exists k, (Compare key x :: evs). split; [lia|]. split.
    { rewrite Hrun. by rewrite <- app_assoc. }
    split; [by constructor|].
    intros Hmono Hl Hh. apply Hfun; auto.
    apply Forall_lookup. intros i y Hy.
    apply lookup_take_Some in Hy. destruct Hy as [Hy Hi].
    apply (Hmono i m y x); auto. lia.
  - destruct (IH lo m ga rb rl ss (tr ++ [Compare key x]))
      as (k & evs & Hk & Hrun & Hq & Hfun); [lia|lia|].
    exists k, (Compare key x :: evs). split; [lia|]. split.
    { rewrite Hrun. by rewrite <- app_assoc. }
    split; [by constructor|].
    intros Hmono Hl Hh. apply Hfun; auto.
    apply Forall_lookup. intros i y Hy.
    rewrite lookup_drop in Hy.
    destruct (right (compareFn key y)) eqn:Hy'; [|done].
    rewrite (Hmono m (m + i)%nat x y ltac:(lia) Hx Hy Hy') in Hr. done.
Qed.

Lemma get_run (pre run post : list T) (i : Z) :
  0 <= i -> JS.get (pre ++ run ++ post) (Z.of_nat (length pre) + i)
            = (run ++ post) !! Z.to_nat i.
Proof. intros Hi. by rewrite (js_get_app pre _ _ (Z.to_nat i)) by lia. Qed.

(** Where the search tests are monotone along the run, one element
    decides for all before it, or for all after it. *)
Section Monotone.
Variables (right : Z -> bool) (key : T) (run : list T).
Hypothesis mono :
  forall i j x y, (i <= j)%nat -> run !! i = Some x -> run !! j = Some y ->
                  right (compareFn key y) = true ->
                  right (compareFn key x) = true.

Lemma mono_before (i : nat) (x : T) :
  run !! i = Some x -> right (compareFn key x) = true ->
  Forall (fun y => right (compareFn key y) = true) (take (S i) run).
Proof.
  intros Hx Hr. apply Forall_lookup. intros j y Hy.
  apply lookup_take_Some in Hy. destruct Hy as [Hy Hj].
  apply (mono j i y x); auto. lia.
Qed.

Lemma mono_after (i : nat) (x : T) :
  run !! i = Some x -> right (compareFn key x) = false ->
  Forall (fun y => right (compareFn key y) = false) (drop i run).
Proof.
  intros Hx Hr. apply Forall_lookup. intros j y Hy.
  rewrite lookup_drop in Hy.
  destruct (right (compareFn key y)) eqn:Hy'; [|done].
  rewrite (mono i (i + j)%nat x y ltac:(lia) Hx Hy Hy') in Hr. done.
Qed.
End Monotone.

Definition gallop_left_msg : string := "entering gallop left".
Definition gallop_right_msg : string := "entering gallop right".

(** The search that closes both gallops, entered with what the probing
    left: [lastOfs] at an element the key is beyond (or at -1) and [ofs]
    at one it is not beyond (or at [len]). *)
Lemma gallop_close (right : Z -> bool) (key : T) (pre run post : list T)
    (fuel : nat) (lastOfs ofs : Z) ga rb rl ss tr :
  Z.of_nat (length run) < 2 ^ 32 -> (length run < fuel)%nat ->
  -1 <= lastOfs < ofs -> ofs <= Z.of_nat (length run) ->
  (lastOfs = -1 \/ exists x, run !! Z.to_nat lastOfs = Some x
                             /\ right (compareFn key x) = true) ->
  (ofs = Z.of_nat (length run)
   \/ exists x, run !! Z.to_nat ofs = Some x /\ right (compareFn key x) = false) ->
  exists (k : nat) (evs : list event),
    (k <= length run)%nat /\
    gallop_bisect compareFn fuel right key (pre ++ run ++ post)
      (Z.of_nat (length pre)) (lastOfs + 1) ofs (mkState ga rb rl ss tr)
    = Ok (Z.of_nat k, mkState ga rb rl ss (tr ++ evs)) /\
    Forall is_compare evs /\
    ((forall i j x y, (i <= j)%nat -> run !! i = Some x -> run !! j = Some y ->
                      right (compareFn key y) = true ->
                      right (compareFn key x) = true) ->
     Forall (fun x => right (compareFn key x) = true) (take k run) /\
     Forall (fun x => right (compareFn key x) = false) (drop k run)).
Proof.
  intros Hsize Hfuel Hlo Hhi Hbelow Habove.
  destruct (gallop_bisect_spec right key pre run post Hsize fuel
              (Z.to_nat (lastOfs + 1)) (Z.to_nat ofs) ga rb rl ss tr)
    as (k & evs & Hk & Hrun & Hq & Hfun); [lia|lia|].
  rewrite !Z2Nat.id in Hrun by lia.
  exists k, evs. split; [lia|]. split; [done|]. split; [done|].
  intros Hmono. apply Hfun; [done| |].
  - destruct (decide (lastOfs = -1)) as [->|Hne]; [constructor|].
    destruct Hbelow as [->|(x & Hx & Hr)]; [done|].
    replace (Z.to_nat (lastOfs + 1)) with (S (Z.to_nat lastOfs)) by lia.
    by apply (mono_before right key run Hmono _ x).
  - destruct Habove as [->|(x & Hx & Hr)].
    + rewrite drop_ge by lia. constructor.
    + by apply (mono_after right key run Hmono _ x).
Qed.

Lemma run_get (pre run post : list T) (i : Z) :
  0 <= i < Z.of_nat (length run) ->
  JS.get (pre ++ run ++ post) (Z.of_nat (length pre) + i) = run !! Z.to_nat i.
Proof.
  intros Hi. rewrite get_run by lia. by rewrite lookup_app_l by lia.
Qed.

Lemma run_get_some (pre run post : list T) (i : Z) :
  0 <= i < Z.of_nat (length run) ->
  exists x, JS.get (pre ++ run ++ post) (Z.of_nat (length pre) + i) = Some x.
Proof.
  intros Hi. rewrite run_get by done.
  apply lookup_lt_is_Some_2. lia.
Qed.

(** The monotonicity the searches rest on, for a test [right]. *)
Definition monotone (right : Z -> bool) (key : T) (run : list T) : Prop :=
  forall i j x y, (i <= j)%nat -> run !! i = Some x -> run !! j = Some y ->
                  right (compareFn key y) = true ->
                  right (compareFn key x) = true.

(** What both gallops return: an index [k] into the run, after a trace
    of comparisons; where the test is monotone, [k] is the point up to
    which it holds. *)
Definition gallop_result (right : Z -> bool) (key : T) (run : list T)
    (msg : string) (st : state) (r : outcome (Z * state)) : Prop :=
  exists (k : nat) (evs : list event),
    (k <= length run)%nat /\
    r = Ok (Z.of_nat k,
            mkState (global_a st) (runBase st) (runLen st) (stackSize st)
                    (trace st ++ Log msg :: evs)) /\
    Forall is_compare evs /\
    (monotone right key run ->
     Forall (fun x => right (compareFn key x) = true) (take k run) /\
     Forall (fun x => right (compareFn key x) = false) (drop k run)).

Lemma gallopLeft_spec (key : T) (pre run post : list T) (hint fuel : nat) st :
  (hint < length run)%nat -> (length run < fuel)%nat ->
  Z.of_nat (length run) < 2 ^ 32 ->
  gallop_result (fun c => 0 <? c) key run gallop_left_msg st
    (gallopLeft compareFn fuel key (pre ++ run ++ post)
       (Z.of_nat (length pre)) (Z.of_nat (length run)) (Z.of_nat hint) st).
Proof.
  intros Hhint Hfuel Hsize. destruct st as [ga rb rl ss tr].
  unfold gallop_result, gallopLeft. cbn [global_a runBase runLen stackSize trace].
  rewrite step_log. fold gallop_left_msg.
  set (a := pre ++ run ++ post). set (base := Z.of_nat (length pre)).
  set (len := Z.of_nat (length run)).
  destruct (lookup_lt_is_Some_2 run hint Hhint) as [h Hh].
  rewrite (step_arr_get _ _ h).
  2:{ subst a base. rewrite run_get by lia. by rewrite Nat2Z.id. }
  rewrite step_compare. cbv zeta.
  destruct (0 <? compareFn key h) eqn:Hc.
  - (* key is beyond a[base + hint]: gallop to the right *)
    destruct (gallop_probe_spec (fun c => 0 <? c) key a
                (fun ofs => base + Z.of_nat hint + ofs) (len - Z.of_nat hint))
      with (fuel := fuel) (lastOfs := 0) (ofs := 1) (ga := ga) (rb := rb)
           (rl := rl) (ss := ss) (tr := (tr ++ [Log gallop_left_msg]) ++ [Compare key h])
      as (lo' & of' & evs & Hrun & Hq & Hb & Hm & Hl & Hr); try lia.
    { intros o Ho. subst a base. rewrite <- Z.add_assoc.
      apply run_get_some. lia. }
    rewrite bind_assoc, (step_ok _ _ _ _ _ Hrun). cbv beta iota zeta.
    rewrite step_ret.
    set (ofs := if len - Z.of_nat hint <? of' then len - Z.of_nat hint else of').
    assert (Hofs : lo' < ofs <= len - Z.of_nat hint
                   /\ (ofs = len - Z.of_nat hint \/ ofs = of' /\ of' < len - Z.of_nat hint)).
    { subst ofs. destruct (Z.ltb_spec (len - Z.of_nat hint) of'); lia. }
    destruct (gallop_close (fun c => 0 <? c) key pre run post fuel
                (lo' + Z.of_nat hint) (ofs + Z.of_nat hint) ga rb rl ss
                (((tr ++ [Log gallop_left_msg]) ++ [Compare key h]) ++ evs))
      as (k & evs' & Hk & Hrun' & Hq' & Hfun); try lia.
    { right. destruct Hl as [->|(x & Hx & Ht)].
      - exists h. split; [|done]. by rewrite Z.add_0_l, Nat2Z.id.
      - exists x. split; [|done]. subst a base. rewrite <- Z.add_assoc in Hx.
        rewrite run_get in Hx by lia.
        by replace (lo' + Z.of_nat hint) with (Z.of_nat hint + lo') by lia. }
    { destruct Hr as [Hr|(Hlt & x & Hx & Ht)]; [left; lia|].
      destruct Hofs as [_ [Ho|[Ho _]]]; [left; lia|right].
      exists x. split; [|done]. subst a base. rewrite <- Z.add_assoc in Hx.
      rewrite run_get in Hx by lia. rewrite Ho.
      by replace (of' + Z.of_nat hint) with (Z.of_nat hint + of') by lia. }
    exists k, (Compare key h :: evs ++ evs'). split; [done|]. split.
    { fold a base in Hrun'. rewrite Hrun'. do 3 f_equal.
      rewrite <- !app_assoc. done. }
    split; [|done]. constructor; [done|]. by apply Forall_app.
  - (* key is not beyond a[base + hint]: gallop to the left *)
    destruct (gallop_probe_spec (fun c => c <=? 0) key a
                (fun ofs => base + Z.of_nat hint - ofs) (Z.of_nat hint + 1))
      with (fuel := fuel) (lastOfs := 0) (ofs := 1) (ga := ga) (rb := rb)
           (rl := rl) (ss := ss) (tr := (tr ++ [Log gallop_left_msg]) ++ [Compare key h])
      as (lo' & of' & evs & Hrun & Hq & Hb & Hm & Hl & Hr); try lia.
    { intros o Ho. subst a base.
      replace (Z.of_nat (length pre) + Z.of_nat hint - o)
        with (Z.of_nat (length pre) + (Z.of_nat hint - o)) by lia.
      apply run_get_some. lia. }
    rewrite bind_assoc, (step_ok _ _ _ _ _ Hrun). cbv beta iota zeta.
    rewrite step_ret.
    set (ofs := if Z.of_nat hint + 1 <? of' then Z.of_nat hint + 1 else of').
    assert (Hofs : lo' < ofs <= Z.of_nat hint + 1
                   /\ (ofs = Z.of_nat hint + 1 \/ ofs = of' /\ of' < Z.of_nat hint + 1)).
    { subst ofs. destruct (Z.ltb_spec (Z.of_nat hint + 1) of'); lia. }
    assert (Htest : forall c, (c <=? 0) = negb (0 <? c)).
    { intros c. destruct (Z.leb_spec c 0), (Z.ltb_spec 0 c); simpl; lia. }
    destruct (gallop_close (fun c => 0 <? c) key pre run post fuel
                (Z.of_nat hint - ofs) (Z.of_nat hint - lo') ga rb rl ss
                (((tr ++ [Log gallop_left_msg]) ++ [Compare key h]) ++ evs))
      as (k & evs' & Hk & Hrun' & Hq' & Hfun); try lia.
    { destruct Hr as [Hr|(Hlt & x & Hx & Ht)]; [left; lia|].
      destruct Hofs as [_ [Ho|[Ho _]]]; [left; lia|right].
      exists x. rewrite Htest in Ht. apply negb_false_iff in Ht.
      split; [|done]. subst a base.
      replace (Z.of_nat (length pre) + Z.of_nat hint - of')
        with (Z.of_nat (length pre) + (Z.of_nat hint - of')) in Hx by lia.
      rewrite run_get in Hx by lia. by rewrite Ho. }
    { right. destruct Hl as [->|(x & Hx & Ht)].
      - exists h. split; [by rewrite Z.sub_0_r, Nat2Z.id|done].
      - exists x. rewrite Htest in Ht. apply negb_true_iff in Ht.
        split; [|done]. subst a base.
        replace (Z.of_nat (length pre) + Z.of_nat hint - lo')
          with (Z.of_nat (length pre) + (Z.of_nat hint - lo')) in Hx by lia.
        by rewrite run_get in Hx by lia. }
    exists k, (Compare key h :: evs ++ evs'). split; [done|]. split.
    { fold a base in Hrun'. rewrite Hrun'. do 3 f_equal.
      rewrite <- !app_assoc. done. }
    split; [|done]. constructor; [done|]. by apply Forall_app.
Qed.

Lemma gallopRight_spec (key : T) (pre run post : list T) (hint fuel : nat) st :
  (hint < length run)%nat -> (length run < fuel)%nat ->
  Z.of_nat (length run) < 2 ^ 32 ->
  gallop_result (fun c => negb (c <? 0)) key run gallop_right_msg st
    (gallopRight compareFn fuel key (pre ++ run ++ post)
       (Z.of_nat (length pre)) (Z.of_nat (length run)) (Z.of_nat hint) st).
Proof.
  intros Hhint Hfuel Hsize. destruct st as [ga rb rl ss tr].
  unfold gallop_result, gallopRight. cbn [global_a runBase runLen stackSize trace].
  rewrite step_log. fold gallop_right_msg.
  set (a := pre ++ run ++ post). set (base := Z.of_nat (length pre)).
  set (len := Z.of_nat (length run)).
  destruct (lookup_lt_is_Some_2 run hint Hhint) as [h Hh].
  rewrite (step_arr_get _ _ h).
  2:{ subst a base. rewrite run_get by lia. by rewrite Nat2Z.id. }
  rewrite step_compare. cbv zeta.
  assert (Htest : forall c, (0 <=? c) = negb (c <? 0)).
  { intros c. destruct (Z.leb_spec 0 c), (Z.ltb_spec c 0); simpl; lia. }
  destruct (compareFn key h <? 0) eqn:Hc.
  - (* key is before a[base + hint]: gallop to the left *)
    destruct (gallop_probe_spec (fun c => c <? 0) key a
                (fun ofs => base + Z.of_nat hint - ofs) (Z.of_nat hint + 1))
      with (fuel := fuel) (lastOfs := 0) (ofs := 1) (ga := ga) (rb := rb)
           (rl := rl) (ss := ss) (tr := (tr ++ [Log gallop_right_msg]) ++ [Compare key h])
      as (lo' & of' & evs & Hrun & Hq & Hb & Hm & Hl & Hr); try lia.
    { intros o Ho. subst a base.
      replace (Z.of_nat (length pre) + Z.of_nat hint - o)
        with (Z.of_nat (length pre) + (Z.of_nat hint - o)) by lia.
      apply run_get_some. lia. }
    rewrite bind_assoc, (step_ok _ _ _ _ _ Hrun). cbv beta iota zeta.
    rewrite step_ret.
    set (ofs := if Z.of_nat hint + 1 <? of' then Z.of_nat hint + 1 else of').
    assert (Hofs : lo' < ofs <= Z.of_nat hint + 1
                   /\ (ofs = Z.of_nat hint + 1 \/ ofs = of' /\ of' < Z.of_nat hint + 1)).
    { subst ofs. destruct (Z.ltb_spec (Z.of_nat hint + 1) of'); lia. }
    destruct (gallop_close (fun c => negb (c <? 0)) key pre run post fuel
                (Z.of_nat hint - ofs) (Z.of_nat hint - lo') ga rb rl ss
                (((tr ++ [Log gallop_right_msg]) ++ [Compare key h]) ++ evs))
      as (k & evs' & Hk & Hrun' & Hq' & Hfun); try lia.
    { destruct Hr as [Hr|(Hlt & x & Hx & Ht)]; [left; lia|].
      destruct Hofs as [_ [Ho|[Ho _]]]; [left; lia|right].
      exists x. split; [|by rewrite Ht]. subst a base.
      replace (Z.of_nat (length pre) + Z.of_nat hint - of')
        with (Z.of_nat (length pre) + (Z.of_nat hint - of')) in Hx by lia.
      rewrite run_get in Hx by lia. by rewrite Ho. }
    { right. destruct Hl as [->|(x & Hx & Ht)].
      - exists h. split; [by rewrite Z.sub_0_r, Nat2Z.id|by rewrite Hc].
      - exists x. split; [|by rewrite Ht]. subst a base.
        replace (Z.of_nat (length pre) + Z.of_nat hint - lo')
          with (Z.of_nat (length pre) + (Z.of_nat hint - lo')) in Hx by lia.
        by rewrite run_get in Hx by lia. }
    exists k, (Compare key h :: evs ++ evs'). split; [done|]. split.
    { fold a base in Hrun'. rewrite Hrun'. do 3 f_equal.
      rewrite <- !app_assoc. done. }
    split; [|done]. constructor; [done|]. by apply Forall_app.
  - (* key is not before a[base + hint]: gallop to the right *)
    destruct (gallop_probe_spec (fun c => 0 <=? c) key a
                (fun ofs => base + Z.of_nat hint + ofs) (len - Z.of_nat hint))
      with (fuel := fuel) (lastOfs := 0) (ofs := 1) (ga := ga) (rb := rb)
           (rl := rl) (ss := ss) (tr := (tr ++ [Log gallop_right_msg]) ++ [Compare key h])
      as (lo' & of' & evs & Hrun & Hq & Hb & Hm & Hl & Hr); try lia.
    { intros o Ho. subst a base. rewrite <- Z.add_assoc.
      apply run_get_some. lia. }
    rewrite bind_assoc, (step_ok _ _ _ _ _ Hrun). cbv beta iota zeta.
    rewrite step_ret.
    set (ofs := if len - Z.of_nat hint <? of' then len - Z.of_nat hint else of').
    assert (Hofs : lo' < ofs <= len - Z.of_nat hint
                   /\ (ofs = len - Z.of_nat hint \/ ofs = of' /\ of' < len - Z.of_nat hint)).
    { subst ofs. destruct (Z.ltb_spec (len - Z.of_nat hint) of'); lia. }
    destruct (gallop_close (fun c => negb (c <? 0)) key pre run post fuel
                (lo' + Z.of_nat hint) (ofs + Z.of_nat hint) ga rb rl ss
                (((tr ++ [Log gallop_right_msg]) ++ [Compare key h]) ++ evs))
      as (k & evs' & Hk & Hrun' & Hq' & Hfun); try lia.
    { right. destruct Hl as [->|(x & Hx & Ht)].
      - exists h. split; [by rewrite Z.add_0_l, Nat2Z.id|by rewrite Hc].
      - exists x. rewrite Htest in Ht. split; [|done].
        subst a base. rewrite <- Z.add_assoc in Hx.
        rewrite run_get in Hx by lia.
        by replace (lo' + Z.of_nat hint) with (Z.of_nat hint + lo') by lia. }
    { destruct Hr as [Hr|(Hlt & x & Hx & Ht)]; [left; lia|].
      destruct Hofs as [_ [Ho|[Ho _]]]; [left; lia|right].
      exists x. rewrite Htest in Ht. split; [|done].
      subst a base. rewrite <- Z.add_assoc in Hx.
      rewrite run_get in Hx by lia. rewrite Ho.
      by replace (of' + Z.of_nat hint) with (Z.of_nat hint + of') by lia. }
    exists k, (Compare key h :: evs ++ evs'). split; [done|]. split.
    { fold a base in Hrun'. rewrite Hrun'. do 3 f_equal.
      rewrite <- !app_assoc. done. }
    split; [|done]. constructor; [done|]. by apply Forall_app.
Qed.

(** Along an ascending run both tests are monotone. *)
Lemma ascending_lookup (run : list T) (i j : nat) (x y : T) :
  TotalOrder -> ascending run -> (i <= j)%nat ->
  run !! i = Some x -> run !! j = Some y -> le x y.
Proof.
  intros Hord Hasc Hij Hx Hy.
  destruct (decide (i = j)) as [->|Hne].
  { assert (x = y) as -> by congruence. unfold le. rewrite (cmp_refl Hord). lia. }
  rewrite <- (take_drop_middle run i x Hx) in Hasc, Hy.
  destruct (ascending_middle _ _ _ Hasc) as [_ Hafter].
  rewrite lookup_app_r in Hy by (rewrite length_take; lia).
  rewrite length_take_le in Hy by (apply lookup_lt_Some in Hx; lia).
  destruct (j - i)%nat as [|d] eqn:Hd; [lia|]. cbn in Hy.
  rewrite Forall_lookup in Hafter. by apply (Hafter d).
Qed.

Lemma monotone_left (key : T) (run : list T) :
  TotalOrder -> ascending run -> monotone (fun c => 0 <? c) key run.
Proof.
  intros Hord Hasc i j x y Hij Hx Hy Hr.
  pose proof (ascending_lookup run i j x y Hord Hasc Hij Hx Hy) as Hle.
  apply Z.ltb_lt in Hr. apply Z.ltb_lt.
  apply (cmp_antisym Hord). apply (cmp_le_lt_trans Hord x y key); [done|].
  by apply (cmp_antisym Hord).
Qed.

Lemma monotone_right (key : T) (run : list T) :
  TotalOrder -> ascending run -> monotone (fun c => negb (c <? 0)) key run.
Proof.
  intros Hord Hasc i j x y Hij Hx Hy Hr.
  pose proof (ascending_lookup run i j x y Hord Hasc Hij Hx Hy) as Hle.
  apply negb_true_iff, Z.ltb_ge in Hr. apply negb_true_iff, Z.ltb_ge.
  apply (cmp_flip Hord). apply (cmp_trans Hord x y key); [done|].
  by apply (cmp_flip Hord).
Qed.

(** C7: on a range [a[base .. base+len)] that is non-decreasing under a
    consistent total order, with [0 <= hint < len], [gallopLeft]
    returns the [k] in [0, len] with every element before [base + k]
    below the key and none from there on ([key <= a[base + k]], leftmost
    insertion point), and [gallopRight] the [k] with no element before
    [base + k] above the key and every one from there on above it
    ([key < a[base + k]], behind all equals).  Lengths are those of a
    JavaScript array, below 2^32. *)
Theorem gallop_insertion_points (key : T) (pre run post : list T)
    (hint fuel : nat) (st : state) :
  TotalOrder -> ascending run ->
  (hint < length run)%nat -> (length run < fuel)%nat ->
  Z.of_nat (length run) < 2 ^ 32 ->
  (exists (k : nat) st',
      gallopLeft compareFn fuel key (pre ++ run ++ post)
        (Z.of_nat (length pre)) (Z.of_nat (length run)) (Z.of_nat hint) st
      = Ok (Z.of_nat k, st') /\
      (k <= length run)%nat /\
      Forall (fun x => compareFn x key < 0) (take k run) /\
      Forall (fun x => compareFn key x <= 0) (drop k run)) /\
  (exists (k : nat) st',
      gallopRight compareFn fuel key (pre ++ run ++ post)
        (Z.of_nat (length pre)) (Z.of_nat (length run)) (Z.of_nat hint) st
      = Ok (Z.of_nat k, st') /\
      (k <= length run)%nat /\
      Forall (fun x => compareFn x key <= 0) (take k run) /\
      Forall (fun x => compareFn key x < 0) (drop k run)).
Proof.
  intros Hord Hasc Hhint Hfuel Hsize. split.
  - destruct (gallopLeft_spec key pre run post hint fuel st Hhint Hfuel Hsize)
      as (k & evs & Hk & Hrun & _ & Hfun).
    destruct (Hfun (monotone_left key run Hord Hasc)) as [Hb Ha].
    exists k. eexists. split; [exact Hrun|]. split; [done|]. split.
    + eapply Forall_impl; [exact Hb|]. intros x Hx. simpl in Hx.
      apply Z.ltb_lt in Hx. by apply (cmp_antisym Hord).
    + eapply Forall_impl; [exact Ha|]. intros x Hx. simpl in Hx.
      by apply Z.ltb_ge in Hx.
  - destruct (gallopRight_spec key pre run post hint fuel st Hhint Hfuel Hsize)
      as (k & evs & Hk & Hrun & _ & Hfun).
    destruct (Hfun (monotone_right key run Hord Hasc)) as [Hb Ha].
    exists k. eexists. split; [exact Hrun|]. split; [done|]. split.
    + eapply Forall_impl; [exact Hb|]. intros x Hx. simpl in Hx.
      apply negb_true_iff, Z.ltb_ge in Hx. by apply (cmp_flip Hord).
    + eapply Forall_impl; [exact Ha|]. intros x Hx. simpl in Hx.
      by apply negb_false_iff, Z.ltb_lt in Hx.
Qed.

(** *** mergeLo *)

(** Replaying the assignments to [minGallop] found in a trace: each
    value must be the one the step gives from the value before, and the
    initialisation may not come again. *)
Definition mg_next (s : gallop_step) (cur : Z) : option Z :=
  match s with
  | GInit => None
  | GDecrement => Some (cur - 1)
  | GPenalty => Some (Z.max cur 0 + 2)
  | GWriteBack => Some (Z.max cur 1)
  end.

Fixpoint mg_replay (next : gallop_step -> Z -> option Z) (cur : Z)
    (evs : list event) : option Z :=
  match evs with
  | [] => Some cur
  | MinGallop s v :: evs' =>
      match next s cur with
      | Some v' => if v =? v' then mg_replay next v evs' else None
      | None => None
      end
  | _ :: evs' => mg_replay next cur evs'
  end.

Definition mg_run : Z -> list event -> option Z := mg_replay mg_next.

Lemma mg_run_app (evs1 evs2 : list event) :
  forall cur mid,
    mg_run cur evs1 = Some mid -> mg_run cur (evs1 ++ evs2) = mg_run mid evs2.
Proof.
  unfold mg_run.
  induction evs1 as [|e evs1 IH]; intros cur mid H.
  - simpl in H. by injection H as ->.
  - destruct e; cbn [mg_replay app] in *; try (by apply IH).
    destruct (mg_next s cur); [|done].
    destruct (v =? z); [by apply IH|done].
Qed.

Lemma mg_run_step (s : gallop_step) (cur v : Z) (evs : list event) :
  mg_next s cur = Some v ->
  mg_run cur (MinGallop s v :: evs) = mg_run v evs.
Proof. intros H. unfold mg_run. cbn [mg_replay]. by rewrite H, Z.eqb_refl. Qed.

Definition no_mg (e : event) : Prop :=
  match e with MinGallop _ _ => False | _ => True end.

Lemma mg_run_plain (evs : list event) (cur : Z) :
  Forall no_mg evs -> mg_run cur evs = Some cur.
Proof.
  unfold mg_run. induction 1 as [|e evs He _ IH]; [done|]. by destruct e.
Qed.

Lemma compares_no_mg (evs : list event) : Forall is_compare evs -> Forall no_mg evs.
Proof. intros H. eapply Forall_impl; [exact H|]. by intros []. Qed.

Section MergeLo.
Variables (pre run1 run2 post : list T).

(** Where a merge of [run1] and [run2] stands after taking [c1]
    elements of the first and [c2] of the second: the merged part, a
    gap as long as what is left of [run1] (which sits in [tmp]), and the
    rest of [run2] still in place. *)
Definition lo_config (c1 c2 : nat) (v : merge_vars) (a : list T) : Prop :=
  (c1 <= length run1)%nat /\ (c2 <= length run2)%nat /\
  cursor1 v = Z.of_nat c1 /\
  cursor2 v = Z.of_nat (length pre + length run1 + c2) /\
  dest v = Z.of_nat (length pre + c1 + c2) /\
  len1 v = Z.of_nat (length run1 - c1) /\
  len2 v = Z.of_nat (length run2 - c2) /\
  exists merged gap,
    a = pre ++ merged ++ gap ++ drop c2 run2 ++ post /\
    length merged = (c1 + c2)%nat /\
    length gap = (length run1 - c1)%nat /\
    merged ≡ₚ take c1 run1 ++ take c2 run2.

(** [a[dest++] = a[cursor2++]] *)
Lemma lo_take2 (c1 c2 : nat) (v : merge_vars) (a : list T) (n1 n2 mg : Z) :
  lo_config c1 c2 v a -> (c1 < length run1)%nat -> (c2 < length run2)%nat ->
  exists y a',
    run2 !! c2 = Some y /\
    JS.get a (cursor2 v) = Some y /\
    JS.set a (dest v) y = Some a' /\
    lo_config c1 (S c2)
      (mkVars (cursor1 v) (cursor2 v + 1) (dest v + 1) (len1 v) (len2 v - 1)
              n1 n2 mg) a'.
Proof.
  intros (H1 & H2 & Hc1 & Hc2 & Hd & Hl1 & Hl2 & merged & gap & -> & Hm & Hg & Hp)
         Hlt1 Hlt2.
  destruct (lookup_lt_is_Some_2 run2 c2 Hlt2) as [y Hy].
  destruct gap as [|g gap]; [cbn [length] in Hg; lia|]. cbn [length] in Hg.
  exists y, (pre ++ (merged ++ [y]) ++ (gap ++ [y]) ++ drop (S c2) run2 ++ post).
  split; [done|]. split; [|split].
  - rewrite Hc2. rewrite !app_assoc. rewrite <- (app_assoc _ (drop c2 run2)).
    rewrite (js_get_app ((pre ++ merged) ++ g :: gap) _ _ 0%nat) by list_len.
    rewrite (drop_S _ _ _ Hy). done.
  - rewrite Hd. rewrite app_assoc.
    rewrite (js_set_app (pre ++ merged) _ _ 0%nat) by list_len.
    f_equal. cbn [app]. rewrite (drop_S _ _ _ Hy).
    rewrite <- !app_assoc. cbn [insert list_insert app]. done.
  - unfold lo_config. cbn [cursor1 cursor2 dest len1 len2].
    repeat split; try lia.
    exists (merged ++ [y]), (gap ++ [y]). repeat split; try list_len.
    rewrite (take_S_r _ _ _ Hy), Hp. by rewrite app_assoc.
Qed.

(** [a[dest++] = tmp[cursor1++]] *)
Lemma lo_take1 (c1 c2 : nat) (v : merge_vars) (a : list T) (n1 n2 mg : Z) :
  lo_config c1 c2 v a -> (c1 < length run1)%nat ->
  exists x a',
    run1 !! c1 = Some x /\
    JS.get run1 (cursor1 v) = Some x /\
    JS.set a (dest v) x = Some a' /\
    lo_config (S c1) c2
      (mkVars (cursor1 v + 1) (cursor2 v) (dest v + 1) (len1 v - 1) (len2 v)
              n1 n2 mg) a'.
Proof.
  intros (H1 & H2 & Hc1 & Hc2 & Hd & Hl1 & Hl2 & merged & gap & -> & Hm & Hg & Hp)
         Hlt1.
  destruct (lookup_lt_is_Some_2 run1 c1 Hlt1) as [x Hx].
  destruct gap as [|g gap]; [cbn [length] in Hg; lia|]. cbn [length] in Hg.
  exists x, (pre ++ (merged ++ [x]) ++ gap ++ drop c2 run2 ++ post).
  split; [done|]. split; [|split].
  - rewrite Hc1. by rewrite (js_get_at _ _ c1).
  - rewrite Hd. rewrite app_assoc.
    rewrite (js_set_app (pre ++ merged) _ _ 0%nat) by list_len.
    f_equal. cbn [app insert list_insert]. by rewrite <- !app_assoc.
  - unfold lo_config. cbn [cursor1 cursor2 dest len1 len2].
    repeat split; try lia.
    exists (merged ++ [x]), gap. repeat split; try list_len.
    rewrite (take_S_r _ _ _ Hx), Hp. rewrite <- !app_assoc.
    apply Permutation_app_head. apply Permutation_app_comm.
Qed.

(** [arraycopy(tmp, cursor1, a, dest, k)] and the three updates after it *)
Lemma lo_copy1 (c1 c2 k : nat) (v : merge_vars) (a : list T) (n1 n2 mg : Z) :
  lo_config c1 c2 v a -> (c1 + k <= length run1)%nat ->
  exists a',
    arraycopy run1 (cursor1 v) a (dest v) (Z.of_nat k) = Ok a' /\
    lo_config (c1 + k) c2
      (mkVars (cursor1 v + Z.of_nat k) (cursor2 v) (dest v + Z.of_nat k)
              (len1 v - Z.of_nat k) (len2 v) n1 n2 mg) a'.
Proof.
  intros (H1 & H2 & Hc1 & Hc2 & Hd & Hl1 & Hl2 & merged & gap & -> & Hm & Hg & Hp)
         Hk.
  exists ((pre ++ merged) ++ take k (drop c1 run1)
            ++ drop k gap ++ drop c2 run2 ++ post).
  split.
  - rewrite <- (take_drop c1 run1) at 1.
    rewrite <- (take_drop k (drop c1 run1)) at 1.
    rewrite <- (take_drop k gap) at 1.
    rewrite (app_assoc pre merged), <- (app_assoc (take k gap)).
    apply arraycopy_spec.
    + rewrite Hc1, length_take. lia.
    + rewrite Hd. list_len.
    + rewrite length_take, length_drop. lia.
    + rewrite !length_take, length_drop. lia.
  - unfold lo_config. cbn [cursor1 cursor2 dest len1 len2].
    repeat split; try lia.
    exists (merged ++ take k (drop c1 run1)), (drop k gap).
    repeat split.
    + by rewrite <- !app_assoc.
    + rewrite length_app, length_take, length_drop. lia.
    + rewrite length_drop. lia.
    + rewrite Hp, <- take_take_drop, <- !app_assoc.
      apply Permutation_app_head. apply Permutation_app_comm.
Qed.

(** [arraycopy(a, cursor2, a, dest, k)] and the three updates after it *)
Lemma lo_copy2 (c1 c2 k : nat) (v : merge_vars) (a : list T) (n1 n2 mg : Z) :
  lo_config c1 c2 v a -> (c2 + k <= length run2)%nat ->
  exists a',
    arraycopy a (cursor2 v) a (dest v) (Z.of_nat k) = Ok a' /\
    lo_config c1 (c2 + k)
      (mkVars (cursor1 v) (cursor2 v + Z.of_nat k) (dest v + Z.of_nat k)
              (len1 v) (len2 v - Z.of_nat k) n1 n2 mg) a'.
Proof.
  intros (H1 & H2 & Hc1 & Hc2 & Hd & Hl1 & Hl2 & merged & gap & -> & Hm & Hg & Hp)
         Hk.
  set (r2 := drop c2 run2).
  assert (Hr2 : length r2 = (length run2 - c2)%nat) by (subst r2; by rewrite length_drop).
  exists ((pre ++ merged) ++ take k r2 ++ drop k (gap ++ r2) ++ post).
  split.
  - assert (Hsrc : pre ++ merged ++ gap ++ r2 ++ post
                   = (pre ++ merged ++ gap) ++ take k r2 ++ (drop k r2 ++ post)).
    { rewrite <- !app_assoc. do 3 f_equal. rewrite app_assoc. by rewrite take_drop. }
    assert (Hdst : pre ++ merged ++ gap ++ r2 ++ post
                   = (pre ++ merged) ++ take k (gap ++ r2) ++ (drop k (gap ++ r2) ++ post)).
    { rewrite <- !app_assoc. do 2 f_equal.
      rewrite (app_assoc (take k _)), take_drop. by rewrite <- app_assoc. }
    rewrite Hsrc at 1. rewrite Hdst.
    apply arraycopy_spec.
    + rewrite Hc2. list_len.
    + rewrite Hd. list_len.
    + rewrite length_take. lia.
    + rewrite !length_take, length_app. lia.
  - unfold lo_config. cbn [cursor1 cursor2 dest len1 len2].
    repeat split; try lia.
    exists (merged ++ take k r2), (take (length gap) (drop k (gap ++ r2))).
    repeat split.
    + rewrite <- !app_assoc. do 3 f_equal.
      rewrite app_assoc. f_equal.
      rewrite <- (take_drop (length gap) (drop k (gap ++ r2))) at 1.
      f_equal. rewrite drop_drop, drop_app_ge by lia.
      subst r2. rewrite drop_drop. f_equal. lia.
    + rewrite length_app, length_take. lia.
    + rewrite length_take, length_drop, length_app. lia.
    + rewrite Hp, <- take_take_drop. by rewrite <- !app_assoc.
Qed.

Lemma lo_config_eq (c1 c2 c1' c2' : nat) (v : merge_vars) (a : list T) :
  c1 = c1' -> c2 = c2' -> lo_config c1 c2 v a -> lo_config c1' c2' v a.
Proof. by intros -> ->. Qed.

(** With both runs taken the range holds a permutation of them. *)
Lemma lo_config_done (v : merge_vars) (a : list T) :
  lo_config (length run1) (length run2) v a ->
  exists merged, a = pre ++ merged ++ post /\ merged ≡ₚ run1 ++ run2.
Proof.
  intros (_ & _ & _ & _ & _ & _ & _ & merged & gap & -> & Hm & Hg & Hp).
  exists merged. destruct gap; [|cbn [length] in Hg; lia].
  rewrite drop_all. rewrite !firstn_all in Hp. done.
Qed.

Lemma lo_config_start :
  lo_config 0 0
    (mkVars 0 (Z.of_nat (length pre + length run1)) (Z.of_nat (length pre))
            (Z.of_nat (length run1)) (Z.of_nat (length run2)) 0 0 MIN_GALLOP)
    (pre ++ run1 ++ run2 ++ post).
Proof.
  unfold lo_config. cbn [cursor1 cursor2 dest len1 len2].
  repeat split; try lia.
  exists [], run1. repeat split; auto. lia.
Qed.

(** How a block of the merge loop may leave the two runs: on
    [break outer] one of them is down to its last element (the first
    run) or to nothing (the second); otherwise both go on. *)
Definition lo_exit (k : ctl) (c1 c2 : nat) : Prop :=
  match k with
  | BreakOuter =>
      (c2 = length run2 /\ c1 + 2 <= length run1)%nat
      \/ (c1 + 1 = length run1 /\ c2 < length run2)%nat
  | Fallthrough => (c1 + 2 <= length run1 /\ c2 < length run2)%nat
  end.

Lemma lo_straight_spec (fuel : nat) :
  forall (c1 c2 : nat) (v : merge_vars) a rb rl ss tr,
    lo_config c1 c2 v a ->
    (c1 + 2 <= length run1)%nat -> (c2 < length run2)%nat ->
    ((length run1 - c1) + (length run2 - c2) < fuel)%nat ->
    exists k c1' c2' v' a' evs,
      mergeLo_straight compareFn fuel run1 v (mkState a rb rl ss tr)
      = Ok ((k, v'), mkState a' rb rl ss (tr ++ evs)) /\
      lo_config c1' c2' v' a' /\
      (c1 + c2 < c1' + c2')%nat /\ (c1 <= c1')%nat /\ (c2 <= c2')%nat /\
      minGallop v' = minGallop v /\
      Forall is_compare evs /\
      lo_exit k c1' c2'.
Proof.
  induction fuel as [|fuel IH]; intros c1 c2 v a rb rl ss tr Hcfg H1 H2 Hfuel; [lia|].
  cbn [mergeLo_straight].
  destruct (lo_take2 c1 c2 v a 0 (count2 v + 1) (minGallop v) Hcfg ltac:(lia) H2)
    as (y & a2 & Hy & Hgy & Hsy & Hcfg2).
  destruct (lo_take1 c1 c2 v a (count1 v + 1) 0 (minGallop v) Hcfg ltac:(lia))
    as (x & a1 & Hx & Hgx & Hsx & Hcfg1).
  rewrite (step_a_get _ y) by done.
  rewrite (step_arr_get _ _ x) by done.
  rewrite step_compare.
  destruct (compareFn y x <? 0).
  - rewrite !bind_assoc. rewrite (step_a_get _ y) by done.
    rewrite bind_assoc, (step_a_set _ _ a2) by done.
    cbv zeta. rewrite step_ret. cbn [len2 count1 count2 minGallop].
    assert (Hl2 : len2 v = Z.of_nat (length run2 - c2)) by (apply Hcfg).
    destruct (Z.eqb_spec (len2 v - 1) 0).
    { exists BreakOuter, c1, (S c2). do 2 eexists. exists [Compare y x].
      split; [reflexivity|]. split; [exact Hcfg2|].
      repeat split; try lia; [by repeat constructor|]. left. lia. }
    destruct (JS.bor _ _ <? _).
    + destruct (IH c1 (S c2) _ a2 rb rl ss (tr ++ [Compare y x]) Hcfg2)
        as (k & c1' & c2' & v' & a' & evs & Hrun & Hcfg' & Hp & Hm1 & Hm2 & Hmg & Hq & Hex);
        [lia|lia|lia|].
      exists k, c1', c2', v', a', (Compare y x :: evs).
      split; [rewrite Hrun; by rewrite <- app_assoc|].
      split; [done|]. repeat split; try lia; [done|by constructor|done].
    + exists Fallthrough, c1, (S c2). do 2 eexists. exists [Compare y x].
      split; [reflexivity|]. split; [exact Hcfg2|].
      repeat split; try lia. by repeat constructor.
  - rewrite !bind_assoc. rewrite (step_arr_get _ _ x) by done.
    rewrite bind_assoc, (step_a_set _ _ a1) by done.
    cbv zeta. rewrite step_ret. cbn [len1 count1 count2 minGallop].
    assert (Hl1 : len1 v = Z.of_nat (length run1 - c1)) by (apply Hcfg).
    destruct (Z.eqb_spec (len1 v - 1) 1).
    { exists BreakOuter, (S c1), c2. do 2 eexists. exists [Compare y x].
      split; [reflexivity|]. split; [exact Hcfg1|].
      repeat split; try lia; [by repeat constructor|]. right. lia. }
    destruct (JS.bor _ _ <? _).
    + destruct (IH (S c1) c2 _ a1 rb rl ss (tr ++ [Compare y x]) Hcfg1)
        as (k & c1' & c2' & v' & a' & evs & Hrun & Hcfg' & Hp & Hm1 & Hm2 & Hmg & Hq & Hex);
        [lia|lia|lia|].
      exists k, c1', c2', v', a', (Compare y x :: evs).
      split; [rewrite Hrun; by rewrite <- app_assoc|].
      split; [done|]. repeat split; try lia; [done|by constructor|done].
    + exists Fallthrough, (S c1), c2. do 2 eexists. exists [Compare y x].
      split; [reflexivity|]. split; [exact Hcfg1|].
      repeat split; try lia. by repeat constructor.
Qed.

Lemma lo_config_counts (c1 c2 : nat) (v : merge_vars) (a : list T) (n1 n2 mg : Z) :
  lo_config c1 c2 v a ->
  lo_config c1 c2
    (mkVars (cursor1 v) (cursor2 v) (dest v) (len1 v) (len2 v) n1 n2 mg) a.
Proof. intros H. exact H. Qed.

(** What mergeLo's contract asks of the runs, as far as the error branch
    goes: the first run ascending and its last element beyond every
    element of the second. *)
Definition lo_contract : Prop :=
  TotalOrder /\ ascending run1 /\
  forall z y, last run1 = Some z -> y ∈ run2 -> compareFn y z < 0.

Lemma lo_gallop1_short (c1 c2 k : nat) (y : T) :
  lo_contract -> run2 !! c2 = Some y -> (c1 + k <= length run1)%nat ->
  (c1 < length run1)%nat ->
  Forall (fun x => negb (compareFn y x <? 0) = true) (take k (drop c1 run1)) ->
  (c1 + k < length run1)%nat.
Proof.
  intros (Hord & Hasc & Hlast) Hy Hk Hc1 Hall.
  destruct (decide (c1 + k < length run1)%nat) as [|Hge]; [done|exfalso].
  assert (k = (length run1 - c1)%nat) as -> by lia.
  rewrite take_ge in Hall by (rewrite length_drop; lia).
  destruct (lookup_lt_is_Some_2 run1 (length run1 - 1)) as [z Hz]; [lia|].
  assert (Hlz : last run1 = Some z).
  { rewrite last_lookup. rewrite <- Hz. f_equal. lia. }
  pose proof (Hlast z y Hlz ltac:(by eapply list_elem_of_lookup_2)) as Hlt.
  rewrite Forall_lookup in Hall.
  specialize (Hall (length run1 - 1 - c1)%nat z).
  rewrite lookup_drop in Hall.
  replace (c1 + (length run1 - 1 - c1))%nat with (length run1 - 1)%nat in Hall by lia.
  specialize (Hall Hz). apply negb_true_iff, Z.ltb_ge in Hall. lia.
Qed.

Lemma gallopRight_in (key : T) (a X run Y : list T) (fuel : nat) (base len : Z) st :
  a = X ++ run ++ Y -> base = Z.of_nat (length X) -> len = Z.of_nat (length run) ->
  (0 < length run)%nat -> (length run < fuel)%nat ->
  Z.of_nat (length run) < 2 ^ 32 ->
  gallop_result (fun c => negb (c <? 0)) key run gallop_right_msg st
    (gallopRight compareFn fuel key a base len 0 st).
Proof.
  intros -> -> -> Hpos Hfuel Hsize. change 0 with (Z.of_nat 0).
  by apply gallopRight_spec.
Qed.

Lemma gallopLeft_in (key : T) (a X run Y : list T) (fuel : nat) (base len : Z) st :
  a = X ++ run ++ Y -> base = Z.of_nat (length X) -> len = Z.of_nat (length run) ->
  (0 < length run)%nat -> (length run < fuel)%nat ->
  Z.of_nat (length run) < 2 ^ 32 ->
  gallop_result (fun c => 0 <? c) key run gallop_left_msg st
    (gallopLeft compareFn fuel key a base len 0 st).
Proof.
  intros -> -> -> Hpos Hfuel Hsize. change 0 with (Z.of_nat 0).
  by apply gallopLeft_spec.
Qed.

(** How the galloping block may leave the two runs.  Its first
    [break outer] is taken with the first run down to one element, or
    to none. *)
Definition lo_exit_gallop (k : ctl) (c1 c2 : nat) : Prop :=
  match k with
  | BreakOuter =>
      (length run1 <= c1 + 1 /\ c2 < length run2)%nat
      \/ (c2 = length run2 /\ c1 + 2 <= length run1)%nat
  | Fallthrough => (c1 + 2 <= length run1 /\ c2 < length run2)%nat
  end.

Lemma lo_gallop_spec (fuel : nat) :
  (length run1 < fuel)%nat -> (length run2 < fuel)%nat ->
  Z.of_nat (length run1) < 2 ^ 32 -> Z.of_nat (length run2) < 2 ^ 32 ->
  forall (n c1 c2 : nat) (v : merge_vars) a rb rl ss tr,
    lo_config c1 c2 v a ->
    (c1 + 2 <= length run1)%nat -> (c2 < length run2)%nat ->
    ((length run1 - c1) + (length run2 - c2) < n)%nat ->
    exists k c1' c2' v' a' evs,
      mergeLo_gallop compareFn fuel n run1 v (mkState a rb rl ss tr)
      = Ok ((k, v'), mkState a' rb rl ss (tr ++ evs)) /\
      lo_config c1' c2' v' a' /\
      (c1 + c2 < c1' + c2')%nat /\ (c1 <= c1')%nat /\ (c2 <= c2')%nat /\
      mg_run (minGallop v) evs = Some (minGallop v') /\
      lo_exit_gallop k c1' c2' /\
      (lo_contract -> (c1' < length run1)%nat).
Proof.
  intros Hfuel1 Hfuel2 Hsize1 Hsize2.
  induction n as [|n IH]; intros c1 c2 v a rb rl ss tr Hcfg H1 H2 Hn; [lia|].
  cbn [mergeLo_gallop].
  (* the key from the second run, and how far it reaches into the first *)
  destruct (lo_take2 c1 c2 v a 0 0 0 Hcfg ltac:(lia) H2)
    as (y & _ & Hy & Hgy & _ & _).
  rewrite (step_a_get _ y) by done.
  pose proof Hcfg as (_ & _ & Hc1 & Hc2 & Hd & Hl1 & Hl2 & _).
  destruct (gallopRight_in y run1 (take c1 run1) (drop c1 run1) [] fuel
              (cursor1 v) (len1 v) (mkState a rb rl ss tr))
    as (k1 & evs1 & Hk1 & Hrun1 & Hq1 & Hfun1).
  { by rewrite app_nil_r, take_drop. }
  { rewrite length_take. lia. }
  { rewrite length_drop. lia. }
  { rewrite length_drop. lia. }
  { rewrite length_drop. lia. }
  { rewrite length_drop. lia. }
  rewrite length_drop in Hk1. cbn [global_a runBase runLen stackSize trace] in Hrun1.
  rewrite (step_ok _ _ _ _ _ Hrun1). cbv zeta.
  cbn [cursor1 cursor2 dest len1 len2 count1 count2 minGallop].
  assert (Hplain1 : Forall no_mg (Log gallop_right_msg :: evs1)).
  { constructor; [done|]. by apply compares_no_mg. }
  assert (Hshort : lo_contract -> (c1 + k1 < length run1)%nat).
  { intros Hct. pose proof Hct as (Hord & Hasc & _).
    apply (lo_gallop1_short c1 c2 k1 y Hct Hy); [lia|lia|].
    apply Hfun1. apply (monotone_right y _ Hord).
    rewrite <- (take_drop c1 run1) in Hasc.
    by apply StronglySorted_app_1_r in Hasc. }
  clear Hfun1 Hrun1.
  match goal with |- context [bind _ ?K _] => set (K1 := K) end.
  (* from the move of the key on *)
  assert (Hrest : forall (c : nat) v0 a0 tr0,
             lo_config c c2 v0 a0 -> (c + 2 <= length run1)%nat -> (c1 <= c)%nat ->
             exists k c1' c2' v' a' evs,
               K1 (Fallthrough, v0) (mkState a0 rb rl ss tr0)
               = Ok ((k, v'), mkState a' rb rl ss (tr0 ++ evs)) /\
               lo_config c1' c2' v' a' /\
               (c + c2 < c1' + c2')%nat /\ (c <= c1')%nat /\ (c2 <= c2')%nat /\
               mg_run (minGallop v0) evs = Some (minGallop v') /\
               lo_exit_gallop k c1' c2' /\ (lo_contract -> (c1' < length run1)%nat)).
  { intros c v0 a0 tr0 Hcfg0 Hc Hcc. subst K1. cbv beta iota.
    destruct (lo_take2 c c2 v0 a0 (count1 v0) (count2 v0) (minGallop v0)
                Hcfg0 ltac:(lia) H2)
      as (y' & a5 & Hy' & Hgy' & Hsy' & Hcfg5).
    rewrite (step_a_get _ y') by done.
    rewrite (step_a_set _ _ a5) by done. cbv zeta.
    pose proof Hcfg0 as (_ & _ & _ & _ & _ & _ & Hl20 & _).
    destruct (Z.eqb_spec (len2 v0 - 1) 0).
    { exists BreakOuter, c, (S c2). do 2 eexists. exists [].
      rewrite app_nil_r. split; [reflexivity|]. split; [exact Hcfg5|].
      repeat split; try (intros; lia). right. lia. }
    destruct (lo_take1 c (S c2) _ a5 (count1 v0) (count2 v0) (minGallop v0)
                Hcfg5 ltac:(lia))
      as (x & _ & Hx & Hgx & _ & _).
    cbn [cursor1] in Hgx.
    rewrite (step_arr_get _ _ x) by done. rewrite step_get_a.
    pose proof Hcfg5 as (_ & _ & _ & Hc25 & Hd5 & _ & Hl25 & merged & gap & Ha5 & Hm5 & Hg5 & _).
    cbn [cursor2 dest len2] in Hc25, Hd5, Hl25.
    destruct (gallopLeft_in x a5 (pre ++ merged ++ gap) (drop (S c2) run2) post fuel
                (cursor2 v0 + 1) (len2 v0 - 1) (mkState a5 rb rl ss tr0))
      as (k2 & evs2 & Hk2 & Hrun2 & Hq2 & _).
    { rewrite Ha5. by rewrite <- !app_assoc. }
    { rewrite Hc25. list_len. }
    { rewrite length_drop. lia. }
    { rewrite length_drop. lia. }
    { rewrite length_drop. lia. }
    { rewrite length_drop. lia. }
    rewrite length_drop in Hk2.
    cbn [global_a runBase runLen stackSize trace] in Hrun2.
    rewrite (step_ok _ _ _ _ _ Hrun2).
    cbn [cursor1 cursor2 dest len1 len2 count1 count2 minGallop].
    assert (Hplain2 : Forall no_mg (Log gallop_left_msg :: evs2)).
    { constructor; [done|]. by apply compares_no_mg. }
    clear Hrun2.
    match goal with |- context [bind _ ?K _] => set (K2 := K) end.
    (* from the move of the element of the first run on *)
    assert (Hrest2 : forall (c' : nat) v1 a1,
               lo_config c c' v1 a1 -> (S c2 <= c' < length run2)%nat ->
               exists k c1' c2' v' a' evs,
                 K2 (Fallthrough, v1)
                    (mkState a1 rb rl ss (tr0 ++ Log gallop_left_msg :: evs2))
                 = Ok ((k, v'), mkState a' rb rl ss
                                  ((tr0 ++ Log gallop_left_msg :: evs2) ++ evs)) /\
                 lo_config c1' c2' v' a' /\
                 (c + c' < c1' + c2')%nat /\ (c <= c1')%nat /\ (c' <= c2')%nat /\
                 mg_run (minGallop v1) evs = Some (minGallop v') /\
                 lo_exit_gallop k c1' c2' /\ (lo_contract -> (c1' < length run1)%nat)).
    { intros c' v1 a1 Hcfg1 Hc'. subst K2. cbv beta iota.
      destruct (lo_take1 c c' v1 a1 (count1 v1) (count2 v1) (minGallop v1)
                  Hcfg1 ltac:(lia))
        as (x1 & a8 & Hx1 & Hgx1 & Hsx1 & Hcfg8).
      rewrite (step_arr_get _ _ x1) by done.
      rewrite (step_a_set _ _ a8) by done. cbv zeta.
      pose proof Hcfg1 as (_ & _ & _ & _ & _ & Hl11 & _).
      destruct (Z.eqb_spec (len1 v1 - 1) 1).
      { exists BreakOuter, (S c), c'. do 2 eexists. exists [].
        rewrite app_nil_r. split; [reflexivity|]. split; [exact Hcfg8|].
        repeat split; try (intros; lia). left. lia. }
      rewrite step_emit.
      cbn [cursor1 cursor2 dest len1 len2 count1 count2 minGallop].
      set (v9 := mkVars _ _ _ _ _ _ _ (minGallop v1 - 1)).
      assert (Hcfg9 : lo_config (S c) c' v9 a8) by exact Hcfg8.
      destruct (_ || _).
      - destruct (IH (S c) c' v9 a8 rb rl ss
                    ((tr0 ++ Log gallop_left_msg :: evs2)
                       ++ [MinGallop GDecrement (minGallop v1 - 1)]) Hcfg9)
          as (k & c1' & c2' & v' & a' & evs & Hrun & Hcfg' & Hp & Hm1 & Hm2 & Hmg & Hex & Hne);
          [lia|lia|lia|].
        exists k, c1', c2', v', a', (MinGallop GDecrement (minGallop v1 - 1) :: evs).
        split; [rewrite Hrun; by rewrite <- !app_assoc|].
        split; [done|]. repeat split; try (intros; lia); [|done|done].
        by rewrite (mg_run_step GDecrement _ (minGallop v1 - 1)).
      - exists Fallthrough, (S c), c', v9, a8, [MinGallop GDecrement (minGallop v1 - 1)].
        split; [reflexivity|]. split; [done|].
        repeat split; try (intros; lia).
        by rewrite (mg_run_step GDecrement _ (minGallop v1 - 1)). }
    (* the block of the second run *)
    assert (Hwrap : forall k c1' c2' v' a' evs c' v1,
               (S c2 <= c')%nat -> minGallop v1 = minGallop v0 ->
               lo_config c1' c2' v' a' /\
               (c + c' < c1' + c2')%nat /\ (c <= c1')%nat /\ (c' <= c2')%nat /\
               mg_run (minGallop v1) evs = Some (minGallop v') /\
               lo_exit_gallop k c1' c2' /\ (lo_contract -> (c1' < length run1)%nat) ->
               lo_config c1' c2' v' a' /\
               (c + c2 < c1' + c2')%nat /\ (c <= c1')%nat /\ (c2 <= c2')%nat /\
               mg_run (minGallop v0) ((Log gallop_left_msg :: evs2) ++ evs)
               = Some (minGallop v') /\
               lo_exit_gallop k c1' c2' /\ (lo_contract -> (c1' < length run1)%nat)).
    { intros k c1' c2' v' a' evs c' v1 Hc' Hmg (Ha & Hb & Hc0 & Hd0 & He & Hf & Hg).
      split; [done|]. do 3 (split; [lia|]). split; [|done].
      rewrite (mg_run_app _ _ _ _ (mg_run_plain _ _ Hplain2)). by rewrite <- Hmg. }
    destruct (Z.eqb_spec (Z.of_nat k2) 0) as [Hz|Hnz]; cbn [negb].
    - rewrite step_ret.
      match goal with |- context [K2 (Fallthrough, ?vv) _] =>
        destruct (Hrest2 (S c2) vv a5 Hcfg5 ltac:(lia))
          as (k & c1' & c2' & v' & a' & evs & Hrun & Hall)
      end.
      exists k, c1', c2', v', a', ((Log gallop_left_msg :: evs2) ++ evs).
      split; [rewrite Hrun; by rewrite <- !app_assoc|].
      by apply (Hwrap k c1' c2' v' a' evs (S c2) _ ltac:(lia) eq_refl).
    - destruct (lo_copy2 c (S c2) k2 _ a5 (count1 v0) (Z.of_nat k2) (minGallop v0)
                  Hcfg5 ltac:(lia))
        as (a7 & Hcopy & Hcfg7).
      cbn [cursor1 cursor2 dest len1 len2] in Hcopy, Hcfg7.
      rewrite bind_assoc, (step_a_arraycopy _ _ _ a7) by done.
      rewrite step_ret.
      destruct (Z.eqb_spec (len2 v0 - 1 - Z.of_nat k2) 0).
      + subst K2. cbv beta iota.
        exists BreakOuter, c, (S c2 + k2)%nat. do 2 eexists.
        exists (Log gallop_left_msg :: evs2).
        split; [reflexivity|]. split; [exact Hcfg7|].
        repeat split; try (intros; lia); [by apply mg_run_plain|]. right. lia.
      + match goal with |- context [K2 (Fallthrough, ?vv) _] =>
          destruct (Hrest2 (S c2 + k2)%nat vv a7 Hcfg7 ltac:(lia))
            as (k & c1' & c2' & v' & a' & evs & Hrun & Hall)
        end.
        exists k, c1', c2', v', a', ((Log gallop_left_msg :: evs2) ++ evs).
        split; [rewrite Hrun; by rewrite <- !app_assoc|].
        by apply (Hwrap k c1' c2' v' a' evs (S c2 + k2)%nat _ ltac:(lia) eq_refl). }
  (* the block of the first run *)
  assert (Hwrap1 : forall k c1' c2' v' a' evs c v0,
             (c1 <= c)%nat -> minGallop v0 = minGallop v ->
             lo_config c1' c2' v' a' /\
             (c + c2 < c1' + c2')%nat /\ (c <= c1')%nat /\ (c2 <= c2')%nat /\
             mg_run (minGallop v0) evs = Some (minGallop v') /\
             lo_exit_gallop k c1' c2' /\ (lo_contract -> (c1' < length run1)%nat) ->
             lo_config c1' c2' v' a' /\
             (c1 + c2 < c1' + c2')%nat /\ (c1 <= c1')%nat /\ (c2 <= c2')%nat /\
             mg_run (minGallop v) ((Log gallop_right_msg :: evs1) ++ evs)
             = Some (minGallop v') /\
             lo_exit_gallop k c1' c2' /\ (lo_contract -> (c1' < length run1)%nat)).
  { intros k c1' c2' v' a' evs c v0 Hc Hmg (Ha & Hb & Hc0 & Hd0 & He & Hf & Hg).
    split; [done|]. do 3 (split; [lia|]). split; [|done].
    rewrite (mg_run_app _ _ _ _ (mg_run_plain _ _ Hplain1)). by rewrite <- Hmg. }
  destruct (Z.eqb_spec (Z.of_nat k1) 0) as [Hz|Hnz]; cbn [negb].
  - rewrite step_ret.
    match goal with |- context [K1 (Fallthrough, ?vv) _] =>
      destruct (Hrest c1 vv a (tr ++ Log gallop_right_msg :: evs1) Hcfg
                  ltac:(lia) ltac:(lia))
        as (k & c1' & c2' & v' & a' & evs & Hrun & Hall)
    end.
    exists k, c1', c2', v', a', ((Log gallop_right_msg :: evs1) ++ evs).
    split; [rewrite Hrun; by rewrite <- !app_assoc|].
    by apply (Hwrap1 k c1' c2' v' a' evs c1 _ ltac:(lia) eq_refl).
  - destruct (lo_copy1 c1 c2 k1 v a (Z.of_nat k1) (count2 v) (minGallop v)
                Hcfg ltac:(lia))
      as (a4 & Hcopy & Hcfg4).
    rewrite bind_assoc, (step_a_arraycopy_from _ _ _ _ a4) by done.
    rewrite step_ret.
    destruct (Z.leb_spec (len1 v - Z.of_nat k1) 1).
    + subst K1. cbv beta iota.
      exists BreakOuter, (c1 + k1)%nat, c2. do 2 eexists.
      exists (Log gallop_right_msg :: evs1).
      split; [reflexivity|]. split; [exact Hcfg4|].
      repeat split; try (intros; lia); [by apply mg_run_plain|left; lia|done].
    + match goal with |- context [K1 (Fallthrough, ?vv) _] =>
        destruct (Hrest (c1 + k1)%nat vv a4 (tr ++ Log gallop_right_msg :: evs1) Hcfg4
                    ltac:(lia) ltac:(lia))
          as (k & c1' & c2' & v' & a' & evs & Hrun & Hall)
      end.
      exists k, c1', c2', v', a', ((Log gallop_right_msg :: evs1) ++ evs).
      split; [rewrite Hrun; by rewrite <- !app_assoc|].
      by apply (Hwrap1 k c1' c2' v' a' evs (c1 + k1)%nat _ ltac:(lia) eq_refl).
Qed.

Lemma leave_gallop_max (mg : Z) : leave_gallop mg = Z.max mg 0 + 2.
Proof. unfold leave_gallop. destruct (Z.ltb_spec mg 0); lia. Qed.

Lemma lo_outer_spec (fuel : nat) :
  (length run1 + length run2 < fuel)%nat ->
  Z.of_nat (length run1) < 2 ^ 32 -> Z.of_nat (length run2) < 2 ^ 32 ->
  forall (n c1 c2 : nat) (v : merge_vars) a rb rl ss tr,
    lo_config c1 c2 v a ->
    (c1 + 2 <= length run1)%nat -> (c2 < length run2)%nat ->
    ((length run1 - c1) + (length run2 - c2) < n)%nat ->
    exists c1' c2' v' a' evs,
      mergeLo_outer compareFn fuel n run1 v (mkState a rb rl ss tr)
      = Ok (v', mkState a' rb rl ss (tr ++ evs)) /\
      lo_config c1' c2' v' a' /\
      mg_run (minGallop v) evs = Some (minGallop v') /\
      ((length run1 <= c1' + 1 /\ c2' < length run2)%nat
       \/ (c2' = length run2 /\ c1' + 2 <= length run1)%nat) /\
      (lo_contract -> (c1' < length run1)%nat).
Proof.
  intros Hfuel Hsize1 Hsize2.
  induction n as [|n IH]; intros c1 c2 v a rb rl ss tr Hcfg H1 H2 Hn; [lia|].
  cbn [mergeLo_outer]. cbv zeta.
  match goal with |- context [mergeLo_straight _ _ _ ?vv] => set (v0 := vv) end.
  destruct (lo_straight_spec fuel c1 c2 v0 a rb rl ss tr Hcfg H1 H2 ltac:(lia))
    as (k & c1s & c2s & vs & a_s & evs_s & Hrun_s & Hcfg_s & Hp_s & Hm1 & Hm2
        & Hmg_s & Hq_s & Hex_s).
  rewrite (step_ok _ _ _ _ _ Hrun_s). cbv beta iota.
  assert (Hplain : mg_run (minGallop v) evs_s = Some (minGallop vs)).
  { rewrite Hmg_s. by apply mg_run_plain, compares_no_mg. }
  destruct k; cbn [lo_exit] in Hex_s.
  2:{ exists c1s, c2s, vs, a_s, evs_s. split; [reflexivity|].
      split; [done|]. split; [done|]. split; [lia|intros; lia]. }
  destruct (lo_gallop_spec fuel ltac:(lia) ltac:(lia) Hsize1 Hsize2
              fuel c1s c2s vs a_s rb rl ss (tr ++ evs_s) Hcfg_s)
    as (k & c1g & c2g & vg & a_g & evs_g & Hrun_g & Hcfg_g & Hp_g & Hm1g & Hm2g
        & Hmg_g & Hex_g & Hne_g); [lia|lia|lia|].
  rewrite (step_ok _ _ _ _ _ Hrun_g). cbv beta iota.
  assert (Hchain : mg_run (minGallop v) (evs_s ++ evs_g) = Some (minGallop vg)).
  { by rewrite (mg_run_app _ _ _ _ Hplain). }
  destruct k; cbn [lo_exit_gallop] in Hex_g.
  2:{ exists c1g, c2g, vg, a_g, (evs_s ++ evs_g).
      split; [unfold ret; by rewrite <- app_assoc|].
      split; [done|]. split; [done|]. split; [lia|done]. }
  rewrite step_emit. cbn [minGallop].
  match goal with |- context [mergeLo_outer _ _ _ _ ?vv] => set (vp := vv) end.
  destruct (IH c1g c2g vp a_g rb rl ss
              (((tr ++ evs_s) ++ evs_g) ++ [MinGallop GPenalty (leave_gallop (minGallop vg))])
              Hcfg_g)
    as (c1' & c2' & v' & a' & evs & Hrun & Hcfg' & Hmg & Hex & Hne); [lia|lia|lia|].
  exists c1', c2', v', a',
    ((evs_s ++ evs_g) ++ MinGallop GPenalty (leave_gallop (minGallop vg)) :: evs).
  split.
  { rewrite Hrun. do 3 f_equal. rewrite <- !app_assoc. done. }
  split; [done|]. split; [|done].
  rewrite (mg_run_app _ _ _ _ Hchain).
  rewrite (mg_run_step GPenalty); [exact Hmg|].
  cbn [mg_next]. by rewrite leave_gallop_max.
Qed.

(** The array holds the two runs merged into one range. *)
Definition merged_range (a' : list T) : Prop :=
  exists merged, a' = pre ++ merged ++ post /\ merged ≡ₚ run1 ++ run2.

Lemma lo_end_spec (c1 c2 : nat) (v : merge_vars) a rb rl ss tr :
  lo_config c1 c2 v a ->
  ((length run1 <= c1 + 1 /\ c2 < length run2)%nat
   \/ (c2 = length run2 /\ c1 + 2 <= length run1)%nat) ->
  exists final,
    mg_run (minGallop v) [MinGallop GWriteBack final] = Some final /\
    if decide (c1 = length run1)
    then mergeLo_end run1 v (mkState a rb rl ss tr) = Throw contract_violation
    else exists a',
        mergeLo_end run1 v (mkState a rb rl ss tr)
        = Ok (tt, mkState a' rb rl ss (tr ++ [MinGallop GWriteBack final])) /\
        merged_range a'.
Proof.
  intros Hcfg Hex. pose proof Hcfg as (Hb1 & Hb2 & Hc1 & Hc2 & Hd & Hl1 & Hl2 & _).
  destruct v as [cu1 cu2 de l1 l2 n1 n2 mg].
  cbn [cursor1 cursor2 dest len1 len2 minGallop] in *.
  exists (if mg <? 1 then 1 else mg). split.
  { rewrite (mg_run_step GWriteBack); [done|]. cbn [mg_next]. f_equal.
    destruct (Z.ltb_spec mg 1); lia. }
  unfold mergeLo_end. rewrite step_emit.
  destruct (decide (c1 = length run1)) as [->|Hne].
  { destruct (Z.eqb_spec l1 1); [lia|]. destruct (Z.eqb_spec l1 0); [done|lia]. }
  destruct (Z.eqb_spec l1 1).
  - (* one element of the first run left: the rest of the second run
       moves down and that element goes last *)
    destruct (lo_copy2 c1 c2 (length run2 - c2) _ a n1 n2 mg Hcfg ltac:(lia))
      as (a1 & Hcopy & Hcfg1).
    cbn [cursor1 cursor2 dest len1 len2] in Hcopy, Hcfg1.
    rewrite <- Hl2 in Hcopy, Hcfg1.
    rewrite (step_a_arraycopy _ _ _ a1) by done.
    destruct (lo_take1 c1 _ _ a1 n1 n2 mg Hcfg1 ltac:(lia))
      as (x & a2 & Hx & Hgx & Hsx & Hcfg2).
    cbn [cursor1 cursor2 dest len1 len2] in Hgx, Hsx, Hcfg2.
    rewrite (step_arr_get _ _ x) by done.
    exists a2. split; [by apply run_a_set|].
    assert (E1 : S c1 = length run1) by lia.
    assert (E2 : (c2 + (length run2 - c2))%nat = length run2) by lia.
    rewrite E1, E2 in Hcfg2. by apply (lo_config_done _ _ Hcfg2).
  - destruct (Z.eqb_spec l1 0); [lia|].
    (* the second run is used up: what is left of the first is copied in *)
    destruct (lo_copy1 c1 c2 (length run1 - c1) _ a n1 n2 mg Hcfg ltac:(lia))
      as (a1 & Hcopy & Hcfg1).
    cbn [cursor1 cursor2 dest len1 len2] in Hcopy, Hcfg1.
    rewrite <- Hl1 in Hcopy, Hcfg1.
    exists a1. split; [by apply run_a_arraycopy_from|].
    assert (E1 : (c1 + (length run1 - c1))%nat = length run1) by lia.
    assert (E2 : c2 = length run2) by lia.
    rewrite E1, E2 in Hcfg1. by apply (lo_config_done _ _ Hcfg1).
Qed.

(** The assignments to [minGallop] in the trace of one merge: none, or
    the initial 7 followed by steps that each start from the value the
    step before left. *)
Definition mg_valid (evs : list event) : Prop :=
  Forall no_mg evs
  \/ exists rest final,
      evs = MinGallop GInit MIN_GALLOP :: rest /\
      mg_run MIN_GALLOP rest = Some final.

Definition merge_lo_msg : string := "entering merge lo".

Lemma mergeLo_spec (fuel : nat) rb rl ss tr :
  (1 <= length run1)%nat -> (1 <= length run2)%nat ->
  (length run1 + length run2 < fuel)%nat ->
  Z.of_nat (length run1) < 2 ^ 32 -> Z.of_nat (length run2) < 2 ^ 32 ->
  let call := mergeLo compareFn fuel
                (Z.of_nat (length pre)) (Z.of_nat (length run1))
                (Z.of_nat (length pre + length run1)) (Z.of_nat (length run2))
                (mkState (pre ++ run1 ++ run2 ++ post) rb rl ss tr) in
  (call = Throw contract_violation /\ ~ lo_contract)
  \/ exists a' evs,
      call = Ok (tt, mkState a' rb rl ss (tr ++ Log merge_lo_msg :: evs)) /\
      merged_range a' /\ mg_valid evs.
Proof.
  intros Hn1 Hn2 Hfuel Hsize1 Hsize2. cbv zeta. unfold mergeLo.
  rewrite step_log, step_get_a. fold merge_lo_msg. cbv zeta.
  rewrite (js_slice_middle pre run1 (run2 ++ post)) by done.
  destruct (lo_take2 0 0 _ _ 0 0 MIN_GALLOP lo_config_start ltac:(lia) ltac:(lia))
    as (y & a1 & Hy & Hgy & Hsy & Hcfg1).
  cbn [cursor1 cursor2 dest len1 len2] in Hgy, Hsy, Hcfg1.
  rewrite (step_a_get _ y) by done.
  rewrite (step_a_set _ _ a1) by done.
  destruct (Z.eqb_spec (Z.of_nat (length run2) - 1) 0).
  { (* the second run had one element *)
    right.
    destruct (lo_copy1 0 1 (length run1) _ a1 0 0 MIN_GALLOP Hcfg1 ltac:(lia))
      as (a2 & Hcopy & Hcfg2).
    cbn [cursor1 cursor2 dest len1 len2] in Hcopy, Hcfg2.
    exists a2, []. split; [by apply run_a_arraycopy_from|].
    split; [|left; constructor].
    eapply lo_config_done, lo_config_eq; [| |exact Hcfg2]; lia. }
  destruct (Z.eqb_spec (Z.of_nat (length run1)) 1).
  { (* the first run had one element *)
    right.
    destruct (lo_copy2 0 1 (length run2 - 1) _ a1 0 0 MIN_GALLOP Hcfg1 ltac:(lia))
      as (a2 & Hcopy & Hcfg2).
    cbn [cursor1 cursor2 dest len1 len2] in Hcopy, Hcfg2.
    replace (Z.of_nat (length run2 - 1)) with (Z.of_nat (length run2) - 1)
      in Hcopy, Hcfg2 by lia.
    rewrite (step_a_arraycopy _ _ _ a2) by done.
    destruct (lo_take1 0 _ _ a2 0 0 MIN_GALLOP Hcfg2 ltac:(lia))
      as (x & a3 & Hx & Hgx & Hsx & Hcfg3).
    cbn [cursor1 cursor2 dest len1 len2] in Hgx, Hsx, Hcfg3.
    rewrite (step_arr_get _ _ x) by done.
    exists a3, []. split; [by apply run_a_set|].
    split; [|left; constructor].
    eapply lo_config_done, lo_config_eq; [| |exact Hcfg3]; lia. }
  rewrite step_emit.
  destruct (lo_outer_spec fuel Hfuel Hsize1 Hsize2 fuel 0 1 _ a1 rb rl ss
              ((tr ++ [Log merge_lo_msg]) ++ [MinGallop GInit MIN_GALLOP]) Hcfg1)
    as (c1' & c2' & v' & a' & evs & Hrun & Hcfg' & Hmg & Hex & Hne); [lia|lia|lia|].
  rewrite (step_ok _ _ _ _ _ Hrun).
  destruct (lo_end_spec c1' c2' v' a' rb rl ss
              (((tr ++ [Log merge_lo_msg]) ++ [MinGallop GInit MIN_GALLOP]) ++ evs)
              Hcfg' Hex)
    as (final & Hfin & Hend).
  destruct (decide (c1' = length run1)) as [Heq|Hneq].
  - left. split; [done|]. intros Hct. specialize (Hne Hct). lia.
  - right. destruct Hend as (a'' & Hend & Hrange).
    exists a'', (MinGallop GInit MIN_GALLOP :: evs ++ [MinGallop GWriteBack final]).
    split; [|split; [done|]].
    + rewrite Hend. do 3 f_equal. rewrite <- !app_assoc. done.
    + right. exists (evs ++ [MinGallop GWriteBack final]), final.
      split; [done|]. cbn [minGallop] in Hmg.
      by rewrite (mg_run_app _ _ _ _ Hmg).
Qed.

End MergeLo.

(** *** mergeHi *)

Section MergeHi.
Variables (pre run1 run2 post : list T).

(** Where a merge from the high end stands with [m1] elements of the
    first run and [m2] of the second (which sits in [tmp]) still to
    take: what is left of the first run in place, a gap as long as what
    is left of the second, and the merged part. *)
Definition hi_config (m1 m2 : nat) (v : merge_vars) (a : list T) : Prop :=
  (m1 <= length run1)%nat /\ (m2 <= length run2)%nat /\
  cursor1 v = Z.of_nat (length pre + m1) - 1 /\
  cursor2 v = Z.of_nat m2 - 1 /\
  dest v = Z.of_nat (length pre + m1 + m2) - 1 /\
  len1 v = Z.of_nat m1 /\
  len2 v = Z.of_nat m2 /\
  exists gap merged,
    a = pre ++ take m1 run1 ++ gap ++ merged ++ post /\
    length gap = m2 /\
    length merged = ((length run1 - m1) + (length run2 - m2))%nat /\
    merged ≡ₚ drop m1 run1 ++ drop m2 run2.

Lemma hi_config_eq (m1 m2 m1' m2' : nat) (v : merge_vars) (a : list T) :
  m1 = m1' -> m2 = m2' -> hi_config m1 m2 v a -> hi_config m1' m2' v a.
Proof. by intros -> ->. Qed.

Lemma take_snoc (l : list T) (m : nat) :
  (1 <= m <= length l)%nat ->
  exists x, l !! (m - 1)%nat = Some x /\ take m l = take (m - 1) l ++ [x]
            /\ drop (m - 1) l = x :: drop m l.
Proof.
  intros Hm. destruct (lookup_lt_is_Some_2 l (m - 1)) as [x Hx]; [lia|].
  exists x. split; [done|]. split.
  - replace m with (S (m - 1)) at 1 by lia. by apply take_S_r.
  - replace m with (S (m - 1)) at 2 by lia. by apply drop_S.
Qed.

(** [a[dest--] = a[cursor1--]] *)
Lemma hi_take1 (m1 m2 : nat) (v : merge_vars) (a : list T) (n1 n2 mg : Z) :
  hi_config m1 m2 v a -> (1 <= m1)%nat -> (1 <= m2)%nat ->
  exists x a',
    run1 !! (m1 - 1)%nat = Some x /\
    JS.get a (cursor1 v) = Some x /\
    JS.set a (dest v) x = Some a' /\
    hi_config (m1 - 1) m2
      (mkVars (cursor1 v - 1) (cursor2 v) (dest v - 1) (len1 v - 1) (len2 v)
              n1 n2 mg) a'.
Proof.
  intros (H1 & H2 & Hc1 & Hc2 & Hd & Hl1 & Hl2 & gap & merged & -> & Hg & Hm & Hp)
         Hm1 Hm2.
  destruct (take_snoc run1 m1 ltac:(lia)) as (x & Hx & Htake & Hdrop).
  destruct gap as [|g gap _] using rev_ind; [cbn [length] in Hg; lia|].
  rewrite length_app in Hg. cbn [length] in Hg.
  assert (Htl : length (take (m1 - 1) run1) = (m1 - 1)%nat)
    by (rewrite length_take; lia).
  exists x, (pre ++ take (m1 - 1) run1 ++ ([x] ++ gap) ++ (x :: merged) ++ post).
  split; [done|]. split; [|split].
  - rewrite Hc1, Htake.
    replace (pre ++ (take (m1 - 1) run1 ++ [x]) ++ (gap ++ [g]) ++ merged ++ post)
      with ((pre ++ take (m1 - 1) run1)
              ++ x :: (gap ++ [g]) ++ merged ++ post)
      by (by rewrite <- !app_assoc).
    by rewrite (js_get_app _ _ _ 0%nat) by list_len.
  - rewrite Hd, Htake.
    replace (pre ++ (take (m1 - 1) run1 ++ [x]) ++ (gap ++ [g]) ++ merged ++ post)
      with ((pre ++ take (m1 - 1) run1 ++ [x] ++ gap) ++ g :: merged ++ post)
      by (by rewrite <- !app_assoc).
    rewrite (js_set_app _ _ _ 0%nat) by list_len.
    f_equal. cbn [insert list_insert]. by rewrite <- !app_assoc.
  - unfold hi_config. cbn [cursor1 cursor2 dest len1 len2].
    repeat split; try lia.
    exists ([x] ++ gap), (x :: merged). repeat split; try list_len.
    rewrite Hdrop. cbn [app]. by rewrite Hp.
Qed.

(** [a[dest--] = tmp[cursor2--]] *)
Lemma hi_take2 (m1 m2 : nat) (v : merge_vars) (a : list T) (n1 n2 mg : Z) :
  hi_config m1 m2 v a -> (1 <= m2)%nat ->
  exists y a',
    run2 !! (m2 - 1)%nat = Some y /\
    JS.get run2 (cursor2 v) = Some y /\
    JS.set a (dest v) y = Some a' /\
    hi_config m1 (m2 - 1)
      (mkVars (cursor1 v) (cursor2 v - 1) (dest v - 1) (len1 v) (len2 v - 1)
              n1 n2 mg) a'.
Proof.
  intros (H1 & H2 & Hc1 & Hc2 & Hd & Hl1 & Hl2 & gap & merged & -> & Hg & Hm & Hp)
         Hm2.
  destruct (take_snoc run2 m2 ltac:(lia)) as (y & Hy & Htake & Hdrop).
  destruct gap as [|g gap _] using rev_ind; [cbn [length] in Hg; lia|].
  rewrite length_app in Hg. cbn [length] in Hg.
  assert (Htl : length (take m1 run1) = m1) by (rewrite length_take; lia).
  exists y, (pre ++ take m1 run1 ++ gap ++ (y :: merged) ++ post).
  split; [done|]. split; [|split].
  - rewrite Hc2. by rewrite (js_get_at _ _ (m2 - 1)%nat) by lia.
  - rewrite Hd.
    replace (pre ++ take m1 run1 ++ (gap ++ [g]) ++ merged ++ post)
      with ((pre ++ take m1 run1 ++ gap) ++ g :: merged ++ post)
      by (by rewrite <- !app_assoc).
    rewrite (js_set_app _ _ _ 0%nat) by list_len.
    f_equal. cbn [insert list_insert]. by rewrite <- !app_assoc.
  - unfold hi_config. cbn [cursor1 cursor2 dest len1 len2].
    repeat split; try lia.
    exists gap, (y :: merged). repeat split; try list_len.
    rewrite Hdrop, Hp. apply Permutation_middle.
Qed.

(** The block of [k] elements at the top of what is left of the first
    run, moved up against the merged part. *)
Lemma hi_copy1 (m1 m2 k : nat) (v : merge_vars) (a : list T) (spos dpos len : Z) :
  hi_config m1 m2 v a -> (k <= m1)%nat -> len = Z.of_nat k ->
  spos = cursor1 v - len + 1 -> dpos = dest v - len + 1 ->
  exists a',
    arraycopy a spos a dpos len = Ok a' /\
    forall v',
      cursor1 v' = cursor1 v - len -> cursor2 v' = cursor2 v ->
      dest v' = dest v - len ->
      len1 v' = len1 v - len -> len2 v' = len2 v ->
      hi_config (m1 - k) m2 v' a'.
Proof.
  intros (H1 & H2 & Hc1 & Hc2 & Hd & Hl1 & Hl2 & gap & merged & -> & Hg & Hm & Hp)
         Hk -> -> ->.
  set (front := take (m1 - k) run1).
  set (B := drop (m1 - k) (take m1 run1)).
  assert (Hfront : length front = (m1 - k)%nat) by (subst front; rewrite length_take; lia).
  assert (HB : length B = k) by (subst B; rewrite length_drop, length_take; lia).
  assert (Hsplit : take m1 run1 = front ++ B).
  { subst front B. rewrite <- (take_drop (m1 - k) (take m1 run1)) at 1.
    f_equal. rewrite take_take. f_equal. lia. }
  exists (pre ++ front ++ take m2 (B ++ gap) ++ (B ++ merged) ++ post).
  split.
  - rewrite Hsplit.
    assert (Hsrc : pre ++ (front ++ B) ++ gap ++ merged ++ post
                   = (pre ++ front) ++ B ++ (gap ++ merged ++ post))
      by (by rewrite <- !app_assoc).
    assert (Hdst : pre ++ (front ++ B) ++ gap ++ merged ++ post
                   = (pre ++ front ++ take m2 (B ++ gap))
                       ++ drop m2 (B ++ gap) ++ (merged ++ post)).
    { rewrite <- !app_assoc. do 2 f_equal.
      rewrite (app_assoc (take m2 _)), take_drop. by rewrite <- app_assoc. }
    rewrite Hsrc at 1. rewrite Hdst.
    rewrite (arraycopy_spec (pre ++ front) B (gap ++ merged ++ post)
               (pre ++ front ++ take m2 (B ++ gap)) (drop m2 (B ++ gap))
               (merged ++ post)).
    + by rewrite <- !app_assoc.
    + rewrite Hc1. list_len.
    + rewrite Hd. rewrite !length_app, length_take, length_app. lia.
    + lia.
    + rewrite length_drop, length_app. lia.
  - intros v' E1 E2 E3 E4 E5. unfold hi_config.
    rewrite E1, E2, E3, E4, E5.
    repeat split; try lia.
    exists (take m2 (B ++ gap)), (B ++ merged). repeat split.
    + rewrite length_take, length_app. lia.
    + rewrite length_app. lia.
    + rewrite Hp. rewrite app_assoc. apply Permutation_app_tail.
      subst B.
      assert (E : drop (m1 - k) run1
                  = drop (m1 - k) (take m1 run1) ++ drop m1 run1).
      { rewrite <- (drop_app_le (take m1 run1)) by (rewrite length_take; lia).
        by rewrite take_drop. }
      by rewrite E.
Qed.

(** The block of [k] elements at the top of what is left of the second
    run, copied out of [tmp] against the merged part. *)
Lemma hi_copy2 (m1 m2 k : nat) (v : merge_vars) (a : list T) (spos dpos len : Z) :
  hi_config m1 m2 v a -> (k <= m2)%nat -> len = Z.of_nat k ->
  spos = cursor2 v - len + 1 -> dpos = dest v - len + 1 ->
  exists a',
    arraycopy run2 spos a dpos len = Ok a' /\
    forall v',
      cursor1 v' = cursor1 v -> cursor2 v' = cursor2 v - len ->
      dest v' = dest v - len ->
      len1 v' = len1 v -> len2 v' = len2 v - len ->
      hi_config m1 (m2 - k) v' a'.
Proof.
  intros (H1 & H2 & Hc1 & Hc2 & Hd & Hl1 & Hl2 & gap & merged & -> & Hg & Hm & Hp)
         Hk -> -> ->.
  set (C := take k (drop (m2 - k) run2)).
  assert (HC : length C = k) by (subst C; rewrite length_take, length_drop; lia).
  assert (Htl : length (take m1 run1) = m1) by (rewrite length_take; lia).
  exists (pre ++ take m1 run1 ++ take (m2 - k) gap ++ (C ++ merged) ++ post).
  split.
  - assert (Hsrc : run2 = take (m2 - k) run2 ++ C ++ drop m2 run2).
    { subst C. rewrite <- (take_drop (m2 - k) run2) at 1. f_equal.
      rewrite <- (take_drop k (drop (m2 - k) run2)) at 1. f_equal.
      rewrite drop_drop. f_equal. lia. }
    assert (Hdst : pre ++ take m1 run1 ++ gap ++ merged ++ post
                   = (pre ++ take m1 run1 ++ take (m2 - k) gap)
                       ++ drop (m2 - k) gap ++ (merged ++ post)).
    { rewrite <- !app_assoc. do 2 f_equal.
      rewrite (app_assoc (take _ gap)), take_drop. done. }
    rewrite Hsrc at 1. rewrite Hdst.
    rewrite (arraycopy_spec (take (m2 - k) run2) C (drop m2 run2)
               (pre ++ take m1 run1 ++ take (m2 - k) gap) (drop (m2 - k) gap)
               (merged ++ post)).
    + by rewrite <- !app_assoc.
    + rewrite Hc2, length_take. lia.
    + rewrite Hd. rewrite !length_app, !length_take. lia.
    + lia.
    + rewrite length_drop. lia.
  - intros v' E1 E2 E3 E4 E5. unfold hi_config.
    rewrite E1, E2, E3, E4, E5.
    repeat split; try lia.
    exists (take (m2 - k) gap), (C ++ merged). repeat split.
    + rewrite length_take. lia.
    + rewrite length_app. lia.
    + rewrite Hp. subst C.
      rewrite <- (take_drop k (drop (m2 - k) run2)) at 2.
      rewrite drop_drop. replace (m2 - k + k)%nat with m2 by lia.
      apply Permutation_app_swap_app.
Qed.

Lemma hi_config_done (v : merge_vars) (a : list T) :
  hi_config 0 0 v a ->
  exists merged, a = pre ++ merged ++ post /\ merged ≡ₚ run1 ++ run2.
Proof.
  intros (_ & _ & _ & _ & _ & _ & _ & gap & merged & -> & Hg & Hm & Hp).
  exists merged. destruct gap; [|cbn [length] in Hg; lia].
  rewrite !drop_0 in Hp. done.
Qed.

Lemma hi_config_start :
  hi_config (length run1) (length run2)
    (mkVars (Z.of_nat (length pre) + Z.of_nat (length run1) - 1)
            (Z.of_nat (length run2) - 1)
            (Z.of_nat (length pre + length run1) + Z.of_nat (length run2) - 1)
            (Z.of_nat (length run1)) (Z.of_nat (length run2)) 0 0 MIN_GALLOP)
    (pre ++ run1 ++ run2 ++ post).
Proof.
  unfold hi_config. cbn [cursor1 cursor2 dest len1 len2].
  repeat split; try lia.
  exists run2, []. rewrite firstn_all, !drop_all. repeat split; auto.
  list_len.
Qed.

(** How a block of the merge loop may leave the two runs: on
    [break outer] the first run is used up, or the second is down to one
    element (or to none); otherwise both go on. *)
Definition hi_exit (k : ctl) (m1 m2 : nat) : Prop :=
  match k with
  | BreakOuter => (m1 = 0 /\ 2 <= m2)%nat \/ (m2 <= 1 /\ 1 <= m1)%nat
  | Fallthrough => (1 <= m1 /\ 2 <= m2)%nat
  end.

Lemma hi_straight_spec (fuel : nat) :
  forall (m1 m2 : nat) (v : merge_vars) a rb rl ss tr,
    hi_config m1 m2 v a ->
    (1 <= m1)%nat -> (2 <= m2)%nat -> (m1 + m2 < fuel)%nat ->
    exists k m1' m2' v' a' evs,
      mergeHi_straight compareFn fuel run2 v (mkState a rb rl ss tr)
      = Ok ((k, v'), mkState a' rb rl ss (tr ++ evs)) /\
      hi_config m1' m2' v' a' /\
      (m1' + m2' < m1 + m2)%nat /\ (m1' <= m1)%nat /\ (m2' <= m2)%nat /\
      minGallop v' = minGallop v /\
      Forall is_compare evs /\
      (1 <= m2')%nat /\
      hi_exit k m1' m2'.
Proof.
  induction fuel as [|fuel IH]; intros m1 m2 v a rb rl ss tr Hcfg H1 H2 Hfuel; [lia|].
  cbn [mergeHi_straight].
  destruct (hi_take1 m1 m2 v a (count1 v + 1) 0 (minGallop v) Hcfg ltac:(lia) ltac:(lia))
    as (x & a1 & Hx & Hgx & Hsx & Hcfg1).
  destruct (hi_take2 m1 m2 v a 0 (count2 v + 1) (minGallop v) Hcfg ltac:(lia))
    as (y & a2 & Hy & Hgy & Hsy & Hcfg2).
  rewrite (step_arr_get _ _ y) by done.
  rewrite (step_a_get _ x) by done.
  rewrite step_compare.
  destruct (compareFn y x <? 0).
  - rewrite !bind_assoc. rewrite (step_a_get _ x) by done.
    rewrite bind_assoc, (step_a_set _ _ a1) by done.
    cbv zeta. rewrite step_ret. cbn [len1 count1 count2 minGallop].
    assert (Hl1 : len1 v = Z.of_nat m1) by (apply Hcfg).
    destruct (Z.eqb_spec (len1 v - 1) 0).
    { exists BreakOuter, (m1 - 1)%nat, m2. do 2 eexists. exists [Compare y x].
      split; [reflexivity|]. split; [exact Hcfg1|].
      repeat split; try lia; [by repeat constructor|]. left. lia. }
    destruct (JS.bor _ _ <? _).
    + destruct (IH (m1 - 1)%nat m2 _ a1 rb rl ss (tr ++ [Compare y x]) Hcfg1)
        as (k & m1' & m2' & v' & a' & evs & Hrun & Hcfg' & Hp & Hm1 & Hm2 & Hmg & Hq
            & Hpos & Hex);
        [lia|lia|lia|].
      exists k, m1', m2', v', a', (Compare y x :: evs).
      split; [rewrite Hrun; by rewrite <- app_assoc|].
      split; [done|]. repeat split; try lia; [done|by constructor|done].
    + exists Fallthrough, (m1 - 1)%nat, m2. do 2 eexists. exists [Compare y x].
      split; [reflexivity|]. split; [exact Hcfg1|].
      repeat split; try lia. by repeat constructor.
  - rewrite !bind_assoc. rewrite (step_arr_get _ _ y) by done.
    rewrite bind_assoc, (step_a_set _ _ a2) by done.
    cbv zeta. rewrite step_ret. cbn [len2 count1 count2 minGallop].
    assert (Hl2 : len2 v = Z.of_nat m2) by (apply Hcfg).
    destruct (Z.eqb_spec (len2 v - 1) 1).
    { exists BreakOuter, m1, (m2 - 1)%nat. do 2 eexists. exists [Compare y x].
      split; [reflexivity|]. split; [exact Hcfg2|].
      repeat split; try lia; [by repeat constructor|]. right. lia. }
    destruct (JS.bor _ _ <? _).
    + destruct (IH m1 (m2 - 1)%nat _ a2 rb rl ss (tr ++ [Compare y x]) Hcfg2)
        as (k & m1' & m2' & v' & a' & evs & Hrun & Hcfg' & Hp & Hm1 & Hm2 & Hmg & Hq
            & Hpos & Hex);
        [lia|lia|lia|].
      exists k, m1', m2', v', a', (Compare y x :: evs).
      split; [rewrite Hrun; by rewrite <- app_assoc|].
      split; [done|]. repeat split; try lia; [done|by constructor|done].
    + exists Fallthrough, m1, (m2 - 1)%nat. do 2 eexists. exists [Compare y x].
      split; [reflexivity|]. split; [exact Hcfg2|].
      repeat split; try lia. by repeat constructor.
Qed.

(** What mergeHi's contract asks of the runs, as far as the error branch
    goes: the second run ascending and its first element before every
    element of the first. *)
Definition hi_contract : Prop :=
  TotalOrder /\ ascending run2 /\
  forall z x, head run2 = Some z -> x ∈ run1 -> compareFn z x < 0.

Lemma hi_gallop2_short (m2 k : nat) (x : T) :
  hi_contract -> x ∈ run1 -> (1 <= m2 <= length run2)%nat ->
  Forall (fun y => (0 <? compareFn x y) = false) (drop k (take m2 run2)) ->
  (1 <= k)%nat.
Proof.
  intros (Hord & Hasc & Hhead) Hx Hm Hall.
  destruct (decide (1 <= k)%nat) as [|Hlt]; [done|exfalso].
  assert (k = 0%nat) as -> by lia. rewrite drop_0 in Hall.
  destruct (lookup_lt_is_Some_2 run2 0) as [z Hz]; [lia|].
  pose proof (Hhead z x ltac:(by rewrite head_lookup) Hx) as Hzx.
  rewrite Forall_lookup in Hall. specialize (Hall 0%nat z).
  rewrite lookup_take_lt in Hall by lia.
  specialize (Hall Hz). apply Z.ltb_ge in Hall.
  apply (cmp_antisym Hord) in Hzx. lia.
Qed.

Lemma gallopRight_at (key : T) (a X run Y : list T) (fuel h : nat)
    (base len hint : Z) st :
  a = X ++ run ++ Y -> base = Z.of_nat (length X) -> len = Z.of_nat (length run) ->
  hint = Z.of_nat h ->
  (h < length run)%nat -> (length run < fuel)%nat ->
  Z.of_nat (length run) < 2 ^ 32 ->
  gallop_result (fun c => negb (c <? 0)) key run gallop_right_msg st
    (gallopRight compareFn fuel key a base len hint st).
Proof. intros -> -> -> -> Hpos Hfuel Hsize. by apply gallopRight_spec. Qed.

Lemma gallopLeft_at (key : T) (a X run Y : list T) (fuel h : nat)
    (base len hint : Z) st :
  a = X ++ run ++ Y -> base = Z.of_nat (length X) -> len = Z.of_nat (length run) ->
  hint = Z.of_nat h ->
  (h < length run)%nat -> (length run < fuel)%nat ->
  Z.of_nat (length run) < 2 ^ 32 ->
  gallop_result (fun c => 0 <? c) key run gallop_left_msg st
    (gallopLeft compareFn fuel key a base len hint st).
Proof. intros -> -> -> -> Hpos Hfuel Hsize. by apply gallopLeft_spec. Qed.

Lemma hi_gallop_spec (fuel : nat) :
  (length run1 < fuel)%nat -> (length run2 < fuel)%nat ->
  Z.of_nat (length run1) < 2 ^ 32 -> Z.of_nat (length run2) < 2 ^ 32 ->
  forall (n m1 m2 : nat) (v : merge_vars) a rb rl ss tr,
    hi_config m1 m2 v a ->
    (1 <= m1)%nat -> (2 <= m2)%nat -> (m1 + m2 < n)%nat ->
    exists k m1' m2' v' a' evs,
      mergeHi_gallop compareFn fuel n run2 (Z.of_nat (length pre)) v
        (mkState a rb rl ss tr)
      = Ok ((k, v'), mkState a' rb rl ss (tr ++ evs)) /\
      hi_config m1' m2' v' a' /\
      (m1' + m2' < m1 + m2)%nat /\ (m1' <= m1)%nat /\ (m2' <= m2)%nat /\
      mg_run (minGallop v) evs = Some (minGallop v') /\
      hi_exit k m1' m2' /\
      (hi_contract -> (1 <= m2')%nat).
Proof.
  intros Hfuel1 Hfuel2 Hsize1 Hsize2.
  induction n as [|n IH]; intros m1 m2 v a rb rl ss tr Hcfg H1 H2 Hn; [lia|].
  cbn [mergeHi_gallop].
  (* the key from the second run, and how far down the first it reaches *)
  destruct (hi_take2 m1 m2 v a 0 0 0 Hcfg ltac:(lia))
    as (y & _ & Hy & Hgy & _ & _).
  rewrite (step_arr_get _ _ y) by done. rewrite step_get_a.
  pose proof Hcfg as (Hb1 & Hb2 & Hc1 & Hc2 & Hd & Hl1 & Hl2 & gap & merged & Ha & Hg
                      & Hm & Hp).
  destruct (gallopRight_at y a pre (take m1 run1) (gap ++ merged ++ post) fuel
              (m1 - 1) (Z.of_nat (length pre)) (len1 v) (len1 v - 1)
              (mkState a rb rl ss tr))
    as (k1 & evs1 & Hk1 & Hrun1 & Hq1 & _).
  { done. }
  { done. }
  { rewrite length_take. lia. }
  { lia. }
  { rewrite length_take. lia. }
  { rewrite length_take. lia. }
  { rewrite length_take. lia. }
  rewrite length_take in Hk1. cbn [global_a runBase runLen stackSize trace] in Hrun1.
  rewrite (step_ok _ _ _ _ _ Hrun1). cbv zeta.
  cbn [cursor1 cursor2 dest len1 len2 count1 count2 minGallop].
  assert (Hplain1 : Forall no_mg (Log gallop_right_msg :: evs1)).
  { constructor; [done|]. by apply compares_no_mg. }
  clear Hrun1 gap merged Ha Hg Hm Hp.
  match goal with |- context [bind _ ?K _] => set (K1 := K) end.
  (* from the move of the key on *)
  assert (Hrest : forall (m : nat) v0 a0 tr0,
             hi_config m m2 v0 a0 -> (1 <= m)%nat -> (m <= m1)%nat ->
             exists k m1' m2' v' a' evs,
               K1 (Fallthrough, v0) (mkState a0 rb rl ss tr0)
               = Ok ((k, v'), mkState a' rb rl ss (tr0 ++ evs)) /\
               hi_config m1' m2' v' a' /\
               (m1' + m2' < m + m2)%nat /\ (m1' <= m)%nat /\ (m2' <= m2)%nat /\
               mg_run (minGallop v0) evs = Some (minGallop v') /\
               hi_exit k m1' m2' /\ (hi_contract -> (1 <= m2')%nat)).
  { intros m v0 a0 tr0 Hcfg0 Hm Hmm. subst K1. cbv beta iota.
    destruct (hi_take2 m m2 v0 a0 (count1 v0) (count2 v0) (minGallop v0)
                Hcfg0 ltac:(lia))
      as (y' & a5 & Hy' & Hgy' & Hsy' & Hcfg5).
    rewrite (step_arr_get _ _ y') by done.
    rewrite (step_a_set _ _ a5) by done. cbv zeta.
    pose proof Hcfg0 as (_ & _ & _ & _ & _ & _ & Hl20 & _).
    destruct (Z.eqb_spec (len2 v0 - 1) 1).
    { exists BreakOuter, m, (m2 - 1)%nat. do 2 eexists. exists [].
      rewrite app_nil_r. split; [reflexivity|]. split; [exact Hcfg5|].
      repeat split; try (intros; lia). right. lia. }
    destruct (hi_take1 m (m2 - 1) _ a5 (count1 v0) (count2 v0) (minGallop v0)
                Hcfg5 ltac:(lia) ltac:(lia))
      as (x & _ & Hx & Hgx & _ & _).
    cbn [cursor1] in Hgx.
    rewrite (step_a_get _ x) by done.
    cbn [cursor1 cursor2 dest len1 len2 count1 count2 minGallop].
    destruct (gallopLeft_at x run2 [] (take (m2 - 1) run2) (drop (m2 - 1) run2) fuel
                (m2 - 2) 0 (len2 v0 - 1) (len2 v0 - 1 - 1) (mkState a5 rb rl ss tr0))
      as (k2 & evs2 & Hk2 & Hrun2 & Hq2 & Hfun2).
    { by rewrite app_nil_l, take_drop. }
    { done. }
    { rewrite length_take. lia. }
    { lia. }
    { rewrite length_take. lia. }
    { rewrite length_take. lia. }
    { rewrite length_take. lia. }
    rewrite length_take in Hk2.
    cbn [global_a runBase runLen stackSize trace] in Hrun2.
    rewrite (step_ok _ _ _ _ _ Hrun2). cbv zeta.
    cbn [cursor1 cursor2 dest len1 len2 count1 count2 minGallop].
    assert (Hplain2 : Forall no_mg (Log gallop_left_msg :: evs2)).
    { constructor; [done|]. by apply compares_no_mg. }
    assert (Hpos2 : hi_contract -> (1 <= k2)%nat).
    { intros Hct. pose proof Hct as (Hord & Hasc & _).
      apply (hi_gallop2_short (m2 - 1) k2 x Hct).
      - by eapply list_elem_of_lookup_2.
      - lia.
      - apply Hfun2. apply (monotone_left x _ Hord).
        rewrite <- (take_drop (m2 - 1) run2) in Hasc.
        by apply StronglySorted_app_1_l in Hasc. }
    clear Hrun2 Hfun2.
    match goal with |- context [bind _ ?K _] => set (K2 := K) end.
    (* from the move of the element of the first run on *)
    assert (Hrest2 : forall (m' : nat) v1 a1,
               hi_config m m' v1 a1 -> (2 <= m' <= m2 - 1)%nat ->
               exists k m1' m2' v' a' evs,
                 K2 (Fallthrough, v1)
                    (mkState a1 rb rl ss (tr0 ++ Log gallop_left_msg :: evs2))
                 = Ok ((k, v'), mkState a' rb rl ss
                                  ((tr0 ++ Log gallop_left_msg :: evs2) ++ evs)) /\
                 hi_config m1' m2' v' a' /\
                 (m1' + m2' < m + m')%nat /\ (m1' <= m)%nat /\ (m2' <= m')%nat /\
                 mg_run (minGallop v1) evs = Some (minGallop v') /\
                 hi_exit k m1' m2' /\ (hi_contract -> (1 <= m2')%nat)).
    { intros m' v1 a1 Hcfg1 Hm'. subst K2. cbv beta iota.
      destruct (hi_take1 m m' v1 a1 (count1 v1) (count2 v1) (minGallop v1)
                  Hcfg1 ltac:(lia) ltac:(lia))
        as (x1 & a8 & Hx1 & Hgx1 & Hsx1 & Hcfg8).
      rewrite (step_a_get _ x1) by done.
      rewrite (step_a_set _ _ a8) by done. cbv zeta.
      pose proof Hcfg1 as (_ & _ & _ & _ & _ & Hl11 & _).
      destruct (Z.eqb_spec (len1 v1 - 1) 0).
      { exists BreakOuter, (m - 1)%nat, m'. do 2 eexists. exists [].
        rewrite app_nil_r. split; [reflexivity|]. split; [exact Hcfg8|].
        repeat split; try (intros; lia). left. lia. }
      rewrite step_emit.
      cbn [cursor1 cursor2 dest len1 len2 count1 count2 minGallop].
      set (v9 := mkVars _ _ _ _ _ _ _ (minGallop v1 - 1)).
      assert (Hcfg9 : hi_config (m - 1) m' v9 a8) by exact Hcfg8.
      destruct (_ || _).
      - destruct (IH (m - 1)%nat m' v9 a8 rb rl ss
                    ((tr0 ++ Log gallop_left_msg :: evs2)
                       ++ [MinGallop GDecrement (minGallop v1 - 1)]) Hcfg9)
          as (k & m1' & m2' & v' & a' & evs & Hrun & Hcfg' & Hp & Hm1 & Hm2 & Hmg & Hex & Hne);
          [lia|lia|lia|].
        exists k, m1', m2', v', a', (MinGallop GDecrement (minGallop v1 - 1) :: evs).
        split; [rewrite Hrun; by rewrite <- !app_assoc|].
        split; [done|]. repeat split; try (intros; lia); [|done|done].
        by rewrite (mg_run_step GDecrement _ (minGallop v1 - 1)).
      - exists Fallthrough, (m - 1)%nat, m', v9, a8,
          [MinGallop GDecrement (minGallop v1 - 1)].
        split; [reflexivity|]. split; [done|].
        repeat split; try (intros; lia).
        by rewrite (mg_run_step GDecrement _ (minGallop v1 - 1)). }
    (* the block of the second run *)
    assert (Hwrap : forall k m1' m2' v' a' evs m' v1,
               (m' <= m2 - 1)%nat -> minGallop v1 = minGallop v0 ->
               hi_config m1' m2' v' a' /\
               (m1' + m2' < m + m')%nat /\ (m1' <= m)%nat /\ (m2' <= m')%nat /\
               mg_run (minGallop v1) evs = Some (minGallop v') /\
               hi_exit k m1' m2' /\ (hi_contract -> (1 <= m2')%nat) ->
               hi_config m1' m2' v' a' /\
               (m1' + m2' < m + m2)%nat /\ (m1' <= m)%nat /\ (m2' <= m2)%nat /\
               mg_run (minGallop v0) ((Log gallop_left_msg :: evs2) ++ evs)
               = Some (minGallop v') /\
               hi_exit k m1' m2' /\ (hi_contract -> (1 <= m2')%nat)).
    { intros k m1' m2' v' a' evs m' v1 Hm' Hmg (Ha & Hb & Hc0 & Hd0 & He & Hf & Hg).
      split; [done|]. do 3 (split; [lia|]). split; [|done].
      rewrite (mg_run_app _ _ _ _ (mg_run_plain _ _ Hplain2)). by rewrite <- Hmg. }
    destruct (Z.eqb_spec (len2 v0 - 1 - Z.of_nat k2) 0) as [Hz|Hnz]; cbn [negb].
    - rewrite step_ret.
      match goal with |- context [K2 (Fallthrough, ?vv) _] =>
        destruct (Hrest2 (m2 - 1)%nat vv a5 Hcfg5 ltac:(lia))
          as (k & m1' & m2' & v' & a' & evs & Hrun & Hall)
      end.
      exists k, m1', m2', v', a', ((Log gallop_left_msg :: evs2) ++ evs).
      split; [rewrite Hrun; by rewrite <- !app_assoc|].
      by apply (Hwrap k m1' m2' v' a' evs (m2 - 1)%nat _ ltac:(lia) eq_refl).
    - match goal with |- context [a_arraycopy_from _ ?sp ?dp ?ln] =>
        destruct (hi_copy2 m (m2 - 1) (m2 - 1 - k2) _ a5 sp dp ln Hcfg5)
          as (a7 & Hcopy & Hcfg7);
          [lia
          |cbn [cursor1 cursor2 dest len1 len2]; lia
          |cbn [cursor1 cursor2 dest len1 len2]; lia
          |cbn [cursor1 cursor2 dest len1 len2]; lia|]
      end.
      rewrite bind_assoc, (step_a_arraycopy_from _ _ _ _ a7) by done.
      rewrite step_ret.
      match goal with |- context [K2 (_, ?vv) _] =>
        pose proof (Hcfg7 vv eq_refl eq_refl eq_refl eq_refl eq_refl) as Hcfg7'
      end.
      destruct (Z.leb_spec (len2 v0 - 1 - (len2 v0 - 1 - Z.of_nat k2)) 1).
      + subst K2. cbv beta iota.
        exists BreakOuter, m, (m2 - 1 - (m2 - 1 - k2))%nat. do 2 eexists.
        exists (Log gallop_left_msg :: evs2).
        split; [reflexivity|]. split; [exact Hcfg7'|].
        repeat split; try lia; [by apply mg_run_plain|right; lia|].
        intros Hct. specialize (Hpos2 Hct). lia.
      + match goal with |- context [K2 (Fallthrough, ?vv) _] =>
          destruct (Hrest2 (m2 - 1 - (m2 - 1 - k2))%nat vv a7 Hcfg7' ltac:(lia))
            as (k & m1' & m2' & v' & a' & evs & Hrun & Hall)
        end.
        exists k, m1', m2', v', a', ((Log gallop_left_msg :: evs2) ++ evs).
        split; [rewrite Hrun; by rewrite <- !app_assoc|].
        by apply (Hwrap k m1' m2' v' a' evs (m2 - 1 - (m2 - 1 - k2))%nat _
                    ltac:(lia) eq_refl). }
  (* the block of the first run *)
  assert (Hwrap1 : forall k m1' m2' v' a' evs m v0,
             (m <= m1)%nat -> minGallop v0 = minGallop v ->
             hi_config m1' m2' v' a' /\
             (m1' + m2' < m + m2)%nat /\ (m1' <= m)%nat /\ (m2' <= m2)%nat /\
             mg_run (minGallop v0) evs = Some (minGallop v') /\
             hi_exit k m1' m2' /\ (hi_contract -> (1 <= m2')%nat) ->
             hi_config m1' m2' v' a' /\
             (m1' + m2' < m1 + m2)%nat /\ (m1' <= m1)%nat /\ (m2' <= m2)%nat /\
             mg_run (minGallop v) ((Log gallop_right_msg :: evs1) ++ evs)
             = Some (minGallop v') /\
             hi_exit k m1' m2' /\ (hi_contract -> (1 <= m2')%nat)).
  { intros k m1' m2' v' a' evs m v0 Hc Hmg (Ha & Hb & Hc0 & Hd0 & He & Hf & Hg).
    split; [done|]. do 3 (split; [lia|]). split; [|done].
    rewrite (mg_run_app _ _ _ _ (mg_run_plain _ _ Hplain1)). by rewrite <- Hmg. }
  destruct (Z.eqb_spec (len1 v - Z.of_nat k1) 0) as [Hz|Hnz]; cbn [negb].
  - rewrite step_ret.
    match goal with |- context [K1 (Fallthrough, ?vv) _] =>
      destruct (Hrest m1 vv a (tr ++ Log gallop_right_msg :: evs1) Hcfg
                  ltac:(lia) ltac:(lia))
        as (k & m1' & m2' & v' & a' & evs & Hrun & Hall)
    end.
    exists k, m1', m2', v', a', ((Log gallop_right_msg :: evs1) ++ evs).
    split; [rewrite Hrun; by rewrite <- !app_assoc|].
    by apply (Hwrap1 k m1' m2' v' a' evs m1 _ ltac:(lia) eq_refl).
  - match goal with |- context [a_arraycopy ?sp ?dp ?ln] =>
      destruct (hi_copy1 m1 m2 (m1 - k1) v a sp dp ln Hcfg)
        as (a4 & Hcopy & Hcfg4);
        [lia
        |cbn [cursor1 cursor2 dest len1 len2]; lia
        |cbn [cursor1 cursor2 dest len1 len2]; lia
        |cbn [cursor1 cursor2 dest len1 len2]; lia|]
    end.
    rewrite bind_assoc, (step_a_arraycopy _ _ _ a4) by done.
    rewrite step_ret.
    match goal with |- context [K1 (_, ?vv) _] =>
      pose proof (Hcfg4 vv eq_refl eq_refl eq_refl eq_refl eq_refl) as Hcfg4'
    end.
    destruct (Z.eqb_spec (len1 v - (len1 v - Z.of_nat k1)) 0).
    + subst K1. cbv beta iota.
      exists BreakOuter, (m1 - (m1 - k1))%nat, m2. do 2 eexists.
      exists (Log gallop_right_msg :: evs1).
      split; [reflexivity|]. split; [exact Hcfg4'|].
      repeat split; try (intros; lia); [by apply mg_run_plain|left; lia].
    + match goal with |- context [K1 (Fallthrough, ?vv) _] =>
        destruct (Hrest (m1 - (m1 - k1))%nat vv a4 (tr ++ Log gallop_right_msg :: evs1)
                    Hcfg4' ltac:(lia) ltac:(lia))
          as (k & m1' & m2' & v' & a' & evs & Hrun & Hall)
      end.
      exists k, m1', m2', v', a', ((Log gallop_right_msg :: evs1) ++ evs).
      split; [rewrite Hrun; by rewrite <- !app_assoc|].
      by apply (Hwrap1 k m1' m2' v' a' evs (m1 - (m1 - k1))%nat _ ltac:(lia) eq_refl).
Qed.

Lemma hi_outer_spec (fuel : nat) :
  (length run1 + length run2 < fuel)%nat ->
  Z.of_nat (length run1) < 2 ^ 32 -> Z.of_nat (length run2) < 2 ^ 32 ->
  forall (n m1 m2 : nat) (v : merge_vars) a rb rl ss tr,
    hi_config m1 m2 v a ->
    (1 <= m1)%nat -> (2 <= m2)%nat -> (m1 + m2 < n)%nat ->
    exists m1' m2' v' a' evs,
      mergeHi_outer compareFn fuel n run2 (Z.of_nat (length pre)) v
        (mkState a rb rl ss tr)
      = Ok (v', mkState a' rb rl ss (tr ++ evs)) /\
      hi_config m1' m2' v' a' /\
      mg_run (minGallop v) evs = Some (minGallop v') /\
      hi_exit BreakOuter m1' m2' /\
      (hi_contract -> (1 <= m2')%nat).
Proof.
  intros Hfuel Hsize1 Hsize2.
  induction n as [|n IH]; intros m1 m2 v a rb rl ss tr Hcfg H1 H2 Hn; [lia|].
  pose proof Hcfg as (Hb1 & Hb2 & _).
  cbn [mergeHi_outer]. cbv zeta.
  match goal with |- context [mergeHi_straight _ _ _ ?vv] => set (v0 := vv) end.
  destruct (hi_straight_spec fuel m1 m2 v0 a rb rl ss tr Hcfg H1 H2 ltac:(lia))
    as (k & m1s & m2s & vs & a_s & evs_s & Hrun_s & Hcfg_s & Hp_s & Hm1 & Hm2
        & Hmg_s & Hq_s & Hpos_s & Hex_s).
  rewrite (step_ok _ _ _ _ _ Hrun_s). cbv beta iota.
  assert (Hplain : mg_run (minGallop v) evs_s = Some (minGallop vs)).
  { rewrite Hmg_s. by apply mg_run_plain, compares_no_mg. }
  destruct k.
  2:{ exists m1s, m2s, vs, a_s, evs_s. split; [reflexivity|].
      split; [done|]. split; [done|]. split; [done|intros; lia]. }
  cbn [hi_exit] in Hex_s.
  destruct (hi_gallop_spec fuel ltac:(lia) ltac:(lia) Hsize1 Hsize2
              fuel m1s m2s vs a_s rb rl ss (tr ++ evs_s) Hcfg_s)
    as (k & m1g & m2g & vg & a_g & evs_g & Hrun_g & Hcfg_g & Hp_g & Hm1g & Hm2g
        & Hmg_g & Hex_g & Hne_g); [lia|lia|lia|].
  rewrite (step_ok _ _ _ _ _ Hrun_g). cbv beta iota.
  assert (Hchain : mg_run (minGallop v) (evs_s ++ evs_g) = Some (minGallop vg)).
  { by rewrite (mg_run_app _ _ _ _ Hplain). }
  destruct k.
  2:{ exists m1g, m2g, vg, a_g, (evs_s ++ evs_g).
      split; [unfold ret; by rewrite <- app_assoc|].
      split; [done|]. split; [done|]. split; [done|done]. }
  cbn [hi_exit] in Hex_g.
  rewrite step_emit. cbn [minGallop].
  match goal with |- context [mergeHi_outer _ _ _ _ _ ?vv] => set (vp := vv) end.
  destruct (IH m1g m2g vp a_g rb rl ss
              (((tr ++ evs_s) ++ evs_g) ++ [MinGallop GPenalty (leave_gallop (minGallop vg))])
              Hcfg_g)
    as (m1' & m2' & v' & a' & evs & Hrun & Hcfg' & Hmg & Hex & Hne); [lia|lia|lia|].
  exists m1', m2', v', a',
    ((evs_s ++ evs_g) ++ MinGallop GPenalty (leave_gallop (minGallop vg)) :: evs).
  split.
  { rewrite Hrun. do 3 f_equal. rewrite <- !app_assoc. done. }
  split; [done|]. split; [|done].
  rewrite (mg_run_app _ _ _ _ Hchain).
  rewrite (mg_run_step GPenalty); [exact Hmg|].
  cbn [mg_next]. by rewrite leave_gallop_max.
Qed.

Ltac hi_pick H :=
  match type of H with
  | forall v', cursor1 v' = ?c1 -> cursor2 v' = ?c2 -> dest v' = ?d ->
               len1 v' = ?l1 -> len2 v' = ?l2 -> _ =>
      specialize (H (mkVars c1 c2 d l1 l2 0 0 0)
                    eq_refl eq_refl eq_refl eq_refl eq_refl)
  end.

Lemma hi_end_spec (m1 m2 : nat) (v : merge_vars) a rb rl ss tr :
  hi_config m1 m2 v a ->
  hi_exit BreakOuter m1 m2 ->
  exists final,
    mg_run (minGallop v) [MinGallop GWriteBack final] = Some final /\
    if decide (m2 = 0%nat)
    then mergeHi_end run2 v (mkState a rb rl ss tr) = Throw contract_violation
    else exists a',
        mergeHi_end run2 v (mkState a rb rl ss tr)
        = Ok (tt, mkState a' rb rl ss (tr ++ [MinGallop GWriteBack final])) /\
        merged_range pre run1 run2 post a'.
Proof.
  intros Hcfg Hex. pose proof Hcfg as (Hb1 & Hb2 & Hc1 & Hc2 & Hd & Hl1 & Hl2 & _).
  cbn [hi_exit] in Hex.
  destruct v as [cu1 cu2 de l1 l2 n1 n2 mg].
  cbn [cursor1 cursor2 dest len1 len2 minGallop] in *.
  exists (if mg <? 1 then 1 else mg). split.
  { rewrite (mg_run_step GWriteBack); [done|]. cbn [mg_next]. f_equal.
    destruct (Z.ltb_spec mg 1); lia. }
  unfold mergeHi_end. rewrite step_emit. cbv zeta.
  destruct (decide (m2 = 0%nat)) as [->|Hne].
  { destruct (Z.eqb_spec l2 1); [lia|]. destruct (Z.eqb_spec l2 0); [done|lia]. }
  destruct (Z.eqb_spec l2 1).
  - (* one element of the second run left: what is left of the first
       moves up and that element goes first *)
    destruct (hi_copy1 m1 m2 m1 _ a (cu1 - l1 + 1) (de - l1 + 1) l1 Hcfg)
      as (a1 & Hcopy & Hcfg1);
      [lia|done|cbn [cursor1]; lia|cbn [dest]; lia|].
    cbn [cursor1 cursor2 dest len1 len2] in Hcfg1.
    rewrite (step_a_arraycopy _ _ _ a1) by done.
    specialize (Hcfg1 (mkVars (cu1 - l1) cu2 (de - l1) (l1 - l1) l2 n1 n2 mg)
                  eq_refl eq_refl eq_refl eq_refl eq_refl).
    destruct (hi_take2 _ _ _ a1 n1 n2 mg Hcfg1 ltac:(lia))
      as (y & a2 & Hy & Hgy & Hsy & Hcfg2).
    cbn [cursor1 cursor2 dest len1 len2] in Hgy, Hsy, Hcfg2.
    rewrite (step_arr_get _ _ y) by done.
    exists a2. split; [by apply run_a_set|].
    eapply hi_config_done, hi_config_eq; [| |exact Hcfg2]; lia.
  - destruct (Z.eqb_spec l2 0); [lia|].
    (* the first run is used up: what is left of the second is copied in *)
    destruct (hi_copy2 m1 m2 m2 _ a 0 (de - (l2 - 1)) l2 Hcfg)
      as (a1 & Hcopy & Hcfg1);
      [lia|done|cbn [cursor2]; lia|cbn [dest]; lia|].
    cbn [cursor1 cursor2 dest len1 len2] in Hcfg1.
    specialize (Hcfg1 (mkVars cu1 (cu2 - l2) (de - l2) l1 (l2 - l2) n1 n2 mg)
                  eq_refl eq_refl eq_refl eq_refl eq_refl).
    exists a1. split; [by apply run_a_arraycopy_from|].
    eapply hi_config_done, hi_config_eq; [| |exact Hcfg1]; lia.
Qed.

Definition merge_hi_msg : string := "entering merge hi".

Lemma mergeHi_spec (fuel : nat) rb rl ss tr :
  (1 <= length run1)%nat -> (1 <= length run2)%nat ->
  (length run1 + length run2 < fuel)%nat ->
  Z.of_nat (length run1) < 2 ^ 32 -> Z.of_nat (length run2) < 2 ^ 32 ->
  let call := mergeHi compareFn fuel
                (Z.of_nat (length pre)) (Z.of_nat (length run1))
                (Z.of_nat (length pre + length run1)) (Z.of_nat (length run2))
                (mkState (pre ++ run1 ++ run2 ++ post) rb rl ss tr) in
  (call = Throw contract_violation /\ ~ hi_contract)
  \/ exists a' evs,
      call = Ok (tt, mkState a' rb rl ss (tr ++ Log merge_hi_msg :: evs)) /\
      merged_range pre run1 run2 post a' /\ mg_valid evs.
Proof.
  intros Hn1 Hn2 Hfuel Hsize1 Hsize2. cbv zeta. unfold mergeHi.
  rewrite step_log, step_get_a. fold merge_hi_msg. cbv zeta.
  assert (Hslice : JS.slice (pre ++ run1 ++ run2 ++ post)
                     (Z.of_nat (length pre + length run1))
                     (Z.of_nat (length pre + length run1) + Z.of_nat (length run2))
                   = run2).
  { rewrite (app_assoc pre run1).
    apply (js_slice_middle (pre ++ run1) run2 post); [list_len|done]. }
  rewrite Hslice.
  destruct (hi_take1 _ _ _ _ 0 0 MIN_GALLOP hi_config_start ltac:(lia) ltac:(lia))
    as (x & a1 & Hx & Hgx & Hsx & Hcfg1).
  cbn [cursor1 cursor2 dest len1 len2] in Hgx, Hsx, Hcfg1.
  rewrite (step_a_get _ x) by done.
  rewrite (step_a_set _ _ a1) by done.
  destruct (Z.eqb_spec (Z.of_nat (length run1) - 1) 0).
  { (* the first run had one element *)
    right.
    match goal with |- context [a_arraycopy_from _ ?sp ?dp ?ln] =>
      destruct (hi_copy2 _ _ (length run2) _ a1 sp dp ln Hcfg1)
        as (a2 & Hcopy & Hcfg2);
        [lia|done
        |cbn [cursor1 cursor2 dest len1 len2]; lia
        |cbn [cursor1 cursor2 dest len1 len2]; lia|]
    end.
    exists a2, []. split; [by apply run_a_arraycopy_from|].
    split; [|left; constructor].
    hi_pick Hcfg2.
    eapply hi_config_done, hi_config_eq; [| |exact Hcfg2]; lia. }
  destruct (Z.eqb_spec (Z.of_nat (length run2)) 1).
  { (* the second run had one element *)
    right.
    match goal with |- context [a_arraycopy ?sp ?dp ?ln] =>
      destruct (hi_copy1 _ _ (length run1 - 1) _ a1 sp dp ln Hcfg1)
        as (a2 & Hcopy & Hcfg2);
        [lia
        |cbn [cursor1 cursor2 dest len1 len2]; lia
        |cbn [cursor1 cursor2 dest len1 len2]; lia
        |cbn [cursor1 cursor2 dest len1 len2]; lia|]
    end.
    rewrite (step_a_arraycopy _ _ _ a2) by done.
    hi_pick Hcfg2.
    destruct (hi_take2 _ _ _ a2 0 0 0 Hcfg2 ltac:(lia))
      as (y & a3 & Hy & Hgy & Hsy & Hcfg3).
    cbn [cursor1 cursor2 dest len1 len2] in Hgy, Hsy, Hcfg3.
    rewrite (step_arr_get _ _ y) by done.
    exists a3, []. split; [by apply run_a_set|].
    split; [|left; constructor].
    eapply hi_config_done, hi_config_eq; [| |exact Hcfg3]; lia. }
  rewrite step_emit.
  destruct (hi_outer_spec fuel Hfuel Hsize1 Hsize2 fuel _ _ _ a1 rb rl ss
              ((tr ++ [Log merge_hi_msg]) ++ [MinGallop GInit MIN_GALLOP]) Hcfg1)
    as (m1' & m2' & v' & a' & evs & Hrun & Hcfg' & Hmg & Hex & Hne); [lia|lia|lia|].
  rewrite (step_ok _ _ _ _ _ Hrun).
  destruct (hi_end_spec m1' m2' v' a' rb rl ss
              (((tr ++ [Log merge_hi_msg]) ++ [MinGallop GInit MIN_GALLOP]) ++ evs)
              Hcfg' Hex)
    as (final & Hfin & Hend).
  destruct (decide (m2' = 0%nat)) as [Heq|Hneq].
  - left. split; [done|]. intros Hct. specialize (Hne Hct). lia.
  - right. destruct Hend as (a'' & Hend & Hrange).
    exists a'', (MinGallop GInit MIN_GALLOP :: evs ++ [MinGallop GWriteBack final]).
    split; [|split; [done|]].
    + rewrite Hend. do 3 f_equal. rewrite <- !app_assoc. done.
    + right. exists (evs ++ [MinGallop GWriteBack final]), final.
      split; [done|]. cbn [minGallop] in Hmg.
      by rewrite (mg_run_app _ _ _ _ Hmg).
Qed.

End MergeHi.

(** *** The error branch of the merges *)

Definition no_throw {A} (m : M A) : Prop := forall st msg, m st <> Throw msg.

Lemma no_throw_bind {A B} (m : M A) (k : A -> M B) :
  no_throw m -> (forall x, no_throw (k x)) -> no_throw (bind m k).
Proof.
  intros Hm Hk st msg. unfold bind.
  destruct (m st) as [[x st']|msg'| |] eqn:E; try done.
  - apply Hk.
  - by destruct (Hm st msg').
Qed.

Lemma no_throw_option {A} (o : option A) : no_throw (lift (of_option o)).
Proof. intros st msg. unfold lift. by destruct o. Qed.

Lemma arraycopy_no_throw (s : list T) (spos : Z) (d : list T) (dpos len : Z) msg :
  arraycopy s spos d dpos len <> Throw msg.
Proof.
  unfold arraycopy. destruct (len <? 0); [done|].
  by destruct (arraycopy_loop _ _ _ _).
Qed.

Lemma no_throw_lift_arraycopy (s : list T) (spos : Z) (d : list T) (dpos len : Z) :
  no_throw (lift (arraycopy s spos d dpos len)).
Proof.
  intros st msg. unfold lift.
  pose proof (arraycopy_no_throw s spos d dpos len) as H.
  destruct (arraycopy s spos d dpos len) as [x|msg'| |]; try done.
  by destruct (H msg').
Qed.

Lemma no_throw_a_set (i : Z) (x : T) : no_throw (a_set i x).
Proof.
  unfold a_set. apply no_throw_bind; [done|]. intros a.
  apply no_throw_bind; [apply no_throw_option|done].
Qed.

Lemma no_throw_a_arraycopy (spos dpos len : Z) : no_throw (a_arraycopy spos dpos len).
Proof.
  unfold a_arraycopy. apply no_throw_bind; [done|]. intros a.
  apply no_throw_bind; [apply no_throw_lift_arraycopy|done].
Qed.

Lemma no_throw_a_arraycopy_from (src : list T) (spos dpos len : Z) :
  no_throw (a_arraycopy_from src spos dpos len).
Proof.
  unfold a_arraycopy_from. apply no_throw_bind; [done|]. intros a.
  apply no_throw_bind; [apply no_throw_lift_arraycopy|done].
Qed.

Lemma lo_end_throws (tmp : list T) (v : merge_vars) (st : state) (msg : string) :
  mergeLo_end tmp v st = Throw msg <-> len1 v = 0 /\ msg = contract_violation.
Proof.
  destruct v as [cu1 cu2 de l1 l2 n1 n2 mg]. destruct st as [a rb rl ss tr].
  cbn [len1]. unfold mergeLo_end. rewrite step_emit.
  destruct (Z.eqb_spec l1 1) as [E1|E1].
  { split; [|intros [? _]; lia]. intros H. exfalso. revert H.
    apply no_throw_bind; [apply no_throw_a_arraycopy|]. intros _.
    apply no_throw_bind; [apply no_throw_option|]. intros y.
    apply no_throw_a_set. }
  destruct (Z.eqb_spec l1 0) as [E0|E0].
  { unfold throw. split; [intros [= <-]; done|intros [_ ->]; done]. }
  split; [|intros [? _]; lia]. intros H. exfalso. revert H.
  apply no_throw_a_arraycopy_from.
Qed.

Lemma hi_end_throws (tmp : list T) (v : merge_vars) (st : state) (msg : string) :
  mergeHi_end tmp v st = Throw msg <-> len2 v = 0 /\ msg = contract_violation.
Proof.
  destruct v as [cu1 cu2 de l1 l2 n1 n2 mg]. destruct st as [a rb rl ss tr].
  cbn [len2]. unfold mergeHi_end. rewrite step_emit.
  destruct (Z.eqb_spec l2 1) as [E1|E1].
  { split; [|intros [? _]; lia]. intros H. exfalso. revert H. cbv zeta.
    apply no_throw_bind; [apply no_throw_a_arraycopy|]. intros _.
    apply no_throw_bind; [apply no_throw_option|]. intros y.
    apply no_throw_a_set. }
  destruct (Z.eqb_spec l2 0) as [E0|E0].
  { unfold throw. split; [intros [= <-]; done|intros [_ ->]; done]. }
  split; [|intros [? _]; lia]. intros H. exfalso. revert H.
  apply no_throw_a_arraycopy_from.
Qed.

Lemma no_throw_ret {A} (x : A) : no_throw (@ret T A x).
Proof. done. Qed.

Lemma no_throw_timeout {A} : no_throw (@timeout T A).
Proof. done. Qed.

Lemma no_throw_emit (e : event) : no_throw (emit e).
Proof. done. Qed.

Lemma no_throw_get_a : no_throw (@get_a T).
Proof. done. Qed.

Lemma no_throw_compare (x y : T) : no_throw (compare compareFn x y).
Proof. done. Qed.

Lemma no_throw_a_get (i : Z) : no_throw (@a_get T i).
Proof.
  unfold a_get. apply no_throw_bind; [done|]. intros a. apply no_throw_option.
Qed.

Lemma no_throw_arr_get (l : list T) (i : Z) : no_throw (arr_get l i).
Proof. apply no_throw_option. Qed.

Create HintDb no_throw.
#[local] Hint Resolve no_throw_ret no_throw_timeout no_throw_emit no_throw_get_a
  no_throw_compare no_throw_a_get no_throw_arr_get no_throw_a_set
  no_throw_a_arraycopy no_throw_a_arraycopy_from : no_throw.

Ltac no_throw_step :=
  first
    [ solve [auto with no_throw]
    | match goal with
      | |- no_throw (match ?x with _ => _ end) => destruct x
      end
    | apply no_throw_bind; [|intros ?] ].

Lemma no_throw_gallop_probe (fuel : nat) (test : Z -> bool) (key : T) (a : list T)
    (pos : Z -> Z) (maxOfs : Z) :
  forall lastOfs ofs,
    no_throw (gallop_probe compareFn fuel test key a pos maxOfs lastOfs ofs).
Proof.
  induction fuel as [|fuel IH]; intros lastOfs ofs; cbn [gallop_probe]; cbv zeta;
    repeat no_throw_step.
Qed.

Lemma no_throw_gallop_bisect (fuel : nat) (right : Z -> bool) (key : T) (a : list T)
    (base : Z) :
  forall lastOfs ofs,
    no_throw (gallop_bisect compareFn fuel right key a base lastOfs ofs).
Proof.
  induction fuel as [|fuel IH]; intros lastOfs ofs; cbn [gallop_bisect]; cbv zeta;
    repeat no_throw_step.
Qed.

#[local] Hint Resolve no_throw_gallop_probe no_throw_gallop_bisect : no_throw.

Lemma no_throw_gallopLeft (fuel : nat) (key : T) (a : list T) (base len hint : Z) :
  no_throw (gallopLeft compareFn fuel key a base len hint).
Proof. unfold gallopLeft, log. cbv zeta. repeat no_throw_step. Qed.

Lemma no_throw_gallopRight (fuel : nat) (key : T) (a : list T) (base len hint : Z) :
  no_throw (gallopRight compareFn fuel key a base len hint).
Proof. unfold gallopRight, log. cbv zeta. repeat no_throw_step. Qed.

#[local] Hint Resolve no_throw_gallopLeft no_throw_gallopRight : no_throw.

Lemma no_throw_mergeLo_straight (fuel : nat) (tmp : list T) :
  forall v, no_throw (mergeLo_straight compareFn fuel tmp v).
Proof.
  induction fuel as [|fuel IH]; intros v; cbn [mergeLo_straight]; cbv zeta;
    repeat no_throw_step.
Qed.

Lemma no_throw_mergeLo_gallop (fuel n : nat) (tmp : list T) :
  forall v, no_throw (mergeLo_gallop compareFn fuel n tmp v).
Proof.
  induction n as [|n IH]; intros v; cbn [mergeLo_gallop]; cbv zeta;
    repeat no_throw_step.
Qed.

Lemma no_throw_mergeHi_straight (fuel : nat) (tmp : list T) :
  forall v, no_throw (mergeHi_straight compareFn fuel tmp v).
Proof.
  induction fuel as [|fuel IH]; intros v; cbn [mergeHi_straight]; cbv zeta;
    repeat no_throw_step.
Qed.

Lemma no_throw_mergeHi_gallop (fuel n : nat) (tmp : list T) (base1 : Z) :
  forall v, no_throw (mergeHi_gallop compareFn fuel n tmp base1 v).
Proof.
  induction n as [|n IH]; intros v; cbn [mergeHi_gallop]; cbv zeta;
    repeat no_throw_step.
Qed.

#[local] Hint Resolve no_throw_mergeLo_straight no_throw_mergeLo_gallop
  no_throw_mergeHi_straight no_throw_mergeHi_gallop : no_throw.

Lemma no_throw_mergeLo_outer (fuel n : nat) (tmp : list T) :
  forall v, no_throw (mergeLo_outer compareFn fuel n tmp v).
Proof.
  induction n as [|n IH]; intros v; cbn [mergeLo_outer]; cbv zeta;
    repeat no_throw_step.
Qed.

Lemma no_throw_mergeHi_outer (fuel n : nat) (tmp : list T) (base1 : Z) :
  forall v, no_throw (mergeHi_outer compareFn fuel n tmp base1 v).
Proof.
  induction n as [|n IH]; intros v; cbn [mergeHi_outer]; cbv zeta;
    repeat no_throw_step.
Qed.

Lemma bind_throws {A B} (m : M A) (k : A -> M B) (st : state) (msg : string) :
  bind m k st = Throw msg ->
  m st = Throw msg \/ exists x st', m st = Ok (x, st') /\ k x st' = Throw msg.
Proof.
  unfold bind. destruct (m st) as [[x st']|msg'| |]; try done.
  - intros H. right. exists x, st'. by split.
  - intros [= ->]. by left.
Qed.

(** A throw of [mergeLo] comes from the code behind the loop [outer],
    left with [len1 == 0]. *)
Lemma mergeLo_throws (fuel : nat) (base1 l1 base2 l2 : Z) (st : state) (msg : string) :
  mergeLo compareFn fuel base1 l1 base2 l2 st = Throw msg ->
  exists tmp v0 st0 v st',
    mergeLo_outer compareFn fuel fuel tmp v0 st0 = Ok (v, st') /\
    len1 v = 0 /\ msg = contract_violation.
Proof.
  unfold mergeLo, log. intros H.
  apply bind_throws in H as [H|(_ & st1 & _ & H)]; [done|].
  apply bind_throws in H as [H|(a & st2 & _ & H)]; [done|]. cbv zeta in H.
  apply bind_throws in H as [H|(x & st3 & _ & H)]; [by destruct (no_throw_a_get _ _ _ H)|].
  apply bind_throws in H as [H|(_ & st4 & _ & H)]; [by destruct (no_throw_a_set _ _ _ _ H)|].
  destruct (l2 - 1 =? 0); [by destruct (no_throw_a_arraycopy_from _ _ _ _ _ _ H)|].
  destruct (l1 =? 1).
  { exfalso. revert H. repeat no_throw_step. }
  apply bind_throws in H as [H|(_ & st5 & _ & H)]; [done|].
  apply bind_throws in H as [H|(v & st6 & Hloop & H)];
    [by destruct (no_throw_mergeLo_outer _ _ _ _ _ _ H)|].
  apply lo_end_throws in H as [Hl ->].
  do 3 eexists. exists v, st6. split; [exact Hloop|done].
Qed.

Lemma mergeHi_throws (fuel : nat) (base1 l1 base2 l2 : Z) (st : state) (msg : string) :
  mergeHi compareFn fuel base1 l1 base2 l2 st = Throw msg ->
  exists tmp v0 st0 v st',
    mergeHi_outer compareFn fuel fuel tmp base1 v0 st0 = Ok (v, st') /\
    len2 v = 0 /\ msg = contract_violation.
Proof.
  unfold mergeHi, log. intros H.
  apply bind_throws in H as [H|(_ & st1 & _ & H)]; [done|].
  apply bind_throws in H as [H|(a & st2 & _ & H)]; [done|]. cbv zeta in H.
  apply bind_throws in H as [H|(x & st3 & _ & H)]; [by destruct (no_throw_a_get _ _ _ H)|].
  apply bind_throws in H as [H|(_ & st4 & _ & H)]; [by destruct (no_throw_a_set _ _ _ _ H)|].
  destruct (l1 - 1 =? 0); [by destruct (no_throw_a_arraycopy_from _ _ _ _ _ _ H)|].
  destruct (l2 =? 1).
  { exfalso. revert H. repeat no_throw_step. }
  apply bind_throws in H as [H|(_ & st5 & _ & H)]; [done|].
  apply bind_throws in H as [H|(v & st6 & Hloop & H)];
    [by destruct (no_throw_mergeHi_outer _ _ _ _ _ _ _ H)|].
  apply hi_end_throws in H as [Hl ->].
  do 3 eexists. exists v, st6. split; [exact Hloop|done].
Qed.

(** C9: the code that follows the loop [outer] of [mergeLo]
    ([mergeLo_end]) throws exactly when the loop was left with
    [len1 == 0], and what it throws is the contract-violation error;
    [mergeHi] likewise with [len2 == 0].  Nothing else in either merge
    throws: a call that throws has had its loop [outer] return with that
    length 0.  On two adjacent non-empty runs,
    a call of either merge throws that error or returns with the range of
    the two runs holding a permutation of them and the rest of the array
    as it was.  Under the contract the source states for the merge (a
    consistent total order, the first run non-decreasing and its last
    element above all of the second run, for [mergeLo]; the second run
    non-decreasing and its first element below all of the first run, for
    [mergeHi]) the call returns and does not throw. *)
Theorem merge_contract_violation (pre run1 run2 post : list T) (fuel : nat)
    rb rl ss tr :
  (1 <= length run1)%nat -> (1 <= length run2)%nat ->
  (length run1 + length run2 < fuel)%nat ->
  Z.of_nat (length run1) < 2 ^ 32 -> Z.of_nat (length run2) < 2 ^ 32 ->
  let st := mkState (pre ++ run1 ++ run2 ++ post) rb rl ss tr in
  let lo := mergeLo compareFn fuel
              (Z.of_nat (length pre)) (Z.of_nat (length run1))
              (Z.of_nat (length pre + length run1)) (Z.of_nat (length run2)) st in
  let hi := mergeHi compareFn fuel
              (Z.of_nat (length pre)) (Z.of_nat (length run1))
              (Z.of_nat (length pre + length run1)) (Z.of_nat (length run2)) st in
  (forall (tmp : list T) v (s : state) msg,
      mergeLo_end tmp v s = Throw msg <-> len1 v = 0 /\ msg = contract_violation) /\
  (forall (tmp : list T) v (s : state) msg,
      mergeHi_end tmp v s = Throw msg <-> len2 v = 0 /\ msg = contract_violation) /\
  (forall msg,
      lo = Throw msg ->
      exists tmp v0 st0 v st',
        mergeLo_outer compareFn fuel fuel tmp v0 st0 = Ok (v, st') /\
        len1 v = 0 /\ msg = contract_violation) /\
  (forall msg,
      hi = Throw msg ->
      exists tmp v0 st0 v st',
        mergeHi_outer compareFn fuel fuel tmp (Z.of_nat (length pre)) v0 st0
        = Ok (v, st') /\
        len2 v = 0 /\ msg = contract_violation) /\
  (lo = Throw contract_violation
   \/ exists a' evs, lo = Ok (tt, mkState a' rb rl ss (tr ++ evs)) /\
                     merged_range pre run1 run2 post a') /\
  (hi = Throw contract_violation
   \/ exists a' evs, hi = Ok (tt, mkState a' rb rl ss (tr ++ evs)) /\
                     merged_range pre run1 run2 post a') /\
  (lo_contract run1 run2 ->
   exists a' evs, lo = Ok (tt, mkState a' rb rl ss (tr ++ evs)) /\
                  merged_range pre run1 run2 post a') /\
  (hi_contract run1 run2 ->
   exists a' evs, hi = Ok (tt, mkState a' rb rl ss (tr ++ evs)) /\
                  merged_range pre run1 run2 post a').
Proof.
  intros Hn1 Hn2 Hfuel Hsize1 Hsize2. cbv zeta.
  pose proof (mergeLo_spec pre run1 run2 post fuel rb rl ss tr
                Hn1 Hn2 Hfuel Hsize1 Hsize2) as Hlo.
  pose proof (mergeHi_spec pre run1 run2 post fuel rb rl ss tr
                Hn1 Hn2 Hfuel Hsize1 Hsize2) as Hhi.
  cbv zeta in Hlo, Hhi.
  split; [apply lo_end_throws|]. split; [apply hi_end_throws|].
  split; [intros msg; apply mergeLo_throws|].
  split; [intros msg; apply mergeHi_throws|].
  split; [|split; [|split]].
  - destruct Hlo as [[Hthrow _]|(a' & evs & Hrun & Hrange & _)]; [by left|right].
    by exists a', (Log merge_lo_msg :: evs).
  - destruct Hhi as [[Hthrow _]|(a' & evs & Hrun & Hrange & _)]; [by left|right].
    by exists a', (Log merge_hi_msg :: evs).
  - intros Hct.
    destruct Hlo as [[_ Hno]|(a' & evs & Hrun & Hrange & _)]; [by destruct Hno|].
    by exists a', (Log merge_lo_msg :: evs).
  - intros Hct.
    destruct Hhi as [[_ Hno]|(a' & evs & Hrun & Hrange & _)]; [by destruct Hno|].
    by exists a', (Log merge_hi_msg :: evs).
Qed.

(** C10, as the code has it: the assignments to [minGallop] that a call
    of [mergeLo] or [mergeHi] makes are none at all (a run of one element
    is dealt with before the variable is declared), or start with 7
    whatever the calls before left, and go on each from the value the
    one before left: every completed turn of the gallop loop takes 1
    off; leaving the gallop loop through its condition raises a negative
    value to 0 and then adds 2; and once, after the loop [outer], a
    value below 1 is raised to 1. *)
Theorem min_gallop_evolution (pre run1 run2 post : list T) (fuel : nat)
    rb rl ss tr :
  (1 <= length run1)%nat -> (1 <= length run2)%nat ->
  (length run1 + length run2 < fuel)%nat ->
  Z.of_nat (length run1) < 2 ^ 32 -> Z.of_nat (length run2) < 2 ^ 32 ->
  let st := mkState (pre ++ run1 ++ run2 ++ post) rb rl ss tr in
  let lo := mergeLo compareFn fuel
              (Z.of_nat (length pre)) (Z.of_nat (length run1))
              (Z.of_nat (length pre + length run1)) (Z.of_nat (length run2)) st in
  let hi := mergeHi compareFn fuel
              (Z.of_nat (length pre)) (Z.of_nat (length run1))
              (Z.of_nat (length pre + length run1)) (Z.of_nat (length run2)) st in
  (lo = Throw contract_violation
   \/ exists a' evs,
       lo = Ok (tt, mkState a' rb rl ss (tr ++ Log merge_lo_msg :: evs)) /\
       mg_valid evs) /\
  (hi = Throw contract_violation
   \/ exists a' evs,
       hi = Ok (tt, mkState a' rb rl ss (tr ++ Log merge_hi_msg :: evs)) /\
       mg_valid evs).
Proof.
  intros Hn1 Hn2 Hfuel Hsize1 Hsize2. cbv zeta. split.
  - destruct (mergeLo_spec pre run1 run2 post fuel rb rl ss tr
                Hn1 Hn2 Hfuel Hsize1 Hsize2)
      as [[Hthrow _]|(a' & evs & Hrun & _ & Hmg)]; [by left|right].
    by exists a', evs.
  - destruct (mergeHi_spec pre run1 run2 post fuel rb rl ss tr
                Hn1 Hn2 Hfuel Hsize1 Hsize2)
      as [[Hthrow _]|(a' & evs & Hrun & _ & Hmg)]; [by left|right].
    by exists a', evs.
Qed.

(** *** timsort *)

Lemma timsort_short (arr : list T) (fuel : nat) :
  (length arr <= 1)%nat ->
  timsort compareFn fuel arr = Ok (arr, mkState arr [] [] 0 [Log sort_msg]).
Proof.
  destruct arr as [|x [|y arr]]; cbn [length]; intros Hlen;
    [reflexivity | reflexivity | lia].
Qed.

Lemma timsort_spec (arr : list T) (fuel : nat) :
  (length arr < fuel)%nat -> Z.of_nat (length arr) < 2 ^ 31 ->
  (2 <= length arr)%nat ->
  exists (out : list T) (evs : list event),
    timsort compareFn fuel arr
    = Ok (out, sorted_state (Z.of_nat (length arr)) out evs) /\
    sort_result arr out evs.
Proof.
  intros Hfuel Hsize Hlen.
  destruct (sort_spec arr fuel Hfuel Hsize Hlen) as (out & evs & Hsort & Hres).
  exists out, evs. split; [|done].
  unfold timsort. rewrite Hsort. unfold sorted_state. by ztest.
Qed.

(** Which events belong to merging: an un-awaited [mergeAt], a change of
    [minGallop], and the first lines of [mergeAt], [gallopLeft],
    [gallopRight], [mergeLo] and [mergeHi]. *)
Definition merge_event (e : event) : bool :=
  match e with
  | Unawaited _ | MinGallop _ _ => true
  | Log msg =>
      (msg =? "entering mergeat")%string
      || (msg =? "entering gallop left")%string
      || (msg =? "entering gallop right")%string
      || (msg =? "entering merge lo")%string
      || (msg =? "entering merge hi")%string
  | _ => false
  end.

Definition is_push (e : event) : bool :=
  match e with Pushed _ _ _ => true | _ => false end.

Definition is_comparison (e : event) : bool :=
  match e with Compare _ _ => true | _ => false end.

Definition is_reversal (e : event) : bool :=
  match e with Reversed _ _ => true | _ => false end.

(** Run detection and binary insertion log nothing of merging and push
    no run. *)
Lemma insertion_events_plain (evs : list event) :
  Forall insertion_event evs ->
  Forall (fun e => merge_event e = false /\ is_push e = false
                   /\ is_reversal e = false) evs.
Proof.
  intros H. eapply Forall_impl; [exact H|].
  intros [msg| | | | |]; simpl; try done. by intros ->.
Qed.

Lemma compares_plain (evs : list event) :
  Forall is_compare evs ->
  Forall (fun e => merge_event e = false /\ is_push e = false
                   /\ is_reversal e = false) evs.
Proof. intros H. by apply insertion_events_plain, is_compare_insertion. Qed.

Lemma run_events_plain (arr : list T) (evs : list event) :
  run_events arr evs ->
  Forall (fun e => merge_event e = false /\ is_push e = false) evs.
Proof.
  intros [H|(cs & x & l & -> & H & _)].
  - eapply Forall_impl; [exact (compares_plain _ H)|]. by intros e (? & ? & ?).
  - apply Forall_app. split; [|by repeat constructor].
    eapply Forall_impl; [exact (compares_plain _ H)|]. by intros e (? & ? & ?).
Qed.

Lemma filter_all {A} (f : A -> bool) (l : list A) :
  Forall (fun y => f y = true) l -> List.filter f l = l.
Proof.
  induction 1 as [|y l Hy _ IH]; [done|]. simpl. by rewrite Hy, IH.
Qed.

Lemma length_chain_compares (l : list T) :
  forall x, length (chain_compares x l) = length l.
Proof. induction l as [|y l IH]; intros x; simpl; [done|]. by rewrite IH. Qed.

Lemma sorted_state_array (n : Z) (out : list T) (evs : list event) :
  global_a (sorted_state n out evs) = out.
Proof. unfold sorted_state. by destruct (n <? MIN_MERGE). Qed.

Lemma short_ascending (arr : list T) : (length arr <= 1)%nat -> ascending arr.
Proof.
  destruct arr as [|x [|y arr]]; cbn [length]; intros; [| |lia];
    repeat constructor.
Qed.

Lemma plain_filters (evs : list event) :
  Forall (fun e => merge_event e = false /\ is_push e = false) evs ->
  List.filter merge_event evs = [] /\ List.filter is_push evs = [].
Proof.
  intros H. split; apply filter_none; (eapply Forall_impl; [exact H|]);
    by intros e [? ?].
Qed.

(** The trace of a sort of two or more elements, class by class. *)
Lemma sorted_state_trace (arr out : list T) (evs : list event) :
  sort_result arr out evs ->
  let st := sorted_state (Z.of_nat (length arr)) out evs in
  List.filter merge_event (trace st) = [] /\
  List.filter is_push (trace st)
  = (if Z.of_nat (length arr) <? MIN_MERGE then []
     else [Pushed 0 (Z.of_nat (length arr)) 1]) /\
  (forall lo hi, In (Reversed lo hi) (trace st) ->
     lo = 0 /\ exists x l, hi = Z.of_nat (S (length l))
                           /\ take (S (length l)) arr = x :: l
                           /\ chain (fun c => c <? 0) x l).
Proof.
  intros (evs1 & evs2 & -> & Hrun & Hins & _). cbn zeta.
  destruct (plain_filters _ (run_events_plain _ _ Hrun)) as [Hm1 Hp1].
  assert (H2 : Forall (fun e => merge_event e = false /\ is_push e = false) evs2).
  { eapply Forall_impl; [exact (insertion_events_plain _ Hins)|].
    by intros e (? & ? & ?). }
  destruct (plain_filters _ H2) as [Hm2 Hp2].
  assert (Hm : List.filter merge_event
                 (Log count_run_msg :: evs1 ++ Log binary_sort_msg :: evs2) = []).
  { change (Log count_run_msg :: ?l) with ([Log count_run_msg] ++ l).
    change (Log binary_sort_msg :: ?l) with ([Log binary_sort_msg] ++ l).
    rewrite !List.filter_app, Hm1, Hm2. done. }
  assert (Hp : List.filter is_push
                 (Log count_run_msg :: evs1 ++ Log binary_sort_msg :: evs2) = []).
  { change (Log count_run_msg :: ?l) with ([Log count_run_msg] ++ l).
    change (Log binary_sort_msg :: ?l) with ([Log binary_sort_msg] ++ l).
    rewrite !List.filter_app, Hp1, Hp2. done. }
  assert (Hr : forall lo hi,
             In (Reversed lo hi)
                (Log count_run_msg :: evs1 ++ Log binary_sort_msg :: evs2) ->
             lo = 0 /\ exists x l, hi = Z.of_nat (S (length l))
                                   /\ take (S (length l)) arr = x :: l
                                   /\ chain (fun c => c <? 0) x l).
  { intros lo hi [Heq|Hin]; [done|].
    apply in_app_or in Hin. destruct Hin as [Hin|[Heq|Hin]]; [|done|].
    - destruct Hrun as [Hc|(cs & x & l & -> & Hc & Htake & Hchain)].
      + rewrite List.Forall_forall in Hc. by apply Hc in Hin.
      + apply in_app_or in Hin. destruct Hin as [Hin|[Heq|[]]].
        * rewrite List.Forall_forall in Hc. by apply Hc in Hin.
        * injection Heq as <- <-. split; [done|]. by exists x, l.
    - rewrite List.Forall_forall in Hins. by apply Hins in Hin. }
  unfold sorted_state. destruct (Z.of_nat (length arr) <? MIN_MERGE); cbn [trace].
  - split; [|split].
    + change (Log sort_msg :: ?l) with ([Log sort_msg] ++ l).
      rewrite List.filter_app, Hm. done.
    + change (Log sort_msg :: ?l) with ([Log sort_msg] ++ l).
      rewrite List.filter_app, Hp. done.
    + intros lo hi [Heq|Hin]; [done|]. by apply Hr.
  - split; [|split].
    + change (Log sort_msg :: ?l) with ([Log sort_msg] ++ l).
      rewrite !List.filter_app, Hm. done.
    + change (Log sort_msg :: ?l) with ([Log sort_msg] ++ l).
      rewrite !List.filter_app, Hp. done.
    + intros lo hi [Heq|Hin]; [done|].
      apply in_app_or in Hin. destruct Hin as [Hin|[Heq|[]]]; [|done].
      by apply Hr.
Qed.

(** C8: an array of length 0 or 1 comes back at once and unchanged, for
    every comparator and whatever the loop bound: the trace is the one
    log line of [sort], so the comparator was never called. *)
Theorem timsort_length_0_1 (arr : list T) (fuel : nat) :
  (length arr <= 1)%nat ->
  exists st,
    timsort compareFn fuel arr = Ok (arr, st) /\
    global_a st = arr /\
    trace st = [Log "entering sort"] /\
    List.filter is_comparison (trace st) = [].
Proof.
  intros Hlen. eexists. split; [by apply timsort_short|]. done.
Qed.

(** C1: under a consistent total order, [timsort] ends (any loop bound
    above the length will do) and the array it resolves to is the shared
    array [global_a], in non-decreasing order, a permutation of the
    input over the same range of indices.  The length is below 2^31, as
    far as [(left + right) >>> 1] is the midpoint. *)
Theorem timsort_sorts (arr : list T) (fuel : nat) :
  TotalOrder ->
  (length arr < fuel)%nat -> Z.of_nat (length arr) < 2 ^ 31 ->
  exists out st,
    timsort compareFn fuel arr = Ok (out, st) /\
    global_a st = out /\
    ascending out /\
    out ≡ₚ arr /\
    length out = length arr.
Proof.
  intros Hord Hfuel Hsize.
  destruct (decide (length arr <= 1)%nat) as [Hshort|Hlong].
  - exists arr, (mkState arr [] [] 0 [Log sort_msg]).
    split; [by apply timsort_short|]. repeat split; auto.
    by apply short_ascending.
  - destruct (timsort_spec arr fuel Hfuel Hsize ltac:(lia))
      as (out & evs & Hrun & Hres).
    destruct Hres as (evs1 & evs2 & _ & _ & _ & Hperm & Hfun & _).
    destruct (Hfun Hord) as [Hasc _].
    exists out, (sorted_state (Z.of_nat (length arr)) out evs).
    split; [done|]. split; [apply sorted_state_array|].
    split; [done|]. split; [done|]. by rewrite Hperm.
Qed.

(** C2: under a consistent total order the sort is stable, whichever
    way it takes (below [MIN_MERGE] or from it on): every class of
    equal elements keeps its input order.  The two places that decide
    it: a run is reversed only where each element compares below its
    predecessor, and the binary search puts the pivot behind everything
    that is not after it, equals included. *)
Theorem timsort_stable (arr : list T) (fuel : nat) :
  TotalOrder ->
  (length arr < fuel)%nat -> Z.of_nat (length arr) < 2 ^ 31 ->
  (exists out st,
      timsort compareFn fuel arr = Ok (out, st) /\
      stable arr out /\
      (forall lo hi, In (Reversed lo hi) (trace st) ->
         lo = 0 /\ exists x l, hi = Z.of_nat (S (length l))
                               /\ take (S (length l)) arr = x :: l
                               /\ chain (fun c => c <? 0) x l)) /\
  (forall (pivot : T) (sorted post : list T) rb rl ss tr,
      ascending sorted -> (length sorted < fuel)%nat ->
      Z.of_nat (length sorted) < 2 ^ 31 ->
      exists (k : nat) st',
        binarySort_search compareFn fuel pivot 0 (Z.of_nat (length sorted))
          (mkState (sorted ++ post) rb rl ss tr)
        = Ok (Z.of_nat k, st') /\
        Forall (fun y => compareFn y pivot <= 0) (take k sorted) /\
        Forall (fun y => compareFn pivot y < 0) (drop k sorted)).
Proof.
  intros Hord Hfuel Hsize. split.
  - destruct (decide (length arr <= 1)%nat) as [Hshort|Hlong].
    + exists arr, (mkState arr [] [] 0 [Log sort_msg]).
      split; [by apply timsort_short|]. split; [done|].
      intros lo hi [Heq|[]]. done.
    + destruct (timsort_spec arr fuel Hfuel Hsize ltac:(lia))
        as (out & evs & Hrun & Hres).
      exists out, (sorted_state (Z.of_nat (length arr)) out evs).
      split; [done|].
      destruct (sorted_state_trace _ _ _ Hres) as (_ & _ & Hrev).
      destruct Hres as (evs1 & evs2 & _ & _ & _ & _ & Hfun & _).
      destruct (Hfun Hord) as [_ Hst]. done.
  - intros pivot sorted post rb rl ss tr Hasc Hlen Hbig.
    destruct (binarySort_search_spec pivot [] sorted post
                ltac:(cbn [length]; lia) fuel 0%nat (length sorted) rb rl ss tr
                ltac:(lia) ltac:(lia))
      as (k & evs & Hk & Hrun & _ & Hfun).
    destruct (Hfun Hord Hasc) as [Hbefore Hafter].
    { rewrite take_0. constructor. }
    { rewrite drop_ge by lia. constructor. }
    exists k. eexists. split; [exact Hrun|]. split; [|done].
    eapply Forall_impl; [exact Hbefore|]. intros y Hy. by apply (cmp_flip Hord).
Qed.

(** C3: [minRunLength n] is [n + 1], and so from [MIN_MERGE] elements on,
    for every comparator, the first turn of the loop of [sort] has
    [binarySort] extend the first run over the whole array: what is
    logged is one run detection, one binary insertion and the push of
    the run [0, n) as the only run; [stackSize] is 1 from then on, no
    [mergeAt] is called, and none of [mergeAt], [gallopLeft],
    [gallopRight], [mergeLo], [mergeHi] is entered. *)
Theorem timsort_pushes_one_run (arr : list T) (fuel : nat) :
  (32 <= length arr)%nat ->
  (length arr < fuel)%nat -> Z.of_nat (length arr) < 2 ^ 31 ->
  minRunLength (Z.of_nat (length arr)) = Z.of_nat (length arr) + 1 /\
  exists out evs1 evs2 st,
    timsort compareFn fuel arr = Ok (out, st) /\
    trace st = Log "entering sort"
               :: Log "entering count run and make ascending"
               :: evs1 ++ Log "entering binary sort"
               :: evs2 ++ [Pushed 0 (Z.of_nat (length arr)) 1] /\
    run_events arr evs1 /\ Forall insertion_event evs2 /\
    List.filter is_push (trace st) = [Pushed 0 (Z.of_nat (length arr)) 1] /\
    List.filter merge_event (trace st) = [] /\
    runBase st = [0] /\ runLen st = [Z.of_nat (length arr)] /\ stackSize st = 1.
Proof.
  intros Hlen Hfuel Hsize. split; [done|].
  destruct (timsort_spec arr fuel Hfuel Hsize ltac:(lia))
    as (out & evs & Hrun & Hres).
  destruct (sorted_state_trace _ _ _ Hres) as (Hm & Hp & _).
  destruct Hres as (evs1 & evs2 & -> & Hr & Hi & _).
  exists out, evs1, evs2. eexists. split; [exact Hrun|].
  unfold sorted_state in *. unfold MIN_MERGE in *.
  destruct (Z.ltb_spec (Z.of_nat (length arr)) 32); [lia|].
  cbn [trace runBase runLen stackSize] in *.
  split; [|done]. cbn [app]. do 2 f_equal. by rewrite <- app_assoc.
Qed.

(** The state a sort of an array already in order ends in: one pass of
    run detection along the array, one comparison per adjacent pair,
    and a binary insertion that finds nothing left to insert. *)
Definition one_pass (arr : list T) (st : state) : Prop :=
  global_a st = arr /\
  (exists tail,
      trace st = Log "entering sort"
                 :: Log "entering count run and make ascending"
                 :: adjacent_compares arr
                 ++ Log "entering binary sort" :: tail
      /\ List.filter is_comparison tail = []) /\
  length (List.filter is_comparison (trace st)) = (length arr - 1)%nat /\
  List.filter is_reversal (trace st) = [] /\
  List.filter merge_event (trace st) = [].

Lemma timsort_one_pass (arr : list T) (fuel : nat) :
  TotalOrder ->
  (length arr < fuel)%nat -> Z.of_nat (length arr) < 2 ^ 31 ->
  (2 <= length arr)%nat -> ascending arr ->
  exists st, timsort compareFn fuel arr = Ok (arr, st) /\ one_pass arr st.
Proof.
  intros Hord Hfuel Hsize Hlen Hasc.
  destruct (timsort_spec arr fuel Hfuel Hsize Hlen) as (out & evs & Hrun & Hres).
  destruct (sorted_state_trace _ _ _ Hres) as (Hm & _ & _).
  destruct Hres as (evs1 & evs2 & -> & _ & _ & _ & _ & Hsorted).
  destruct (Hsorted Hord Hasc) as (-> & -> & ->).
  eexists. split; [exact Hrun|].
  split; [apply sorted_state_array|].
  assert (Hc : List.filter is_comparison (adjacent_compares arr)
               = adjacent_compares arr).
  { apply filter_all. destruct arr as [|x rest]; [constructor|].
    cbn [adjacent_compares].
    eapply Forall_impl; [apply chain_compares_are_compares|]. by intros []. }
  assert (Hr : List.filter is_reversal (adjacent_compares arr) = []).
  { apply filter_none. destruct arr as [|x rest]; [constructor|].
    cbn [adjacent_compares].
    eapply Forall_impl; [apply chain_compares_are_compares|]. by intros []. }
  assert (Hn : length (adjacent_compares arr) = (length arr - 1)%nat).
  { destruct arr as [|x rest]; [done|]. cbn [adjacent_compares length].
    rewrite length_chain_compares. lia. }
  unfold sorted_state in *.
  destruct (Z.of_nat (length arr) <? MIN_MERGE); cbn [trace] in *.
  - split; [exists []; by split|].
    split; [|split; [|done]].
    + cbn [List.filter is_comparison]. rewrite List.filter_app, Hc.
      cbn [List.filter is_comparison]. by rewrite app_nil_r.
    + cbn [List.filter is_reversal]. rewrite List.filter_app, Hr. done.
  - split.
    { exists [Pushed 0 (Z.of_nat (length arr)) 1]. split; [|done].
      cbn [app]. do 2 f_equal. by rewrite <- app_assoc. }
    split; [|split; [|done]].
    + cbn [List.filter is_comparison app].
      rewrite !List.filter_app, Hc.
      cbn [List.filter is_comparison]. by rewrite !app_nil_r.
    + cbn [List.filter is_reversal app]. rewrite !List.filter_app, Hr. done.
Qed.

(** C5: under a consistent total order, an array of two or more
    elements that is already non-decreasing is sorted in one
    run-detection pass of exactly [n - 1] comparisons, one per adjacent
    pair; the binary insertion that follows compares nothing, nothing is
    reversed or merged, and the array is left as it was.  So sorting is
    idempotent: the output of any sort, sorted again, takes that one
    pass and comes back unchanged. *)
Theorem timsort_sorted_input (arr : list T) (fuel : nat) :
  TotalOrder ->
  (length arr < fuel)%nat -> Z.of_nat (length arr) < 2 ^ 31 ->
  (2 <= length arr)%nat ->
  (ascending arr ->
   exists st, timsort compareFn fuel arr = Ok (arr, st) /\ one_pass arr st) /\
  (exists out st,
      timsort compareFn fuel arr = Ok (out, st) /\
      exists st', timsort compareFn fuel out = Ok (out, st') /\ one_pass out st').
Proof.
  intros Hord Hfuel Hsize Hlen. split.
  - by apply timsort_one_pass.
  - destruct (timsort_spec arr fuel Hfuel Hsize Hlen) as (out & evs & Hrun & Hres).
    destruct Hres as (evs1 & evs2 & _ & _ & _ & Hperm & Hfun & _).
    destruct (Hfun Hord) as [Hasc _].
    pose proof (Permutation_length Hperm) as Hl.
    exists out. eexists. split; [exact Hrun|].
    apply timsort_one_pass; auto; lia.
Qed.

End Properties.

(** * Two executions *)

Section TwoRuns.

Context {T : Type}.
Variables c1 c2 : T -> T -> Z.

Local Abbreviation state := (@state T).
Local Abbreviation event := (@event T).
Local Abbreviation M := (@M T).

(** The second comparator answers a call as the first does. *)
Definition agree (e : event) : Prop :=
  match e with Compare x y => c1 x y = c2 x y | _ => True end.

(** [m2] does what [m1] does, as long as the comparator calls [m1] makes
    are answered alike. *)
Definition follows {A} (m1 m2 : M A) : Prop :=
  forall st v st',
    m1 st = Ok (v, st') ->
    exists evs, trace st' = trace st ++ evs /\
                (Forall agree evs -> m2 st = Ok (v, st')).

Lemma follows_bind {A B} (m1 m2 : M A) (k1 k2 : A -> M B) :
  follows m1 m2 -> (forall x, follows (k1 x) (k2 x)) ->
  follows (bind m1 k1) (bind m2 k2).
Proof.
  intros Hm Hk st v st' H. unfold bind in H.
  destruct (m1 st) as [[x st1]|msg| |] eqn:E; try discriminate.
  destruct (Hm _ _ _ E) as (evs1 & Ht1 & H1).
  destruct (Hk x _ _ _ H) as (evs2 & Ht2 & H2).
  exists (evs1 ++ evs2). split.
  - by rewrite Ht2, Ht1, <- app_assoc.
  - intros Hall. apply Forall_app in Hall as [Ha1 Ha2].
    unfold bind. rewrite (H1 Ha1). by apply H2.
Qed.

Lemma follows_ret {A} (v : A) : follows (ret v) (ret v).
Proof.
  intros st v' st' [= <- <-]. exists []. by rewrite app_nil_r.
Qed.

Lemma follows_lift {A} (o : outcome A) : follows (lift o) (lift o).
Proof.
  intros st v st' H. unfold lift in *. destruct o; try discriminate.
  injection H as <- <-. exists []. by rewrite app_nil_r.
Qed.

Lemma follows_throw {A} (msg : string) : follows (@throw T A msg) (throw msg).
Proof. intros st v st' H. discriminate. Qed.

Lemma follows_timeout {A} : follows (@timeout T A) timeout.
Proof. intros st v st' H. discriminate. Qed.

Lemma follows_emit (e : event) : follows (emit e) (emit e).
Proof. intros st v st' [= <- <-]. by exists [e]. Qed.

Lemma follows_compare (x y : T) : follows (compare c1 x y) (compare c2 x y).
Proof.
  intros st v st' [= <- <-]. exists [Compare x y]. split; [done|].
  intros Hall. apply Forall_cons in Hall as [Hxy _]. cbn in Hxy.
  unfold compare, bind, emit, ret. by rewrite Hxy.
Qed.

Lemma follows_get_a : follows (@get_a T) get_a.
Proof. intros st v st' [= <- <-]. exists []. by rewrite app_nil_r. Qed.

Lemma follows_put_a (a : list T) : follows (put_a a) (put_a a).
Proof. intros st v st' [= <- <-]. exists []. cbn. by rewrite app_nil_r. Qed.

Lemma follows_get_runBase : follows (@get_runBase T) get_runBase.
Proof. intros st v st' [= <- <-]. exists []. by rewrite app_nil_r. Qed.

Lemma follows_get_runLen : follows (@get_runLen T) get_runLen.
Proof. intros st v st' [= <- <-]. exists []. by rewrite app_nil_r. Qed.

Lemma follows_get_stackSize : follows (@get_stackSize T) get_stackSize.
Proof. intros st v st' [= <- <-]. exists []. by rewrite app_nil_r. Qed.

Lemma follows_put_runBase (l : list Z) : follows (@put_runBase T l) (put_runBase l).
Proof. intros st v st' [= <- <-]. exists []. cbn. by rewrite app_nil_r. Qed.

Lemma follows_put_runLen (l : list Z) : follows (@put_runLen T l) (put_runLen l).
Proof. intros st v st' [= <- <-]. exists []. cbn. by rewrite app_nil_r. Qed.

Lemma follows_put_stackSize (n : Z) : follows (@put_stackSize T n) (put_stackSize n).
Proof. intros st v st' [= <- <-]. exists []. cbn. by rewrite app_nil_r. Qed.

Create HintDb follows.
#[local] Hint Resolve follows_ret follows_lift follows_throw follows_timeout
  follows_emit follows_compare follows_get_a follows_put_a
  follows_get_runBase follows_get_runLen follows_get_stackSize
  follows_put_runBase follows_put_runLen follows_put_stackSize : follows.

Ltac follows_step :=
  first
    [ solve [auto with follows]
    | match goal with
      | |- follows (if ?b then _ else _) (if ?b then _ else _) => destruct b
      end
    | apply follows_bind; [|intros ?] ].

Lemma follows_a_get (i : Z) : follows (@a_get T i) (a_get i).
Proof. unfold a_get. repeat follows_step. Qed.

Lemma follows_a_set (i : Z) (x : T) : follows (a_set i x) (a_set i x).
Proof. unfold a_set. repeat follows_step. Qed.

Lemma follows_log (msg : string) : follows (@log T msg) (log msg).
Proof. apply follows_emit. Qed.

Lemma follows_runLen_get (i : Z) : follows (@runLen_get T i) (runLen_get i).
Proof. unfold runLen_get. repeat follows_step. Qed.

Lemma follows_runBase_get (i : Z) : follows (@runBase_get T i) (runBase_get i).
Proof. unfold runBase_get. repeat follows_step. Qed.

Lemma follows_runLen_set (i v : Z) : follows (@runLen_set T i v) (runLen_set i v).
Proof. unfold runLen_set. repeat follows_step. Qed.

Lemma follows_runBase_set (i v : Z) : follows (@runBase_set T i v) (runBase_set i v).
Proof. unfold runBase_set. repeat follows_step. Qed.

#[local] Hint Resolve follows_a_get follows_a_set follows_log follows_runLen_get
  follows_runBase_get follows_runLen_set follows_runBase_set : follows.

Lemma follows_rangeCheck (n lo hi : Z) :
  follows (@rangeCheck T n lo hi) (rangeCheck n lo hi).
Proof. unfold rangeCheck. repeat follows_step. Qed.

Lemma follows_reverseRange_loop (fuel : nat) :
  forall lo hi, follows (@reverseRange_loop T fuel lo hi) (reverseRange_loop fuel lo hi).
Proof.
  induction fuel as [|fuel IH]; intros lo hi; cbn [reverseRange_loop];
    repeat follows_step.
Qed.

Lemma follows_reverseRange (fuel : nat) (lo hi : Z) :
  follows (@reverseRange T fuel lo hi) (reverseRange fuel lo hi).
Proof.
  unfold reverseRange. repeat follows_step. apply follows_reverseRange_loop.
Qed.

Lemma follows_run_loop (fuel : nat) (test : Z -> bool) :
  forall runHi hi,
    follows (run_loop c1 fuel test runHi hi) (run_loop c2 fuel test runHi hi).
Proof.
  induction fuel as [|fuel IH]; intros runHi hi; cbn [run_loop];
    repeat follows_step.
Qed.

#[local] Hint Resolve follows_rangeCheck follows_reverseRange follows_run_loop : follows.

Lemma follows_countRunAndMakeAscending (fuel : nat) (lo hi : Z) :
  follows (countRunAndMakeAscending c1 fuel lo hi)
          (countRunAndMakeAscending c2 fuel lo hi).
Proof. unfold countRunAndMakeAscending. cbv zeta. repeat follows_step. Qed.

Lemma follows_binarySort_search (fuel : nat) (pivot : T) :
  forall left right,
    follows (binarySort_search c1 fuel pivot left right)
            (binarySort_search c2 fuel pivot left right).
Proof.
  induction fuel as [|fuel IH]; intros left right; cbn [binarySort_search];
    cbv zeta; repeat follows_step.
Qed.

Lemma follows_binarySort_slide (left n : Z) :
  follows (@binarySort_slide T left n) (binarySort_slide left n).
Proof. unfold binarySort_slide. repeat follows_step. Qed.

#[local] Hint Resolve follows_countRunAndMakeAscending follows_binarySort_search
  follows_binarySort_slide : follows.

Lemma follows_binarySort_loop (fuel n : nat) :
  forall lo hi start,
    follows (binarySort_loop c1 fuel n lo hi start)
            (binarySort_loop c2 fuel n lo hi start).
Proof.
  induction n as [|n IH]; intros lo hi start; cbn [binarySort_loop];
    repeat follows_step.
Qed.

Lemma follows_binarySort (fuel : nat) (lo hi start : Z) :
  follows (binarySort c1 fuel lo hi start) (binarySort c2 fuel lo hi start).
Proof.
  unfold binarySort. cbv zeta. repeat follows_step. apply follows_binarySort_loop.
Qed.

Lemma follows_pushRun (b l : Z) : follows (@pushRun T b l) (pushRun b l).
Proof. unfold pushRun. repeat follows_step. Qed.

Lemma follows_mergeAt_unawaited (i : Z) :
  follows (@mergeAt_unawaited T i) (mergeAt_unawaited i).
Proof. unfold mergeAt_unawaited. repeat follows_step. Qed.

#[local] Hint Resolve follows_binarySort follows_pushRun
  follows_mergeAt_unawaited : follows.

Lemma follows_mergeCollapse (fuel : nat) :
  follows (@mergeCollapse T fuel) (mergeCollapse fuel).
Proof.
  induction fuel as [|fuel IH]; cbn [mergeCollapse]; cbv zeta; repeat follows_step.
Qed.

Lemma follows_mergeForceCollapse (fuel : nat) :
  follows (@mergeForceCollapse T fuel) (mergeForceCollapse fuel).
Proof.
  induction fuel as [|fuel IH]; cbn [mergeForceCollapse]; cbv zeta;
    repeat follows_step.
Qed.

#[local] Hint Resolve follows_mergeCollapse follows_mergeForceCollapse : follows.

Lemma follows_sort_loop (fuel n : nat) :
  forall lo hi nRemaining minRun,
    follows (sort_loop c1 fuel n lo hi nRemaining minRun)
            (sort_loop c2 fuel n lo hi nRemaining minRun).
Proof.
  induction n as [|n IH]; intros lo hi nRemaining minRun; cbn [sort_loop];
    cbv zeta; repeat follows_step.
Qed.

Lemma follows_sort (fuel : nat) (lo hi : Z) :
  follows (sort c1 fuel lo hi) (sort c2 fuel lo hi).
Proof.
  unfold sort. cbv zeta. repeat follows_step. apply follows_sort_loop.
Qed.

Lemma follows_timsort (fuel : nat) (arr out : list T) (st : state) :
  timsort c1 fuel arr = Ok (out, st) ->
  (forall x y, In (Compare x y) (trace st) -> c1 x y = c2 x y) ->
  timsort c2 fuel arr = Ok (out, st).
Proof.
  intros Hrun Hagree. unfold timsort in *.
  destruct (sort c1 fuel 0 (Z.of_nat (length arr)) (init_state arr))
    as [[u st1]|msg| |] eqn:E; try discriminate.
  injection Hrun as <- <-.
  destruct (follows_sort fuel 0 _ _ _ _ E) as (evs & Ht & Hf).
  cbn [init_state trace app] in Ht.
  rewrite Hf; [done|].
  apply List.Forall_forall. intros e He. destruct e; try exact I.
  cbn [agree]. apply Hagree. by rewrite Ht.
Qed.

(** C4: for every comparator and input, [timsort] returns, and its trace
    holds no un-awaited [mergeAt]: the call sites in [mergeCollapse] and
    [mergeForceCollapse] are not reached, so every comparator call is one
    the sort awaits before it goes on, and no two are pending together.
    A second execution whose comparator answers the calls of the first
    alike makes the same calls in the same order and ends in the same
    state. *)
Theorem timsort_sequential (arr : list T) (fuel : nat) :
  (length arr < fuel)%nat -> Z.of_nat (length arr) < 2 ^ 31 ->
  exists out st,
    timsort c1 fuel arr = Ok (out, st) /\
    (forall i, ~ In (Unawaited i) (trace st)) /\
    ((forall x y, In (Compare x y) (trace st) -> c1 x y = c2 x y) ->
     timsort c2 fuel arr = Ok (out, st)).
Proof.
  intros Hfuel Hsize.
  destruct (decide (length arr <= 1)%nat) as [Hshort|Hlong].
  - exists arr. eexists. split; [by apply timsort_short|].
    split; [|by apply follows_timsort, timsort_short].
    cbn [trace]. intros i [Hin|[]]. discriminate.
  - destruct (timsort_spec c1 arr fuel Hfuel Hsize ltac:(lia))
      as (out & evs & Hrun & Hres).
    destruct (sorted_state_trace c1 _ _ _ Hres) as (Hm & _).
    exists out. eexists. split; [exact Hrun|].
    split; [|by apply follows_timsort].
    intros i Hin.
    assert (Hf : In (Unawaited i)
                   (List.filter merge_event
                      (trace (sorted_state (Z.of_nat (length arr)) out evs)))).
    { apply List.filter_In. by split. }
    rewrite Hm in Hf. destruct Hf.
Qed.

End TwoRuns.

(** * The numeric ascending comparator *)

Definition numeric (x y : Z) : Z := x - y.

Lemma numeric_total_order : TotalOrder numeric.
Proof. split; unfold numeric; intros; lia. Qed.

(** C6: on [5,4,3,2,1] with the numeric ascending comparator the whole
    call is: one run detection that compares the four adjacent pairs
    and finds one strictly descending run of length 5, one reversal of
    [0, 5), and a binary insertion that has nothing to insert and calls
    the comparator zero times.  The array comes back as [1,2,3,4,5]. *)
Theorem timsort_5_4_3_2_1 (fuel : nat) :
  timsort numeric (6 + fuel) [5; 4; 3; 2; 1]
  = Ok ([1; 2; 3; 4; 5],
        mkState [1; 2; 3; 4; 5] [] [] 0
          [Log "entering sort";
           Log "entering count run and make ascending";
           Compare 4 5; Compare 3 4; Compare 2 3; Compare 1 2;
           Reversed 0 5;
           Log "entering binary sort"]).
Proof. vm_compute. reflexivity. Qed.

Lemma timsort_length_0_1_witness :
  (length [7] <= 1)%nat /\
  exists st,
    timsort numeric 0 [7] = Ok ([7], st) /\
    global_a st = [7] /\
    trace st = [Log "entering sort"] /\
    List.filter is_comparison (trace st) = [].
Proof.
  split; [simpl; lia|].
  apply (timsort_length_0_1 numeric [7] 0%nat). simpl. lia.
Defined.

Lemma timsort_sorts_witness :
  exists out st,
    timsort numeric 4 [3; 1; 2] = Ok (out, st) /\
    global_a st = out /\
    ascending numeric out /\
    out ≡ₚ [3; 1; 2] /\
    length out = length [3; 1; 2].
Proof.
  apply (timsort_sorts numeric [3; 1; 2] 4%nat numeric_total_order).
  - simpl. lia.
  - simpl. lia.
Defined.

Lemma timsort_stable_witness :
  exists out st,
    timsort numeric 5 [2; 1; 2; 1] = Ok (out, st) /\
    stable numeric [2; 1; 2; 1] out.
Proof.
  destruct (timsort_stable numeric [2; 1; 2; 1] 5%nat numeric_total_order
              ltac:(simpl; lia) ltac:(simpl; lia))
    as [(out & st & Hrun & Hst & _) _].
  exists out, st. split; assumption.
Defined.

Definition forty : list Z := map (fun i => Z.of_nat ((i * 7) mod 11)) (seq 0 40).

Lemma timsort_pushes_one_run_witness :
  exists out st,
    timsort numeric 41 forty = Ok (out, st) /\
    List.filter is_push (trace st) = [Pushed 0 40 1] /\
    List.filter merge_event (trace st) = [] /\
    stackSize st = 1.
Proof.
  destruct (timsort_pushes_one_run numeric forty 41%nat
              ltac:(vm_compute; lia) ltac:(vm_compute; lia)
              ltac:(vm_compute; reflexivity))
    as (_ & out & evs1 & evs2 & st & Hrun & _ & _ & _ & Hp & Hm & _ & _ & Hs).
  exists out, st. repeat split; assumption.
Defined.

Lemma timsort_sorted_input_witness :
  exists st,
    timsort numeric 4 [1; 2; 2] = Ok ([1; 2; 2], st) /\
    one_pass [1; 2; 2] st.
Proof.
  destruct (timsort_sorted_input numeric [1; 2; 2] 4%nat numeric_total_order
              ltac:(simpl; lia) ltac:(simpl; lia) ltac:(simpl; lia))
    as [H _].
  apply H. unfold ascending, le, numeric.
  repeat constructor; lia.
Defined.

Lemma gallop_insertion_points_witness :
  (exists (k : nat) st',
      gallopLeft numeric 6 4 ([9] ++ [1; 3; 4; 4; 6] ++ [0])
        (Z.of_nat (length [9])) (Z.of_nat (length [1; 3; 4; 4; 6])) (Z.of_nat 3)
        (init_state [])
      = Ok (Z.of_nat k, st') /\
      (k <= length [1; 3; 4; 4; 6])%nat /\
      Forall (fun x => numeric x 4 < 0) (take k [1; 3; 4; 4; 6]) /\
      Forall (fun x => numeric 4 x <= 0) (drop k [1; 3; 4; 4; 6])) /\
  (exists (k : nat) st',
      gallopRight numeric 6 4 ([9] ++ [1; 3; 4; 4; 6] ++ [0])
        (Z.of_nat (length [9])) (Z.of_nat (length [1; 3; 4; 4; 6])) (Z.of_nat 3)
        (init_state [])
      = Ok (Z.of_nat k, st') /\
      (k <= length [1; 3; 4; 4; 6])%nat /\
      Forall (fun x => numeric x 4 <= 0) (take k [1; 3; 4; 4; 6]) /\
      Forall (fun x => numeric 4 x < 0) (drop k [1; 3; 4; 4; 6])).
Proof.
  apply (gallop_insertion_points numeric 4 [9] [1; 3; 4; 4; 6] [0] 3 6
           (init_state []) numeric_total_order).
  - unfold ascending, le, numeric. repeat constructor; lia.
  - simpl. lia.
  - simpl. lia.
  - simpl. lia.
Defined.

Lemma lo_contract_example : lo_contract numeric [3; 5; 7] [2; 4; 6].
Proof.
  split; [apply numeric_total_order|]. split.
  - unfold ascending, le, numeric. repeat constructor; lia.
  - intros z y [= <-] Hy. unfold numeric.
    repeat (apply elem_of_cons in Hy as [->|Hy]; [lia|]).
    by apply elem_of_nil in Hy.
Qed.

Lemma hi_contract_example : hi_contract numeric [3; 5; 7] [2; 4; 6].
Proof.
  split; [apply numeric_total_order|]. split.
  - unfold ascending, le, numeric. repeat constructor; lia.
  - intros z y [= <-] Hy. unfold numeric.
    repeat (apply elem_of_cons in Hy as [->|Hy]; [lia|]).
    by apply elem_of_nil in Hy.
Qed.

Lemma merge_contract_violation_witness :
  (exists a' evs,
      mergeLo numeric 7 (Z.of_nat (length [1])) (Z.of_nat (length [3; 5; 7]))
        (Z.of_nat (length [1] + length [3; 5; 7])) (Z.of_nat (length [2; 4; 6]))
        (mkState ([1] ++ [3; 5; 7] ++ [2; 4; 6] ++ [9]) [] [] 0 [])
      = Ok (tt, mkState a' [] [] 0 ([] ++ evs)) /\
      merged_range [1] [3; 5; 7] [2; 4; 6] [9] a') /\
  (exists a' evs,
      mergeHi numeric 7 (Z.of_nat (length [1])) (Z.of_nat (length [3; 5; 7]))
        (Z.of_nat (length [1] + length [3; 5; 7])) (Z.of_nat (length [2; 4; 6]))
        (mkState ([1] ++ [3; 5; 7] ++ [2; 4; 6] ++ [9]) [] [] 0 [])
      = Ok (tt, mkState a' [] [] 0 ([] ++ evs)) /\
      merged_range [1] [3; 5; 7] [2; 4; 6] [9] a').
Proof.
  destruct (merge_contract_violation numeric [1] [3; 5; 7] [2; 4; 6] [9] 7 [] [] 0 []
              ltac:(simpl; lia) ltac:(simpl; lia) ltac:(simpl; lia)
              ltac:(simpl; lia) ltac:(simpl; lia))
    as (_ & _ & _ & _ & _ & _ & Hlo & Hhi).
  split.
  - exact (Hlo lo_contract_example).
  - exact (Hhi hi_contract_example).
Defined.

(** The second comparator is the numeric one on what a sort of small
    naturals compares and answers 0 elsewhere. *)
Definition numeric_below_100 (x y : Z) : Z :=
  if (x <? 100) && (y <? 100) then x - y else 0.

Lemma timsort_sequential_witness :
  exists out st,
    timsort numeric 4 [3; 1; 2] = Ok (out, st) /\
    (forall i, ~ In (Unawaited i) (trace st)) /\
    timsort numeric_below_100 4 [3; 1; 2] = Ok (out, st).
Proof.
  destruct (timsort_sequential numeric numeric_below_100 [3; 1; 2] 4
              ltac:(simpl; lia) ltac:(simpl; lia))
    as (out & st & Hrun & Hseq & Hdet).
  exists out, st. split; [exact Hrun|]. split; [exact Hseq|].
  apply Hdet. intros x y Hin.
  vm_compute in Hrun. injection Hrun as <- <-.
  cbn [trace] in Hin.
  repeat (destruct Hin as [Hin|Hin];
          [first [discriminate Hin | injection Hin as <- <-; reflexivity]|]).
  destruct Hin.
Defined.

(** ** A merge that gallops until [minGallop] is negative *)

(** [lo, lo + 1, ..., lo + n - 1] *)
Definition range (lo : Z) (n : nat) : list Z :=
  map (fun i => lo + Z.of_nat i) (seq 0 n).

(** [gallop_run1] is 1..16, the six blocks 20..28, 40..48, ..., 120..128
    and 140, 141, 150, 170, 1000; [gallop_run2] is 0 and one element
    behind each block.  Both runs increase, the first starts above the
    head of the second and ends above all of it. *)
Definition gallop_run1 : list Z :=
  range 1 16 ++ flat_map (fun b => range b 9) [20; 40; 60; 80; 100; 120]
    ++ [140; 141; 150; 170; 1000].

Definition gallop_run2 : list Z := [0; 17; 29; 49; 69; 89; 109; 129; 149; 160].

Definition increasing (l : list Z) : bool :=
  forallb (fun p => fst p <? snd p) (combine l (tl l)).

Definition min_gallop_values (tr : list (@event Z)) : list (gallop_step * Z) :=
  flat_map (fun e => match e with MinGallop s v => [(s, v)] | _ => [] end) tr.

(** The penalty read as 2 more with a floor of 1. *)
Definition claimed_penalty (cur : Z) : Z := Z.max (cur + 2) 1.

(** Merging the two runs with [mergeLo], eight turns of the gallop loop
    take [minGallop] from 7 down to -1; leaving the loop then sets it to
    2, where 2 more with a floor of 1 would give 1. *)
Lemma min_gallop_penalty_counterexample :
  increasing gallop_run1 = true /\ increasing gallop_run2 = true /\
  exists a' tr,
    mergeLo numeric 86 0 75 75 10 (init_state (gallop_run1 ++ gallop_run2))
    = Ok (tt, mkState a' [] [] 0 tr) /\
    min_gallop_values tr
    = [(GInit, 7); (GDecrement, 6); (GDecrement, 5); (GDecrement, 4);
       (GDecrement, 3); (GDecrement, 2); (GDecrement, 1); (GDecrement, 0);
       (GDecrement, -1); (GPenalty, 2); (GWriteBack, 2)] /\
    claimed_penalty (-1) <> 2.
Proof.
  split; [vm_compute; reflexivity|]. split; [vm_compute; reflexivity|].
  do 2 eexists. split; [vm_compute; reflexivity|].
  split; [vm_compute; reflexivity|]. vm_compute. discriminate.
Qed.

Lemma min_gallop_evolution_witness :
  (mergeLo numeric 86 (Z.of_nat (length (@nil Z))) (Z.of_nat (length gallop_run1))
     (Z.of_nat (length (@nil Z) + length gallop_run1)) (Z.of_nat (length gallop_run2))
     (mkState ([] ++ gallop_run1 ++ gallop_run2 ++ []) [] [] 0 [])
   = Throw contract_violation
   \/ exists a' evs,
       mergeLo numeric 86 (Z.of_nat (length (@nil Z))) (Z.of_nat (length gallop_run1))
         (Z.of_nat (length (@nil Z) + length gallop_run1))
         (Z.of_nat (length gallop_run2))
         (mkState ([] ++ gallop_run1 ++ gallop_run2 ++ []) [] [] 0 [])
       = Ok (tt, mkState a' [] [] 0 ([] ++ Log merge_lo_msg :: evs)) /\
       mg_valid evs) /\
  (mergeHi numeric 86 (Z.of_nat (length (@nil Z))) (Z.of_nat (length gallop_run1))
     (Z.of_nat (length (@nil Z) + length gallop_run1)) (Z.of_nat (length gallop_run2))
     (mkState ([] ++ gallop_run1 ++ gallop_run2 ++ []) [] [] 0 [])
   = Throw contract_violation
   \/ exists a' evs,
       mergeHi numeric 86 (Z.of_nat (length (@nil Z))) (Z.of_nat (length gallop_run1))
         (Z.of_nat (length (@nil Z) + length gallop_run1))
         (Z.of_nat (length gallop_run2))
         (mkState ([] ++ gallop_run1 ++ gallop_run2 ++ []) [] [] 0 [])
       = Ok (tt, mkState a' [] [] 0 ([] ++ Log merge_hi_msg :: evs)) /\
       mg_valid evs).
Proof.
  apply (min_gallop_evolution numeric [] gallop_run1 gallop_run2 [] 86 [] [] 0 []).
  - vm_compute. lia.
  - vm_compute. lia.
  - vm_compute. lia.
  - vm_compute. reflexivity.
  - vm_compute. reflexivity.
Defined.

(** * Further properties of the sort *)

Section Further.

Context {T : Type}.
Variable compareFn : T -> T -> Z.

Local Abbreviation state := (@state T).
Local Abbreviation event := (@event T).
Local Abbreviation M := (@M T).

(** ** What throws *)

Lemma no_throw_put_a (a : list T) : no_throw (put_a a).
Proof. done. Qed.

Lemma no_throw_get_runBase : no_throw (@get_runBase T).
Proof. done. Qed.

Lemma no_throw_get_runLen : no_throw (@get_runLen T).
Proof. done. Qed.

Lemma no_throw_get_stackSize : no_throw (@get_stackSize T).
Proof. done. Qed.

Lemma no_throw_put_runBase (l : list Z) : no_throw (@put_runBase T l).
Proof. done. Qed.

Lemma no_throw_put_runLen (l : list Z) : no_throw (@put_runLen T l).
Proof. done. Qed.

Lemma no_throw_put_stackSize (n : Z) : no_throw (@put_stackSize T n).
Proof. done. Qed.

Create HintDb never_throws.
#[local] Hint Resolve no_throw_ret no_throw_timeout no_throw_emit no_throw_get_a
  no_throw_compare no_throw_a_get no_throw_arr_get no_throw_a_set
  no_throw_a_arraycopy no_throw_a_arraycopy_from no_throw_option
  no_throw_lift_arraycopy no_throw_put_a
  no_throw_get_runBase no_throw_get_runLen no_throw_get_stackSize
  no_throw_put_runBase no_throw_put_runLen no_throw_put_stackSize : never_throws.

Ltac never_throws :=
  repeat first
    [ solve [auto with never_throws]
    | match goal with
      | |- no_throw (match ?x with _ => _ end) => destruct x
      end
    | apply no_throw_bind; [|intros ?] ].

Lemma no_throw_log (msg : string) : no_throw (@log T msg).
Proof. done. Qed.

Lemma no_throw_reverseRange_loop (fuel : nat) :
  forall lo hi, no_throw (@reverseRange_loop T fuel lo hi).
Proof.
  induction fuel as [|fuel IH]; intros lo hi; cbn [reverseRange_loop]; never_throws.
Qed.

Lemma no_throw_run_loop (fuel : nat) (test : Z -> bool) :
  forall runHi hi, no_throw (run_loop compareFn fuel test runHi hi).
Proof.
  induction fuel as [|fuel IH]; intros runHi hi; cbn [run_loop]; never_throws.
Qed.

#[local] Hint Resolve no_throw_log no_throw_reverseRange_loop no_throw_run_loop
  : never_throws.

Lemma no_throw_countRunAndMakeAscending (fuel : nat) (lo hi : Z) :
  no_throw (countRunAndMakeAscending compareFn fuel lo hi).
Proof. unfold countRunAndMakeAscending, reverseRange. cbv zeta. never_throws. Qed.

Lemma no_throw_binarySort_search (fuel : nat) (pivot : T) :
  forall left right, no_throw (binarySort_search compareFn fuel pivot left right).
Proof.
  induction fuel as [|fuel IH]; intros left right; cbn [binarySort_search];
    cbv zeta; never_throws.
Qed.

Lemma no_throw_binarySort_slide (left n : Z) : no_throw (@binarySort_slide T left n).
Proof. unfold binarySort_slide. never_throws. Qed.

#[local] Hint Resolve no_throw_countRunAndMakeAscending no_throw_binarySort_search
  no_throw_binarySort_slide : never_throws.

Lemma no_throw_binarySort_loop (fuel n : nat) :
  forall lo hi start, no_throw (binarySort_loop compareFn fuel n lo hi start).
Proof.
  induction n as [|n IH]; intros lo hi start; cbn [binarySort_loop]; never_throws.
Qed.

#[local] Hint Resolve no_throw_binarySort_loop : never_throws.

Lemma no_throw_binarySort (fuel : nat) (lo hi start : Z) :
  no_throw (binarySort compareFn fuel lo hi start).
Proof. unfold binarySort. cbv zeta. never_throws. Qed.

Lemma no_throw_pushRun (b l : Z) : no_throw (@pushRun T b l).
Proof. unfold pushRun. never_throws. Qed.

Lemma no_throw_mergeAt_unawaited (i : Z) : no_throw (@mergeAt_unawaited T i).
Proof.
  unfold mergeAt_unawaited, runBase_get, runLen_get, runBase_set, runLen_set.
  never_throws.
Qed.

#[local] Hint Resolve no_throw_binarySort no_throw_pushRun
  no_throw_mergeAt_unawaited : never_throws.

Lemma no_throw_mergeCollapse (fuel : nat) : no_throw (@mergeCollapse T fuel).
Proof.
  induction fuel as [|fuel IH]; cbn [mergeCollapse]; unfold runLen_get; cbv zeta;
    never_throws.
Qed.

Lemma no_throw_mergeForceCollapse (fuel : nat) : no_throw (@mergeForceCollapse T fuel).
Proof.
  induction fuel as [|fuel IH]; cbn [mergeForceCollapse]; unfold runLen_get;
    cbv zeta; never_throws.
Qed.

#[local] Hint Resolve no_throw_mergeCollapse no_throw_mergeForceCollapse : never_throws.

Lemma no_throw_sort_loop (fuel n : nat) :
  forall lo hi nRemaining minRun,
    no_throw (sort_loop compareFn fuel n lo hi nRemaining minRun).
Proof.
  induction n as [|n IH]; intros lo hi nRemaining minRun; cbn [sort_loop];
    cbv zeta; never_throws.
Qed.

#[local] Hint Resolve no_throw_sort_loop : never_throws.

(** [sort] throws on a range that is not within the array, and on
    nothing else: whatever the comparator answers, nothing behind the
    range check throws.  [timsort] passes the whole array and never
    throws. *)
Theorem sort_throws_on_bad_range (fuel : nat) (lo hi : Z) (st : state) :
  ((exists msg, sort compareFn fuel lo hi st = Throw msg)
   <-> hi < lo \/ lo < 0 \/ Z.of_nat (length (global_a st)) < hi) /\
  (forall arr msg, timsort compareFn fuel arr <> Throw msg).
Proof.
  assert (Hsort : forall lo hi (st : state),
             (exists msg, sort compareFn fuel lo hi st = Throw msg)
             <-> hi < lo \/ lo < 0 \/ Z.of_nat (length (global_a st)) < hi).
  { clear. intros lo hi [a rb rl ss tr]. cbn [global_a].
    unfold sort. rewrite step_log, step_put_stackSize, step_put_runBase,
      step_put_runLen, step_get_a.
    unfold rangeCheck.
    destruct (Z.ltb_spec hi lo); [split; [intros _; lia|intros _; by eexists]|].
    destruct (Z.ltb_spec lo 0); [split; [intros _; lia|intros _; by eexists]|].
    destruct (Z.ltb_spec (Z.of_nat (length a)) hi);
      [split; [intros _; lia|intros _; by eexists]|].
    rewrite step_ret. cbv zeta. split; [|lia].
    intros [msg Hthrow]. exfalso. revert Hthrow.
    assert (Hn : no_throw
               (if hi - lo <? 2 then ret tt
                else if hi - lo <? MIN_MERGE then
                  bind (countRunAndMakeAscending compareFn fuel lo hi)
                    (fun initRunLen =>
                       binarySort compareFn fuel lo hi (lo + initRunLen))
                else
                  bind (sort_loop compareFn fuel fuel lo hi (hi - lo)
                          (minRunLength (hi - lo)))
                    (fun _ => mergeForceCollapse fuel))) by never_throws.
    apply Hn. }
  split; [apply Hsort|].
  intros arr msg H. unfold timsort in H.
  destruct (sort compareFn fuel 0 (Z.of_nat (length arr)) (init_state arr))
    as [[u st']|msg'| |] eqn:E; try discriminate.
  destruct (proj1 (Hsort 0 (Z.of_nat (length arr)) (init_state arr))) as [Hb|[Hb|Hb]];
    [by exists msg'| | |]; cbn [init_state global_a] in *; lia.
Qed.


(** ** How often the comparator is called *)

(** The number of comparator calls in a trace. *)
Definition comparisons (tr : list event) : Z :=
  Z.of_nat (length (List.filter is_comparison tr)).

Lemma comparisons_app (tr1 tr2 : list event) :
  comparisons (tr1 ++ tr2) = comparisons tr1 + comparisons tr2.
Proof. unfold comparisons. rewrite List.filter_app, length_app. lia. Qed.

Lemma bind_ok {A B} (m : M A) (k : A -> M B) (st : state) (r : B * state) :
  bind m k st = Ok r -> exists x st1, m st = Ok (x, st1) /\ k x st1 = Ok r.
Proof.
  unfold bind. destruct (m st) as [[x st1]|msg| |]; try done.
  intros H. by exists x, st1.
Qed.

(** A step that calls the comparator not at all. *)
Definition calm {A} (m : M A) : Prop :=
  forall st v st', m st = Ok (v, st') -> comparisons (trace st') = comparisons (trace st).

Lemma calm_bind {A B} (m : M A) (k : A -> M B) :
  calm m -> (forall x, calm (k x)) -> calm (bind m k).
Proof.
  intros Hm Hk st v st' H. apply bind_ok in H as (x & st1 & H1 & H2).
  rewrite (Hk _ _ _ _ H2). by apply (Hm _ _ _ H1).
Qed.

Lemma calm_ret {A} (x : A) : calm (@ret T A x).
Proof. by intros st v st' [= <- <-]. Qed.

Lemma calm_timeout {A} : calm (@timeout T A).
Proof. by intros st v st' H. Qed.

Lemma calm_lift {A} (o : outcome A) : calm (@lift T A o).
Proof. intros st v st' H. unfold lift in H. destruct o; try done. by injection H as <- <-. Qed.

Lemma calm_get_a : calm (@get_a T).
Proof. by intros st v st' [= <- <-]. Qed.

Lemma calm_put_a (a : list T) : calm (put_a a).
Proof. by intros st v st' [= <- <-]. Qed.

Lemma calm_emit (e : event) : is_comparison e = false -> calm (emit e).
Proof.
  intros He st v st' [= <- <-]. cbn [trace]. rewrite comparisons_app.
  unfold comparisons. cbn [List.filter]. rewrite He. cbn [length]. lia.
Qed.

Create HintDb calm.
#[local] Hint Resolve calm_ret calm_timeout calm_lift calm_get_a calm_put_a : calm.

Ltac calm_steps :=
  repeat first
    [ solve [auto with calm]
    | apply calm_emit; reflexivity
    | match goal with
      | |- calm (match ?x with _ => _ end) => destruct x
      end
    | apply calm_bind; [|intros ?] ].

Lemma calm_log (msg : string) : calm (@log T msg).
Proof. by apply calm_emit. Qed.

Lemma calm_a_get (i : Z) : calm (@a_get T i).
Proof. unfold a_get. calm_steps. Qed.

Lemma calm_a_set (i : Z) (x : T) : calm (a_set i x).
Proof. unfold a_set. calm_steps. Qed.

#[local] Hint Resolve calm_log calm_a_get calm_a_set : calm.

Lemma calm_reverseRange_loop (fuel : nat) :
  forall lo hi, calm (@reverseRange_loop T fuel lo hi).
Proof.
  induction fuel as [|fuel IH]; intros lo hi; cbn [reverseRange_loop]; calm_steps.
Qed.

#[local] Hint Resolve calm_reverseRange_loop : calm.

Lemma calm_reverseRange (fuel : nat) (lo hi : Z) : calm (@reverseRange T fuel lo hi).
Proof. unfold reverseRange. calm_steps. Qed.

Lemma calm_binarySort_slide (left n : Z) : calm (@binarySort_slide T left n).
Proof. unfold binarySort_slide. calm_steps. Qed.

Lemma compare_ok (x y : T) (st : state) (c : Z) (st' : state) :
  compare compareFn x y st = Ok (c, st') ->
  c = compareFn x y /\ comparisons (trace st') = comparisons (trace st) + 1.
Proof.
  intros [= <- <-]. split; [done|]. cbn [trace]. by rewrite comparisons_app.
Qed.

(** A run-extending loop calls the comparator once for every element it
    takes into the run and once more when it stops before [hi]. *)
Lemma run_loop_cost (fuel : nat) (test : Z -> bool) :
  forall runHi hi (st : state) r st',
    runHi <= hi ->
    run_loop compareFn fuel test runHi hi st = Ok (r, st') ->
    runHi <= r <= hi /\
    comparisons (trace st')
    <= comparisons (trace st) + Z.min (r - runHi + 1) (hi - runHi).
Proof.
  induction fuel as [|fuel IH]; intros runHi hi st r st' Hle H; [done|].
  cbn [run_loop] in H. destruct (Z.ltb_spec runHi hi).
  - apply bind_ok in H as (x & st1 & H1 & H).
    apply bind_ok in H as (y & st2 & H2 & H).
    apply bind_ok in H as (c & st3 & H3 & H).
    apply calm_a_get in H1. apply calm_a_get in H2.
    apply compare_ok in H3 as [-> H3].
    destruct (test _).
    + apply IH in H as [Hr Hc]; [|lia]. lia.
    + injection H as <- <-. lia.
  - injection H as <- <-. lia.
Qed.

(** Run detection calls the comparator at most as often as the run it
    returns is long. *)
Lemma countRun_cost (fuel : nat) (lo hi : Z) (st : state) r st' :
  lo < hi ->
  countRunAndMakeAscending compareFn fuel lo hi st = Ok (r, st') ->
  1 <= r <= hi - lo /\
  comparisons (trace st') <= comparisons (trace st) + Z.min r (hi - lo - 1).
Proof.
  intros Hlt H. unfold countRunAndMakeAscending in H.
  apply bind_ok in H as (u & st0 & H0 & H).
  apply calm_log in H0. cbv zeta in H.
  destruct (Z.eqb_spec (lo + 1) hi).
  { injection H as <- <-. lia. }
  apply bind_ok in H as (x & st1 & H1 & H).
  apply bind_ok in H as (y & st2 & H2 & H).
  apply bind_ok in H as (c & st3 & H3 & H).
  apply calm_a_get in H1. apply calm_a_get in H2.
  apply compare_ok in H3 as [-> H3].
  destruct (_ <? 0).
  - apply bind_ok in H as (r' & st4 & H4 & H).
    apply run_loop_cost in H4 as [Hr Hc]; [|lia].
    apply bind_ok in H as (u' & st5 & H5 & H).
    apply calm_reverseRange in H5. injection H as <- <-. lia.
  - apply bind_ok in H as (r' & st4 & H4 & H).
    apply run_loop_cost in H4 as [Hr Hc]; [|lia].
    injection H as <- <-. lia.
Qed.

(** The comparisons of one binary search: none on an empty range, and
    on [m] elements one more than the binary logarithm of [m]. *)
Definition search_bound (m : Z) : Z := if m <=? 0 then 0 else Z.log2 m + 1.

Lemma search_bound_half (m : Z) :
  1 <= m -> 1 + search_bound (m / 2) <= search_bound m.
Proof.
  intros Hm. unfold search_bound.
  destruct (Z.leb_spec m 0); [lia|].
  destruct (Z.leb_spec (m / 2) 0) as [Hz|Hp].
  - pose proof (Z.log2_nonneg m). lia.
  - pose proof (half_bounds m) as Hb.
    assert (Hd : Z.log2 m = Z.succ (Z.log2 (m / 2))).
    { destruct (Z.eq_dec m (2 * (m / 2))) as [E|E].
      - rewrite E at 1. by apply Z.log2_double.
      - replace m with (2 * (m / 2) + 1) at 1 by lia.
        apply Z.log2_succ_double. lia. }
    lia.
Qed.

Lemma search_bound_mono (m m' : Z) : m <= m' -> search_bound m <= search_bound m'.
Proof.
  intros Hm. unfold search_bound.
  destruct (Z.leb_spec m 0); destruct (Z.leb_spec m' 0); try lia.
  - pose proof (Z.log2_nonneg m'). lia.
  - pose proof (Z.log2_le_mono m m' Hm). lia.
Qed.

Lemma binarySort_search_cost (fuel : nat) (pivot : T) :
  forall left right (st : state) r st',
    0 <= left -> left <= right -> 2 * right < 2 ^ 32 ->
    binarySort_search compareFn fuel pivot left right st = Ok (r, st') ->
    comparisons (trace st')
    <= comparisons (trace st) + search_bound (right - left).
Proof.
  induction fuel as [|fuel IH]; intros left right st r st' Hpos Hle Hsize H; [done|].
  cbn [binarySort_search] in H. destruct (Z.ltb_spec left right).
  - cbv zeta in H. rewrite ushr1_half in H by lia.
    pose proof (half_bounds (left + right)) as Hb.
    apply bind_ok in H as (am & st1 & H1 & H).
    apply bind_ok in H as (c & st2 & H2 & H).
    apply calm_a_get in H1. apply compare_ok in H2 as [-> H2].
    pose proof (search_bound_half (right - left) ltac:(lia)) as Hhalf.
    pose proof (half_bounds (right - left)) as Hb'.
    destruct (_ <? 0).
    + apply IH in H; [|lia|lia|lia].
      pose proof (search_bound_mono ((left + right) / 2 - left) ((right - left) / 2)
                    ltac:(lia)).
      lia.
    + apply IH in H; [|lia|lia|lia].
      pose proof (search_bound_mono (right - ((left + right) / 2 + 1))
                    ((right - left) / 2) ltac:(lia)).
      lia.
  - injection H as <- <-. unfold search_bound.
    destruct (Z.leb_spec (right - left) 0); lia.
Qed.

Lemma binarySort_loop_cost (fuel n : nat) :
  forall lo hi start (st : state) u st',
    0 <= lo -> lo <= start -> 2 * hi < 2 ^ 32 ->
    binarySort_loop compareFn fuel n lo hi start st = Ok (u, st') ->
    comparisons (trace st')
    <= comparisons (trace st) + Z.max 0 (hi - start) * search_bound (hi - lo).
Proof.
  induction n as [|n IH]; intros lo hi start st u st' Hlo Hle Hsize H; [done|].
  cbn [binarySort_loop] in H. destruct (Z.ltb_spec start hi).
  - apply bind_ok in H as (pivot & st1 & H1 & H).
    apply bind_ok in H as (left & st2 & H2 & H).
    apply bind_ok in H as (u3 & st3 & H3 & H).
    apply bind_ok in H as (u4 & st4 & H4 & H).
    apply bind_ok in H as (u5 & st5 & H5 & H).
    apply calm_a_get in H1.
    apply binarySort_search_cost in H2; [|lia|lia|lia].
    apply calm_binarySort_slide in H3. apply calm_a_set in H4.
    apply calm_log in H5.
    apply IH in H; [|lia|lia|lia].
    pose proof (search_bound_mono (start - lo) (hi - lo) ltac:(lia)).
    replace (Z.max 0 (hi - start)) with (1 + Z.max 0 (hi - (start + 1))) by lia.
    lia.
  - injection H as <- <-.
    replace (Z.max 0 (hi - start)) with 0 by lia. lia.
Qed.

Lemma binarySort_cost (fuel : nat) (lo hi start : Z) (st : state) u st' :
  0 <= lo -> lo <= start -> 2 * hi < 2 ^ 32 ->
  binarySort compareFn fuel lo hi start st = Ok (u, st') ->
  comparisons (trace st')
  <= comparisons (trace st) + Z.max 0 (hi - start) * search_bound (hi - lo).
Proof.
  intros Hlo Hle Hsize H. unfold binarySort in H.
  apply bind_ok in H as (u0 & st0 & H0 & H). apply calm_log in H0.
  cbv zeta in H.
  pose proof (search_bound_mono 0 (hi - lo)) as Hsb.
  assert (0 <= search_bound (hi - lo)).
  { unfold search_bound. destruct (Z.leb_spec (hi - lo) 0); [lia|].
    pose proof (Z.log2_nonneg (hi - lo)). lia. }
  destruct (Z.eqb_spec start lo).
  - apply binarySort_loop_cost in H; [|lia|lia|lia]. nia.
  - apply binarySort_loop_cost in H; [|lia|lia|lia]. lia.
Qed.

(** Run detection followed by binary insertion on the whole array: the
    state [sort] ends in, and how many comparator calls it has logged. *)
Lemma sort_cost (arr : list T) (fuel : nat) :
  (length arr < fuel)%nat -> Z.of_nat (length arr) < 2 ^ 31 ->
  (2 <= length arr)%nat ->
  exists (out : list T) (evs : list event),
    sort compareFn fuel 0 (Z.of_nat (length arr)) (init_state arr)
    = Ok (tt, sorted_state (Z.of_nat (length arr)) out evs) /\
    comparisons (Log sort_msg :: evs)
    <= Z.of_nat (length arr) * (Z.log2 (Z.of_nat (length arr)) + 1).
Proof.
  intros Hfuel Hsize Hlen.
  destruct arr as [|x rest]; [cbn [length] in Hlen; lia|].
  cbn [length] in *. set (n := Z.of_nat (S (length rest))).
  unfold sort, init_state. rewrite step_log. fold sort_msg.
  rewrite step_put_stackSize, step_put_runBase, step_put_runLen, step_get_a.
  cbn [length]. fold n. rewrite rangeCheck_full by lia.
  replace (n - 0) with n by lia.
  destruct (Z.ltb_spec n 2); [lia|].
  destruct (countRun_spec compareFn [] x rest fuel (length rest) [] [] 0 [Log sort_msg]
              ltac:(lia) ltac:(lia))
    as (k & run' & evs1 & Hk & Hcount & Hrun & Hsorted).
  cbn [length app] in Hcount.
  replace (Z.of_nat 0 + 1 + Z.of_nat (length rest)) with n in Hcount by lia.
  change (Z.of_nat 0) with 0 in Hcount.
  assert (Hrunlen : length run' = S k).
  { destruct Hrun as [(-> & _)|(-> & _)]; list_len; rewrite length_take; lia. }
  destruct (binarySort_spec compareFn run' (drop k rest) fuel n (1 + Z.of_nat k)
              [] [] 0 ([Log sort_msg] ++ Log count_run_msg :: evs1))
    as (out & evs2 & Hins & Hq2 & Hperm & Hnil & Hfun);
    [ rewrite Hrunlen, length_drop; lia | lia | lia
    | rewrite Hrunlen, length_drop; lia | rewrite Hrunlen, length_drop; lia |].
  cbn [app] in Hins.
  exists out, (Log count_run_msg :: evs1 ++ Log binary_sort_msg :: evs2).
  split.
  - unfold sorted_state. fold n. unfold MIN_MERGE. destruct (Z.ltb_spec n 32).
    + rewrite (step_ok _ _ _ _ _ Hcount).
      replace (0 + (1 + Z.of_nat k)) with (1 + Z.of_nat k) by lia.
      rewrite Hins. done.
    + destruct fuel as [|fuel']; [lia|]. cbn [sort_loop].
      set (fuel := S fuel') in *.
      rewrite !bind_assoc.
      rewrite (step_ok _ _ _ _ _ Hcount).
      unfold minRunLength. rewrite !bind_assoc.
      destruct (Z.ltb_spec (1 + Z.of_nat k) (n + 1)); [|lia].
      destruct (Z.leb_spec n (n + 1)); [|lia]. rewrite !bind_assoc.
      replace (0 + n) with n by lia.
      replace (0 + (1 + Z.of_nat k)) with (1 + Z.of_nat k) by lia.
      rewrite (step_ok _ _ _ _ _ Hins). rewrite step_ret.
      rewrite bind_assoc.
      rewrite (step_ok _ _ _ _ _ (pushRun_first _ _ _ _)).
      rewrite bind_assoc. subst fuel.
      rewrite (step_ok _ _ _ _ _ (mergeCollapse_single _ _ _ _ _)).
      replace (n - n) with 0 by lia. cbn [Z.eqb negb]. rewrite step_ret.
      rewrite mergeForceCollapse_single. done.
  - apply countRun_cost in Hcount as [Hr Hc1]; [|lia].
    apply binarySort_cost in Hins; [|lia|lia|lia].
    cbn [trace] in Hc1, Hins.
    assert (Hsb : search_bound (n - 0) = Z.log2 n + 1).
    { unfold search_bound. destruct (Z.leb_spec (n - 0) 0); [lia|].
      by replace (n - 0) with n by lia. }
    rewrite Hsb in Hins. pose proof (Z.log2_nonneg n) as Hlog.
    change (comparisons [Log sort_msg]) with 0 in Hc1.
    assert (HK : 0 <= Z.of_nat k <= n - 1) by lia.
    replace (Z.max 0 (n - (1 + Z.of_nat k))) with (n - 1 - Z.of_nat k) in Hins by lia.
    assert (Hprod : 0 <= (1 + Z.of_nat k) * Z.log2 n) by (apply Z.mul_nonneg_nonneg; lia).
    replace (n * (Z.log2 n + 1))
      with ((1 + Z.of_nat k) * Z.log2 n + (1 + Z.of_nat k)
            + (n - 1 - Z.of_nat k) * (Z.log2 n + 1)) by ring.
    lia.
Qed.

(** Whatever the comparator answers, [timsort] calls it at most
    n * (floor (log2 n) + 1) times on an array of n elements. *)
Theorem timsort_comparisons (arr : list T) (fuel : nat) :
  (length arr < fuel)%nat -> Z.of_nat (length arr) < 2 ^ 31 ->
  exists out st,
    timsort compareFn fuel arr = Ok (out, st) /\
    comparisons (trace st)
    <= Z.of_nat (length arr) * (Z.log2 (Z.of_nat (length arr)) + 1).
Proof.
  intros Hfuel Hsize.
  destruct (decide (length arr <= 1)%nat) as [Hshort|Hlong].
  - exists arr. eexists. split; [by apply timsort_short|].
    cbn [trace]. change (comparisons [Log sort_msg]) with 0.
    pose proof (Z.log2_nonneg (Z.of_nat (length arr))). nia.
  - destruct (sort_cost arr fuel Hfuel Hsize ltac:(lia))
      as (out & evs & Hsort & Hcost).
    exists out, (sorted_state (Z.of_nat (length arr)) out evs). split.
    { unfold timsort. rewrite Hsort. unfold sorted_state.
      by destruct (_ <? MIN_MERGE). }
    unfold sorted_state. destruct (_ <? MIN_MERGE); cbn [trace]; [done|].
    change (Log sort_msg :: evs ++ [Pushed 0 (Z.of_nat (length arr)) 1])
      with ((Log sort_msg :: evs) ++ [Pushed 0 (Z.of_nat (length arr)) 1]).
    rewrite comparisons_app.
    change (comparisons [Pushed 0 (Z.of_nat (length arr)) 1]) with 0. lia.
Qed.


(** ** Any comparator *)

(** Whatever the comparator answers, consistent or not, [timsort]
    returns, and what it returns holds the elements of the input, each
    as often as the input has it. *)
Theorem timsort_permutes (arr : list T) (fuel : nat) :
  (length arr < fuel)%nat -> Z.of_nat (length arr) < 2 ^ 31 ->
  exists out st,
    timsort compareFn fuel arr = Ok (out, st) /\
    global_a st = out /\ out ≡ₚ arr /\ length out = length arr.
Proof.
  intros Hfuel Hsize.
  destruct (decide (length arr <= 1)%nat) as [Hshort|Hlong].
  - exists arr. eexists. split; [by apply timsort_short|]. done.
  - destruct (timsort_spec compareFn arr fuel Hfuel Hsize ltac:(lia))
      as (out & evs & Hrun & Hres).
    destruct Hres as (evs1 & evs2 & _ & _ & _ & Hperm & _).
    exists out. eexists. split; [exact Hrun|].
    split; [unfold sorted_state; by destruct (_ <? _)|].
    split; [done|]. by rewrite Hperm.
Qed.

(** ** reverseRange *)

(** [reverseRange(a, lo, hi)] leaves the elements of [lo, hi) in the
    opposite order and every other element where it was. *)
Theorem reverseRange_reverses (pre run post : list T) (fuel : nat) rb rl ss tr :
  (length run < fuel)%nat ->
  reverseRange fuel (Z.of_nat (length pre)) (Z.of_nat (length pre + length run))
    (mkState (pre ++ run ++ post) rb rl ss tr)
  = Ok (tt, mkState (pre ++ rev run ++ post) rb rl ss
              (tr ++ [Reversed (Z.of_nat (length pre))
                               (Z.of_nat (length pre + length run))])).
Proof.
  intros Hfuel. unfold reverseRange. rewrite step_emit.
  replace (Z.of_nat (length pre + length run) - 1)
    with (Z.of_nat (length pre) + Z.of_nat (length run) - 1) by lia.
  by rewrite (reverseRange_loop_spec (length run) run pre post fuel rb rl ss _
                eq_refl Hfuel).
Qed.

(** ** arraycopy *)

(** [arraycopy(s, spos, d, dpos, len)] on ranges that lie within the two
    arrays puts the [len] elements that [s] held from [spos] on into [d]
    from [dpos] on and leaves the rest of [d]; as the source range is
    sliced off first, this also holds when [s] and [d] are the same
    array and the ranges overlap. *)
Theorem arraycopy_moves (s d : list T) (spos dpos len : nat) :
  (spos + len <= length s)%nat -> (dpos + len <= length d)%nat ->
  arraycopy s (Z.of_nat spos) d (Z.of_nat dpos) (Z.of_nat len)
  = Ok (take dpos d ++ take len (drop spos s) ++ drop (dpos + len) d).
Proof.
  intros Hs Hd.
  rewrite <- (take_drop spos s) at 1.
  rewrite <- (take_drop len (drop spos s)) at 1.
  rewrite <- (take_drop dpos d) at 1.
  rewrite <- (take_drop len (drop dpos d)) at 1.
  rewrite (drop_drop d).
  rewrite (arraycopy_spec (take spos s) (take len (drop spos s))
             (drop len (drop spos s)) (take dpos d) (take len (drop dpos d))
             (drop (dpos + len) d)); first done.
  - rewrite length_take. lia.
  - rewrite length_take. lia.
  - rewrite length_take, length_drop. lia.
  - rewrite !length_take, !length_drop. lia.
Qed.

(** ** binarySort on a range *)

(** The insertion loop with a part already sorted before [start]. *)
Lemma binarySort_on_range (pre sorted rest post : list T) (fuel : nat) rb rl ss tr :
  TotalOrder compareFn -> ascending compareFn sorted ->
  (1 <= length sorted)%nat ->
  2 * Z.of_nat (length pre + length sorted + length rest) < 2 ^ 32 ->
  (length sorted + length rest < fuel)%nat ->
  exists (out : list T) (evs : list event),
    binarySort compareFn fuel (Z.of_nat (length pre))
      (Z.of_nat (length pre + length sorted + length rest))
      (Z.of_nat (length pre + length sorted))
      (mkState (pre ++ sorted ++ rest ++ post) rb rl ss tr)
    = Ok (tt, mkState (pre ++ out ++ post) rb rl ss (tr ++ evs)) /\
    ascending compareFn out /\
    stable compareFn (sorted ++ rest) out /\
    out ≡ₚ sorted ++ rest.
Proof.
  intros Hord Hasc Hpos Hsize Hfuel. unfold binarySort. rewrite step_log.
  cbv zeta.
  destruct (Z.eqb_spec (Z.of_nat (length pre + length sorted))
              (Z.of_nat (length pre))) as [E|E]; [lia|].
  destruct (binarySort_loop_spec compareFn pre post rest sorted fuel fuel rb rl ss
              (tr ++ [Log "entering binary sort"]) Hsize Hfuel ltac:(lia))
    as (out & evs & Hrun & _ & Hperm & _ & Hfun).
  destruct (Hfun Hord Hasc) as [Ha Hs].
  exists out, (Log "entering binary sort" :: evs).
  split; [rewrite Hrun; by rewrite <- app_assoc|]. done.
Qed.

(** With [lo, start) non-decreasing under a consistent total order
    (an empty [lo, start) counts as one element, [start] being moved up),
    [binarySort(a, lo, hi, start)] leaves [lo, hi) non-decreasing, with
    the elements it had, equal ones in the order they had, and does not
    touch the array outside [lo, hi). *)
Theorem binarySort_range (pre sorted rest post : list T) (fuel : nat) rb rl ss tr :
  TotalOrder compareFn -> ascending compareFn sorted ->
  2 * Z.of_nat (length pre + length sorted + length rest) < 2 ^ 32 ->
  (length sorted + length rest < fuel)%nat ->
  exists (out : list T) (evs : list event),
    binarySort compareFn fuel (Z.of_nat (length pre))
      (Z.of_nat (length pre + length sorted + length rest))
      (Z.of_nat (length pre + length sorted))
      (mkState (pre ++ sorted ++ rest ++ post) rb rl ss tr)
    = Ok (tt, mkState (pre ++ out ++ post) rb rl ss (tr ++ evs)) /\
    ascending compareFn out /\
    stable compareFn (sorted ++ rest) out /\
    out ≡ₚ sorted ++ rest.
Proof.
  intros Hord Hasc Hsize Hfuel.
  destruct sorted as [|s0 sorted].
  - (* [start == lo]: the first element is the sorted part *)
    destruct rest as [|y rest].
    + unfold binarySort. rewrite step_log. cbv zeta.
      cbn [length app] in *.
      destruct (Z.eqb_spec (Z.of_nat (length pre + 0)) (Z.of_nat (length pre)));
        [|lia].
      destruct fuel as [|fuel']; [lia|]. cbn [binarySort_loop length].
      destruct (Z.ltb_spec (Z.of_nat (length pre + 0) + 1)
                  (Z.of_nat (length pre + 0 + 0))); [lia|].
      exists [], [Log "entering binary sort"]. split; [done|].
      split; [constructor|]. done.
    + destruct (binarySort_on_range pre [y] rest post fuel rb rl ss tr Hord
                  ltac:(repeat constructor))
        as (out & evs & Hrun & Hres);
        [cbn [length]; lia|cbn [length] in *; lia|cbn [length] in *; lia|].
      exists out, evs. split; [|done].
      (* the call with [start] at [lo] and the one with [start] behind the
         first element go the same way *)
      unfold binarySort in *. rewrite step_log in *. cbv zeta in *.
      cbn [length app] in *.
      destruct (Z.eqb_spec (Z.of_nat (length pre + 0)) (Z.of_nat (length pre)));
        [|lia].
      destruct (Z.eqb_spec (Z.of_nat (length pre + 1)) (Z.of_nat (length pre)));
        [lia|].
      replace (Z.of_nat (length pre + 0) + 1) with (Z.of_nat (length pre + 1)) by lia.
      replace (Z.of_nat (length pre + 0 + S (length rest)))
        with (Z.of_nat (length pre + 1 + length rest)) by lia.
      exact Hrun.
  - apply binarySort_on_range; try done. cbn [length]. lia.
Qed.


(** ** The run that countRunAndMakeAscending finds *)

Lemma chain_stops (test : Z -> bool) (x z : T) (l : list T) (k : nat) :
  l !! k = Some z ->
  test (compareFn z (List.last (take k l) x)) = false ->
  ~ chain compareFn test x (take (S k) l).
Proof.
  intros Hz Hstop Hc.
  assert (Hz' : take (S k) l !! k = Some z) by (rewrite lookup_take_lt; [done|lia]).
  pose proof (chain_lookup compareFn _ _ _ _ _ Hc Hz') as Ht.
  rewrite take_take in Ht. rewrite Nat.min_l in Ht by lia. congruence.
Qed.

Lemma descending_chain (l : list T) :
  forall x, descending compareFn (x :: l) -> chain compareFn (fun c => c <? 0) x l.
Proof.
  induction l as [|y l IH]; intros x Hs; [done|].
  inversion Hs as [|? ? Hs' Hall]; subst. inversion Hall; subst.
  split; [|by apply IH]. by apply Z.ltb_lt.
Qed.

(** The call traced as in [countRun_spec], keeping where each loop
    stopped. *)
Lemma countRun_maximal (pre : list T) (x : T) (rest : list T) (fuel m : nat)
    rb rl ss tr :
  (m <= length rest)%nat -> (m + 1 < fuel)%nat ->
  exists (k : nat) (run' : list T) (evs : list event),
    (k <= m)%nat /\ (1 <= m -> 1 <= k)%nat /\
    countRunAndMakeAscending compareFn fuel
      (Z.of_nat (length pre)) (Z.of_nat (length pre) + 1 + Z.of_nat m)
      (mkState (pre ++ x :: rest) rb rl ss tr)
    = Ok (1 + Z.of_nat k,
          mkState (pre ++ run' ++ drop k rest) rb rl ss (tr ++ evs)) /\
    (run' = x :: take k rest /\ chain compareFn (fun c => 0 <=? c) x (take k rest)
       /\ True
     \/ run' = rev (x :: take k rest)
        /\ chain compareFn (fun c => c <? 0) x (take k rest) /\ (1 <= k)%nat) /\
    ((k < m)%nat ->
     ~ chain compareFn (fun c => 0 <=? c) x (take (S k) rest) /\
     ~ chain compareFn (fun c => c <? 0) x (take (S k) rest)).
Proof.
  intros Hm Hfuel. unfold countRunAndMakeAscending.
  rewrite step_log.
  destruct m as [|m].
  { destruct (Z.eqb_spec (Z.of_nat (length pre) + 1)
                (Z.of_nat (length pre) + 1 + Z.of_nat 0)) as [_|Hne]; [|lia].
    exists 0%nat, [x]. eexists. rewrite drop_0, take_0.
    split; [lia|]. split; [lia|]. split; [reflexivity|].
    split; [left; by repeat split|]. lia. }
  destruct (Z.eqb_spec (Z.of_nat (length pre) + 1)
              (Z.of_nat (length pre) + 1 + Z.of_nat (S m))) as [He|_]; [lia|].
  destruct rest as [|y rest]; [cbn [length] in Hm; lia|]. cbn [length] in Hm.
  rewrite (step_a_get _ y)
    by (by rewrite (js_get_app pre _ _ 1%nat) by lia).
  rewrite (step_a_get _ x)
    by (by rewrite (js_get_app pre _ _ 0%nat) by lia).
  rewrite step_compare.
  assert (Hidx : Z.of_nat (length pre) + 1 + 1 = Z.of_nat (length (pre ++ [x])) + 1)
    by (rewrite length_app; cbn [length]; lia).
  assert (Hhi : Z.of_nat (length pre) + 1 + Z.of_nat (S m)
                = Z.of_nat (length (pre ++ [x])) + 1 + Z.of_nat m)
    by (rewrite length_app; cbn [length]; lia).
  rewrite Hidx, Hhi.
  replace (pre ++ x :: y :: rest) with ((pre ++ [x]) ++ y :: rest)
    by (by rewrite <- app_assoc).
  destruct (Z.ltb_spec (compareFn y x) 0) as [Hlt|Hge].
  - (* a strictly descending run, reversed in place *)
    destruct (run_loop_spec compareFn (fun c => c <? 0) rest (pre ++ [x]) y fuel m
                rb rl ss ((tr ++ [Log count_run_msg]) ++ [Compare y x])
                ltac:(lia) ltac:(lia))
      as (k & Hk & Hchain & Hstop & Hrun).
    rewrite (step_ok _ _ _ _ _ Hrun).
    unfold reverseRange. rewrite bind_assoc, step_emit.
    set (run := x :: y :: take k rest).
    replace ((pre ++ [x]) ++ y :: rest) with (pre ++ run ++ drop k rest).
    2:{ subst run. rewrite <- !app_assoc. cbn [app]. by rewrite take_drop. }
    assert (Hlen : length run = S (S k)).
    { subst run. cbn [length]. rewrite length_take. lia. }
    replace (Z.of_nat (length (pre ++ [x])) + 1 + Z.of_nat k - 1)
      with (Z.of_nat (length pre) + Z.of_nat (length run) - 1)
      by (rewrite length_app; cbn [length]; lia).
    rewrite (step_ok _ _ _ _ _
               (reverseRange_loop_spec (length run) run pre (drop k rest) fuel
                  rb rl ss _ eq_refl ltac:(lia))).
    exists (S k), (rev run). eexists.
    split; [lia|]. split; [lia|]. split.
    { unfold ret. f_equal. f_equal; [rewrite length_app; cbn [length]; lia|].
      f_equal. rewrite <- !app_assoc. reflexivity. }
    split.
    { right. split; [done|]. split; [|lia]. split; [by apply Z.ltb_lt|done]. }
    intros Hkm. split.
    + cbn [take chain]. intros [Hc _]. apply Z.leb_le in Hc. lia.
    + cbn [take chain]. intros [_ Hc].
      destruct Hstop as [->|(z & Hz & Hzt)]; [lia|].
      by apply (chain_stops (fun c => c <? 0) y z rest k Hz Hzt).
  - destruct (run_loop_spec compareFn (fun c => 0 <=? c) rest (pre ++ [x]) y fuel m
                rb rl ss ((tr ++ [Log count_run_msg]) ++ [Compare y x])
                ltac:(lia) ltac:(lia))
      as (k & Hk & Hchain & Hstop & Hrun).
    rewrite (step_ok _ _ _ _ _ Hrun).
    exists (S k), (x :: y :: take k rest). eexists.
    split; [lia|]. split; [lia|]. split.
    { unfold ret. f_equal. f_equal; [rewrite length_app; cbn [length]; lia|]. f_equal.
      - rewrite <- !app_assoc. cbn [app drop]. by rewrite take_drop.
      - rewrite <- !app_assoc. reflexivity. }
    split.
    { left. split; [done|]. split; [|done]. split; [by apply Z.leb_le|done]. }
    intros Hkm. split.
    + cbn [take chain]. intros [_ Hc].
      destruct Hstop as [->|(z & Hz & Hzt)]; [lia|].
      by apply (chain_stops (fun c => 0 <=? c) y z rest k Hz Hzt).
    + cbn [take chain]. intros [Hc _]. apply Z.ltb_lt in Hc. lia.
Qed.

(** On the range [a[lo .. hi)], [lo < hi], of which [x] is the first
    element and [rest] holds the others, under a consistent total order
    [countRunAndMakeAscending] returns the length [1 + k] of the run
    the range starts with, at least 2 when the range has two elements:
    the longest non-descending start, left as it is, or the longest
    strictly descending one, reversed in place.  Afterwards the run is
    non-decreasing with equal elements in the order they had, and the
    rest of the array is untouched. *)
Theorem countRun_finds_the_run (pre : list T) (x : T) (rest : list T)
    (fuel m : nat) rb rl ss tr :
  TotalOrder compareFn ->
  (m <= length rest)%nat -> (m + 1 < fuel)%nat ->
  exists (k : nat) (run' : list T) (evs : list event),
    (k <= m)%nat /\ (1 <= m -> 1 <= k)%nat /\
    countRunAndMakeAscending compareFn fuel
      (Z.of_nat (length pre)) (Z.of_nat (length pre) + 1 + Z.of_nat m)
      (mkState (pre ++ x :: rest) rb rl ss tr)
    = Ok (1 + Z.of_nat k,
          mkState (pre ++ run' ++ drop k rest) rb rl ss (tr ++ evs)) /\
    (run' = x :: take k rest /\ ascending compareFn (x :: take k rest)
     \/ run' = rev (x :: take k rest) /\ descending compareFn (x :: take k rest)
        /\ (1 <= k)%nat) /\
    ascending compareFn run' /\ stable compareFn (x :: take k rest) run' /\
    ((k < m)%nat ->
     ~ ascending compareFn (x :: take (S k) rest) /\
     ~ descending compareFn (x :: take (S k) rest)).
Proof.
  intros Hord Hm Hfuel.
  destruct (countRun_maximal pre x rest fuel m rb rl ss tr Hm Hfuel)
    as (k & run' & evs & Hk & Hk1 & Hrun & Hshape & Hmax).
  exists k, run', evs. split; [done|]. split; [done|]. split; [done|].
  destruct (run_ascending compareFn Hord x (take k rest) run' _ _ Hshape)
    as [Hasc Hst].
  split; [|split; [done|split; [done|]]].
  - destruct Hshape as [(-> & Hc & _)|(-> & Hc & Hpos)].
    + left. split; [done|]. by apply chain_ascending.
    + right. split; [done|]. split; [by apply chain_descending|done].
  - intros Hkm. destruct (Hmax Hkm) as [Hna Hnd]. split.
    + intros Ha. apply Hna. by apply ascending_chain.
    + intros Hd. apply Hnd. by apply descending_chain.
Qed.


(** ** sort on a range *)

Lemma rangeCheck_within {B} (n lo hi : Z) (k : unit -> M B) st :
  0 <= lo -> lo <= hi -> hi <= n -> bind (rangeCheck n lo hi) k st = k tt st.
Proof.
  intros H0 H1 H2. unfold rangeCheck. do 3 (ztest; [lia|]). done.
Qed.

(** [sort(a, lo, hi)] on a range within the array, under a consistent
    total order: the call returns, the range is non-decreasing
    afterwards and holds the elements it held, equal ones in the order
    they had, and the array outside the range is as it was. *)
Theorem sort_sorts_range (pre mid post : list T) (fuel : nat) rb rl ss tr :
  TotalOrder compareFn ->
  (length mid < fuel)%nat -> Z.of_nat (length pre + length mid) < 2 ^ 31 ->
  exists (out : list T) (st' : state),
    sort compareFn fuel (Z.of_nat (length pre)) (Z.of_nat (length pre + length mid))
      (mkState (pre ++ mid ++ post) rb rl ss tr)
    = Ok (tt, st') /\
    global_a st' = pre ++ out ++ post /\
    ascending compareFn out /\ stable compareFn mid out /\ out ≡ₚ mid.
Proof.
  intros Hord Hfuel Hsize. unfold sort. rewrite step_log.
  rewrite step_put_stackSize, step_put_runBase, step_put_runLen, step_get_a.
  rewrite rangeCheck_within by (rewrite ?length_app; lia).
  cbv zeta.
  replace (Z.of_nat (length pre + length mid) - Z.of_nat (length pre))
    with (Z.of_nat (length mid)) by lia.
  destruct (Z.ltb_spec (Z.of_nat (length mid)) 2) as [Hshort|Hlong].
  { exists mid. eexists. split; [reflexivity|]. split; [done|].
    split; [apply short_ascending; lia|done]. }
  destruct mid as [|x rest]; [cbn [length] in Hlong; lia|].
  cbn [length] in *.
  set (tr1 := tr ++ [Log "entering sort"]).
  destruct (countRun_spec compareFn pre x (rest ++ post) fuel (length rest)
              [] [] 0 tr1 ltac:(rewrite length_app; lia) ltac:(lia))
    as (k & run' & evs1 & Hk & Hcount & Hrun & _).
  replace (Z.of_nat (length pre) + 1 + Z.of_nat (length rest))
    with (Z.of_nat (length pre + S (length rest))) in Hcount by lia.
  rewrite drop_app_le in Hcount by lia.
  rewrite !take_app_le in Hrun by lia.
  assert (Hrunlen : length run' = S k).
  { destruct Hrun as [(-> & _)|(-> & _)]; list_len; rewrite length_take; lia. }
  destruct (run_ascending compareFn Hord x (take k rest) run' _ _ Hrun) as [Hasc Hst].
  assert (Hperm' : run' ≡ₚ x :: take k rest)
    by (by apply (run_permutation x (take k rest) run' _ _ Hrun)).
  destruct (binarySort_on_range pre run' (drop k rest) post fuel [] [] 0
              (tr1 ++ Log count_run_msg :: evs1) Hord Hasc)
    as (out & evs2 & Hins & Hasc' & Hst' & Hperm);
    [rewrite Hrunlen; lia|rewrite Hrunlen, length_drop; lia
    |rewrite Hrunlen, length_drop; lia|].
  rewrite Hrunlen, length_drop in Hins.
  replace (Z.of_nat (length pre + S k + (length rest - k)))
    with (Z.of_nat (length pre + S (length rest))) in Hins by lia.
  replace (Z.of_nat (length pre + S k))
    with (Z.of_nat (length pre) + (1 + Z.of_nat k)) in Hins by lia.
  assert (Hres : ascending compareFn out /\ stable compareFn (x :: rest) out
                 /\ out ≡ₚ x :: rest).
  { split; [done|]. split.
    - intros e. rewrite (Hst' e), List.filter_app, (Hst e), <- List.filter_app.
      cbn [app]. by rewrite take_drop.
    - rewrite Hperm, Hperm'. cbn [app]. by rewrite take_drop. }
  change ((x :: rest) ++ post) with (x :: rest ++ post).
  destruct (Z.ltb_spec (Z.of_nat (S (length rest))) MIN_MERGE) as [Hsmall|Hbig].
  - (* below MIN_MERGE: run detection, then binary insertion *)
    rewrite (step_ok _ _ _ _ _ Hcount). rewrite Hins.
    exists out. eexists. split; [reflexivity|]. by split.
  - (* from MIN_MERGE on: one turn of the loop takes the whole range *)
    destruct fuel as [|fuel']; [lia|]. cbn [sort_loop].
    set (fuel := S fuel') in *.
    rewrite !bind_assoc.
    rewrite (step_ok _ _ _ _ _ Hcount).
    unfold minRunLength. rewrite !bind_assoc.
    ztest; [|lia]. ztest; [|lia]. rewrite !bind_assoc.
    replace (Z.of_nat (length pre) + Z.of_nat (S (length rest)))
      with (Z.of_nat (length pre + S (length rest))) by lia.
    rewrite (step_ok _ _ _ _ _ Hins). rewrite step_ret.
    rewrite bind_assoc.
    rewrite (step_ok _ _ _ _ _ (pushRun_first _ _ _ _)).
    rewrite bind_assoc. subst fuel.
    rewrite (step_ok _ _ _ _ _ (mergeCollapse_single _ _ _ _ _)).
    replace (Z.of_nat (S (length rest)) - Z.of_nat (S (length rest))) with 0 by lia.
    cbn [Z.eqb negb]. rewrite step_ret.
    rewrite mergeForceCollapse_single.
    exists out. eexists. split; [reflexivity|]. by split.
Qed.

(** ** An array in strictly descending order *)

Lemma countRun_descending (pre : list T) (x : T) (rest : list T) (fuel m : nat)
    rb rl ss tr :
  (1 <= m <= length rest)%nat -> (m + 1 < fuel)%nat ->
  chain compareFn (fun c => c <? 0) x (take m rest) ->
  countRunAndMakeAscending compareFn fuel
    (Z.of_nat (length pre)) (Z.of_nat (length pre) + 1 + Z.of_nat m)
    (mkState (pre ++ x :: rest) rb rl ss tr)
  = Ok (1 + Z.of_nat m,
        mkState (pre ++ rev (x :: take m rest) ++ drop m rest) rb rl ss
                (tr ++ Log count_run_msg :: chain_compares x (take m rest)
                    ++ [Reversed (Z.of_nat (length pre))
                                 (Z.of_nat (length pre) + 1 + Z.of_nat m)])).
Proof.
  intros Hm Hfuel Hchain. unfold countRunAndMakeAscending.
  rewrite step_log. fold count_run_msg.
  destruct m as [|m]; [lia|].
  ztest; [lia|].
  destruct rest as [|y rest]; [cbn [length] in Hm; lia|]. cbn [length] in Hm.
  cbn [take chain] in Hchain. destruct Hchain as [Hyx Hchain].
  rewrite (step_a_get _ y)
    by (by rewrite (js_get_app pre _ _ 1%nat) by lia).
  rewrite (step_a_get _ x)
    by (by rewrite (js_get_app pre _ _ 0%nat) by lia).
  rewrite step_compare. rewrite Hyx.
  assert (Hidx : Z.of_nat (length pre) + 1 + 1 = Z.of_nat (length (pre ++ [x])) + 1)
    by list_len.
  assert (Hhi : Z.of_nat (length pre) + 1 + Z.of_nat (S m)
                = Z.of_nat (length (pre ++ [x])) + 1 + Z.of_nat m) by list_len.
  rewrite Hidx, Hhi.
  replace (pre ++ x :: y :: rest) with ((pre ++ [x]) ++ y :: rest)
    by (by rewrite <- app_assoc).
  destruct (run_loop_spec compareFn (fun c => c <? 0) rest (pre ++ [x]) y fuel m
              rb rl ss ((tr ++ [Log count_run_msg]) ++ [Compare y x])
              ltac:(lia) ltac:(lia))
    as (k & Hk & _ & Hstop & Hrun).
  assert (k = m) as ->.
  { destruct Hstop as [->|(z & Hz & Hzt)]; [done|].
    destruct (decide (k < m)%nat) as [Hlt|]; [|lia].
    assert (Hz' : take m rest !! k = Some z) by (by rewrite lookup_take_lt).
    pose proof (chain_lookup compareFn _ _ _ _ _ Hchain Hz') as Ht.
    rewrite take_take in Ht. rewrite Nat.min_l in Ht by lia. congruence. }
  rewrite Nat.min_r in Hrun by lia.
  rewrite (step_ok _ _ _ _ _ Hrun).
  unfold reverseRange. rewrite bind_assoc, step_emit.
  set (run := x :: y :: take m rest).
  replace ((pre ++ [x]) ++ y :: rest) with (pre ++ run ++ drop m rest).
  2:{ subst run. rewrite <- !app_assoc. cbn [app]. by rewrite take_drop. }
  assert (Hlen : length run = S (S m)).
  { subst run. cbn [length]. rewrite length_take. lia. }
  replace (Z.of_nat (length (pre ++ [x])) + 1 + Z.of_nat m - 1)
    with (Z.of_nat (length pre) + Z.of_nat (length run) - 1) by list_len.
  rewrite (step_ok _ _ _ _ _
             (reverseRange_loop_spec (length run) run pre (drop m rest) fuel
                rb rl ss _ eq_refl ltac:(lia))).
  unfold ret. f_equal. f_equal; [list_len|]. f_equal.
  rewrite <- !app_assoc. cbn [app take chain_compares]. done.
Qed.

(** Each element compares below the one before it. *)
Definition falling (arr : list T) : Prop :=
  forall (i : nat) (x y : T),
    arr !! i = Some x -> arr !! S i = Some y -> compareFn y x < 0.

Lemma falling_chain (rest : list T) :
  forall x, falling (x :: rest) -> chain compareFn (fun c => c <? 0) x rest.
Proof.
  induction rest as [|y l IH]; intros x Hf; [done|]. split.
  - apply Z.ltb_lt. by apply (Hf 0%nat).
  - apply IH. intros i u v Hu Hv. by apply (Hf (S i)).
Qed.

(** An array of two or more elements of which each compares below the
    one before it (nothing else is asked of the comparator): run
    detection compares the [n - 1] adjacent pairs, the one reversal of
    [0, n) follows, and binary insertion has nothing to insert;
    [timsort] returns the array reversed after exactly [n - 1]
    comparator calls. *)
Theorem timsort_descending_input (arr : list T) (fuel : nat) :
  (length arr < fuel)%nat -> Z.of_nat (length arr) < 2 ^ 31 ->
  (2 <= length arr)%nat ->
  falling arr ->
  exists st,
    timsort compareFn fuel arr = Ok (rev arr, st) /\
    global_a st = rev arr /\
    trace st = Log "entering sort"
               :: Log "entering count run and make ascending"
               :: adjacent_compares arr
               ++ Reversed 0 (Z.of_nat (length arr))
               :: Log "entering binary sort"
               :: (if Z.of_nat (length arr) <? MIN_MERGE then []
                   else [Pushed 0 (Z.of_nat (length arr)) 1]) /\
    length (List.filter is_comparison (trace st)) = (length arr - 1)%nat.
Proof.
  intros Hfuel Hsize Hlen Hdesc.
  destruct arr as [|x rest]; [cbn [length] in Hlen; lia|].
  cbn [length] in *. set (n := Z.of_nat (S (length rest))).
  assert (Hchain : chain compareFn (fun c => c <? 0) x (take (length rest) rest))
    by (rewrite firstn_all; by apply falling_chain).
  pose proof (countRun_descending [] x rest fuel (length rest) [] [] 0 [Log sort_msg]
                ltac:(lia) ltac:(lia) Hchain) as Hcount.
  rewrite firstn_all, drop_all, app_nil_r in Hcount.
  cbn [length app] in Hcount.
  replace (Z.of_nat 0 + 1 + Z.of_nat (length rest)) with n in Hcount by lia.
  change (Z.of_nat 0) with 0 in Hcount.
  replace (1 + Z.of_nat (length rest)) with n in Hcount by lia.
  set (evs1 := chain_compares x rest ++ [Reversed 0 n]) in *.
  destruct (binarySort_spec compareFn (rev (x :: rest)) [] fuel n n
              [] [] 0 ([Log sort_msg] ++ Log count_run_msg :: evs1))
    as (out & evs2 & Hins & _ & _ & Hnil & _);
    [list_len|list_len|list_len|list_len|list_len|].
  destruct (Hnil eq_refl) as [-> ->]. rewrite app_nil_r in Hins.
  cbn [app] in Hins.
  assert (Hcnt : length (List.filter is_comparison (chain_compares x rest))
                 = length rest).
  { rewrite filter_all; [apply length_chain_compares|].
    eapply Forall_impl; [apply chain_compares_are_compares|]. by intros []. }
  assert (Hsort : sort compareFn fuel 0 n (init_state (x :: rest))
                  = Ok (tt, sorted_state n (rev (x :: rest))
                              (Log count_run_msg :: evs1 ++ [Log binary_sort_msg]))).
  { unfold sort, init_state. rewrite step_log. fold sort_msg.
    rewrite step_put_stackSize, step_put_runBase, step_put_runLen, step_get_a.
    cbn [length]. fold n. rewrite rangeCheck_full by lia.
    replace (n - 0) with n by lia.
    ztest; [lia|].
    unfold sorted_state. ztest.
    - rewrite (step_ok _ _ _ _ _ Hcount).
      replace (0 + n) with n by lia. rewrite Hins. done.
    - destruct fuel as [|fuel']; [lia|]. cbn [sort_loop].
      set (fuel := S fuel') in *.
      rewrite !bind_assoc.
      rewrite (step_ok _ _ _ _ _ Hcount).
      unfold minRunLength. rewrite !bind_assoc.
      ztest; [|lia]. ztest; [|lia]. rewrite !bind_assoc.
      replace (0 + n) with n by lia.
      rewrite (step_ok _ _ _ _ _ Hins). rewrite step_ret.
      rewrite bind_assoc.
      rewrite (step_ok _ _ _ _ _ (pushRun_first _ _ _ _)).
      rewrite bind_assoc. subst fuel.
      rewrite (step_ok _ _ _ _ _ (mergeCollapse_single _ _ _ _ _)).
      replace (n - n) with 0 by lia. cbn [Z.eqb negb]. rewrite step_ret.
      rewrite mergeForceCollapse_single. cbn [app].
      first [done | by rewrite <- !app_assoc]. }
  eexists. split.
  { unfold timsort. cbn [length]. fold n. rewrite Hsort.
    rewrite sorted_state_array. reflexivity. }
  split; [apply sorted_state_array|].
  unfold sorted_state. cbn [adjacent_compares]. fold n.
  destruct (n <? MIN_MERGE); cbn [trace]; subst evs1.
  - split.
    { cbn [app]. do 2 f_equal. rewrite <- !app_assoc. done. }
    cbn [List.filter is_comparison length]. rewrite !List.filter_app.
    cbn [List.filter is_comparison]. rewrite !app_nil_r. rewrite Hcnt. lia.
  - split.
    { cbn [app]. do 2 f_equal. rewrite <- !app_assoc. done. }
    cbn [List.filter is_comparison length app]. rewrite !List.filter_app.
    cbn [List.filter is_comparison]. rewrite !app_nil_r. rewrite Hcnt. lia.
Qed.


(** ** How often a gallop calls the comparator *)

Lemma calm_arr_get (a : list T) (i : Z) : calm (@arr_get T a i).
Proof. apply calm_lift. Qed.

(** The comparisons of a galloping loop that stands at [ofs]: the
    offsets double, so what is left is the difference of the binary
    logarithms. *)
Definition probe_bound (maxOfs ofs : Z) : Z :=
  if ofs <? maxOfs then Z.log2 maxOfs - Z.log2 (ofs + 1) + 1 else 0.

Lemma probe_bound_next (maxOfs ofs : Z) :
  0 < ofs < maxOfs -> 1 + probe_bound maxOfs (2 * ofs + 1) <= probe_bound maxOfs ofs.
Proof.
  intros Hofs. unfold probe_bound.
  destruct (Z.ltb_spec ofs maxOfs); [|lia].
  pose proof (Z.log2_le_mono (ofs + 1) maxOfs ltac:(lia)) as Hle.
  destruct (Z.ltb_spec (2 * ofs + 1) maxOfs); [|lia].
  replace (2 * ofs + 1 + 1) with (2 * (ofs + 1)) by lia.
  rewrite Z.log2_double by lia. lia.
Qed.

Lemma probe_bound_last (maxOfs ofs : Z) :
  0 < ofs < maxOfs -> 1 <= probe_bound maxOfs ofs.
Proof.
  intros Hofs. unfold probe_bound.
  destruct (Z.ltb_spec ofs maxOfs); [|lia].
  pose proof (Z.log2_le_mono (ofs + 1) maxOfs ltac:(lia)). lia.
Qed.

Lemma probe_bound_start (maxOfs : Z) :
  0 < maxOfs -> probe_bound maxOfs 1 <= Z.log2 maxOfs.
Proof.
  intros Hm. unfold probe_bound. destruct (Z.ltb_spec 1 maxOfs).
  - change (Z.log2 (1 + 1)) with 1. lia.
  - apply Z.log2_nonneg.
Qed.

Lemma gallop_probe_cost (test : Z -> bool) (key : T) (a : list T) (pos : Z -> Z)
    (maxOfs : Z) (fuel : nat) :
  forall (lastOfs ofs : Z) (st : state) lo' of' st',
    0 < ofs < 2 ^ 31 \/ ofs = maxOfs -> lastOfs < ofs -> lastOfs < maxOfs ->
    0 < ofs ->
    gallop_probe compareFn fuel test key a pos maxOfs lastOfs ofs st
    = Ok ((lo', of'), st') ->
    comparisons (trace st') <= comparisons (trace st) + probe_bound maxOfs ofs /\
    lastOfs <= lo' < of' /\ lo' < maxOfs.
Proof.
  induction fuel as [|fuel IH]; intros lastOfs ofs st lo' of' st' Hofs Hlt Hmax Hpos H;
    [done|].
  cbn [gallop_probe] in H. destruct (Z.ltb_spec ofs maxOfs) as [Hin|Hout].
  - apply bind_ok in H as (x & st1 & H1 & H).
    apply bind_ok in H as (c & st2 & H2 & H).
    apply calm_arr_get in H1. apply compare_ok in H2 as [-> H2].
    destruct (test _).
    + cbv zeta in H.
      assert (Hofs' : 0 < ofs < 2 ^ 31) by (destruct Hofs; lia).
      destruct (shl1_succ ofs Hofs') as [[Hsmall Hs]|[Hbig Hs]].
      * rewrite Hs in H. destruct (Z.leb_spec (2 * ofs + 1) 0); [lia|].
        apply IH in H as (Hc & Hb1 & Hb2); [|lia|lia|lia|lia].
        pose proof (probe_bound_next maxOfs ofs ltac:(lia)). lia.
      * destruct (Z.leb_spec (JS.shl1 ofs + 1) 0); [|lia].
        apply IH in H as (Hc & Hb1 & Hb2); [|by right|lia|lia|lia].
        pose proof (probe_bound_last maxOfs ofs ltac:(lia)).
        unfold probe_bound in Hc at 1. rewrite Z.ltb_irrefl in Hc. lia.
    + injection H as <- <- <-.
      pose proof (probe_bound_last maxOfs ofs ltac:(lia)). lia.
  - injection H as <- <- <-. unfold probe_bound.
    destruct (Z.ltb_spec ofs maxOfs); lia.
Qed.

Lemma gallop_bisect_cost (right : Z -> bool) (key : T) (a : list T) (base : Z)
    (fuel : nat) :
  forall (lastOfs ofs : Z) (st : state) k st',
    ofs - lastOfs < 2 ^ 32 ->
    gallop_bisect compareFn fuel right key a base lastOfs ofs st = Ok (k, st') ->
    comparisons (trace st')
    <= comparisons (trace st) + search_bound (ofs - lastOfs).
Proof.
  induction fuel as [|fuel IH]; intros lastOfs ofs st k st' Hsize H; [done|].
  cbn [gallop_bisect] in H. destruct (Z.ltb_spec lastOfs ofs).
  - cbv zeta in H. rewrite ushr1_half in H by lia.
    pose proof (half_bounds (ofs - lastOfs)) as Hb.
    apply bind_ok in H as (x & st1 & H1 & H).
    apply bind_ok in H as (c & st2 & H2 & H).
    apply calm_arr_get in H1. apply compare_ok in H2 as [-> H2].
    pose proof (search_bound_half (ofs - lastOfs) ltac:(lia)) as Hhalf.
    destruct (right _).
    + apply IH in H; [|lia].
      pose proof (search_bound_mono (ofs - (lastOfs + (ofs - lastOfs) / 2 + 1))
                    ((ofs - lastOfs) / 2) ltac:(lia)).
      lia.
    + apply IH in H; [|lia].
      pose proof (search_bound_mono (lastOfs + (ofs - lastOfs) / 2 - lastOfs)
                    ((ofs - lastOfs) / 2) ltac:(lia)).
      lia.
  - injection H as <- <-. unfold search_bound.
    destruct (Z.leb_spec (ofs - lastOfs) 0); lia.
Qed.

Lemma search_bound_below (w len : Z) :
  w < len -> 0 < len -> search_bound w <= Z.log2 len + 1.
Proof.
  intros Hw Hlen. unfold search_bound. destruct (Z.leb_spec w 0).
  - pose proof (Z.log2_nonneg len). lia.
  - pose proof (Z.log2_le_mono w len ltac:(lia)). lia.
Qed.

(** After the first comparison, one galloping loop over at most
    [maxOfs] offsets and the binary search between the last two. *)
Lemma gallop_tail_cost (len maxOfs : Z) (c0 c1 c2 w : Z) :
  0 < maxOfs <= len -> w < maxOfs ->
  c1 <= c0 + 1 + probe_bound maxOfs 1 ->
  c2 <= c1 + search_bound w ->
  c2 <= c0 + 2 * Z.log2 len + 2.
Proof.
  intros Hm Hw H1 H2.
  pose proof (probe_bound_start maxOfs ltac:(lia)).
  pose proof (Z.log2_le_mono maxOfs len ltac:(lia)).
  pose proof (search_bound_below w len ltac:(lia) ltac:(lia)). lia.
Qed.

Lemma gallopLeft_cost (fuel : nat) (key : T) (a : list T) (base len hint : Z)
    (st : state) k st' :
  0 <= hint < len -> len < 2 ^ 32 ->
  gallopLeft compareFn fuel key a base len hint st = Ok (k, st') ->
  comparisons (trace st') <= comparisons (trace st) + 2 * Z.log2 len + 2.
Proof.
  intros Hhint Hsize H. unfold gallopLeft in H.
  apply bind_ok in H as (u & st0 & H0 & H). apply calm_log in H0.
  apply bind_ok in H as (x & st1 & H1 & H). apply calm_arr_get in H1.
  apply bind_ok in H as (c & st2 & H2 & H). apply compare_ok in H2 as [-> H2].
  apply bind_ok in H as ([lastOfs ofs] & st3 & H3 & H).
  destruct (0 <? compareFn key x); cbv zeta in H3.
  - apply bind_ok in H3 as ([lo' of'] & st4 & H4 & H3).
    apply gallop_probe_cost in H4 as (Hc & Hb1 & Hb2); [|left; lia|lia|lia|lia].
    injection H3 as <- <- <-.
    apply gallop_bisect_cost in H;
      [|destruct (Z.ltb_spec (len - hint) of'); lia].
    apply (gallop_tail_cost len (len - hint) (comparisons (trace st))
             (comparisons (trace st4)) _
             ((if len - hint <? of' then len - hint else of') + hint
              - (lo' + hint + 1))); [lia| |lia|done].
    destruct (Z.ltb_spec (len - hint) of'); lia.
  - apply bind_ok in H3 as ([lo' of'] & st4 & H4 & H3).
    apply gallop_probe_cost in H4 as (Hc & Hb1 & Hb2); [|left; lia|lia|lia|lia].
    injection H3 as <- <- <-.
    apply gallop_bisect_cost in H;
      [|destruct (Z.ltb_spec (hint + 1) of'); lia].
    apply (gallop_tail_cost len (hint + 1) (comparisons (trace st))
             (comparisons (trace st4)) _
             (hint - lo'
              - (hint - (if hint + 1 <? of' then hint + 1 else of') + 1)));
      [lia| |lia|done].
    destruct (Z.ltb_spec (hint + 1) of'); lia.
Qed.

Lemma gallopRight_cost (fuel : nat) (key : T) (a : list T) (base len hint : Z)
    (st : state) k st' :
  0 <= hint < len -> len < 2 ^ 32 ->
  gallopRight compareFn fuel key a base len hint st = Ok (k, st') ->
  comparisons (trace st') <= comparisons (trace st) + 2 * Z.log2 len + 2.
Proof.
  intros Hhint Hsize H. unfold gallopRight in H.
  apply bind_ok in H as (u & st0 & H0 & H). apply calm_log in H0.
  apply bind_ok in H as (x & st1 & H1 & H). apply calm_arr_get in H1.
  apply bind_ok in H as (c & st2 & H2 & H). apply compare_ok in H2 as [-> H2].
  apply bind_ok in H as ([lastOfs ofs] & st3 & H3 & H).
  destruct (compareFn key x <? 0); cbv zeta in H3.
  - apply bind_ok in H3 as ([lo' of'] & st4 & H4 & H3).
    apply gallop_probe_cost in H4 as (Hc & Hb1 & Hb2); [|left; lia|lia|lia|lia].
    injection H3 as <- <- <-.
    apply gallop_bisect_cost in H;
      [|destruct (Z.ltb_spec (hint + 1) of'); lia].
    apply (gallop_tail_cost len (hint + 1) (comparisons (trace st))
             (comparisons (trace st4)) _
             (hint - lo'
              - (hint - (if hint + 1 <? of' then hint + 1 else of') + 1)));
      [lia| |lia|done].
    destruct (Z.ltb_spec (hint + 1) of'); lia.
  - apply bind_ok in H3 as ([lo' of'] & st4 & H4 & H3).
    apply gallop_probe_cost in H4 as (Hc & Hb1 & Hb2); [|left; lia|lia|lia|lia].
    injection H3 as <- <- <-.
    apply gallop_bisect_cost in H;
      [|destruct (Z.ltb_spec (len - hint) of'); lia].
    apply (gallop_tail_cost len (len - hint) (comparisons (trace st))
             (comparisons (trace st4)) _
             ((if len - hint <? of' then len - hint else of') + hint
              - (lo' + hint + 1))); [lia| |lia|done].
    destruct (Z.ltb_spec (len - hint) of'); lia.
Qed.

Lemma comparisons_compares (evs : list event) :
  Forall is_compare evs -> comparisons evs = Z.of_nat (length evs).
Proof.
  intros H. unfold comparisons. rewrite filter_all; [done|].
  eapply Forall_impl; [exact H|]. by intros [].
Qed.

(** Whatever the comparator answers, consistent or not, and whatever
    the order of the range: [gallopLeft] and [gallopRight] on a range of
    [len] elements of the array, with [0 <= hint < len], return an
    offset between 0 and [len] after at most [2 * floor (log2 len) + 2]
    comparator calls.  They only read: the array and the run stack are
    as before, and what they log after their first line is the
    comparator calls. *)
Theorem gallop_comparisons (key : T) (pre run post : list T) (hint fuel : nat)
    (st : state) :
  (hint < length run)%nat -> (length run < fuel)%nat ->
  Z.of_nat (length run) < 2 ^ 32 ->
  (exists (k : nat) (evs : list event),
      gallopLeft compareFn fuel key (pre ++ run ++ post)
        (Z.of_nat (length pre)) (Z.of_nat (length run)) (Z.of_nat hint) st
      = Ok (Z.of_nat k,
            mkState (global_a st) (runBase st) (runLen st) (stackSize st)
                    (trace st ++ Log "entering gallop left" :: evs)) /\
      (k <= length run)%nat /\ Forall is_compare evs /\
      Z.of_nat (length evs) <= 2 * Z.log2 (Z.of_nat (length run)) + 2) /\
  (exists (k : nat) (evs : list event),
      gallopRight compareFn fuel key (pre ++ run ++ post)
        (Z.of_nat (length pre)) (Z.of_nat (length run)) (Z.of_nat hint) st
      = Ok (Z.of_nat k,
            mkState (global_a st) (runBase st) (runLen st) (stackSize st)
                    (trace st ++ Log "entering gallop right" :: evs)) /\
      (k <= length run)%nat /\ Forall is_compare evs /\
      Z.of_nat (length evs) <= 2 * Z.log2 (Z.of_nat (length run)) + 2).
Proof.
  intros Hhint Hfuel Hsize. split.
  - destruct (gallopLeft_spec compareFn key pre run post hint fuel st Hhint Hfuel Hsize)
      as (k & evs & Hk & Hrun & Hq & _).
    exists k, evs. split; [exact Hrun|]. split; [done|]. split; [done|].
    apply gallopLeft_cost in Hrun; [|lia|lia]. cbn [trace] in Hrun.
    rewrite comparisons_app in Hrun.
    change (Log gallop_left_msg :: evs) with ([Log gallop_left_msg] ++ evs) in Hrun.
    rewrite comparisons_app, (comparisons_compares evs Hq) in Hrun.
    change (comparisons [Log gallop_left_msg]) with 0 in Hrun. lia.
  - destruct (gallopRight_spec compareFn key pre run post hint fuel st Hhint Hfuel Hsize)
      as (k & evs & Hk & Hrun & Hq & _).
    exists k, evs. split; [exact Hrun|]. split; [done|]. split; [done|].
    apply gallopRight_cost in Hrun; [|lia|lia]. cbn [trace] in Hrun.
    rewrite comparisons_app in Hrun.
    change (Log gallop_right_msg :: evs) with ([Log gallop_right_msg] ++ evs) in Hrun.
    rewrite comparisons_app, (comparisons_compares evs Hq) in Hrun.
    change (comparisons [Log gallop_right_msg]) with 0 in Hrun. lia.
Qed.


(** ** Merging two sorted runs *)

Lemma in_take (l : list T) (k : nat) (x : T) : x ∈ take k l -> x ∈ l.
Proof. intros H. rewrite <- (take_drop k l). apply elem_of_app. by left. Qed.

Lemma in_drop (l : list T) (k : nat) (x : T) : x ∈ drop k l -> x ∈ l.
Proof. intros H. rewrite <- (take_drop k l). apply elem_of_app. by right. Qed.

Lemma in_drop_le (l : list T) (i j : nat) (x : T) :
  (i <= j)%nat -> x ∈ drop j l -> x ∈ drop i l.
Proof.
  intros Hij H. replace j with (i + (j - i))%nat in H by lia.
  rewrite <- drop_drop in H. by apply in_drop in H.
Qed.

Lemma in_take_le (l : list T) (i j : nat) (x : T) :
  (i <= j)%nat -> x ∈ take i l -> x ∈ take j l.
Proof.
  intros Hij H. replace i with (Nat.min i j) in H by lia.
  rewrite <- take_take in H. by apply in_take in H.
Qed.

(** What is merged so far of [l1] and [l2]: in order, the elements of
    both, equal ones of [l1] before those of [l2] and otherwise as they
    stood. *)
Definition merge_of (merged l1 l2 : list T) : Prop :=
  ascending compareFn merged /\
  (forall e, List.filter (eqvb compareFn e) merged
             = List.filter (eqvb compareFn e) l1
               ++ List.filter (eqvb compareFn e) l2) /\
  merged ≡ₚ l1 ++ l2.

Section Merging.
Variables (run1 run2 : list T).
Hypothesis order : TotalOrder compareFn.
Hypothesis sorted1 : ascending compareFn run1.
Hypothesis sorted2 : ascending compareFn run2.

(** A cut of the two runs at [i] and [j] along which they can be merged:
    what lies before [j] in the second run is below what lies from [i]
    on in the first, and what lies before [i] in the first is not above
    what lies from [j] on in the second. *)
Definition cut_ok (i j : nat) : Prop :=
  (forall y x, y ∈ take j run2 -> x ∈ drop i run1 -> compareFn y x < 0) /\
  (forall x y, x ∈ take i run1 -> y ∈ drop j run2 -> le compareFn x y).

Lemma run_le (run : list T) (i : nat) (x y : T) :
  ascending compareFn run -> x ∈ take i run -> y ∈ drop i run -> le compareFn x y.
Proof.
  intros Hasc Hx Hy. rewrite <- (take_drop i run) in Hasc.
  by apply (StronglySorted_app_1_elem_of _ _ _ _ _ Hasc).
Qed.

Lemma ascending_take (run : list T) (i : nat) :
  ascending compareFn run -> ascending compareFn (take i run).
Proof.
  intros Hasc. rewrite <- (take_drop i run) in Hasc.
  by apply StronglySorted_app_1_l in Hasc.
Qed.

Lemma ascending_drop (run : list T) (i : nat) :
  ascending compareFn run -> ascending compareFn (drop i run).
Proof.
  intros Hasc. rewrite <- (take_drop i run) in Hasc.
  by apply StronglySorted_app_1_r in Hasc.
Qed.

Lemma lt_le (x y : T) : compareFn x y < 0 -> le compareFn x y.
Proof. unfold le. lia. Qed.

(** Two lists of which no element of the one is equal to an element of
    the other under the order: their classes of equals do not mix. *)
Lemma filter_swap (e : T) (l1 l2 : list T) :
  (forall y x, y ∈ l2 -> x ∈ l1 -> compareFn y x < 0) ->
  List.filter (eqvb compareFn e) l2 ++ List.filter (eqvb compareFn e) l1
  = List.filter (eqvb compareFn e) l1 ++ List.filter (eqvb compareFn e) l2.
Proof.
  intros Hlt.
  destruct (List.filter (eqvb compareFn e) l2) as [|y f2] eqn:E2.
  { by rewrite app_nil_r. }
  assert (Hy : y ∈ l2 /\ eqvb compareFn e y = true).
  { assert (Hin : In y (List.filter (eqvb compareFn e) l2)) by (rewrite E2; by left).
    apply List.filter_In in Hin as [Hin Hey]. split; [|done].
    by apply list_elem_of_In. }
  destruct Hy as [Hy Hey]. unfold eqvb in Hey. apply Z.eqb_eq in Hey.
  rewrite (filter_none (eqvb compareFn e) l1); [by rewrite app_nil_r|].
  apply Forall_forall. intros x Hx.
  destruct (eqvb compareFn e x) eqn:Hex; [exfalso|done].
  unfold eqvb in Hex. apply Z.eqb_eq in Hex.
  pose proof (Hlt y x Hy Hx) as Hyx.
  (* x <= e <= y < x *)
  assert (Hxe : compareFn x e <= 0) by (apply (cmp_flip _ order); lia).
  assert (Hxy : compareFn x y <= 0) by (apply (cmp_trans _ order x e y); lia).
  apply (cmp_flip _ order) in Hxy. lia.
Qed.

(** Taking the next [k] elements of the first run, none of them above
    what is left of the second. *)
Lemma extend1 (i j k : nat) (merged : list T) :
  merge_of merged (take i run1) (take j run2) -> cut_ok i j ->
  (forall x y, x ∈ take k (drop i run1) -> y ∈ drop j run2 -> le compareFn x y) ->
  merge_of (merged ++ take k (drop i run1)) (take (i + k) run1) (take j run2)
  /\ cut_ok (i + k) j.
Proof.
  intros (Hasc & Hfil & Hperm) [Hc1 Hc2] Hblock. split; [split; [|split]|split].
  - apply StronglySorted_app_2; [|done|by apply ascending_take, ascending_drop].
    intros m b Hm Hb. rewrite Hperm in Hm. apply elem_of_app in Hm as [Hm|Hm].
    + apply (run_le run1 i); [done|done|by apply in_take in Hb].
    + apply lt_le, Hc1; [done|by apply in_take in Hb].
  - intros e. rewrite List.filter_app, Hfil, <- take_take_drop, List.filter_app.
    rewrite <- !app_assoc. f_equal. apply filter_swap.
    intros y x Hy Hx. apply Hc1; [done|by apply in_take in Hx].
  - rewrite Hperm, <- take_take_drop, <- !app_assoc.
    apply Permutation_app_head, Permutation_app_comm.
  - intros y x Hy Hx. apply Hc1; [done|].
    apply (in_drop_le _ i (i + k)); [lia|done].
  - intros x y Hx Hy. rewrite <- take_take_drop in Hx.
    apply elem_of_app in Hx as [Hx|Hx]; [by apply Hc2|by apply Hblock].
Qed.

(** Taking the next [k] elements of the second run, all of them below
    what is left of the first. *)
Lemma extend2 (i j k : nat) (merged : list T) :
  merge_of merged (take i run1) (take j run2) -> cut_ok i j ->
  (forall y x, y ∈ take k (drop j run2) -> x ∈ drop i run1 -> compareFn y x < 0) ->
  merge_of (merged ++ take k (drop j run2)) (take i run1) (take (j + k) run2)
  /\ cut_ok i (j + k).
Proof.
  intros (Hasc & Hfil & Hperm) [Hc1 Hc2] Hblock. split; [split; [|split]|split].
  - apply StronglySorted_app_2; [|done|by apply ascending_take, ascending_drop].
    intros m b Hm Hb. rewrite Hperm in Hm. apply elem_of_app in Hm as [Hm|Hm].
    + apply Hc2; [done|by apply in_take in Hb].
    + apply (run_le run2 j); [done|done|by apply in_take in Hb].
  - intros e. rewrite List.filter_app, Hfil, <- (take_take_drop run2), List.filter_app.
    by rewrite <- !app_assoc.
  - rewrite Hperm, <- (take_take_drop run2). by rewrite <- !app_assoc.
  - intros y x Hy Hx. rewrite <- take_take_drop in Hy.
    apply elem_of_app in Hy as [Hy|Hy]; [by apply Hc1|by apply Hblock].
  - intros x y Hx Hy. apply Hc2; [done|].
    apply (in_drop_le _ j (j + k)); [lia|done].
Qed.

(** The same from the high end: taking the last [k] of the first [i]
    elements of the first run, all of them above what is left of the
    second. *)
Lemma extend1_back (i j k : nat) (merged : list T) :
  merge_of merged (drop i run1) (drop j run2) -> cut_ok i j -> (k <= i)%nat ->
  (forall x y, x ∈ drop (i - k) (take i run1) -> y ∈ take j run2 ->
               compareFn y x < 0) ->
  merge_of (drop (i - k) (take i run1) ++ merged) (drop (i - k) run1) (drop j run2)
  /\ cut_ok (i - k) j.
Proof.
  intros (Hasc & Hfil & Hperm) [Hc1 Hc2] Hk Hblock.
  assert (Hsplit : drop (i - k) run1 = drop (i - k) (take i run1) ++ drop i run1)
    by (rewrite drop_take_drop; [done|lia]).
  split; [split; [|split]|split].
  - apply StronglySorted_app_2; [|by apply ascending_drop, ascending_take|done].
    intros b m Hb Hm. rewrite Hperm in Hm. apply in_drop in Hb.
    apply elem_of_app in Hm as [Hm|Hm].
    + by apply (run_le run1 i).
    + by apply Hc2.
  - intros e. rewrite List.filter_app, Hfil, Hsplit, List.filter_app.
    by rewrite <- !app_assoc.
  - rewrite Hperm, Hsplit. by rewrite <- !app_assoc.
  - intros y x Hy Hx. rewrite Hsplit in Hx.
    apply elem_of_app in Hx as [Hx|Hx]; [by apply Hblock|by apply Hc1].
  - intros x y Hx Hy. apply Hc2; [|done].
    apply (in_take_le _ (i - k) i); [lia|done].
Qed.

(** Taking the last [k] of the first [j] elements of the second run,
    none of them below what is left of the first. *)
Lemma extend2_back (i j k : nat) (merged : list T) :
  merge_of merged (drop i run1) (drop j run2) -> cut_ok i j -> (k <= j)%nat ->
  (forall y x, y ∈ drop (j - k) (take j run2) -> x ∈ take i run1 ->
               le compareFn x y) ->
  merge_of (drop (j - k) (take j run2) ++ merged) (drop i run1) (drop (j - k) run2)
  /\ cut_ok i (j - k).
Proof.
  intros (Hasc & Hfil & Hperm) [Hc1 Hc2] Hk Hblock.
  assert (Hsplit : drop (j - k) run2 = drop (j - k) (take j run2) ++ drop j run2)
    by (rewrite drop_take_drop; [done|lia]).
  split; [split; [|split]|split].
  - apply StronglySorted_app_2; [|by apply ascending_drop, ascending_take|done].
    intros b m Hb Hm. rewrite Hperm in Hm. apply in_drop in Hb.
    apply elem_of_app in Hm as [Hm|Hm].
    + by apply lt_le, Hc1.
    + by apply (run_le run2 j).
  - intros e. rewrite List.filter_app, Hfil, Hsplit, List.filter_app.
    rewrite !app_assoc. f_equal. apply filter_swap.
    intros y x Hy Hx. apply Hc1; [by apply in_drop in Hy|done].
  - rewrite Hperm, Hsplit. rewrite !app_assoc.
    apply Permutation_app_tail, Permutation_app_comm.
  - intros y x Hy Hx. apply Hc1; [|done].
    apply (in_take_le _ (j - k) j); [lia|done].
  - intros x y Hx Hy. rewrite Hsplit in Hy.
    apply elem_of_app in Hy as [Hy|Hy]; [by apply Hblock|by apply Hc2].
Qed.

Lemma cut_end : cut_ok (length run1) (length run2).
Proof.
  split.
  - intros y x _ Hx. rewrite drop_all in Hx. by apply elem_of_nil in Hx.
  - intros x y _ Hy. rewrite drop_all in Hy. by apply elem_of_nil in Hy.
Qed.

Lemma merge_of_nil_back :
  merge_of [] (drop (length run1) run1) (drop (length run2) run2).
Proof. rewrite !drop_all. split; [constructor|]. done. Qed.

Lemma merge_of_done_back (merged : list T) :
  merge_of merged (drop 0 run1) (drop 0 run2) ->
  ascending compareFn merged /\ stable compareFn (run1 ++ run2) merged
  /\ merged ≡ₚ run1 ++ run2.
Proof.
  rewrite !drop_0. intros (Hasc & Hfil & Hperm). split; [done|].
  split; [|done]. intros e. by rewrite Hfil, List.filter_app.
Qed.

Lemma cut_start : cut_ok 0 0.
Proof.
  split.
  - intros y x Hy. rewrite take_0 in Hy. by apply elem_of_nil in Hy.
  - intros x y Hx. rewrite take_0 in Hx. by apply elem_of_nil in Hx.
Qed.

Lemma merge_of_nil : merge_of [] (take 0 run1) (take 0 run2).
Proof. rewrite !take_0. split; [constructor|]. done. Qed.

(** With both runs taken, the merged part is their stable merge. *)
Lemma merge_of_done (merged : list T) :
  merge_of merged (take (length run1) run1) (take (length run2) run2) ->
  ascending compareFn merged /\ stable compareFn (run1 ++ run2) merged
  /\ merged ≡ₚ run1 ++ run2.
Proof.
  rewrite !firstn_all. intros (Hasc & Hfil & Hperm). split; [done|].
  split; [|done]. intros e. by rewrite Hfil, List.filter_app.
Qed.

End Merging.

(** *** The merged part of the array in [mergeLo] *)

Lemma js_set_shape (a : list T) (d : nat) (x : T) (a' : list T) :
  JS.set a (Z.of_nat d) x = Some a' ->
  (d <= length a)%nat /\ a' = take d a ++ x :: drop (S d) a.
Proof.
  unfold JS.set. destruct (Z.ltb_spec (Z.of_nat d) 0); [lia|].
  rewrite Nat2Z.id.
  destruct (Z.ltb_spec (Z.of_nat d) (Z.of_nat (length a))).
  - intros [= <-]. split; [lia|]. apply insert_take_drop. lia.
  - destruct (Z.eqb_spec (Z.of_nat d) (Z.of_nat (length a))); [|done].
    intros [= <-]. split; [lia|].
    rewrite take_ge, drop_ge by lia. done.
Qed.

Lemma arraycopy_in_range (s d : list T) (spos dpos len : nat) :
  (spos + len <= length s)%nat -> (dpos + len <= length d)%nat ->
  arraycopy s (Z.of_nat spos) d (Z.of_nat dpos) (Z.of_nat len)
  = Ok (take dpos d ++ take len (drop spos s) ++ drop (dpos + len) d).
Proof.
  intros Hs Hd.
  rewrite <- (take_drop spos s) at 1.
  rewrite <- (take_drop len (drop spos s)) at 1.
  rewrite <- (take_drop dpos d) at 1.
  rewrite <- (take_drop len (drop dpos d)) at 1.
  rewrite (drop_drop d).
  rewrite (arraycopy_spec (take spos s) (take len (drop spos s))
             (drop len (drop spos s)) (take dpos d) (take len (drop dpos d))
             (drop (dpos + len) d)); first done.
  - rewrite length_take. lia.
  - rewrite length_take. lia.
  - rewrite length_take, length_drop. lia.
  - rewrite !length_take, !length_drop. lia.
Qed.

(** The first [c] elements of [a] behind a prefix of [p] elements, and
    what a write of a block at their end makes of them. *)
Definition part (p c : nat) (a : list T) : list T := take c (drop p a).

Lemma part_block (p c : nat) (a block tail : list T) :
  (p + c <= length a)%nat ->
  part p (c + length block) (take (p + c) a ++ block ++ tail)
  = part p c a ++ block.
Proof.
  intros Hlen. unfold part.
  rewrite drop_app_le by (rewrite length_take; lia).
  rewrite skipn_firstn_comm.
  replace (p + c - p)%nat with c by lia.
  assert (Hl : length (take c (drop p a)) = c)
    by (rewrite length_take, length_drop; lia).
  rewrite (take_app_add' _ _ c) by done.
  by rewrite take_app_length.
Qed.

Lemma head_le (run : list T) (i : nat) (x x' : T) :
  TotalOrder compareFn -> ascending compareFn run ->
  run !! i = Some x -> x' ∈ drop i run -> le compareFn x x'.
Proof.
  intros Hord Hasc Hx Hx'. rewrite (drop_S _ _ _ Hx) in Hx'.
  apply elem_of_cons in Hx' as [->|Hx'].
  - unfold le. rewrite (cmp_refl _ Hord). lia.
  - apply (run_le run (S i)); [done| |done].
    apply elem_of_take. exists i. split; [done|lia].
Qed.

Lemma last_le (run : list T) (m : nat) (x x' : T) :
  TotalOrder compareFn -> ascending compareFn run ->
  run !! m = Some x -> x' ∈ take (S m) run -> le compareFn x' x.
Proof.
  intros Hord Hasc Hx Hx'. rewrite (take_S_r _ _ _ Hx) in Hx'.
  apply elem_of_app in Hx' as [Hx'|Hx'].
  - apply (run_le run m); [done|done|].
    rewrite (drop_S _ _ _ Hx). by left.
  - apply list_elem_of_singleton in Hx' as ->.
    unfold le. rewrite (cmp_refl _ Hord). lia.
Qed.

Section LoSorted.
Variables (pre run1 run2 post : list T).
Hypothesis order : TotalOrder compareFn.
Hypothesis sorted1 : ascending compareFn run1.
Hypothesis sorted2 : ascending compareFn run2.

Local Abbreviation lo_config := (lo_config pre run1 run2 post).

(** The merged part of the array after [c1] and [c2] elements is the
    merge of what was taken, and the two runs can be merged on from
    there. *)
Definition lo_sorted (c1 c2 : nat) (a : list T) : Prop :=
  merge_of (part (length pre) (c1 + c2) a) (take c1 run1) (take c2 run2)
  /\ cut_ok run1 run2 c1 c2.

Lemma lo_config_length (c1 c2 : nat) (v : merge_vars) (a : list T) :
  lo_config c1 c2 v a ->
  length a = (length pre + (c1 + c2) + (length run1 - c1) + (length run2 - c2)
              + length post)%nat.
Proof.
  intros (H1 & H2 & _ & _ & _ & _ & _ & merged & gap & -> & Hm & Hg & _).
  rewrite !length_app, length_drop. lia.
Qed.

Lemma lo_config_rest (c1 c2 : nat) (v : merge_vars) (a : list T) :
  lo_config c1 c2 v a ->
  drop (length pre + length run1 + c2) a = drop c2 run2 ++ post.
Proof.
  intros (H1 & H2 & _ & _ & _ & _ & _ & merged & gap & -> & Hm & Hg & _).
  rewrite !app_assoc. rewrite <- (app_assoc _ (drop c2 run2)).
  rewrite drop_app_length'; [done|]. rewrite !length_app. lia.
Qed.

Lemma lo_sorted_write (c1 c2 : nat) (v : merge_vars) (a : list T) (x : T) a' :
  lo_config c1 c2 v a -> JS.set a (dest v) x = Some a' ->
  part (length pre) (S (c1 + c2)) a' = part (length pre) (c1 + c2) a ++ [x].
Proof.
  intros Hcfg Hset. pose proof Hcfg as (_ & _ & _ & _ & Hd & _).
  rewrite Hd in Hset.
  replace (length pre + c1 + c2)%nat with (length pre + (c1 + c2))%nat in Hset by lia.
  apply js_set_shape in Hset as [Hlen ->].
  replace (S (c1 + c2)) with (c1 + c2 + length [x])%nat by (cbn [length]; lia).
  by apply (part_block (length pre) (c1 + c2) a [x]).
Qed.

Lemma lo_sorted_copy (c1 c2 k sp : nat) (v : merge_vars) (a src : list T) a' :
  lo_config c1 c2 v a -> (sp + k <= length src)%nat ->
  (c1 + c2 + k <= c1 + c2 + (length run1 - c1) + (length run2 - c2))%nat ->
  arraycopy src (Z.of_nat sp) a (dest v) (Z.of_nat k) = Ok a' ->
  part (length pre) (c1 + c2 + k) a'
  = part (length pre) (c1 + c2) a ++ take k (drop sp src).
Proof.
  intros Hcfg Hsp Hk Hcopy. pose proof Hcfg as (_ & _ & _ & _ & Hd & _).
  pose proof (lo_config_length _ _ _ _ Hcfg) as Hlen.
  rewrite Hd in Hcopy.
  replace (length pre + c1 + c2)%nat with (length pre + (c1 + c2))%nat in Hcopy by lia.
  rewrite arraycopy_in_range in Hcopy by lia. injection Hcopy as <-.
  assert (Hb : length (take k (drop sp src)) = k)
    by (rewrite length_take, length_drop; lia).
  rewrite <- Hb at 1.
  apply (part_block (length pre) (c1 + c2) a). lia.
Qed.

(** [a[dest++] = tmp[cursor1++]], the element not above what is left of
    the second run. *)
Lemma srt_take1 (c1 c2 : nat) (v : merge_vars) (a : list T) (x : T) a' :
  lo_config c1 c2 v a -> lo_sorted c1 c2 a ->
  run1 !! c1 = Some x -> JS.set a (dest v) x = Some a' ->
  (forall y, y ∈ drop c2 run2 -> le compareFn x y) ->
  lo_sorted (S c1) c2 a'.
Proof.
  intros Hcfg [Hm Hc] Hx Hset Hle. unfold lo_sorted.
  replace (S c1 + c2)%nat with (S (c1 + c2)) by lia.
  rewrite (lo_sorted_write _ _ _ _ _ _ Hcfg Hset).
  assert (Hb : take 1 (drop c1 run1) = [x]) by (by rewrite (drop_S _ _ _ Hx)).
  destruct (extend1 run1 run2 order sorted1 c1 c2 1 _ Hm Hc) as [Hm' Hc'].
  { rewrite Hb. intros x0 y Hx0 Hy. apply list_elem_of_singleton in Hx0 as ->.
    by apply Hle. }
  rewrite Hb in Hm'. by rewrite Nat.add_1_r in Hm', Hc'.
Qed.

(** [a[dest++] = a[cursor2++]], the element below what is left of the
    first run. *)
Lemma srt_take2 (c1 c2 : nat) (v : merge_vars) (a : list T) (y : T) a' :
  lo_config c1 c2 v a -> lo_sorted c1 c2 a ->
  run2 !! c2 = Some y -> JS.set a (dest v) y = Some a' ->
  (forall x, x ∈ drop c1 run1 -> compareFn y x < 0) ->
  lo_sorted c1 (S c2) a'.
Proof.
  intros Hcfg [Hm Hc] Hy Hset Hlt. unfold lo_sorted.
  replace (c1 + S c2)%nat with (S (c1 + c2)) by lia.
  rewrite (lo_sorted_write _ _ _ _ _ _ Hcfg Hset).
  assert (Hb : take 1 (drop c2 run2) = [y]) by (by rewrite (drop_S _ _ _ Hy)).
  destruct (extend2 run1 run2 sorted2 c1 c2 1 _ Hm Hc) as [Hm' Hc'].
  { rewrite Hb. intros y0 x Hy0 Hx. apply list_elem_of_singleton in Hy0 as ->.
    by apply Hlt. }
  rewrite Hb in Hm'. by rewrite Nat.add_1_r in Hm', Hc'.
Qed.

(** A block of the first run copied out of [tmp]. *)
Lemma srt_copy1 (c1 c2 k : nat) (v : merge_vars) (a : list T) a' :
  lo_config c1 c2 v a -> lo_sorted c1 c2 a -> (c1 + k <= length run1)%nat ->
  arraycopy run1 (cursor1 v) a (dest v) (Z.of_nat k) = Ok a' ->
  (forall x y, x ∈ take k (drop c1 run1) -> y ∈ drop c2 run2 -> le compareFn x y) ->
  lo_sorted (c1 + k) c2 a'.
Proof.
  intros Hcfg [Hm Hc] Hk Hcopy Hle. unfold lo_sorted.
  pose proof Hcfg as (_ & _ & Hc1 & _). rewrite Hc1 in Hcopy.
  replace (c1 + k + c2)%nat with (c1 + c2 + k)%nat by lia.
  rewrite (lo_sorted_copy c1 c2 k c1 v a run1 a' Hcfg) by (done || lia).
  by apply (extend1 run1 run2 order sorted1).
Qed.

(** A block of the second run moved down within the array. *)
Lemma srt_copy2 (c1 c2 k : nat) (v : merge_vars) (a : list T) a' :
  lo_config c1 c2 v a -> lo_sorted c1 c2 a -> (c2 + k <= length run2)%nat ->
  arraycopy a (cursor2 v) a (dest v) (Z.of_nat k) = Ok a' ->
  (forall y x, y ∈ take k (drop c2 run2) -> x ∈ drop c1 run1 -> compareFn y x < 0) ->
  lo_sorted c1 (c2 + k) a'.
Proof.
  intros Hcfg [Hm Hc] Hk Hcopy Hlt. unfold lo_sorted.
  pose proof Hcfg as (Hb1 & _ & _ & Hc2 & _). rewrite Hc2 in Hcopy.
  pose proof (lo_config_length _ _ _ _ Hcfg) as Hlen.
  replace (c1 + (c2 + k))%nat with (c1 + c2 + k)%nat by lia.
  rewrite (lo_sorted_copy c1 c2 k (length pre + length run1 + c2) v a a a' Hcfg)
    by (done || lia).
  rewrite (lo_config_rest _ _ _ _ Hcfg).
  rewrite take_app_le by (rewrite length_drop; lia).
  by apply (extend2 run1 run2 sorted2).
Qed.

Lemma lo_sorted_eq (c1 c2 c1' c2' : nat) (a : list T) :
  c1 = c1' -> c2 = c2' -> lo_sorted c1 c2 a -> lo_sorted c1' c2' a.
Proof. by intros -> ->. Qed.

Lemma lo_sorted_start : lo_sorted 0 0 (pre ++ run1 ++ run2 ++ post).
Proof.
  split; [|apply cut_start]. unfold part. cbn [Nat.add take].
  rewrite take_0. apply merge_of_nil.
Qed.

Lemma lo_straight_sorted (fuel : nat) :
  forall (c1 c2 : nat) (v : merge_vars) a rb rl ss tr,
    lo_config c1 c2 v a -> lo_sorted c1 c2 a ->
    (c1 + 2 <= length run1)%nat -> (c2 < length run2)%nat ->
    ((length run1 - c1) + (length run2 - c2) < fuel)%nat ->
    exists k c1' c2' v' a' evs,
      mergeLo_straight compareFn fuel run1 v (mkState a rb rl ss tr)
      = Ok ((k, v'), mkState a' rb rl ss (tr ++ evs)) /\
      lo_config c1' c2' v' a' /\ lo_sorted c1' c2' a' /\
      (c1 + c2 < c1' + c2')%nat /\ (c1 <= c1')%nat /\ (c2 <= c2')%nat /\
      lo_exit run1 run2 k c1' c2'.
Proof.
  induction fuel as [|fuel IH]; intros c1 c2 v a rb rl ss tr Hcfg Hsrt H1 H2 Hfuel;
    [lia|].
  cbn [mergeLo_straight].
  destruct (lo_take2 pre run1 run2 post c1 c2 v a 0 (count2 v + 1) (minGallop v)
              Hcfg ltac:(lia) H2)
    as (y & a2 & Hy & Hgy & Hsy & Hcfg2).
  destruct (lo_take1 pre run1 run2 post c1 c2 v a (count1 v + 1) 0 (minGallop v)
              Hcfg ltac:(lia))
    as (x & a1 & Hx & Hgx & Hsx & Hcfg1).
  rewrite (step_a_get _ y) by done.
  rewrite (step_arr_get _ _ x) by done.
  rewrite step_compare.
  destruct (Z.ltb_spec (compareFn y x) 0) as [Hlt|Hge].
  - assert (Hsrt2 : lo_sorted c1 (S c2) a2).
    { apply (srt_take2 c1 c2 v a y a2 Hcfg Hsrt Hy Hsy). intros x' Hx'.
      apply (cmp_lt_le_trans _ order y x x' Hlt).
      by apply (head_le run1 c1). }
    rewrite !bind_assoc. rewrite (step_a_get _ y) by done.
    rewrite bind_assoc, (step_a_set _ _ a2) by done.
    cbv zeta. rewrite step_ret. cbn [len2 count1 count2 minGallop].
    assert (Hl2 : len2 v = Z.of_nat (length run2 - c2)) by (apply Hcfg).
    destruct (Z.eqb_spec (len2 v - 1) 0).
    { exists BreakOuter, c1, (S c2). do 2 eexists. exists [Compare y x].
      split; [reflexivity|]. split; [exact Hcfg2|]. split; [exact Hsrt2|].
      repeat split; try lia. left. lia. }
    destruct (JS.bor _ _ <? _).
    + destruct (IH c1 (S c2) _ a2 rb rl ss (tr ++ [Compare y x]) Hcfg2 Hsrt2)
        as (k & c1' & c2' & v' & a' & evs & Hrun & Hcfg' & Hsrt' & Hp & Hm1 & Hm2 & Hex);
        [lia|lia|lia|].
      exists k, c1', c2', v', a', (Compare y x :: evs).
      split; [rewrite Hrun; by rewrite <- app_assoc|].
      split; [done|]. split; [done|]. repeat split; try lia. done.
    + exists Fallthrough, c1, (S c2). do 2 eexists. exists [Compare y x].
      split; [reflexivity|]. split; [exact Hcfg2|]. split; [exact Hsrt2|].
      repeat split; try lia.
  - assert (Hsrt1 : lo_sorted (S c1) c2 a1).
    { apply (srt_take1 c1 c2 v a x a1 Hcfg Hsrt Hx Hsx). intros y' Hy'.
      apply (cmp_trans _ order x y y'); [apply (cmp_flip _ order); lia|].
      by apply (head_le run2 c2). }
    rewrite !bind_assoc. rewrite (step_arr_get _ _ x) by done.
    rewrite bind_assoc, (step_a_set _ _ a1) by done.
    cbv zeta. rewrite step_ret. cbn [len1 count1 count2 minGallop].
    assert (Hl1 : len1 v = Z.of_nat (length run1 - c1)) by (apply Hcfg).
    destruct (Z.eqb_spec (len1 v - 1) 1).
    { exists BreakOuter, (S c1), c2. do 2 eexists. exists [Compare y x].
      split; [reflexivity|]. split; [exact Hcfg1|]. split; [exact Hsrt1|].
      repeat split; try lia. right. lia. }
    destruct (JS.bor _ _ <? _).
    + destruct (IH (S c1) c2 _ a1 rb rl ss (tr ++ [Compare y x]) Hcfg1 Hsrt1)
        as (k & c1' & c2' & v' & a' & evs & Hrun & Hcfg' & Hsrt' & Hp & Hm1 & Hm2 & Hex);
        [lia|lia|lia|].
      exists k, c1', c2', v', a', (Compare y x :: evs).
      split; [rewrite Hrun; by rewrite <- app_assoc|].
      split; [done|]. split; [done|]. repeat split; try lia. done.
    + exists Fallthrough, (S c1), c2. do 2 eexists. exists [Compare y x].
      split; [reflexivity|]. split; [exact Hcfg1|]. split; [exact Hsrt1|].
      repeat split; try lia.
Qed.

Lemma lo_gallop_sorted (fuel : nat) :
  (length run1 < fuel)%nat -> (length run2 < fuel)%nat ->
  Z.of_nat (length run1) < 2 ^ 32 -> Z.of_nat (length run2) < 2 ^ 32 ->
  forall (n c1 c2 : nat) (v : merge_vars) a rb rl ss tr,
    lo_config c1 c2 v a -> lo_sorted c1 c2 a ->
    (c1 + 2 <= length run1)%nat -> (c2 < length run2)%nat ->
    ((length run1 - c1) + (length run2 - c2) < n)%nat ->
    exists k c1' c2' v' a' evs,
      mergeLo_gallop compareFn fuel n run1 v (mkState a rb rl ss tr)
      = Ok ((k, v'), mkState a' rb rl ss (tr ++ evs)) /\
      lo_config c1' c2' v' a' /\ lo_sorted c1' c2' a' /\
      (c1 + c2 < c1' + c2')%nat /\ (c1 <= c1')%nat /\ (c2 <= c2')%nat /\
      lo_exit_gallop run1 run2 k c1' c2'.
Proof.
  intros Hfuel1 Hfuel2 Hsize1 Hsize2.
  induction n as [|n IH]; intros c1 c2 v a rb rl ss tr Hcfg Hsrt H1 H2 Hn; [lia|].
  cbn [mergeLo_gallop].
  (* the key from the second run, and how far it reaches into the first *)
  destruct (lo_take2 pre run1 run2 post c1 c2 v a 0 0 0 Hcfg ltac:(lia) H2)
    as (y & _ & Hy & Hgy & _ & _).
  rewrite (step_a_get _ y) by done.
  pose proof Hcfg as (_ & _ & Hc1 & Hc2 & Hd & Hl1 & Hl2 & _).
  destruct (gallopRight_in compareFn y run1 (take c1 run1) (drop c1 run1) [] fuel
              (cursor1 v) (len1 v) (mkState a rb rl ss tr))
    as (k1 & evs1 & Hk1 & Hrun1 & Hq1 & Hfun1).
  { by rewrite app_nil_r, take_drop. }
  { rewrite length_take. lia. }
  { rewrite length_drop. lia. }
  { rewrite length_drop. lia. }
  { rewrite length_drop. lia. }
  { rewrite length_drop. lia. }
  rewrite length_drop in Hk1. cbn [global_a runBase runLen stackSize trace] in Hrun1.
  rewrite (step_ok _ _ _ _ _ Hrun1). cbv zeta.
  cbn [cursor1 cursor2 dest len1 len2 count1 count2 minGallop].
  destruct (Hfun1 (monotone_right compareFn y _ order (ascending_drop run1 c1 sorted1)))
    as [Hbefore Hafter].
  assert (Hblock1 : forall x y', x ∈ take k1 (drop c1 run1) -> y' ∈ drop c2 run2 ->
                                 le compareFn x y').
  { intros x y' Hx Hy'. rewrite Forall_forall in Hbefore.
    specialize (Hbefore x Hx). apply negb_true_iff, Z.ltb_ge in Hbefore.
    apply (cmp_trans _ order x y y'); [by apply (cmp_flip _ order)|].
    by apply (head_le run2 c2). }
  assert (Hkey : forall x, x ∈ drop (c1 + k1) run1 -> compareFn y x < 0).
  { intros x Hx. rewrite <- drop_drop in Hx. rewrite Forall_forall in Hafter.
    specialize (Hafter x Hx). by apply negb_false_iff, Z.ltb_lt in Hafter. }
  clear Hfun1 Hrun1 Hbefore Hafter.
  match goal with |- context [bind _ ?K _] => set (K1 := K) end.
  (* from the move of the key on *)
  assert (Hrest : forall (c : nat) v0 a0 tr0,
             lo_config c c2 v0 a0 -> lo_sorted c c2 a0 ->
             (forall x, x ∈ drop c run1 -> compareFn y x < 0) ->
             (c + 2 <= length run1)%nat -> (c1 <= c)%nat ->
             exists k c1' c2' v' a' evs,
               K1 (Fallthrough, v0) (mkState a0 rb rl ss tr0)
               = Ok ((k, v'), mkState a' rb rl ss (tr0 ++ evs)) /\
               lo_config c1' c2' v' a' /\ lo_sorted c1' c2' a' /\
               (c + c2 < c1' + c2')%nat /\ (c <= c1')%nat /\ (c2 <= c2')%nat /\
               lo_exit_gallop run1 run2 k c1' c2').
  { intros c v0 a0 tr0 Hcfg0 Hsrt0 Hkey0 Hc Hcc. subst K1. cbv beta iota.
    destruct (lo_take2 pre run1 run2 post c c2 v0 a0 (count1 v0) (count2 v0)
                (minGallop v0) Hcfg0 ltac:(lia) H2)
      as (y' & a5 & Hy' & Hgy' & Hsy' & Hcfg5).
    assert (y' = y) as -> by congruence.
    assert (Hsrt5 : lo_sorted c (S c2) a5)
      by (by apply (srt_take2 c c2 v0 a0 y a5)).
    rewrite (step_a_get _ y) by done.
    rewrite (step_a_set _ _ a5) by done. cbv zeta.
    pose proof Hcfg0 as (_ & _ & _ & _ & _ & _ & Hl20 & _).
    destruct (Z.eqb_spec (len2 v0 - 1) 0).
    { exists BreakOuter, c, (S c2). do 2 eexists. exists [].
      rewrite app_nil_r. split; [reflexivity|]. split; [exact Hcfg5|].
      split; [exact Hsrt5|]. repeat split; try lia. right. lia. }
    destruct (lo_take1 pre run1 run2 post c (S c2) _ a5 (count1 v0) (count2 v0)
                (minGallop v0) Hcfg5 ltac:(lia))
      as (x & _ & Hx & Hgx & _ & _).
    cbn [cursor1] in Hgx.
    rewrite (step_arr_get _ _ x) by done. rewrite step_get_a.
    pose proof Hcfg5 as (_ & _ & _ & Hc25 & Hd5 & _ & Hl25 & merged & gap & Ha5 & Hm5
                         & Hg5 & _).
    cbn [cursor2 dest len2] in Hc25, Hd5, Hl25.
    destruct (gallopLeft_in compareFn x a5 (pre ++ merged ++ gap) (drop (S c2) run2)
                post fuel (cursor2 v0 + 1) (len2 v0 - 1) (mkState a5 rb rl ss tr0))
      as (k2 & evs2 & Hk2 & Hrun2 & Hq2 & Hfun2).
    { rewrite Ha5. by rewrite <- !app_assoc. }
    { rewrite Hc25. list_len. }
    { rewrite length_drop. lia. }
    { rewrite length_drop. lia. }
    { rewrite length_drop. lia. }
    { rewrite length_drop. lia. }
    rewrite length_drop in Hk2.
    cbn [global_a runBase runLen stackSize trace] in Hrun2.
    rewrite (step_ok _ _ _ _ _ Hrun2).
    cbn [cursor1 cursor2 dest len1 len2 count1 count2 minGallop].
    destruct (Hfun2 (monotone_left compareFn x _ order
                       (ascending_drop run2 (S c2) sorted2)))
      as [Hbefore2 Hafter2].
    assert (Hblock2 : forall y' x', y' ∈ take k2 (drop (S c2) run2) ->
                                    x' ∈ drop c run1 -> compareFn y' x' < 0).
    { intros y' x' Hy'' Hx'. rewrite Forall_forall in Hbefore2.
      specialize (Hbefore2 y' Hy''). apply Z.ltb_lt in Hbefore2.
      apply (cmp_lt_le_trans _ order y' x x'); [by apply (cmp_antisym _ order)|].
      by apply (head_le run1 c). }
    assert (Hkey2 : forall y', y' ∈ drop (S c2 + k2) run2 -> le compareFn x y').
    { intros y' Hy''. rewrite <- drop_drop in Hy''. rewrite Forall_forall in Hafter2.
      specialize (Hafter2 y' Hy''). by apply Z.ltb_ge in Hafter2. }
    clear Hrun2 Hfun2 Hbefore2 Hafter2 merged gap Ha5 Hm5 Hg5.
    match goal with |- context [bind _ ?K _] => set (K2 := K) end.
    (* from the move of the element of the first run on *)
    assert (Hrest2 : forall (c' : nat) v1 a1,
               lo_config c c' v1 a1 -> lo_sorted c c' a1 ->
               (forall y', y' ∈ drop c' run2 -> le compareFn x y') ->
               (S c2 <= c' < length run2)%nat ->
               exists k c1' c2' v' a' evs,
                 K2 (Fallthrough, v1)
                    (mkState a1 rb rl ss (tr0 ++ Log gallop_left_msg :: evs2))
                 = Ok ((k, v'), mkState a' rb rl ss
                                  ((tr0 ++ Log gallop_left_msg :: evs2) ++ evs)) /\
                 lo_config c1' c2' v' a' /\ lo_sorted c1' c2' a' /\
                 (c + c' < c1' + c2')%nat /\ (c <= c1')%nat /\ (c' <= c2')%nat /\
                 lo_exit_gallop run1 run2 k c1' c2').
    { intros c' v1 a1 Hcfg1 Hsrt1 Hkey1 Hc'. subst K2. cbv beta iota.
      destruct (lo_take1 pre run1 run2 post c c' v1 a1 (count1 v1) (count2 v1)
                  (minGallop v1) Hcfg1 ltac:(lia))
        as (x1 & a8 & Hx1 & Hgx1 & Hsx1 & Hcfg8).
      assert (x1 = x) as -> by congruence.
      assert (Hsrt8 : lo_sorted (S c) c' a8)
        by (by apply (srt_take1 c c' v1 a1 x a8)).
      rewrite (step_arr_get _ _ x) by done.
      rewrite (step_a_set _ _ a8) by done. cbv zeta.
      pose proof Hcfg1 as (_ & _ & _ & _ & _ & Hl11 & _).
      destruct (Z.eqb_spec (len1 v1 - 1) 1).
      { exists BreakOuter, (S c), c'. do 2 eexists. exists [].
        rewrite app_nil_r. split; [reflexivity|]. split; [exact Hcfg8|].
        split; [exact Hsrt8|]. repeat split; try lia. left. lia. }
      rewrite step_emit.
      cbn [cursor1 cursor2 dest len1 len2 count1 count2 minGallop].
      set (v9 := mkVars _ _ _ _ _ _ _ (minGallop v1 - 1)).
      assert (Hcfg9 : lo_config (S c) c' v9 a8) by exact Hcfg8.
      destruct (_ || _).
      - destruct (IH (S c) c' v9 a8 rb rl ss
                    ((tr0 ++ Log gallop_left_msg :: evs2)
                       ++ [MinGallop GDecrement (minGallop v1 - 1)]) Hcfg9 Hsrt8)
          as (k & c1' & c2' & v' & a' & evs & Hrun & Hcfg' & Hsrt' & Hp & Hm1 & Hm2
              & Hex);
          [lia|lia|lia|].
        exists k, c1', c2', v', a', (MinGallop GDecrement (minGallop v1 - 1) :: evs).
        split; [rewrite Hrun; by rewrite <- !app_assoc|].
        split; [done|]. split; [done|]. repeat split; try lia. done.
      - exists Fallthrough, (S c), c', v9, a8, [MinGallop GDecrement (minGallop v1 - 1)].
        split; [reflexivity|]. split; [done|]. split; [done|].
        repeat split; try lia. }
    (* the block of the second run *)
    destruct (Z.eqb_spec (Z.of_nat k2) 0) as [Hz|Hnz]; cbn [negb].
    - rewrite step_ret.
      match goal with |- context [K2 (Fallthrough, ?vv) _] =>
        destruct (Hrest2 (S c2) vv a5 Hcfg5 Hsrt5)
          as (k & c1' & c2' & v' & a' & evs & Hrun & Hcfg' & Hsrt' & Hp & Hm1 & Hm2
              & Hex)
      end.
      { intros y' Hy''. apply Hkey2. by replace (S c2 + k2)%nat with (S c2) by lia. }
      { lia. }
      exists k, c1', c2', v', a', ((Log gallop_left_msg :: evs2) ++ evs).
      split; [rewrite Hrun; by rewrite <- !app_assoc|].
      split; [done|]. split; [done|]. repeat split; try lia. done.
    - destruct (lo_copy2 pre run1 run2 post c (S c2) k2 _ a5 (count1 v0) (Z.of_nat k2)
                  (minGallop v0) Hcfg5 ltac:(lia))
        as (a7 & Hcopy & Hcfg7).
      assert (Hsrt7 : lo_sorted c (S c2 + k2) a7)
        by (apply (srt_copy2 c (S c2) k2 _ a5 a7 Hcfg5 Hsrt5); [lia|done|done]).
      cbn [cursor1 cursor2 dest len1 len2] in Hcopy, Hcfg7.
      rewrite bind_assoc, (step_a_arraycopy _ _ _ a7) by done.
      rewrite step_ret.
      destruct (Z.eqb_spec (len2 v0 - 1 - Z.of_nat k2) 0).
      + subst K2. cbv beta iota.
        exists BreakOuter, c, (S c2 + k2)%nat. do 2 eexists.
        exists (Log gallop_left_msg :: evs2).
        split; [reflexivity|]. split; [exact Hcfg7|]. split; [exact Hsrt7|].
        repeat split; try lia. right. lia.
      + match goal with |- context [K2 (Fallthrough, ?vv) _] =>
          destruct (Hrest2 (S c2 + k2)%nat vv a7 Hcfg7 Hsrt7 Hkey2 ltac:(lia))
            as (k & c1' & c2' & v' & a' & evs & Hrun & Hcfg' & Hsrt' & Hp & Hm1 & Hm2
                & Hex)
        end.
        exists k, c1', c2', v', a', ((Log gallop_left_msg :: evs2) ++ evs).
        split; [rewrite Hrun; by rewrite <- !app_assoc|].
        split; [done|]. split; [done|]. repeat split; try lia. done. }
  (* the block of the first run *)
  destruct (Z.eqb_spec (Z.of_nat k1) 0) as [Hz|Hnz]; cbn [negb].
  - rewrite step_ret.
    match goal with |- context [K1 (Fallthrough, ?vv) _] =>
      destruct (Hrest c1 vv a (tr ++ Log gallop_right_msg :: evs1) Hcfg Hsrt)
        as (k & c1' & c2' & v' & a' & evs & Hrun & Hcfg' & Hsrt' & Hp & Hm1 & Hm2 & Hex)
    end.
    { intros x Hx. apply Hkey. by replace (c1 + k1)%nat with c1 by lia. }
    { lia. }
    { lia. }
    exists k, c1', c2', v', a', ((Log gallop_right_msg :: evs1) ++ evs).
    split; [rewrite Hrun; by rewrite <- !app_assoc|].
    split; [done|]. split; [done|]. repeat split; try lia. done.
  - destruct (lo_copy1 pre run1 run2 post c1 c2 k1 v a (Z.of_nat k1) (count2 v)
                (minGallop v) Hcfg ltac:(lia))
      as (a4 & Hcopy & Hcfg4).
    assert (Hsrt4 : lo_sorted (c1 + k1) c2 a4)
      by (apply (srt_copy1 c1 c2 k1 v a a4 Hcfg Hsrt); [lia|done|done]).
    rewrite bind_assoc, (step_a_arraycopy_from _ _ _ _ a4) by done.
    rewrite step_ret.
    destruct (Z.leb_spec (len1 v - Z.of_nat k1) 1).
    + subst K1. cbv beta iota.
      exists BreakOuter, (c1 + k1)%nat, c2. do 2 eexists.
      exists (Log gallop_right_msg :: evs1).
      split; [reflexivity|]. split; [exact Hcfg4|]. split; [exact Hsrt4|].
      repeat split; try lia. left. lia.
    + match goal with |- context [K1 (Fallthrough, ?vv) _] =>
        destruct (Hrest (c1 + k1)%nat vv a4 (tr ++ Log gallop_right_msg :: evs1) Hcfg4
                    Hsrt4 Hkey ltac:(lia) ltac:(lia))
          as (k & c1' & c2' & v' & a' & evs & Hrun & Hcfg' & Hsrt' & Hp & Hm1 & Hm2
              & Hex)
      end.
      exists k, c1', c2', v', a', ((Log gallop_right_msg :: evs1) ++ evs).
      split; [rewrite Hrun; by rewrite <- !app_assoc|].
      split; [done|]. split; [done|]. repeat split; try lia. done.
Qed.

Lemma lo_outer_sorted (fuel : nat) :
  (length run1 + length run2 < fuel)%nat ->
  Z.of_nat (length run1) < 2 ^ 32 -> Z.of_nat (length run2) < 2 ^ 32 ->
  forall (n c1 c2 : nat) (v : merge_vars) a rb rl ss tr,
    lo_config c1 c2 v a -> lo_sorted c1 c2 a ->
    (c1 + 2 <= length run1)%nat -> (c2 < length run2)%nat ->
    ((length run1 - c1) + (length run2 - c2) < n)%nat ->
    exists c1' c2' v' a' evs,
      mergeLo_outer compareFn fuel n run1 v (mkState a rb rl ss tr)
      = Ok (v', mkState a' rb rl ss (tr ++ evs)) /\
      lo_config c1' c2' v' a' /\ lo_sorted c1' c2' a' /\
      ((length run1 <= c1' + 1 /\ c2' < length run2)%nat
       \/ (c2' = length run2 /\ c1' + 2 <= length run1)%nat).
Proof.
  intros Hfuel Hsize1 Hsize2.
  induction n as [|n IH]; intros c1 c2 v a rb rl ss tr Hcfg Hsrt H1 H2 Hn; [lia|].
  cbn [mergeLo_outer]. cbv zeta.
  match goal with |- context [mergeLo_straight _ _ _ ?vv] => set (v0 := vv) end.
  destruct (lo_straight_sorted fuel c1 c2 v0 a rb rl ss tr Hcfg Hsrt H1 H2 ltac:(lia))
    as (k & c1s & c2s & vs & a_s & evs_s & Hrun_s & Hcfg_s & Hsrt_s & Hp_s & Hm1 & Hm2
        & Hex_s).
  rewrite (step_ok _ _ _ _ _ Hrun_s). cbv beta iota.
  destruct k; cbn [lo_exit] in Hex_s.
  2:{ exists c1s, c2s, vs, a_s, evs_s. split; [reflexivity|].
      split; [done|]. split; [done|]. lia. }
  destruct (lo_gallop_sorted fuel ltac:(lia) ltac:(lia) Hsize1 Hsize2
              fuel c1s c2s vs a_s rb rl ss (tr ++ evs_s) Hcfg_s Hsrt_s)
    as (k & c1g & c2g & vg & a_g & evs_g & Hrun_g & Hcfg_g & Hsrt_g & Hp_g & Hm1g & Hm2g
        & Hex_g); [lia|lia|lia|].
  rewrite (step_ok _ _ _ _ _ Hrun_g). cbv beta iota.
  destruct k; cbn [lo_exit_gallop] in Hex_g.
  2:{ exists c1g, c2g, vg, a_g, (evs_s ++ evs_g).
      split; [unfold ret; by rewrite <- app_assoc|].
      split; [done|]. split; [done|]. lia. }
  rewrite step_emit. cbn [minGallop].
  match goal with |- context [mergeLo_outer _ _ _ _ ?vv] => set (vp := vv) end.
  destruct (IH c1g c2g vp a_g rb rl ss
              (((tr ++ evs_s) ++ evs_g) ++ [MinGallop GPenalty (leave_gallop (minGallop vg))])
              Hcfg_g Hsrt_g)
    as (c1' & c2' & v' & a' & evs & Hrun & Hcfg' & Hsrt' & Hex); [lia|lia|lia|].
  exists c1', c2', v', a',
    ((evs_s ++ evs_g) ++ MinGallop GPenalty (leave_gallop (minGallop vg)) :: evs).
  split.
  { rewrite Hrun. do 3 f_equal. rewrite <- !app_assoc. done. }
  done.
Qed.

(** The range of the two runs holds their stable merge. *)
Definition merged_sorted (a' : list T) : Prop :=
  exists merged,
    a' = pre ++ merged ++ post /\
    ascending compareFn merged /\ stable compareFn (run1 ++ run2) merged /\
    merged ≡ₚ run1 ++ run2.

Lemma lo_sorted_done (v : merge_vars) (a : list T) :
  lo_config (length run1) (length run2) v a ->
  lo_sorted (length run1) (length run2) a -> merged_sorted a.
Proof.
  intros Hcfg [Hm _].
  destruct (lo_config_done pre run1 run2 post v a Hcfg) as (merged & -> & Hperm).
  exists merged. split; [done|]. apply merge_of_done.
  assert (Hlen : length merged = (length run1 + length run2)%nat).
  { rewrite Hperm. by rewrite length_app. }
  unfold part in Hm. rewrite drop_app_length in Hm.
  rewrite <- Hlen in Hm. by rewrite take_app_length in Hm.
Qed.

Lemma only_last (run : list T) (c : nat) (x : T) :
  (c + 1 = length run)%nat -> x ∈ drop c run -> last run = Some x.
Proof.
  intros Hc Hx. destruct (lookup_lt_is_Some_2 run c) as [z Hz]; [lia|].
  rewrite (drop_S _ _ _ Hz) in Hx. rewrite drop_ge in Hx by lia.
  apply list_elem_of_singleton in Hx as ->.
  rewrite last_lookup. rewrite <- Hz. f_equal. lia.
Qed.

Lemma nothing_left (run : list T) (c : nat) (P : T -> Prop) :
  (length run <= c)%nat -> forall y, y ∈ drop c run -> P y.
Proof. intros Hc y Hy. rewrite drop_ge in Hy by lia. by apply elem_of_nil in Hy. Qed.

Hypothesis last_above :
  forall z y, last run1 = Some z -> y ∈ run2 -> compareFn y z < 0.

Lemma lo_end_sorted (c1 c2 : nat) (v : merge_vars) a rb rl ss tr :
  lo_config c1 c2 v a -> lo_sorted c1 c2 a ->
  ((length run1 <= c1 + 1 /\ c2 < length run2)%nat
   \/ (c2 = length run2 /\ c1 + 2 <= length run1)%nat) ->
  (c1 < length run1)%nat ->
  exists a' evs,
    mergeLo_end run1 v (mkState a rb rl ss tr)
    = Ok (tt, mkState a' rb rl ss (tr ++ evs)) /\
    merged_sorted a'.
Proof.
  intros Hcfg Hsrt Hex Hlt.
  pose proof Hcfg as (Hb1 & Hb2 & Hc1 & Hc2 & Hd & Hl1 & Hl2 & _).
  destruct v as [cu1 cu2 de l1 l2 n1 n2 mg].
  cbn [cursor1 cursor2 dest len1 len2 minGallop] in *.
  unfold mergeLo_end. rewrite step_emit.
  destruct (Z.eqb_spec l1 1).
  - (* one element of the first run left *)
    destruct (lo_copy2 pre run1 run2 post c1 c2 (length run2 - c2) _ a n1 n2 mg
                Hcfg ltac:(lia))
      as (a1 & Hcopy & Hcfg1).
    assert (Hsrt1 : lo_sorted c1 (c2 + (length run2 - c2)) a1).
    { apply (srt_copy2 c1 c2 (length run2 - c2) _ a a1 Hcfg Hsrt); [lia|done|].
      intros y x Hy Hx. apply last_above.
      - apply (only_last run1 c1); [lia|done].
      - by apply in_take, in_drop in Hy. }
    cbn [cursor1 cursor2 dest len1 len2] in Hcopy, Hcfg1.
    rewrite <- Hl2 in Hcopy.
    rewrite (step_a_arraycopy _ _ _ a1) by done.
    destruct (lo_take1 pre run1 run2 post c1 _ _ a1 n1 n2 mg Hcfg1 ltac:(lia))
      as (x & a2 & Hx & Hgx & Hsx & Hcfg2).
    assert (Hsrt2 : lo_sorted (S c1) (c2 + (length run2 - c2)) a2).
    { apply (srt_take1 c1 _ _ a1 x a2 Hcfg1 Hsrt1 Hx Hsx).
      apply nothing_left. lia. }
    cbn [cursor1 cursor2 dest len1 len2] in Hgx, Hsx, Hcfg2.
    rewrite <- Hl2 in Hsx.
    rewrite (step_arr_get _ _ x) by done.
    exists a2. eexists. split; [by apply run_a_set|].
    eapply lo_sorted_done.
    + eapply lo_config_eq; [| |exact Hcfg2]; lia.
    + eapply lo_sorted_eq; [| |exact Hsrt2]; lia.
  - destruct (Z.eqb_spec l1 0); [lia|].
    (* the second run is used up *)
    destruct (lo_copy1 pre run1 run2 post c1 c2 (length run1 - c1) _ a n1 n2 mg
                Hcfg ltac:(lia))
      as (a1 & Hcopy & Hcfg1).
    assert (Hsrt1 : lo_sorted (c1 + (length run1 - c1)) c2 a1).
    { apply (srt_copy1 c1 c2 (length run1 - c1) _ a a1 Hcfg Hsrt); [lia|done|].
      intros x y Hx. revert y. apply nothing_left. lia. }
    cbn [cursor1 cursor2 dest len1 len2] in Hcopy, Hcfg1.
    rewrite <- Hl1 in Hcopy.
    exists a1. eexists. split; [by apply run_a_arraycopy_from|].
    eapply lo_sorted_done.
    + eapply lo_config_eq; [| |exact Hcfg1]; lia.
    + eapply lo_sorted_eq; [| |exact Hsrt1]; lia.
Qed.

Hypothesis head_below :
  forall y0 x0, head run2 = Some y0 -> head run1 = Some x0 -> compareFn y0 x0 < 0.

Lemma mergeLo_sorted (fuel : nat) rb rl ss tr :
  (1 <= length run1)%nat -> (1 <= length run2)%nat ->
  (length run1 + length run2 < fuel)%nat ->
  Z.of_nat (length run1) < 2 ^ 32 -> Z.of_nat (length run2) < 2 ^ 32 ->
  let call := mergeLo compareFn fuel
                (Z.of_nat (length pre)) (Z.of_nat (length run1))
                (Z.of_nat (length pre + length run1)) (Z.of_nat (length run2))
                (mkState (pre ++ run1 ++ run2 ++ post) rb rl ss tr) in
  call = Throw contract_violation
  \/ exists a' evs,
      call = Ok (tt, mkState a' rb rl ss (tr ++ evs)) /\ merged_sorted a'.
Proof.
  intros Hn1 Hn2 Hfuel Hsize1 Hsize2. cbv zeta. unfold mergeLo.
  rewrite step_log, step_get_a. cbv zeta.
  rewrite (js_slice_middle pre run1 (run2 ++ post)) by done.
  destruct (lo_take2 pre run1 run2 post 0 0 _ _ 0 0 MIN_GALLOP
              (lo_config_start pre run1 run2 post) ltac:(lia) ltac:(lia))
    as (y & a1 & Hy & Hgy & Hsy & Hcfg1).
  assert (Hsrt1 : lo_sorted 0 1 a1).
  { apply (srt_take2 0 0 _ _ y a1 (lo_config_start pre run1 run2 post)
             lo_sorted_start Hy Hsy).
    intros x Hx. rewrite drop_0 in Hx.
    destruct (lookup_lt_is_Some_2 run1 0) as [x0 Hx0]; [lia|].
    apply (cmp_lt_le_trans _ order y x0 x).
    - apply head_below; by rewrite head_lookup.
    - apply (head_le run1 0); [done|done|done|by rewrite drop_0]. }
  cbn [cursor1 cursor2 dest len1 len2] in Hgy, Hsy, Hcfg1.
  rewrite (step_a_get _ y) by done.
  rewrite (step_a_set _ _ a1) by done.
  destruct (Z.eqb_spec (Z.of_nat (length run2) - 1) 0).
  { (* the second run had one element *)
    right.
    destruct (lo_copy1 pre run1 run2 post 0 1 (length run1) _ a1 0 0 MIN_GALLOP
                Hcfg1 ltac:(lia))
      as (a2 & Hcopy & Hcfg2).
    assert (Hsrt2 : lo_sorted (0 + length run1) 1 a2).
    { apply (srt_copy1 0 1 (length run1) _ a1 a2 Hcfg1 Hsrt1); [lia|done|].
      intros x0 y0 Hx0. revert y0. apply nothing_left. lia. }
    cbn [cursor1 cursor2 dest len1 len2] in Hcopy, Hcfg2.
    exists a2, [Log "entering merge lo"]. split; [by apply run_a_arraycopy_from|].
    eapply lo_sorted_done.
    + eapply lo_config_eq; [| |exact Hcfg2]; lia.
    + eapply lo_sorted_eq; [| |exact Hsrt2]; lia. }
  destruct (Z.eqb_spec (Z.of_nat (length run1)) 1).
  { (* the first run had one element *)
    right.
    destruct (lo_copy2 pre run1 run2 post 0 1 (length run2 - 1) _ a1 0 0 MIN_GALLOP
                Hcfg1 ltac:(lia))
      as (a2 & Hcopy & Hcfg2).
    assert (Hsrt2 : lo_sorted 0 (1 + (length run2 - 1)) a2).
    { apply (srt_copy2 0 1 (length run2 - 1) _ a1 a2 Hcfg1 Hsrt1); [lia|done|].
      intros y' x Hy' Hx. apply last_above.
      - apply (only_last run1 0); [lia|done].
      - by apply in_take, in_drop in Hy'. }
    cbn [cursor1 cursor2 dest len1 len2] in Hcopy, Hcfg2.
    replace (Z.of_nat (length run2 - 1)) with (Z.of_nat (length run2) - 1)
      in Hcopy, Hcfg2 by lia.
    rewrite (step_a_arraycopy _ _ _ a2) by done.
    destruct (lo_take1 pre run1 run2 post 0 _ _ a2 0 0 MIN_GALLOP Hcfg2 ltac:(lia))
      as (x & a3 & Hx & Hgx & Hsx & Hcfg3).
    assert (Hsrt3 : lo_sorted 1 (1 + (length run2 - 1)) a3).
    { apply (srt_take1 0 _ _ a2 x a3 Hcfg2 Hsrt2 Hx Hsx).
      apply nothing_left. lia. }
    cbn [cursor1 cursor2 dest len1 len2] in Hgx, Hsx, Hcfg3.
    rewrite (step_arr_get _ _ x) by done.
    exists a3, [Log "entering merge lo"]. split; [by apply run_a_set|].
    eapply lo_sorted_done.
    + eapply lo_config_eq; [| |exact Hcfg3]; lia.
    + eapply lo_sorted_eq; [| |exact Hsrt3]; lia. }
  rewrite step_emit.
  destruct (lo_outer_sorted fuel Hfuel Hsize1 Hsize2 fuel 0 1 _ a1 rb rl ss
              ((tr ++ [Log "entering merge lo"]) ++ [MinGallop GInit MIN_GALLOP])
              Hcfg1 Hsrt1)
    as (c1' & c2' & v' & a' & evs & Hrun & Hcfg' & Hsrt' & Hex); [lia|lia|lia|].
  rewrite (step_ok _ _ _ _ _ Hrun).
  destruct (decide (c1' = length run1)) as [Heq|Hneq].
  - left. apply lo_end_throws. split; [|done].
    destruct Hcfg' as (_ & _ & _ & _ & _ & Hl1 & _). lia.
  - right.
    destruct (lo_end_sorted c1' c2' v' a' rb rl ss
                (((tr ++ [Log "entering merge lo"]) ++ [MinGallop GInit MIN_GALLOP])
                   ++ evs) Hcfg' Hsrt' Hex)
      as (a'' & evs' & Hend & Hres).
    { destruct Hcfg' as (Hb & _). lia. }
    exists a''. eexists. split; [|done].
    rewrite Hend. do 3 f_equal. rewrite <- !app_assoc. done.
Qed.

End LoSorted.

Lemma mergeLo_stable_merge (pre run1 run2 post : list T) (fuel : nat) rb rl ss tr :
  TotalOrder compareFn ->
  ascending compareFn run1 -> ascending compareFn run2 ->
  (forall y0 x0, head run2 = Some y0 -> head run1 = Some x0 -> compareFn y0 x0 < 0) ->
  (forall z y, last run1 = Some z -> y ∈ run2 -> compareFn y z < 0) ->
  (1 <= length run1)%nat -> (1 <= length run2)%nat ->
  (length run1 + length run2 < fuel)%nat ->
  Z.of_nat (length run1) < 2 ^ 32 -> Z.of_nat (length run2) < 2 ^ 32 ->
  exists merged evs,
    mergeLo compareFn fuel
      (Z.of_nat (length pre)) (Z.of_nat (length run1))
      (Z.of_nat (length pre + length run1)) (Z.of_nat (length run2))
      (mkState (pre ++ run1 ++ run2 ++ post) rb rl ss tr)
    = Ok (tt, mkState (pre ++ merged ++ post) rb rl ss (tr ++ evs)) /\
    ascending compareFn merged /\
    stable compareFn (run1 ++ run2) merged /\
    merged ≡ₚ run1 ++ run2.
Proof.
  intros Hord Hs1 Hs2 Hhead Hlast Hn1 Hn2 Hfuel Hsize1 Hsize2.
  destruct (mergeLo_sorted pre run1 run2 post Hord Hs1 Hs2 Hlast Hhead fuel rb rl ss tr
              Hn1 Hn2 Hfuel Hsize1 Hsize2)
    as [Hthrow|(a' & evs & Hrun & merged & -> & Hres)].
  - destruct (mergeLo_spec compareFn pre run1 run2 post fuel rb rl ss tr
                Hn1 Hn2 Hfuel Hsize1 Hsize2) as [[_ Hno]|(a' & evs & Hrun & _)].
    + destruct Hno. by split.
    + cbv zeta in Hthrow, Hrun. congruence.
  - by exists merged, evs.
Qed.

(** [mergeLo] on two adjacent runs that are non-decreasing under a
    consistent total order, the first starting above the head of the
    second and ending above all of it (what [mergeAt] leaves of the two
    runs): the call returns, the range of the two runs is non-decreasing
    and holds the elements of both, equal ones in the order they had,
    those of the first run before those of the second, and the array
    outside the range is as it was. *)
Theorem mergeLo_merges (pre run1 run2 post : list T) (fuel : nat) rb rl ss tr :
  TotalOrder compareFn ->
  ascending compareFn run1 -> ascending compareFn run2 ->
  (forall y0 x0, head run2 = Some y0 -> head run1 = Some x0 -> compareFn y0 x0 < 0) ->
  (forall z y, last run1 = Some z -> y ∈ run2 -> compareFn y z < 0) ->
  (1 <= length run1)%nat -> (1 <= length run2)%nat ->
  (length run1 + length run2 < fuel)%nat ->
  Z.of_nat (length run1) < 2 ^ 32 -> Z.of_nat (length run2) < 2 ^ 32 ->
  exists merged evs,
    mergeLo compareFn fuel
      (Z.of_nat (length pre)) (Z.of_nat (length run1))
      (Z.of_nat (length pre + length run1)) (Z.of_nat (length run2))
      (mkState (pre ++ run1 ++ run2 ++ post) rb rl ss tr)
    = Ok (tt, mkState (pre ++ merged ++ post) rb rl ss (tr ++ evs)) /\
    ascending compareFn merged /\
    stable compareFn (run1 ++ run2) merged /\
    merged ≡ₚ run1 ++ run2.
Proof.
  intros Hord Hs1 Hs2 Hhead Hlast Hn1 Hn2 Hfuel Hsize1 Hsize2.
  destruct (mergeLo_sorted pre run1 run2 post Hord Hs1 Hs2 Hlast Hhead fuel rb rl ss tr
              Hn1 Hn2 Hfuel Hsize1 Hsize2)
    as [Hthrow|(a' & evs & Hrun & merged & -> & Hres)].
  - destruct (mergeLo_spec compareFn pre run1 run2 post fuel rb rl ss tr
                Hn1 Hn2 Hfuel Hsize1 Hsize2) as [[_ Hno]|(a' & evs & Hrun & _)].
    + destruct Hno. by split.
    + cbv zeta in Hthrow, Hrun. congruence.
  - by exists merged, evs.
Qed.


(** *** The merged part of the array in [mergeHi] *)

Lemma part_front (p c : nat) (a block : list T) :
  (p <= length a)%nat ->
  part p (length block + c) (take p a ++ block ++ drop (p + length block) a)
  = block ++ part (p + length block) c a.
Proof.
  intros Hp. unfold part.
  rewrite drop_app_length' by (rewrite length_take; lia).
  by rewrite take_app_add.
Qed.

Ltac hi_pick H :=
  match type of H with
  | forall v', cursor1 v' = ?c1 -> cursor2 v' = ?c2 -> dest v' = ?d ->
               len1 v' = ?l1 -> len2 v' = ?l2 -> _ =>
      specialize (H (mkVars c1 c2 d l1 l2 0 0 0)
                    eq_refl eq_refl eq_refl eq_refl eq_refl)
  end.

Section HiSorted.
Variables (pre run1 run2 post : list T).
Hypothesis order : TotalOrder compareFn.
Hypothesis sorted1 : ascending compareFn run1.
Hypothesis sorted2 : ascending compareFn run2.

Local Abbreviation hi_config := (hi_config pre run1 run2 post).

(** The merged part of the array, with [m1] and [m2] elements of the
    runs still to take, is the merge of what was taken, and the two runs
    can be merged on from there. *)
Definition hi_sorted (m1 m2 : nat) (a : list T) : Prop :=
  merge_of (part (length pre + m1 + m2)
              ((length run1 - m1) + (length run2 - m2)) a)
           (drop m1 run1) (drop m2 run2)
  /\ cut_ok run1 run2 m1 m2.

Lemma hi_config_length (m1 m2 : nat) (v : merge_vars) (a : list T) :
  hi_config m1 m2 v a ->
  length a = (length pre + m1 + m2 + ((length run1 - m1) + (length run2 - m2))
              + length post)%nat.
Proof.
  intros (H1 & H2 & _ & _ & _ & _ & _ & gap & merged & -> & Hg & Hm & _).
  rewrite !length_app, length_take. lia.
Qed.

Lemma hi_config_front (m1 m2 k : nat) (v : merge_vars) (a : list T) :
  hi_config m1 m2 v a -> (k <= m1)%nat ->
  take k (drop (length pre + (m1 - k)) a) = drop (m1 - k) (take m1 run1).
Proof.
  intros (H1 & H2 & _ & _ & _ & _ & _ & gap & merged & -> & Hg & Hm & _) Hk.
  rewrite drop_app_add.
  rewrite drop_app_le by (rewrite length_take; lia).
  rewrite take_app_length'; [done|].
  rewrite length_drop, length_take. lia.
Qed.

Lemma hi_sorted_write (m1 m2 c : nat) (v : merge_vars) (a : list T) (x : T) a' :
  hi_config m1 m2 v a -> (1 <= m1 + m2)%nat ->
  JS.set a (dest v) x = Some a' ->
  part (length pre + m1 + m2 - 1) (S c) a'
  = x :: part (length pre + m1 + m2) c a.
Proof.
  intros Hcfg Hpos Hset. pose proof Hcfg as (_ & _ & _ & _ & Hd & _).
  pose proof (hi_config_length _ _ _ _ Hcfg) as Hlen.
  rewrite Hd in Hset.
  replace (Z.of_nat (length pre + m1 + m2) - 1)
    with (Z.of_nat (length pre + m1 + m2 - 1)) in Hset by lia.
  apply js_set_shape in Hset as [_ ->].
  pose proof (part_front (length pre + m1 + m2 - 1) c a [x] ltac:(lia)) as H.
  cbn [length app] in H.
  replace (length pre + m1 + m2 - 1 + 1)%nat with (length pre + m1 + m2)%nat in H by lia.
  replace (S (length pre + m1 + m2 - 1)) with (length pre + m1 + m2)%nat by lia.
  exact H.
Qed.

Lemma hi_sorted_copy (m1 m2 k c sp : nat) (v : merge_vars) (a src : list T)
    (dpos : Z) a' :
  hi_config m1 m2 v a -> (sp + k <= length src)%nat -> (k <= m1 + m2)%nat ->
  dpos = dest v - Z.of_nat k + 1 ->
  arraycopy src (Z.of_nat sp) a dpos (Z.of_nat k) = Ok a' ->
  part (length pre + m1 + m2 - k) (k + c) a'
  = take k (drop sp src) ++ part (length pre + m1 + m2) c a.
Proof.
  intros Hcfg Hsp Hk -> Hcopy. pose proof Hcfg as (_ & _ & _ & _ & Hd & _).
  pose proof (hi_config_length _ _ _ _ Hcfg) as Hlen.
  rewrite Hd in Hcopy.
  replace (Z.of_nat (length pre + m1 + m2) - 1 - Z.of_nat k + 1)
    with (Z.of_nat (length pre + m1 + m2 - k)) in Hcopy by lia.
  rewrite arraycopy_in_range in Hcopy by lia. injection Hcopy as <-.
  assert (Hb : length (take k (drop sp src)) = k)
    by (rewrite length_take, length_drop; lia).
  pose proof (part_front (length pre + m1 + m2 - k) c a (take k (drop sp src))
                ltac:(lia)) as H.
  rewrite Hb in H.
  replace (length pre + m1 + m2 - k + k)%nat with (length pre + m1 + m2)%nat
    in * by lia.
  exact H.
Qed.

(** [a[dest--] = a[cursor1--]], the element above what is left of the
    second run. *)
Lemma hsrt_take1 (m1 m2 : nat) (v : merge_vars) (a : list T) (x : T) a' :
  hi_config m1 m2 v a -> hi_sorted m1 m2 a -> (1 <= m1)%nat ->
  run1 !! (m1 - 1)%nat = Some x -> JS.set a (dest v) x = Some a' ->
  (forall y, y ∈ take m2 run2 -> compareFn y x < 0) ->
  hi_sorted (m1 - 1) m2 a'.
Proof.
  intros Hcfg [Hm Hc] Hm1 Hx Hset Hlt. unfold hi_sorted.
  pose proof Hcfg as (Hb1 & Hb2 & _).
  replace (length pre + (m1 - 1) + m2)%nat with (length pre + m1 + m2 - 1)%nat by lia.
  replace (length run1 - (m1 - 1) + (length run2 - m2))%nat
    with (S ((length run1 - m1) + (length run2 - m2))) by lia.
  rewrite (hi_sorted_write m1 m2 _ v a x a' Hcfg ltac:(lia) Hset).
  assert (Hb : drop (m1 - 1) (take m1 run1) = [x]).
  { replace m1 with (S (m1 - 1)) at 2 by lia.
    rewrite (take_S_r _ _ _ Hx). rewrite drop_app_length'; [done|].
    rewrite length_take. apply lookup_lt_Some in Hx. lia. }
  destruct (extend1_back run1 run2 sorted1 m1 m2 1 _ Hm Hc Hm1) as [Hm' Hc'].
  { rewrite Hb. intros x0 y Hx0 Hy. apply list_elem_of_singleton in Hx0 as ->.
    by apply Hlt. }
  rewrite Hb in Hm'. done.
Qed.

(** [a[dest--] = tmp[cursor2--]], the element not below what is left of
    the first run. *)
Lemma hsrt_take2 (m1 m2 : nat) (v : merge_vars) (a : list T) (y : T) a' :
  hi_config m1 m2 v a -> hi_sorted m1 m2 a -> (1 <= m2)%nat ->
  run2 !! (m2 - 1)%nat = Some y -> JS.set a (dest v) y = Some a' ->
  (forall x, x ∈ take m1 run1 -> le compareFn x y) ->
  hi_sorted m1 (m2 - 1) a'.
Proof.
  intros Hcfg [Hm Hc] Hm2 Hy Hset Hle. unfold hi_sorted.
  pose proof Hcfg as (Hb1 & Hb2 & _).
  replace (length pre + m1 + (m2 - 1))%nat with (length pre + m1 + m2 - 1)%nat by lia.
  replace (length run1 - m1 + (length run2 - (m2 - 1)))%nat
    with (S ((length run1 - m1) + (length run2 - m2))) by lia.
  rewrite (hi_sorted_write m1 m2 _ v a y a' Hcfg ltac:(lia) Hset).
  assert (Hb : drop (m2 - 1) (take m2 run2) = [y]).
  { replace m2 with (S (m2 - 1)) at 2 by lia.
    rewrite (take_S_r _ _ _ Hy). rewrite drop_app_length'; [done|].
    rewrite length_take. apply lookup_lt_Some in Hy. lia. }
  destruct (extend2_back run1 run2 order sorted2 m1 m2 1 _ Hm Hc Hm2) as [Hm' Hc'].
  { rewrite Hb. intros y0 x Hy0 Hx. apply list_elem_of_singleton in Hy0 as ->.
    by apply Hle. }
  rewrite Hb in Hm'. done.
Qed.

(** A block of the first run moved up within the array. *)
Lemma hsrt_copy1 (m1 m2 k : nat) (v : merge_vars) (a : list T) (spos dpos len : Z) a' :
  hi_config m1 m2 v a -> hi_sorted m1 m2 a -> (k <= m1)%nat ->
  len = Z.of_nat k -> spos = cursor1 v - len + 1 -> dpos = dest v - len + 1 ->
  arraycopy a spos a dpos len = Ok a' ->
  (forall x y, x ∈ drop (m1 - k) (take m1 run1) -> y ∈ take m2 run2 ->
               compareFn y x < 0) ->
  hi_sorted (m1 - k) m2 a'.
Proof.
  intros Hcfg [Hm Hc] Hk -> -> Hd Hcopy Hlt. unfold hi_sorted.
  pose proof Hcfg as (Hb1 & Hb2 & Hc1 & _). rewrite Hc1 in Hcopy.
  pose proof (hi_config_length _ _ _ _ Hcfg) as Hlen.
  replace (Z.of_nat (length pre + m1) - 1 - Z.of_nat k + 1)
    with (Z.of_nat (length pre + (m1 - k))) in Hcopy by lia.
  replace (length pre + (m1 - k) + m2)%nat with (length pre + m1 + m2 - k)%nat by lia.
  replace (length run1 - (m1 - k) + (length run2 - m2))%nat
    with (k + ((length run1 - m1) + (length run2 - m2)))%nat by lia.
  rewrite (hi_sorted_copy m1 m2 k _ (length pre + (m1 - k)) v a a dpos a' Hcfg)
    by (done || lia).
  rewrite (hi_config_front _ _ _ _ _ Hcfg Hk).
  by apply (extend1_back run1 run2 sorted1).
Qed.

(** A block of the second run copied out of [tmp]. *)
Lemma hsrt_copy2 (m1 m2 k : nat) (v : merge_vars) (a : list T) (spos dpos len : Z) a' :
  hi_config m1 m2 v a -> hi_sorted m1 m2 a -> (k <= m2)%nat ->
  len = Z.of_nat k -> spos = cursor2 v - len + 1 -> dpos = dest v - len + 1 ->
  arraycopy run2 spos a dpos len = Ok a' ->
  (forall y x, y ∈ drop (m2 - k) (take m2 run2) -> x ∈ take m1 run1 ->
               le compareFn x y) ->
  hi_sorted m1 (m2 - k) a'.
Proof.
  intros Hcfg [Hm Hc] Hk -> -> Hd Hcopy Hle. unfold hi_sorted.
  pose proof Hcfg as (Hb1 & Hb2 & _ & Hc2 & _). rewrite Hc2 in Hcopy.
  replace (Z.of_nat m2 - 1 - Z.of_nat k + 1) with (Z.of_nat (m2 - k)) in Hcopy by lia.
  replace (length pre + m1 + (m2 - k))%nat with (length pre + m1 + m2 - k)%nat by lia.
  replace (length run1 - m1 + (length run2 - (m2 - k)))%nat
    with (k + ((length run1 - m1) + (length run2 - m2)))%nat by lia.
  rewrite (hi_sorted_copy m1 m2 k _ (m2 - k) v a run2 dpos a' Hcfg)
    by (done || lia).
  rewrite take_drop_commute. replace (m2 - k + k)%nat with m2 by lia.
  by apply (extend2_back run1 run2 order sorted2).
Qed.

Lemma hi_sorted_eq (m1 m2 m1' m2' : nat) (a : list T) :
  m1 = m1' -> m2 = m2' -> hi_sorted m1 m2 a -> hi_sorted m1' m2' a.
Proof. by intros -> ->. Qed.

Lemma hi_sorted_start :
  hi_sorted (length run1) (length run2) (pre ++ run1 ++ run2 ++ post).
Proof.
  split; [|apply cut_end]. unfold part.
  replace (length run1 - length run1 + (length run2 - length run2))%nat with 0%nat
    by lia.
  rewrite take_0. apply merge_of_nil_back.
Qed.

Lemma hi_straight_sorted (fuel : nat) :
  forall (m1 m2 : nat) (v : merge_vars) a rb rl ss tr,
    hi_config m1 m2 v a -> hi_sorted m1 m2 a ->
    (1 <= m1)%nat -> (2 <= m2)%nat -> (m1 + m2 < fuel)%nat ->
    exists k m1' m2' v' a' evs,
      mergeHi_straight compareFn fuel run2 v (mkState a rb rl ss tr)
      = Ok ((k, v'), mkState a' rb rl ss (tr ++ evs)) /\
      hi_config m1' m2' v' a' /\ hi_sorted m1' m2' a' /\
      (m1' + m2' < m1 + m2)%nat /\ (m1' <= m1)%nat /\ (m2' <= m2)%nat /\
      hi_exit k m1' m2'.
Proof.
  induction fuel as [|fuel IH]; intros m1 m2 v a rb rl ss tr Hcfg Hsrt H1 H2 Hfuel;
    [lia|].
  cbn [mergeHi_straight].
  destruct (hi_take1 pre run1 run2 post m1 m2 v a (count1 v + 1) 0 (minGallop v)
              Hcfg ltac:(lia) ltac:(lia))
    as (x & a1 & Hx & Hgx & Hsx & Hcfg1).
  destruct (hi_take2 pre run1 run2 post m1 m2 v a 0 (count2 v + 1) (minGallop v)
              Hcfg ltac:(lia))
    as (y & a2 & Hy & Hgy & Hsy & Hcfg2).
  rewrite (step_arr_get _ _ y) by done.
  rewrite (step_a_get _ x) by done.
  rewrite step_compare.
  destruct (Z.ltb_spec (compareFn y x) 0) as [Hlt|Hge].
  - assert (Hsrt1 : hi_sorted (m1 - 1) m2 a1).
    { apply (hsrt_take1 m1 m2 v a x a1 Hcfg Hsrt H1 Hx Hsx). intros y' Hy'.
      apply (cmp_le_lt_trans _ order y' y x); [|done].
      apply (last_le run2 (m2 - 1)); [done|done|done|].
      by replace (S (m2 - 1)) with m2 by lia. }
    rewrite !bind_assoc. rewrite (step_a_get _ x) by done.
    rewrite bind_assoc, (step_a_set _ _ a1) by done.
    cbv zeta. rewrite step_ret. cbn [len1 count1 count2 minGallop].
    assert (Hl1 : len1 v = Z.of_nat m1) by (apply Hcfg).
    destruct (Z.eqb_spec (len1 v - 1) 0).
    { exists BreakOuter, (m1 - 1)%nat, m2. do 2 eexists. exists [Compare y x].
      split; [reflexivity|]. split; [exact Hcfg1|]. split; [exact Hsrt1|].
      repeat split; try lia. left. lia. }
    destruct (JS.bor _ _ <? _).
    + destruct (IH (m1 - 1)%nat m2 _ a1 rb rl ss (tr ++ [Compare y x]) Hcfg1 Hsrt1)
        as (k & m1' & m2' & v' & a' & evs & Hrun & Hcfg' & Hsrt' & Hp & Hm1 & Hm2 & Hex);
        [lia|lia|lia|].
      exists k, m1', m2', v', a', (Compare y x :: evs).
      split; [rewrite Hrun; by rewrite <- app_assoc|].
      split; [done|]. split; [done|]. repeat split; try lia. done.
    + exists Fallthrough, (m1 - 1)%nat, m2. do 2 eexists. exists [Compare y x].
      split; [reflexivity|]. split; [exact Hcfg1|]. split; [exact Hsrt1|].
      repeat split; try lia.
  - assert (Hsrt2 : hi_sorted m1 (m2 - 1) a2).
    { apply (hsrt_take2 m1 m2 v a y a2 Hcfg Hsrt ltac:(lia) Hy Hsy). intros x' Hx'.
      apply (cmp_trans _ order x' x y); [|apply (cmp_flip _ order); lia].
      apply (last_le run1 (m1 - 1)); [done|done|done|].
      by replace (S (m1 - 1)) with m1 by lia. }
    rewrite !bind_assoc. rewrite (step_arr_get _ _ y) by done.
    rewrite bind_assoc, (step_a_set _ _ a2) by done.
    cbv zeta. rewrite step_ret. cbn [len2 count1 count2 minGallop].
    assert (Hl2 : len2 v = Z.of_nat m2) by (apply Hcfg).
    destruct (Z.eqb_spec (len2 v - 1) 1).
    { exists BreakOuter, m1, (m2 - 1)%nat. do 2 eexists. exists [Compare y x].
      split; [reflexivity|]. split; [exact Hcfg2|]. split; [exact Hsrt2|].
      repeat split; try lia. right. lia. }
    destruct (JS.bor _ _ <? _).
    + destruct (IH m1 (m2 - 1)%nat _ a2 rb rl ss (tr ++ [Compare y x]) Hcfg2 Hsrt2)
        as (k & m1' & m2' & v' & a' & evs & Hrun & Hcfg' & Hsrt' & Hp & Hm1 & Hm2 & Hex);
        [lia|lia|lia|].
      exists k, m1', m2', v', a', (Compare y x :: evs).
      split; [rewrite Hrun; by rewrite <- app_assoc|].
      split; [done|]. split; [done|]. repeat split; try lia. done.
    + exists Fallthrough, m1, (m2 - 1)%nat. do 2 eexists. exists [Compare y x].
      split; [reflexivity|]. split; [exact Hcfg2|]. split; [exact Hsrt2|].
      repeat split; try lia.
Qed.

Lemma hi_gallop_sorted (fuel : nat) :
  (length run1 < fuel)%nat -> (length run2 < fuel)%nat ->
  Z.of_nat (length run1) < 2 ^ 32 -> Z.of_nat (length run2) < 2 ^ 32 ->
  forall (n m1 m2 : nat) (v : merge_vars) a rb rl ss tr,
    hi_config m1 m2 v a -> hi_sorted m1 m2 a ->
    (1 <= m1)%nat -> (2 <= m2)%nat -> (m1 + m2 < n)%nat ->
    exists k m1' m2' v' a' evs,
      mergeHi_gallop compareFn fuel n run2 (Z.of_nat (length pre)) v
        (mkState a rb rl ss tr)
      = Ok ((k, v'), mkState a' rb rl ss (tr ++ evs)) /\
      hi_config m1' m2' v' a' /\ hi_sorted m1' m2' a' /\
      (m1' + m2' < m1 + m2)%nat /\ (m1' <= m1)%nat /\ (m2' <= m2)%nat /\
      hi_exit k m1' m2'.
Proof.
  intros Hfuel1 Hfuel2 Hsize1 Hsize2.
  induction n as [|n IH]; intros m1 m2 v a rb rl ss tr Hcfg Hsrt H1 H2 Hn; [lia|].
  cbn [mergeHi_gallop].
  (* the key from the second run, and how far down the first it reaches *)
  destruct (hi_take2 pre run1 run2 post m1 m2 v a 0 0 0 Hcfg ltac:(lia))
    as (y & _ & Hy & Hgy & _ & _).
  rewrite (step_arr_get _ _ y) by done. rewrite step_get_a.
  pose proof Hcfg as (Hb1 & Hb2 & Hc1 & Hc2 & Hd & Hl1 & Hl2 & gap & merged & Ha & Hg
                      & Hm & Hp).
  destruct (gallopRight_at compareFn y a pre (take m1 run1) (gap ++ merged ++ post) fuel
              (m1 - 1) (Z.of_nat (length pre)) (len1 v) (len1 v - 1)
              (mkState a rb rl ss tr))
    as (k1 & evs1 & Hk1 & Hrun1 & Hq1 & Hfun1).
  { done. }
  { done. }
  { rewrite length_take. lia. }
  { lia. }
  { rewrite length_take. lia. }
  { rewrite length_take. lia. }
  { rewrite length_take. lia. }
  rewrite length_take in Hk1. cbn [global_a runBase runLen stackSize trace] in Hrun1.
  rewrite (step_ok _ _ _ _ _ Hrun1). cbv zeta.
  cbn [cursor1 cursor2 dest len1 len2 count1 count2 minGallop].
  destruct (Hfun1 (monotone_right compareFn y _ order (ascending_take run1 m1 sorted1)))
    as [Hbefore Hafter].
  assert (Hlast2 : forall y', y' ∈ take m2 run2 -> le compareFn y' y).
  { intros y' Hy'. apply (last_le run2 (m2 - 1)); [done|done|done|].
    by replace (S (m2 - 1)) with m2 by lia. }
  assert (Hblock1 : forall x y', x ∈ drop k1 (take m1 run1) -> y' ∈ take m2 run2 ->
                                 compareFn y' x < 0).
  { intros x y' Hx Hy'. rewrite Forall_forall in Hafter.
    specialize (Hafter x Hx). apply negb_false_iff, Z.ltb_lt in Hafter.
    apply (cmp_le_lt_trans _ order y' y x); [by apply Hlast2|done]. }
  assert (Hkey : forall x, x ∈ take k1 run1 -> le compareFn x y).
  { intros x Hx. rewrite Forall_forall in Hbefore.
    rewrite take_take in Hbefore. replace (Nat.min k1 m1) with k1 in Hbefore by lia.
    specialize (Hbefore x Hx). apply negb_true_iff, Z.ltb_ge in Hbefore.
    by apply (cmp_flip _ order). }
  clear Hfun1 Hrun1 Hbefore Hafter gap merged Ha Hg Hm Hp.
  match goal with |- context [bind _ ?K _] => set (K1 := K) end.
  (* from the move of the key on *)
  assert (Hrest : forall (m : nat) v0 a0 tr0,
             hi_config m m2 v0 a0 -> hi_sorted m m2 a0 ->
             (forall x, x ∈ take m run1 -> le compareFn x y) ->
             (1 <= m)%nat -> (m <= m1)%nat ->
             exists k m1' m2' v' a' evs,
               K1 (Fallthrough, v0) (mkState a0 rb rl ss tr0)
               = Ok ((k, v'), mkState a' rb rl ss (tr0 ++ evs)) /\
               hi_config m1' m2' v' a' /\ hi_sorted m1' m2' a' /\
               (m1' + m2' < m + m2)%nat /\ (m1' <= m)%nat /\ (m2' <= m2)%nat /\
               hi_exit k m1' m2').
  { intros m v0 a0 tr0 Hcfg0 Hsrt0 Hkey0 Hm Hmm. subst K1. cbv beta iota.
    destruct (hi_take2 pre run1 run2 post m m2 v0 a0 (count1 v0) (count2 v0)
                (minGallop v0) Hcfg0 ltac:(lia))
      as (y' & a5 & Hy' & Hgy' & Hsy' & Hcfg5).
    assert (y' = y) as -> by congruence.
    assert (Hsrt5 : hi_sorted m (m2 - 1) a5)
      by (apply (hsrt_take2 m m2 v0 a0 y a5); [done|done|lia|done|done|done]).
    rewrite (step_arr_get _ _ y) by done.
    rewrite (step_a_set _ _ a5) by done. cbv zeta.
    pose proof Hcfg0 as (_ & _ & _ & _ & _ & _ & Hl20 & _).
    destruct (Z.eqb_spec (len2 v0 - 1) 1).
    { exists BreakOuter, m, (m2 - 1)%nat. do 2 eexists. exists [].
      rewrite app_nil_r. split; [reflexivity|]. split; [exact Hcfg5|].
      split; [exact Hsrt5|]. repeat split; try lia. right. lia. }
    destruct (hi_take1 pre run1 run2 post m (m2 - 1) _ a5 (count1 v0) (count2 v0)
                (minGallop v0) Hcfg5 ltac:(lia) ltac:(lia))
      as (x & _ & Hx & Hgx & _ & _).
    cbn [cursor1] in Hgx.
    rewrite (step_a_get _ x) by done.
    cbn [cursor1 cursor2 dest len1 len2 count1 count2 minGallop].
    destruct (gallopLeft_at compareFn x run2 [] (take (m2 - 1) run2)
                (drop (m2 - 1) run2) fuel
                (m2 - 2) 0 (len2 v0 - 1) (len2 v0 - 1 - 1) (mkState a5 rb rl ss tr0))
      as (k2 & evs2 & Hk2 & Hrun2 & Hq2 & Hfun2).
    { by rewrite app_nil_l, take_drop. }
    { done. }
    { rewrite length_take. lia. }
    { lia. }
    { rewrite length_take. lia. }
    { rewrite length_take. lia. }
    { rewrite length_take. lia. }
    rewrite length_take in Hk2.
    cbn [global_a runBase runLen stackSize trace] in Hrun2.
    rewrite (step_ok _ _ _ _ _ Hrun2). cbv zeta.
    cbn [cursor1 cursor2 dest len1 len2 count1 count2 minGallop].
    destruct (Hfun2 (monotone_left compareFn x _ order
                       (ascending_take run2 (m2 - 1) sorted2)))
      as [Hbefore2 Hafter2].
    assert (Hlast1 : forall x', x' ∈ take m run1 -> le compareFn x' x).
    { intros x' Hx'. apply (last_le run1 (m - 1)); [done|done|done|].
      by replace (S (m - 1)) with m by lia. }
    assert (Hblock2 : forall y' x', y' ∈ drop k2 (take (m2 - 1) run2) ->
                                    x' ∈ take m run1 -> le compareFn x' y').
    { intros y' x' Hy'' Hx'. rewrite Forall_forall in Hafter2.
      specialize (Hafter2 y' Hy''). apply Z.ltb_ge in Hafter2.
      apply (cmp_trans _ order x' x y'); [by apply Hlast1|done]. }
    assert (Hkey2 : forall y', y' ∈ take k2 run2 -> compareFn y' x < 0).
    { intros y' Hy''. rewrite Forall_forall in Hbefore2.
      rewrite take_take in Hbefore2.
      replace (Nat.min k2 (m2 - 1)) with k2 in Hbefore2 by lia.
      specialize (Hbefore2 y' Hy''). apply Z.ltb_lt in Hbefore2.
      by apply (cmp_antisym _ order). }
    clear Hrun2 Hfun2 Hbefore2 Hafter2.
    match goal with |- context [bind _ ?K _] => set (K2 := K) end.
    (* from the move of the element of the first run on *)
    assert (Hrest2 : forall (m' : nat) v1 a1,
               hi_config m m' v1 a1 -> hi_sorted m m' a1 ->
               (forall y', y' ∈ take m' run2 -> compareFn y' x < 0) ->
               (2 <= m' <= m2 - 1)%nat ->
               exists k m1' m2' v' a' evs,
                 K2 (Fallthrough, v1)
                    (mkState a1 rb rl ss (tr0 ++ Log gallop_left_msg :: evs2))
                 = Ok ((k, v'), mkState a' rb rl ss
                                  ((tr0 ++ Log gallop_left_msg :: evs2) ++ evs)) /\
                 hi_config m1' m2' v' a' /\ hi_sorted m1' m2' a' /\
                 (m1' + m2' < m + m')%nat /\ (m1' <= m)%nat /\ (m2' <= m')%nat /\
                 hi_exit k m1' m2').
    { intros m' v1 a1 Hcfg1 Hsrt1 Hkey1 Hm'. subst K2. cbv beta iota.
      destruct (hi_take1 pre run1 run2 post m m' v1 a1 (count1 v1) (count2 v1)
                  (minGallop v1) Hcfg1 ltac:(lia) ltac:(lia))
        as (x1 & a8 & Hx1 & Hgx1 & Hsx1 & Hcfg8).
      assert (x1 = x) as -> by congruence.
      assert (Hsrt8 : hi_sorted (m - 1) m' a8)
        by (apply (hsrt_take1 m m' v1 a1 x a8); [done|done|lia|done|done|done]).
      rewrite (step_a_get _ x) by done.
      rewrite (step_a_set _ _ a8) by done. cbv zeta.
      pose proof Hcfg1 as (_ & _ & _ & _ & _ & Hl11 & _).
      destruct (Z.eqb_spec (len1 v1 - 1) 0).
      { exists BreakOuter, (m - 1)%nat, m'. do 2 eexists. exists [].
        rewrite app_nil_r. split; [reflexivity|]. split; [exact Hcfg8|].
        split; [exact Hsrt8|]. repeat split; try lia. left. lia. }
      rewrite step_emit.
      cbn [cursor1 cursor2 dest len1 len2 count1 count2 minGallop].
      set (v9 := mkVars _ _ _ _ _ _ _ (minGallop v1 - 1)).
      assert (Hcfg9 : hi_config (m - 1) m' v9 a8) by exact Hcfg8.
      destruct (_ || _).
      - destruct (IH (m - 1)%nat m' v9 a8 rb rl ss
                    ((tr0 ++ Log gallop_left_msg :: evs2)
                       ++ [MinGallop GDecrement (minGallop v1 - 1)]) Hcfg9 Hsrt8)
          as (k & m1' & m2' & v' & a' & evs & Hrun & Hcfg' & Hsrt' & Hp & Hm1 & Hm2
              & Hex);
          [lia|lia|lia|].
        exists k, m1', m2', v', a', (MinGallop GDecrement (minGallop v1 - 1) :: evs).
        split; [rewrite Hrun; by rewrite <- !app_assoc|].
        split; [done|]. split; [done|]. repeat split; try lia. done.
      - exists Fallthrough, (m - 1)%nat, m', v9, a8,
          [MinGallop GDecrement (minGallop v1 - 1)].
        split; [reflexivity|]. split; [done|]. split; [done|].
        repeat split; try lia. }
    (* the block of the second run *)
    destruct (Z.eqb_spec (len2 v0 - 1 - Z.of_nat k2) 0) as [Hz|Hnz]; cbn [negb].
    - rewrite step_ret.
      match goal with |- context [K2 (Fallthrough, ?vv) _] =>
        destruct (Hrest2 (m2 - 1)%nat vv a5 Hcfg5 Hsrt5)
          as (k & m1' & m2' & v' & a' & evs & Hrun & Hcfg' & Hsrt' & Hp & Hm1 & Hm2
              & Hex)
      end.
      { intros y' Hy''. apply Hkey2. by replace k2 with (m2 - 1)%nat by lia. }
      { lia. }
      exists k, m1', m2', v', a', ((Log gallop_left_msg :: evs2) ++ evs).
      split; [rewrite Hrun; by rewrite <- !app_assoc|].
      split; [done|]. split; [done|]. repeat split; try lia. done.
    - match goal with |- context [a_arraycopy_from _ ?sp ?dp ?ln] =>
        destruct (hi_copy2 pre run1 run2 post m (m2 - 1) (m2 - 1 - k2) _ a5 sp dp ln
                    Hcfg5)
          as (a7 & Hcopy & Hcfg7);
          [lia
          |cbn [cursor1 cursor2 dest len1 len2]; lia
          |cbn [cursor1 cursor2 dest len1 len2]; lia
          |cbn [cursor1 cursor2 dest len1 len2]; lia|];
        assert (Hsrt7 : hi_sorted m (m2 - 1 - (m2 - 1 - k2)) a7)
          by (apply (hsrt_copy2 m (m2 - 1) (m2 - 1 - k2) _ a5 sp dp ln a7 Hcfg5 Hsrt5);
              [lia
              |cbn [cursor1 cursor2 dest len1 len2]; lia
              |cbn [cursor1 cursor2 dest len1 len2]; lia
              |cbn [cursor1 cursor2 dest len1 len2]; lia
              |done
              |by replace (m2 - 1 - (m2 - 1 - k2))%nat with k2 by lia])
      end.
      rewrite bind_assoc, (step_a_arraycopy_from _ _ _ _ a7) by done.
      rewrite step_ret.
      match goal with |- context [K2 (_, ?vv) _] =>
        pose proof (Hcfg7 vv eq_refl eq_refl eq_refl eq_refl eq_refl) as Hcfg7'
      end.
      destruct (Z.leb_spec (len2 v0 - 1 - (len2 v0 - 1 - Z.of_nat k2)) 1).
      + subst K2. cbv beta iota.
        exists BreakOuter, m, (m2 - 1 - (m2 - 1 - k2))%nat. do 2 eexists.
        exists (Log gallop_left_msg :: evs2).
        split; [reflexivity|]. split; [exact Hcfg7'|]. split; [exact Hsrt7|].
        repeat split; try lia. right. lia.
      + match goal with |- context [K2 (Fallthrough, ?vv) _] =>
          destruct (Hrest2 (m2 - 1 - (m2 - 1 - k2))%nat vv a7 Hcfg7' Hsrt7)
            as (k & m1' & m2' & v' & a' & evs & Hrun & Hcfg' & Hsrt' & Hp & Hm1 & Hm2
                & Hex)
        end.
        { by replace (m2 - 1 - (m2 - 1 - k2))%nat with k2 by lia. }
        { lia. }
        exists k, m1', m2', v', a', ((Log gallop_left_msg :: evs2) ++ evs).
        split; [rewrite Hrun; by rewrite <- !app_assoc|].
        split; [done|]. split; [done|]. repeat split; try lia. done. }
  (* the block of the first run *)
  destruct (Z.eqb_spec (len1 v - Z.of_nat k1) 0) as [Hz|Hnz]; cbn [negb].
  - rewrite step_ret.
    match goal with |- context [K1 (Fallthrough, ?vv) _] =>
      destruct (Hrest m1 vv a (tr ++ Log gallop_right_msg :: evs1) Hcfg Hsrt)
        as (k & m1' & m2' & v' & a' & evs & Hrun & Hcfg' & Hsrt' & Hp & Hm1 & Hm2 & Hex)
    end.
    { intros x Hx. apply Hkey. by replace k1 with m1 by lia. }
    { lia. }
    { lia. }
    exists k, m1', m2', v', a', ((Log gallop_right_msg :: evs1) ++ evs).
    split; [rewrite Hrun; by rewrite <- !app_assoc|].
    split; [done|]. split; [done|]. repeat split; try lia. done.
  - match goal with |- context [a_arraycopy ?sp ?dp ?ln] =>
      destruct (hi_copy1 pre run1 run2 post m1 m2 (m1 - k1) v a sp dp ln Hcfg)
        as (a4 & Hcopy & Hcfg4);
        [lia
        |cbn [cursor1 cursor2 dest len1 len2]; lia
        |cbn [cursor1 cursor2 dest len1 len2]; lia
        |cbn [cursor1 cursor2 dest len1 len2]; lia|];
      assert (Hsrt4 : hi_sorted (m1 - (m1 - k1)) m2 a4)
        by (apply (hsrt_copy1 m1 m2 (m1 - k1) v a sp dp ln a4 Hcfg Hsrt);
            [lia
            |cbn [cursor1 cursor2 dest len1 len2]; lia
            |cbn [cursor1 cursor2 dest len1 len2]; lia
            |cbn [cursor1 cursor2 dest len1 len2]; lia
            |done
            |by replace (m1 - (m1 - k1))%nat with k1 by lia])
    end.
    rewrite bind_assoc, (step_a_arraycopy _ _ _ a4) by done.
    rewrite step_ret.
    match goal with |- context [K1 (_, ?vv) _] =>
      pose proof (Hcfg4 vv eq_refl eq_refl eq_refl eq_refl eq_refl) as Hcfg4'
    end.
    destruct (Z.eqb_spec (len1 v - (len1 v - Z.of_nat k1)) 0).
    + subst K1. cbv beta iota.
      exists BreakOuter, (m1 - (m1 - k1))%nat, m2. do 2 eexists.
      exists (Log gallop_right_msg :: evs1).
      split; [reflexivity|]. split; [exact Hcfg4'|]. split; [exact Hsrt4|].
      repeat split; try lia. left. lia.
    + match goal with |- context [K1 (Fallthrough, ?vv) _] =>
        destruct (Hrest (m1 - (m1 - k1))%nat vv a4 (tr ++ Log gallop_right_msg :: evs1)
                    Hcfg4' Hsrt4)
          as (k & m1' & m2' & v' & a' & evs & Hrun & Hcfg' & Hsrt' & Hp & Hm1 & Hm2
              & Hex)
      end.
      { by replace (m1 - (m1 - k1))%nat with k1 by lia. }
      { lia. }
      { lia. }
      exists k, m1', m2', v', a', ((Log gallop_right_msg :: evs1) ++ evs).
      split; [rewrite Hrun; by rewrite <- !app_assoc|].
      split; [done|]. split; [done|]. repeat split; try lia. done.
Qed.

Lemma hi_outer_sorted (fuel : nat) :
  (length run1 + length run2 < fuel)%nat ->
  Z.of_nat (length run1) < 2 ^ 32 -> Z.of_nat (length run2) < 2 ^ 32 ->
  forall (n m1 m2 : nat) (v : merge_vars) a rb rl ss tr,
    hi_config m1 m2 v a -> hi_sorted m1 m2 a ->
    (1 <= m1)%nat -> (2 <= m2)%nat -> (m1 + m2 < n)%nat ->
    exists m1' m2' v' a' evs,
      mergeHi_outer compareFn fuel n run2 (Z.of_nat (length pre)) v
        (mkState a rb rl ss tr)
      = Ok (v', mkState a' rb rl ss (tr ++ evs)) /\
      hi_config m1' m2' v' a' /\ hi_sorted m1' m2' a' /\
      hi_exit BreakOuter m1' m2'.
Proof.
  intros Hfuel Hsize1 Hsize2.
  induction n as [|n IH]; intros m1 m2 v a rb rl ss tr Hcfg Hsrt H1 H2 Hn; [lia|].
  pose proof Hcfg as (Hb1 & Hb2 & _).
  cbn [mergeHi_outer]. cbv zeta.
  match goal with |- context [mergeHi_straight _ _ _ ?vv] => set (v0 := vv) end.
  destruct (hi_straight_sorted fuel m1 m2 v0 a rb rl ss tr Hcfg Hsrt H1 H2 ltac:(lia))
    as (k & m1s & m2s & vs & a_s & evs_s & Hrun_s & Hcfg_s & Hsrt_s & Hp_s & Hm1 & Hm2
        & Hex_s).
  rewrite (step_ok _ _ _ _ _ Hrun_s). cbv beta iota.
  destruct k.
  2:{ exists m1s, m2s, vs, a_s, evs_s. split; [reflexivity|]. done. }
  cbn [hi_exit] in Hex_s.
  destruct (hi_gallop_sorted fuel ltac:(lia) ltac:(lia) Hsize1 Hsize2
              fuel m1s m2s vs a_s rb rl ss (tr ++ evs_s) Hcfg_s Hsrt_s)
    as (k & m1g & m2g & vg & a_g & evs_g & Hrun_g & Hcfg_g & Hsrt_g & Hp_g & Hm1g & Hm2g
        & Hex_g); [lia|lia|lia|].
  rewrite (step_ok _ _ _ _ _ Hrun_g). cbv beta iota.
  destruct k.
  2:{ exists m1g, m2g, vg, a_g, (evs_s ++ evs_g).
      split; [unfold ret; by rewrite <- app_assoc|]. done. }
  cbn [hi_exit] in Hex_g.
  rewrite step_emit. cbn [minGallop].
  match goal with |- context [mergeHi_outer _ _ _ _ _ ?vv] => set (vp := vv) end.
  destruct (IH m1g m2g vp a_g rb rl ss
              (((tr ++ evs_s) ++ evs_g) ++ [MinGallop GPenalty (leave_gallop (minGallop vg))])
              Hcfg_g Hsrt_g)
    as (m1' & m2' & v' & a' & evs & Hrun & Hcfg' & Hsrt' & Hex); [lia|lia|lia|].
  exists m1', m2', v', a',
    ((evs_s ++ evs_g) ++ MinGallop GPenalty (leave_gallop (minGallop vg)) :: evs).
  split.
  { rewrite Hrun. do 3 f_equal. rewrite <- !app_assoc. done. }
  done.
Qed.

(** The range of the two runs holds their stable merge. *)
Definition hi_merged_sorted (a' : list T) : Prop :=
  exists merged,
    a' = pre ++ merged ++ post /\
    ascending compareFn merged /\ stable compareFn (run1 ++ run2) merged /\
    merged ≡ₚ run1 ++ run2.

Lemma hi_sorted_done (v : merge_vars) (a : list T) :
  hi_config 0 0 v a -> hi_sorted 0 0 a -> hi_merged_sorted a.
Proof.
  intros Hcfg [Hm _].
  destruct (hi_config_done pre run1 run2 post v a Hcfg) as (merged & -> & Hperm).
  exists merged. split; [done|]. apply merge_of_done_back.
  assert (Hlen : length merged = (length run1 + length run2)%nat).
  { rewrite Hperm. by rewrite length_app. }
  unfold part in Hm.
  replace (length pre + 0 + 0)%nat with (length pre) in Hm by lia.
  rewrite !Nat.sub_0_r in Hm.
  rewrite drop_app_length in Hm.
  rewrite <- Hlen in Hm. by rewrite take_app_length in Hm.
Qed.

Hypothesis head_below :
  forall y0 x0, head run2 = Some y0 -> head run1 = Some x0 -> compareFn y0 x0 < 0.

Lemma head_below_all (x y : T) :
  y ∈ take 1 run2 -> x ∈ run1 -> compareFn y x < 0.
Proof.
  intros Hy Hx.
  destruct run2 as [|y0 r2]; [by apply elem_of_nil in Hy|].
  cbn [take] in Hy. rewrite take_0 in Hy.
  apply list_elem_of_singleton in Hy as ->.
  destruct run1 as [|x0 r1] eqn:E; [by apply elem_of_nil in Hx|].
  apply (cmp_lt_le_trans _ order y0 x0 x); [by apply head_below|].
  apply (head_le (x0 :: r1) 0); [done|done|done|by rewrite drop_0].
Qed.

Lemma nothing_taken (run : list T) (P : T -> Prop) :
  forall x, x ∈ take 0 run -> P x.
Proof. intros x Hx. rewrite take_0 in Hx. by apply elem_of_nil in Hx. Qed.

Lemma hi_end_sorted (m1 m2 : nat) (v : merge_vars) a rb rl ss tr :
  hi_config m1 m2 v a -> hi_sorted m1 m2 a ->
  hi_exit BreakOuter m1 m2 -> (1 <= m2)%nat ->
  exists a' evs,
    mergeHi_end run2 v (mkState a rb rl ss tr)
    = Ok (tt, mkState a' rb rl ss (tr ++ evs)) /\
    hi_merged_sorted a'.
Proof.
  intros Hcfg Hsrt Hex Hpos.
  pose proof Hcfg as (Hb1 & Hb2 & Hc1 & Hc2 & Hd & Hl1 & Hl2 & _).
  cbn [hi_exit] in Hex.
  destruct v as [cu1 cu2 de l1 l2 n1 n2 mg].
  cbn [cursor1 cursor2 dest len1 len2 minGallop] in *.
  unfold mergeHi_end. rewrite step_emit. cbv zeta.
  destruct (Z.eqb_spec l2 1).
  - (* one element of the second run left *)
    destruct (hi_copy1 pre run1 run2 post m1 m2 m1 _ a (cu1 - l1 + 1) (de - l1 + 1) l1
                Hcfg)
      as (a1 & Hcopy & Hcfg1);
      [lia|done|cbn [cursor1]; lia|cbn [dest]; lia|].
    assert (Hsrt1 : hi_sorted (m1 - m1) m2 a1).
    { apply (hsrt_copy1 m1 m2 m1 _ a (cu1 - l1 + 1) (de - l1 + 1) l1 a1 Hcfg Hsrt);
        [lia|done|cbn [cursor1]; lia|cbn [dest]; lia|done|].
      intros x y Hx Hy. apply head_below_all.
      - by replace m2 with 1%nat in Hy by lia.
      - by apply in_drop, in_take in Hx. }
    cbn [cursor1 cursor2 dest len1 len2] in Hcfg1.
    rewrite (step_a_arraycopy _ _ _ a1) by done.
    specialize (Hcfg1 (mkVars (cu1 - l1) cu2 (de - l1) (l1 - l1) l2 n1 n2 mg)
                  eq_refl eq_refl eq_refl eq_refl eq_refl).
    destruct (hi_take2 pre run1 run2 post _ _ _ a1 n1 n2 mg Hcfg1 ltac:(lia))
      as (y & a2 & Hy & Hgy & Hsy & Hcfg2).
    assert (Hsrt2 : hi_sorted (m1 - m1) (m2 - 1) a2).
    { apply (hsrt_take2 _ _ _ a1 y a2 Hcfg1 Hsrt1 ltac:(lia) Hy Hsy).
      replace (m1 - m1)%nat with 0%nat by lia. apply nothing_taken. }
    cbn [cursor1 cursor2 dest len1 len2] in Hgy, Hsy, Hcfg2.
    rewrite (step_arr_get _ _ y) by done.
    exists a2. eexists. split; [by apply run_a_set|].
    eapply hi_sorted_done.
    + eapply hi_config_eq; [| |exact Hcfg2]; lia.
    + eapply hi_sorted_eq; [| |exact Hsrt2]; lia.
  - destruct (Z.eqb_spec l2 0); [lia|].
    (* the first run is used up *)
    destruct (hi_copy2 pre run1 run2 post m1 m2 m2 _ a 0 (de - (l2 - 1)) l2 Hcfg)
      as (a1 & Hcopy & Hcfg1);
      [lia|done|cbn [cursor2]; lia|cbn [dest]; lia|].
    assert (Hsrt1 : hi_sorted m1 (m2 - m2) a1).
    { apply (hsrt_copy2 m1 m2 m2 _ a 0 (de - (l2 - 1)) l2 a1 Hcfg Hsrt);
        [lia|done|cbn [cursor2]; lia|cbn [dest]; lia|done|].
      intros y x Hy. revert x. replace m1 with 0%nat by lia. apply nothing_taken. }
    cbn [cursor1 cursor2 dest len1 len2] in Hcfg1.
    specialize (Hcfg1 (mkVars cu1 (cu2 - l2) (de - l2) l1 (l2 - l2) n1 n2 mg)
                  eq_refl eq_refl eq_refl eq_refl eq_refl).
    exists a1. eexists. split; [by apply run_a_arraycopy_from|].
    eapply hi_sorted_done.
    + eapply hi_config_eq; [| |exact Hcfg1]; lia.
    + eapply hi_sorted_eq; [| |exact Hsrt1]; lia.
Qed.

Hypothesis last_above :
  forall z y, last run1 = Some z -> y ∈ run2 -> compareFn y z < 0.

Lemma mergeHi_sorted (fuel : nat) rb rl ss tr :
  (1 <= length run1)%nat -> (1 <= length run2)%nat ->
  (length run1 + length run2 < fuel)%nat ->
  Z.of_nat (length run1) < 2 ^ 32 -> Z.of_nat (length run2) < 2 ^ 32 ->
  let call := mergeHi compareFn fuel
                (Z.of_nat (length pre)) (Z.of_nat (length run1))
                (Z.of_nat (length pre + length run1)) (Z.of_nat (length run2))
                (mkState (pre ++ run1 ++ run2 ++ post) rb rl ss tr) in
  call = Throw contract_violation
  \/ exists a' evs,
      call = Ok (tt, mkState a' rb rl ss (tr ++ evs)) /\ hi_merged_sorted a'.
Proof.
  intros Hn1 Hn2 Hfuel Hsize1 Hsize2. cbv zeta. unfold mergeHi.
  rewrite step_log, step_get_a. cbv zeta.
  assert (Hslice : JS.slice (pre ++ run1 ++ run2 ++ post)
                     (Z.of_nat (length pre + length run1))
                     (Z.of_nat (length pre + length run1) + Z.of_nat (length run2))
                   = run2).
  { rewrite (app_assoc pre run1).
    apply (js_slice_middle (pre ++ run1) run2 post);
      [rewrite length_app; lia|done]. }
  rewrite Hslice.
  destruct (hi_take1 pre run1 run2 post _ _ _ _ 0 0 MIN_GALLOP
              (hi_config_start pre run1 run2 post) ltac:(lia) ltac:(lia))
    as (x & a1 & Hx & Hgx & Hsx & Hcfg1).
  assert (Hsrt1 : hi_sorted (length run1 - 1) (length run2) a1).
  { apply (hsrt_take1 _ _ _ _ x a1 (hi_config_start pre run1 run2 post)
             hi_sorted_start Hn1 Hx Hsx).
    intros y Hy. rewrite firstn_all in Hy. apply last_above; [|done].
    rewrite last_lookup. rewrite <- Hx. f_equal. lia. }
  cbn [cursor1 cursor2 dest len1 len2] in Hgx, Hsx, Hcfg1.
  rewrite (step_a_get _ x) by done.
  rewrite (step_a_set _ _ a1) by done.
  destruct (Z.eqb_spec (Z.of_nat (length run1) - 1) 0).
  { (* the first run had one element *)
    right.
    match goal with |- context [a_arraycopy_from _ ?sp ?dp ?ln] =>
      destruct (hi_copy2 pre run1 run2 post _ _ (length run2) _ a1 sp dp ln Hcfg1)
        as (a2 & Hcopy & Hcfg2);
        [lia|done
        |cbn [cursor1 cursor2 dest len1 len2]; lia
        |cbn [cursor1 cursor2 dest len1 len2]; lia|];
      assert (Hsrt2 : hi_sorted (length run1 - 1) (length run2 - length run2) a2)
        by (apply (hsrt_copy2 _ _ (length run2) _ a1 sp dp ln a2 Hcfg1 Hsrt1);
            [lia|done
            |cbn [cursor1 cursor2 dest len1 len2]; lia
            |cbn [cursor1 cursor2 dest len1 len2]; lia
            |done
            |intros y0 x0 Hy0; revert x0;
             replace (length run1 - 1)%nat with 0%nat by lia; apply nothing_taken])
    end.
    exists a2, [Log "entering merge hi"]. split; [by apply run_a_arraycopy_from|].
    hi_pick Hcfg2.
    eapply hi_sorted_done.
    + eapply hi_config_eq; [| |exact Hcfg2]; lia.
    + eapply hi_sorted_eq; [| |exact Hsrt2]; lia. }
  destruct (Z.eqb_spec (Z.of_nat (length run2)) 1).
  { (* the second run had one element *)
    right.
    match goal with |- context [a_arraycopy ?sp ?dp ?ln] =>
      destruct (hi_copy1 pre run1 run2 post _ _ (length run1 - 1) _ a1 sp dp ln Hcfg1)
        as (a2 & Hcopy & Hcfg2);
        [lia
        |cbn [cursor1 cursor2 dest len1 len2]; lia
        |cbn [cursor1 cursor2 dest len1 len2]; lia
        |cbn [cursor1 cursor2 dest len1 len2]; lia|];
      assert (Hsrt2 : hi_sorted (length run1 - 1 - (length run1 - 1)) (length run2) a2)
        by (apply (hsrt_copy1 _ _ (length run1 - 1) _ a1 sp dp ln a2 Hcfg1 Hsrt1);
            [lia
            |cbn [cursor1 cursor2 dest len1 len2]; lia
            |cbn [cursor1 cursor2 dest len1 len2]; lia
            |cbn [cursor1 cursor2 dest len1 len2]; lia
            |done
            |intros x0 y0 Hx0 Hy0; apply head_below_all;
             [by replace (length run2) with 1%nat in Hy0 by lia
             |by apply in_drop, in_take in Hx0]])
    end.
    rewrite (step_a_arraycopy _ _ _ a2) by done.
    hi_pick Hcfg2.
    destruct (hi_take2 pre run1 run2 post _ _ _ a2 0 0 0 Hcfg2 ltac:(lia))
      as (y & a3 & Hy & Hgy & Hsy & Hcfg3).
    assert (Hsrt3 : hi_sorted (length run1 - 1 - (length run1 - 1)) (length run2 - 1) a3).
    { apply (hsrt_take2 _ _ _ a2 y a3 Hcfg2 Hsrt2 ltac:(lia) Hy Hsy).
      replace (length run1 - 1 - (length run1 - 1))%nat with 0%nat by lia.
      apply nothing_taken. }
    cbn [cursor1 cursor2 dest len1 len2] in Hgy, Hsy, Hcfg3.
    rewrite (step_arr_get _ _ y) by done.
    exists a3, [Log "entering merge hi"]. split; [by apply run_a_set|].
    eapply hi_sorted_done.
    + eapply hi_config_eq; [| |exact Hcfg3]; lia.
    + eapply hi_sorted_eq; [| |exact Hsrt3]; lia. }
  rewrite step_emit.
  destruct (hi_outer_sorted fuel Hfuel Hsize1 Hsize2 fuel _ _ _ a1 rb rl ss
              ((tr ++ [Log "entering merge hi"]) ++ [MinGallop GInit MIN_GALLOP])
              Hcfg1 Hsrt1)
    as (m1' & m2' & v' & a' & evs & Hrun & Hcfg' & Hsrt' & Hex); [lia|lia|lia|].
  rewrite (step_ok _ _ _ _ _ Hrun).
  destruct (decide (m2' = 0%nat)) as [Heq|Hneq].
  - left. apply hi_end_throws. split; [|done].
    destruct Hcfg' as (_ & _ & _ & _ & _ & _ & Hl2 & _). lia.
  - right.
    destruct (hi_end_sorted m1' m2' v' a' rb rl ss
                (((tr ++ [Log "entering merge hi"]) ++ [MinGallop GInit MIN_GALLOP])
                   ++ evs) Hcfg' Hsrt' Hex ltac:(lia))
      as (a'' & evs' & Hend & Hres).
    exists a''. eexists. split; [|done].
    rewrite Hend. do 3 f_equal. rewrite <- !app_assoc. done.
Qed.

End HiSorted.

Lemma mergeHi_stable_merge (pre run1 run2 post : list T) (fuel : nat) rb rl ss tr :
  TotalOrder compareFn ->
  ascending compareFn run1 -> ascending compareFn run2 ->
  (forall y0 x0, head run2 = Some y0 -> head run1 = Some x0 -> compareFn y0 x0 < 0) ->
  (forall z y, last run1 = Some z -> y ∈ run2 -> compareFn y z < 0) ->
  (1 <= length run1)%nat -> (1 <= length run2)%nat ->
  (length run1 + length run2 < fuel)%nat ->
  Z.of_nat (length run1) < 2 ^ 32 -> Z.of_nat (length run2) < 2 ^ 32 ->
  exists merged evs,
    mergeHi compareFn fuel
      (Z.of_nat (length pre)) (Z.of_nat (length run1))
      (Z.of_nat (length pre + length run1)) (Z.of_nat (length run2))
      (mkState (pre ++ run1 ++ run2 ++ post) rb rl ss tr)
    = Ok (tt, mkState (pre ++ merged ++ post) rb rl ss (tr ++ evs)) /\
    ascending compareFn merged /\
    stable compareFn (run1 ++ run2) merged /\
    merged ≡ₚ run1 ++ run2.
Proof.
  intros Hord Hs1 Hs2 Hhead Hlast Hn1 Hn2 Hfuel Hsize1 Hsize2.
  destruct (mergeHi_sorted pre run1 run2 post Hord Hs1 Hs2 Hhead Hlast fuel rb rl ss tr
              Hn1 Hn2 Hfuel Hsize1 Hsize2)
    as [Hthrow|(a' & evs & Hrun & merged & -> & Hres)].
  - destruct (mergeHi_spec compareFn pre run1 run2 post fuel rb rl ss tr
                Hn1 Hn2 Hfuel Hsize1 Hsize2) as [[_ Hno]|(a' & evs & Hrun & _)].
    + destruct Hno. split; [done|]. split; [done|].
      intros z x Hz Hx.
      destruct run1 as [|x0 r1] eqn:E; [by apply elem_of_nil in Hx|].
      apply (cmp_lt_le_trans _ Hord z x0 x); [by apply Hhead|].
      apply (head_le (x0 :: r1) 0); [done|done|done|by rewrite drop_0].
    + cbv zeta in Hthrow, Hrun. congruence.
  - by exists merged, evs.
Qed.

(** [mergeHi] on two adjacent runs that are non-decreasing under a
    consistent total order, the first starting above the head of the
    second and ending above all of it (what [mergeAt] leaves of the two
    runs): the call returns, the range of the two runs is non-decreasing
    and holds the elements of both, equal ones in the order they had,
    those of the first run before those of the second, and the array
    outside the range is as it was. *)
Theorem mergeHi_merges (pre run1 run2 post : list T) (fuel : nat) rb rl ss tr :
  TotalOrder compareFn ->
  ascending compareFn run1 -> ascending compareFn run2 ->
  (forall y0 x0, head run2 = Some y0 -> head run1 = Some x0 -> compareFn y0 x0 < 0) ->
  (forall z y, last run1 = Some z -> y ∈ run2 -> compareFn y z < 0) ->
  (1 <= length run1)%nat -> (1 <= length run2)%nat ->
  (length run1 + length run2 < fuel)%nat ->
  Z.of_nat (length run1) < 2 ^ 32 -> Z.of_nat (length run2) < 2 ^ 32 ->
  exists merged evs,
    mergeHi compareFn fuel
      (Z.of_nat (length pre)) (Z.of_nat (length run1))
      (Z.of_nat (length pre + length run1)) (Z.of_nat (length run2))
      (mkState (pre ++ run1 ++ run2 ++ post) rb rl ss tr)
    = Ok (tt, mkState (pre ++ merged ++ post) rb rl ss (tr ++ evs)) /\
    ascending compareFn merged /\
    stable compareFn (run1 ++ run2) merged /\
    merged ≡ₚ run1 ++ run2.
Proof.
  intros Hord Hs1 Hs2 Hhead Hlast Hn1 Hn2 Hfuel Hsize1 Hsize2.
  destruct (mergeHi_sorted pre run1 run2 post Hord Hs1 Hs2 Hhead Hlast fuel rb rl ss tr
              Hn1 Hn2 Hfuel Hsize1 Hsize2)
    as [Hthrow|(a' & evs & Hrun & merged & -> & Hres)].
  - destruct (mergeHi_spec compareFn pre run1 run2 post fuel rb rl ss tr
                Hn1 Hn2 Hfuel Hsize1 Hsize2) as [[_ Hno]|(a' & evs & Hrun & _)].
    + destruct Hno. split; [done|]. split; [done|].
      intros z x Hz Hx.
      destruct run1 as [|x0 r1] eqn:E; [by apply elem_of_nil in Hx|].
      apply (cmp_lt_le_trans _ Hord z x0 x); [by apply Hhead|].
      apply (head_le (x0 :: r1) 0); [done|done|done|by rewrite drop_0].
    + cbv zeta in Hthrow, Hrun. congruence.
  - by exists merged, evs.
Qed.


(** ** The one stable sorted arrangement *)

Lemma first_is_least (x : T) (l : list T) (y : T) :
  TotalOrder compareFn -> ascending compareFn (x :: l) -> y ∈ x :: l ->
  le compareFn x y.
Proof.
  intros Hord Hasc Hy. apply elem_of_cons in Hy as [->|Hy].
  - unfold le. rewrite (cmp_refl _ Hord). lia.
  - inversion Hasc as [|? ? _ Hall]; subst.
    rewrite Forall_forall in Hall. by apply Hall.
Qed.

(** Two non-decreasing lists with the same elements, equal ones in the
    same order, are the same list. *)
Lemma stable_sorted_unique (l1 : list T) :
  TotalOrder compareFn ->
  forall l2,
    ascending compareFn l1 -> ascending compareFn l2 ->
    (forall e, List.filter (eqvb compareFn e) l1 = List.filter (eqvb compareFn e) l2) ->
    l1 ≡ₚ l2 -> l1 = l2.
Proof.
  intros Hord. induction l1 as [|x t1 IH]; intros l2 Ha1 Ha2 Hf Hp.
  - by apply Permutation_nil in Hp.
  - destruct l2 as [|y t2]; [by apply Permutation_sym, Permutation_nil in Hp|].
    assert (Hxy : le compareFn x y).
    { apply (first_is_least x t1 y Hord Ha1). rewrite Hp. by left. }
    assert (Hyx : le compareFn y x).
    { apply (first_is_least y t2 x Hord Ha2). rewrite <- Hp. by left. }
    assert (Heq : eqvb compareFn x y = true).
    { unfold eqvb, le in *. apply Z.eqb_eq.
      pose proof (cmp_antisym _ Hord x y). pose proof (cmp_antisym _ Hord y x). lia. }
    assert (x = y) as <-.
    { pose proof (Hf x) as Hx. cbn [List.filter] in Hx.
      rewrite Heq in Hx. unfold eqvb in Hx at 1. rewrite (cmp_refl _ Hord) in Hx.
      cbn in Hx. by injection Hx. }
    f_equal. apply IH.
    + by inversion Ha1.
    + by inversion Ha2.
    + intros e. specialize (Hf e). cbn [List.filter] in Hf.
      destruct (eqvb compareFn e x); [by injection Hf|done].
    + by apply Permutation_cons_inv in Hp.
Qed.

(** Under a consistent total order the result of [timsort] is the one
    rearrangement of the input that is non-decreasing and keeps equal
    elements in the order they had: whatever array has these properties
    is what [timsort] returns. *)
Theorem timsort_result_unique (arr out' : list T) (fuel : nat) :
  TotalOrder compareFn ->
  (length arr < fuel)%nat -> Z.of_nat (length arr) < 2 ^ 31 ->
  ascending compareFn out' -> stable compareFn arr out' -> out' ≡ₚ arr ->
  exists st, timsort compareFn fuel arr = Ok (out', st) /\ global_a st = out'.
Proof.
  intros Hord Hfuel Hsize Hasc' Hst' Hperm'.
  assert (Hone : forall out, ascending compareFn out -> stable compareFn arr out ->
                             out ≡ₚ arr -> out = out').
  { intros out Hasc Hst Hperm. apply stable_sorted_unique; try done.
    - intros e. by rewrite (Hst e), (Hst' e).
    - by rewrite Hperm, Hperm'. }
  destruct (decide (length arr <= 1)%nat) as [Hshort|Hlong].
  - rewrite <- (Hone arr); [|by apply short_ascending|done|done].
    eexists. split; [by apply timsort_short|done].
  - destruct (timsort_spec compareFn arr fuel Hfuel Hsize ltac:(lia))
      as (out & evs & Hrun & Hres).
    destruct Hres as (evs1 & evs2 & _ & _ & _ & Hperm & Hfun & _).
    destruct (Hfun Hord) as [Hasc Hst].
    rewrite (Hone out Hasc Hst Hperm) in Hrun.
    eexists. split; [exact Hrun|]. apply sorted_state_array.
Qed.

(** [mergeLo] and [mergeHi] are two ways to the same array: on runs
    that both accept, whichever of the two [mergeAt] picks by the
    lengths of the runs leaves the array that the other would. *)
Theorem mergeLo_mergeHi_agree (pre run1 run2 post : list T) (fuel : nat)
    rb rl ss tr :
  TotalOrder compareFn ->
  ascending compareFn run1 -> ascending compareFn run2 ->
  (forall y0 x0, head run2 = Some y0 -> head run1 = Some x0 -> compareFn y0 x0 < 0) ->
  (forall z y, last run1 = Some z -> y ∈ run2 -> compareFn y z < 0) ->
  (1 <= length run1)%nat -> (1 <= length run2)%nat ->
  (length run1 + length run2 < fuel)%nat ->
  Z.of_nat (length run1) < 2 ^ 32 -> Z.of_nat (length run2) < 2 ^ 32 ->
  exists a' evs_lo evs_hi,
    mergeLo compareFn fuel
      (Z.of_nat (length pre)) (Z.of_nat (length run1))
      (Z.of_nat (length pre + length run1)) (Z.of_nat (length run2))
      (mkState (pre ++ run1 ++ run2 ++ post) rb rl ss tr)
    = Ok (tt, mkState a' rb rl ss (tr ++ evs_lo)) /\
    mergeHi compareFn fuel
      (Z.of_nat (length pre)) (Z.of_nat (length run1))
      (Z.of_nat (length pre + length run1)) (Z.of_nat (length run2))
      (mkState (pre ++ run1 ++ run2 ++ post) rb rl ss tr)
    = Ok (tt, mkState a' rb rl ss (tr ++ evs_hi)).
Proof.
  intros Hord Hs1 Hs2 Hhead Hlast Hn1 Hn2 Hfuel Hsize1 Hsize2.
  destruct (mergeLo_stable_merge pre run1 run2 post fuel rb rl ss tr
              Hord Hs1 Hs2 Hhead Hlast Hn1 Hn2 Hfuel Hsize1 Hsize2)
    as (m1 & evs1 & Hrun1 & Ha1 & Hst1 & Hp1).
  destruct (mergeHi_stable_merge pre run1 run2 post fuel rb rl ss tr
              Hord Hs1 Hs2 Hhead Hlast Hn1 Hn2 Hfuel Hsize1 Hsize2)
    as (m2 & evs2 & Hrun2 & Ha2 & Hst2 & Hp2).
  assert (m1 = m2) as <-.
  { apply stable_sorted_unique; try done.
    - intros e. by rewrite (Hst1 e), (Hst2 e).
    - by rewrite Hp1, Hp2. }
  by exists (pre ++ m1 ++ post), evs1, evs2.
Qed.

(** ** The two gallops and the elements equal to the key *)

(** On a range that is non-decreasing under a consistent total order
    [gallopLeft] returns the offset of the first element equal to the
    key and [gallopRight] the offset behind the last: the elements from
    the one to the other are those that compare equal to the key, and
    where there is none the two offsets are the same. *)
Theorem gallops_bracket_the_equals (key : T) (pre run post : list T)
    (hint fuel : nat) (st : state) :
  TotalOrder compareFn -> ascending compareFn run ->
  (hint < length run)%nat -> (length run < fuel)%nat ->
  Z.of_nat (length run) < 2 ^ 32 ->
  exists (kl kr : nat) stl str,
    gallopLeft compareFn fuel key (pre ++ run ++ post)
      (Z.of_nat (length pre)) (Z.of_nat (length run)) (Z.of_nat hint) st
    = Ok (Z.of_nat kl, stl) /\
    gallopRight compareFn fuel key (pre ++ run ++ post)
      (Z.of_nat (length pre)) (Z.of_nat (length run)) (Z.of_nat hint) st
    = Ok (Z.of_nat kr, str) /\
    (kl <= kr <= length run)%nat /\
    forall (i : nat) (x : T),
      run !! i = Some x -> (compareFn key x = 0 <-> (kl <= i < kr)%nat).
Proof.
  intros Hord Hasc Hhint Hfuel Hsize.
  destruct (gallopLeft_spec compareFn key pre run post hint fuel st Hhint Hfuel Hsize)
    as (kl & evsl & Hkl & Hrunl & _ & Hfunl).
  destruct (Hfunl (monotone_left compareFn key run Hord Hasc)) as [Hbl Hal].
  destruct (gallopRight_spec compareFn key pre run post hint fuel st Hhint Hfuel Hsize)
    as (kr & evsr & Hkr & Hrunr & _ & Hfunr).
  destruct (Hfunr (monotone_right compareFn key run Hord Hasc)) as [Hbr Har].
  rewrite Forall_lookup in Hbl, Hal, Hbr, Har.
  assert (Hin : forall i x, run !! i = Some x ->
                  ((i < kl)%nat -> 0 < compareFn key x) /\
                  ((kl <= i)%nat -> compareFn key x <= 0) /\
                  ((i < kr)%nat -> 0 <= compareFn key x) /\
                  ((kr <= i)%nat -> compareFn key x < 0)).
  { intros i x Hx. repeat split; intros Hi.
    - apply Z.ltb_lt. apply (Hbl i). by rewrite lookup_take_lt.
    - apply Z.ltb_ge. apply (Hal (i - kl)%nat). rewrite lookup_drop.
      by replace (kl + (i - kl))%nat with i by lia.
    - specialize (Hbr i x). rewrite lookup_take_lt in Hbr by done.
      specialize (Hbr Hx). apply negb_true_iff, Z.ltb_ge in Hbr. lia.
    - specialize (Har (i - kr)%nat x). rewrite lookup_drop in Har.
      replace (kr + (i - kr))%nat with i in Har by lia.
      specialize (Har Hx). by apply negb_false_iff, Z.ltb_lt in Har. }
  exists kl, kr. do 2 eexists. split; [exact Hrunl|]. split; [exact Hrunr|].
  split.
  - split; [|done].
    destruct (decide (kl <= kr)%nat) as [|Hgt]; [done|exfalso].
    destruct (lookup_lt_is_Some_2 run kr) as [x Hx]; [lia|].
    destruct (Hin kr x Hx) as (H1 & _ & _ & H4).
    specialize (H1 ltac:(lia)). specialize (H4 ltac:(lia)). lia.
  - intros i x Hx. destruct (Hin i x Hx) as (H1 & H2 & H3 & H4). split.
    + intros Hz. split.
      * destruct (decide (kl <= i)%nat) as [|Hlt]; [done|].
        specialize (H1 ltac:(lia)). lia.
      * destruct (decide (i < kr)%nat) as [|Hge]; [done|].
        specialize (H4 ltac:(lia)). lia.
    + intros [Hl Hr]. specialize (H2 Hl). specialize (H3 Hr). lia.
Qed.


(** ** mergeAt run to its end *)

Lemma js_set_in {A} (l : list A) (i : Z) (v x : A) :
  JS.get l i = Some x -> exists l', JS.set l i v = Some l'.
Proof.
  unfold JS.get, JS.set. destruct (i <? 0); [done|]. intros Hx.
  apply lookup_lt_Some in Hx.
  destruct (Z.ltb_spec i (Z.of_nat (length l))); [by eexists|lia].
Qed.

Lemma js_get_set_eq {A} (l l' : list A) (i : Z) (v : A) :
  JS.set l i v = Some l' -> JS.get l' i = Some v.
Proof.
  unfold JS.get, JS.set. destruct (Z.ltb_spec i 0); [done|].
  destruct (Z.ltb_spec i (Z.of_nat (length l))).
  - intros [= <-]. apply list_lookup_insert_eq. lia.
  - destruct (Z.eqb_spec i (Z.of_nat (length l))) as [->|]; [|done].
    intros [= <-]. rewrite Nat2Z.id. by apply lookup_middle.
Qed.

Lemma js_get_set_ne {A} (l l' : list A) (i j : Z) (v : A) :
  JS.set l i v = Some l' -> j <> i -> JS.get l' j = JS.get l j.
Proof.
  unfold JS.get, JS.set. destruct (Z.ltb_spec i 0); [done|].
  destruct (Z.ltb_spec j 0); [done|].
  destruct (Z.ltb_spec i (Z.of_nat (length l))).
  - intros [= <-] Hne. apply list_lookup_insert_ne. lia.
  - destruct (Z.eqb_spec i (Z.of_nat (length l))) as [->|]; [|done].
    intros [= <-] Hne.
    destruct (decide (Z.to_nat j < length l)%nat).
    + by rewrite lookup_app_l.
    + rewrite lookup_ge_None_2 by (rewrite length_app; cbn [length]; lia).
      symmetry. apply lookup_ge_None_2. lia.
Qed.

Lemma step_runLen_get {B} (i v : Z) (k : Z -> M B) a rb rl ss tr :
  JS.get rl i = Some v ->
  bind (runLen_get i) k (mkState a rb rl ss tr) = k v (mkState a rb rl ss tr).
Proof. intros H. unfold runLen_get, bind, get_runLen, lift. cbn. by rewrite H. Qed.

Lemma step_runBase_get {B} (i v : Z) (k : Z -> M B) a rb rl ss tr :
  JS.get rb i = Some v ->
  bind (runBase_get i) k (mkState a rb rl ss tr) = k v (mkState a rb rl ss tr).
Proof. intros H. unfold runBase_get, bind, get_runBase, lift. cbn. by rewrite H. Qed.

Lemma step_runLen_set {B} (i v : Z) (rl' : list Z) (k : unit -> M B) a rb rl ss tr :
  JS.set rl i v = Some rl' ->
  bind (runLen_set i v) k (mkState a rb rl ss tr) = k tt (mkState a rb rl' ss tr).
Proof.
  intros H. unfold runLen_set, bind, get_runLen, lift, put_runLen. cbn. by rewrite H.
Qed.

Lemma step_runBase_set {B} (i v : Z) (rb' : list Z) (k : unit -> M B) a rb rl ss tr :
  JS.set rb i v = Some rb' ->
  bind (runBase_set i v) k (mkState a rb rl ss tr) = k tt (mkState a rb' rl ss tr).
Proof.
  intros H. unfold runBase_set, bind, get_runBase, lift, put_runBase. cbn. by rewrite H.
Qed.

(** Two runs with nothing to merge: the first ends below the second. *)
Lemma runs_in_order (run1 run2 : list T) :
  ascending compareFn run1 -> ascending compareFn run2 ->
  (forall x y, x ∈ run1 -> y ∈ run2 -> le compareFn x y) ->
  ascending compareFn (run1 ++ run2) /\ stable compareFn (run1 ++ run2) (run1 ++ run2)
  /\ run1 ++ run2 ≡ₚ run1 ++ run2.
Proof.
  intros H1 H2 H12. split; [|done]. by apply StronglySorted_app_2.
Qed.

(** What [gallopRight] left in place before the merged part and
    [gallopLeft] behind it. *)
Lemma merged_between (front merged back l1 l2 : list T) :
  TotalOrder compareFn ->
  ascending compareFn (front ++ l1) -> ascending compareFn (l2 ++ back) ->
  ascending compareFn merged -> stable compareFn (l1 ++ l2) merged ->
  merged ≡ₚ l1 ++ l2 ->
  (forall x y, x ∈ front -> y ∈ l2 -> le compareFn x y) ->
  (forall x y, x ∈ l1 -> y ∈ back -> le compareFn x y) ->
  (forall x y, x ∈ front -> y ∈ back -> le compareFn x y) ->
  ascending compareFn (front ++ merged ++ back) /\
  stable compareFn ((front ++ l1) ++ (l2 ++ back)) (front ++ merged ++ back) /\
  front ++ merged ++ back ≡ₚ (front ++ l1) ++ (l2 ++ back).
Proof.
  intros Hord Hf Hb Hm Hst Hp Hf2 H1b Hfb. split; [|split].
  - apply StronglySorted_app_2.
    + intros x y Hx Hy. apply elem_of_app in Hy as [Hy|Hy].
      * rewrite Hp in Hy. apply elem_of_app in Hy as [Hy|Hy].
        -- by apply (StronglySorted_app_1_elem_of _ _ _ _ _ Hf).
        -- by apply Hf2.
      * by apply Hfb.
    + by apply StronglySorted_app_1_l in Hf.
    + apply StronglySorted_app_2.
      * intros x y Hx Hy. rewrite Hp in Hx. apply elem_of_app in Hx as [Hx|Hx].
        -- by apply H1b.
        -- by apply (StronglySorted_app_1_elem_of _ _ _ _ _ Hb).
      * done.
      * by apply StronglySorted_app_1_r in Hb.
  - intros e. rewrite !List.filter_app. rewrite (Hst e), List.filter_app.
    by rewrite <- !app_assoc.
  - rewrite Hp. by rewrite <- !app_assoc.
Qed.

(** [mergeAt(i)] left to run to its end, on a stack whose runs [i] and
    [i + 1] lie side by side in the array, each non-decreasing under a
    consistent total order: the range of the two runs ends up
    non-decreasing, with the elements of both, equal ones in the order
    they had, and the rest of the array as it was; the stack is one run
    shorter, run [i] has the base it had and the length of both, the
    run above the two, if [i] is the third from the top, has moved down
    one slot, and the runs below [i] are untouched. *)
Theorem mergeAt_merges (pre run1 run2 post : list T) (fuel : nat) (i : Z)
    rb rl ss tr :
  TotalOrder compareFn ->
  ascending compareFn run1 -> ascending compareFn run2 ->
  (1 <= length run1)%nat -> (1 <= length run2)%nat ->
  (length run1 + length run2 < fuel)%nat ->
  Z.of_nat (length run1) < 2 ^ 32 -> Z.of_nat (length run2) < 2 ^ 32 ->
  JS.get rb i = Some (Z.of_nat (length pre)) ->
  JS.get rl i = Some (Z.of_nat (length run1)) ->
  JS.get rb (i + 1) = Some (Z.of_nat (length pre + length run1)) ->
  JS.get rl (i + 1) = Some (Z.of_nat (length run2)) ->
  (i = ss - 3 -> is_Some (JS.get rb (i + 2)) /\ is_Some (JS.get rl (i + 2))) ->
  exists merged rb' rl' evs,
    mergeAt compareFn fuel i (mkState (pre ++ run1 ++ run2 ++ post) rb rl ss tr)
    = Ok (tt, mkState (pre ++ merged ++ post) rb' rl' (ss - 1) (tr ++ evs)) /\
    ascending compareFn merged /\
    stable compareFn (run1 ++ run2) merged /\
    merged ≡ₚ run1 ++ run2 /\
    JS.get rb' i = Some (Z.of_nat (length pre)) /\
    JS.get rl' i = Some (Z.of_nat (length run1 + length run2)) /\
    (i = ss - 3 -> JS.get rb' (i + 1) = JS.get rb (i + 2)
                   /\ JS.get rl' (i + 1) = JS.get rl (i + 2)) /\
    (forall j, j < i -> JS.get rb' j = JS.get rb j /\ JS.get rl' j = JS.get rl j).
Proof.
  intros Hord Hs1 Hs2 Hn1 Hn2 Hfuel Hsize1 Hsize2 Hb1 Hl1 Hb2 Hl2 Hthird.
  unfold mergeAt. rewrite step_log.
  rewrite (step_runBase_get _ _ _ _ _ _ _ _ Hb1).
  rewrite (step_runLen_get _ _ _ _ _ _ _ _ Hl1).
  rewrite (step_runBase_get _ _ _ _ _ _ _ _ Hb2).
  rewrite (step_runLen_get _ _ _ _ _ _ _ _ Hl2).
  destruct (js_set_in rl i (Z.of_nat (length run1) + Z.of_nat (length run2)) _ Hl1)
    as [rl0 Hset0].
  rewrite (step_runLen_set _ _ _ _ _ _ _ _ _ Hset0).
  rewrite step_get_stackSize.
  set (a := pre ++ run1 ++ run2 ++ post).
  set (tr1 := tr ++ [Log "entering mergeat"]).
  match goal with |- context [bind (if _ then _ else _) ?K] => set (K1 := K) end.
  (* the two gallops and the merge *)
  assert (Hrest : forall rb1 rl1,
             exists merged evs,
               K1 tt (mkState a rb1 rl1 ss tr1)
               = Ok (tt, mkState (pre ++ merged ++ post) rb1 rl1 (ss - 1)
                           (tr1 ++ evs)) /\
               ascending compareFn merged /\
               stable compareFn (run1 ++ run2) merged /\
               merged ≡ₚ run1 ++ run2).
  { intros rb1 rl1. subst K1. cbv beta.
    rewrite step_put_stackSize.
    destruct (lookup_lt_is_Some_2 run2 0) as [y0 Hy0]; [lia|].
    rewrite (step_a_get _ y0).
    2:{ subst a. rewrite (app_assoc pre run1).
        rewrite (js_get_app (pre ++ run1) _ _ 0%nat) by (rewrite length_app; lia).
        by rewrite lookup_app_l by lia. }
    rewrite step_get_a.
    destruct (gallopRight_in compareFn y0 a pre run1 (run2 ++ post) fuel
                (Z.of_nat (length pre)) (Z.of_nat (length run1))
                (mkState a rb1 rl1 (ss - 1) tr1))
      as (k1 & evs1 & Hk1 & Hrun1 & _ & Hfun1); [done|done|done|lia|lia|done|].
    cbn [global_a runBase runLen stackSize trace] in Hrun1.
    rewrite (step_ok _ _ _ _ _ Hrun1). cbv zeta.
    destruct (Hfun1 (monotone_right compareFn y0 run1 Hord Hs1)) as [Hbefore Hafter].
    assert (Hfront : forall x y, x ∈ take k1 run1 -> y ∈ run2 -> le compareFn x y).
    { intros x y Hx Hy. rewrite Forall_forall in Hbefore.
      specialize (Hbefore x Hx). apply negb_true_iff, Z.ltb_ge in Hbefore.
      apply (cmp_trans _ Hord x y0 y); [by apply (cmp_flip _ Hord)|].
      apply (head_le run2 0); [done|done|done|by rewrite drop_0]. }
    assert (Hhead : forall x, x ∈ drop k1 run1 -> compareFn y0 x < 0).
    { intros x Hx. rewrite Forall_forall in Hafter.
      specialize (Hafter x Hx). by apply negb_false_iff, Z.ltb_lt in Hafter. }
    clear Hfun1 Hrun1 Hbefore Hafter.
    destruct (Z.eqb_spec (Z.of_nat (length run1) - Z.of_nat k1) 0) as [Hz|Hnz].
    { (* the first run ends below the second *)
      exists (run1 ++ run2). eexists. split.
      { unfold ret. subst a. by rewrite <- !app_assoc. }
      apply runs_in_order; [done|done|].
      intros x y Hx Hy. apply Hfront; [|done].
      rewrite take_ge by lia. done. }
    destruct (lookup_lt_is_Some_2 run1 (length run1 - 1)) as [z Hz]; [lia|].
    rewrite (step_a_get _ z).
    2:{ subst a. rewrite (js_get_app pre _ _ (length run1 - 1)%nat) by lia.
        by rewrite lookup_app_l by lia. }
    rewrite step_get_a.
    destruct (gallopLeft_at compareFn z a (pre ++ run1) run2 post fuel
                (length run2 - 1) (Z.of_nat (length pre + length run1))
                (Z.of_nat (length run2)) (Z.of_nat (length run2) - 1)
                (mkState a rb1 rl1 (ss - 1) (tr1 ++ Log gallop_right_msg :: evs1)))
      as (k2 & evs2 & Hk2 & Hrun2 & _ & Hfun2);
      [subst a; by rewrite <- !app_assoc|by rewrite length_app|done|lia|lia|lia|done|].
    cbn [global_a runBase runLen stackSize trace] in Hrun2.
    rewrite (step_ok _ _ _ _ _ Hrun2).
    destruct (Hfun2 (monotone_left compareFn z run2 Hord Hs2)) as [Hbefore Hafter].
    assert (Hlast : forall y, y ∈ take k2 run2 -> compareFn y z < 0).
    { intros y Hy. rewrite Forall_forall in Hbefore.
      specialize (Hbefore y Hy). apply Z.ltb_lt in Hbefore.
      by apply (cmp_antisym _ Hord). }
    assert (Hback : forall x y, x ∈ run1 -> y ∈ drop k2 run2 -> le compareFn x y).
    { intros x y Hx Hy. rewrite Forall_forall in Hafter.
      specialize (Hafter y Hy). apply Z.ltb_ge in Hafter.
      apply (cmp_trans _ Hord x z y); [|done].
      apply (last_le run1 (length run1 - 1)); [done|done|done|].
      rewrite take_ge by lia. done. }
    clear Hfun2 Hrun2 Hbefore Hafter.
    destruct (Z.eqb_spec (Z.of_nat k2) 0) as [Hz2|Hnz2].
    { exists (run1 ++ run2). eexists. split.
      { unfold ret. subst a. by rewrite <- !app_assoc. }
      apply runs_in_order; [done|done|].
      intros x y Hx Hy. apply Hback; [done|].
      by replace k2 with 0%nat by lia. }
    (* the merge of what is left of the two runs *)
    set (front := take k1 run1). set (l1 := drop k1 run1).
    set (l2 := take k2 run2). set (back := drop k2 run2).
    assert (Hfl : length front = k1) by (subst front; rewrite length_take; lia).
    assert (Hll1 : length l1 = (length run1 - k1)%nat)
      by (subst l1; by rewrite length_drop).
    assert (Hll2 : length l2 = k2) by (subst l2; rewrite length_take; lia).
    assert (Ha : a = (pre ++ front) ++ l1 ++ l2 ++ (back ++ post)).
    { subst a front l1 l2 back. rewrite <- !app_assoc.
      rewrite (app_assoc (take k1 run1)), take_drop.
      by rewrite (app_assoc (take k2 run2)), take_drop. }
    assert (Hmerge : forall call,
               (exists merged evs,
                   call = Ok (tt, mkState ((pre ++ front) ++ merged ++ (back ++ post))
                                    rb1 rl1 (ss - 1)
                                    ((tr1 ++ Log gallop_right_msg :: evs1)
                                       ++ Log gallop_left_msg :: evs2 ++ evs)) /\
                   ascending compareFn merged /\
                   stable compareFn (l1 ++ l2) merged /\ merged ≡ₚ l1 ++ l2) ->
               exists merged evs,
                 call = Ok (tt, mkState (pre ++ merged ++ post) rb1 rl1 (ss - 1)
                                  (tr1 ++ evs)) /\
                 ascending compareFn merged /\
                 stable compareFn (run1 ++ run2) merged /\
                 merged ≡ₚ run1 ++ run2).
    { intros call (merged & evs & -> & Hasc & Hst & Hp).
      exists (front ++ merged ++ back). eexists. split.
      { do 3 f_equal; [by rewrite <- !app_assoc|].
        rewrite <- !app_assoc. reflexivity. }
      rewrite <- (take_drop k1 run1), <- (take_drop k2 run2).
      fold front l1 l2 back.
      apply merged_between; try done.
      - subst front l1. by rewrite take_drop.
      - subst l2 back. by rewrite take_drop.
      - intros x y Hx Hy. apply Hfront; [done|]. by apply in_take in Hy.
      - intros x y Hx Hy. apply Hback; [|done]. by apply in_drop in Hx.
      - intros x y Hx Hy. apply Hfront; [done|]. by apply in_drop in Hy. }
    assert (Hargs : Z.of_nat (length pre) + Z.of_nat k1 = Z.of_nat (length (pre ++ front))
                    /\ Z.of_nat (length run1) - Z.of_nat k1 = Z.of_nat (length l1)
                    /\ Z.of_nat (length pre + length run1)
                       = Z.of_nat (length (pre ++ front) + length l1)
                    /\ Z.of_nat k2 = Z.of_nat (length l2)).
    { rewrite length_app. lia. }
    destruct Hargs as (E1 & E2 & E3 & E4). rewrite E1, E2, E3, E4, Ha.
    assert (Hc1 : forall y1 x1, head l2 = Some y1 -> head l1 = Some x1 ->
                                compareFn y1 x1 < 0).
    { intros y1 x1 Hy1 Hx1. subst l1 l2.
      rewrite head_lookup in Hy1, Hx1.
      rewrite lookup_take_lt in Hy1 by lia.
      assert (y1 = y0) as -> by congruence.
      apply Hhead. by eapply list_elem_of_lookup_2. }
    assert (Hc2 : forall z1 y, last l1 = Some z1 -> y ∈ l2 -> compareFn y z1 < 0).
    { intros z1 y Hz1 Hy. subst l1 l2. rewrite last_lookup in Hz1.
      rewrite length_drop, lookup_drop in Hz1.
      replace (k1 + Init.Nat.pred (length run1 - k1))%nat
        with (length run1 - 1)%nat in Hz1 by lia.
      assert (z1 = z) as -> by congruence. by apply Hlast. }
    destruct (Z.leb_spec (Z.of_nat (length l1)) (Z.of_nat (length l2))).
    - apply Hmerge.
      destruct (mergeLo_stable_merge (pre ++ front) l1 l2 (back ++ post) fuel
                  rb1 rl1 (ss - 1)
                  ((tr1 ++ Log gallop_right_msg :: evs1) ++ Log gallop_left_msg :: evs2)
                  Hord (ascending_drop run1 k1 Hs1)
                  (ascending_take run2 k2 Hs2) Hc1 Hc2)
        as (merged & evs & Hrun & Hres); [lia|lia|lia|lia|lia|].
      exists merged, evs. split; [|done].
      rewrite Hrun. do 3 f_equal. by rewrite <- !app_assoc.
    - apply Hmerge.
      destruct (mergeHi_stable_merge (pre ++ front) l1 l2 (back ++ post) fuel
                  rb1 rl1 (ss - 1)
                  ((tr1 ++ Log gallop_right_msg :: evs1) ++ Log gallop_left_msg :: evs2)
                  Hord (ascending_drop run1 k1 Hs1)
                  (ascending_take run2 k2 Hs2) Hc1 Hc2)
        as (merged & evs & Hrun & Hres); [lia|lia|lia|lia|lia|].
      exists merged, evs. split; [|done].
      rewrite Hrun. do 3 f_equal. by rewrite <- !app_assoc. }
  (* the stack *)
  assert (Hi0 : 0 <= i).
  { unfold JS.get in Hl1. destruct (Z.ltb_spec i 0); [done|lia]. }
  destruct (Z.eqb_spec i (ss - 3)) as [Hi|Hi].
  - destruct (Hthird Hi) as [[b Hb] [l Hl]].
    rewrite bind_assoc, (step_runBase_get _ _ _ _ _ _ _ _ Hb).
    destruct (js_set_in rb (i + 1) b _ Hb2) as [rb1 Hsetb].
    rewrite bind_assoc, (step_runBase_set _ _ _ _ _ _ _ _ _ Hsetb).
    assert (Hl' : JS.get rl0 (i + 2) = Some l)
      by (rewrite (js_get_set_ne _ _ _ _ _ Hset0) by lia; done).
    rewrite bind_assoc, (step_runLen_get _ _ _ _ _ _ _ _ Hl').
    assert (Hl2' : JS.get rl0 (i + 1) = Some (Z.of_nat (length run2)))
      by (rewrite (js_get_set_ne _ _ _ _ _ Hset0) by lia; done).
    destruct (js_set_in rl0 (i + 1) l _ Hl2') as [rl1 Hsetl].
    rewrite (step_runLen_set _ _ _ _ _ _ _ _ _ Hsetl).
    destruct (Hrest rb1 rl1) as (merged & evs & Hrun & Hres).
    exists merged, rb1, rl1, (Log "entering mergeat" :: evs).
    split; [rewrite Hrun; subst tr1; by rewrite <- app_assoc|].
    destruct Hres as (Hr1 & Hr2 & Hr3). do 3 (split; [done|]).
    split; [by rewrite (js_get_set_ne _ _ _ _ _ Hsetb) by lia|].
    split.
    { rewrite (js_get_set_ne _ _ _ _ _ Hsetl) by lia.
      rewrite (js_get_set_eq _ _ _ _ Hset0). f_equal. lia. }
    split.
    { intros _. split.
      - by rewrite (js_get_set_eq _ _ _ _ Hsetb).
      - by rewrite (js_get_set_eq _ _ _ _ Hsetl). }
    intros j Hj. split.
    + by rewrite (js_get_set_ne _ _ _ _ _ Hsetb) by lia.
    + rewrite (js_get_set_ne _ _ _ _ _ Hsetl) by lia.
      by rewrite (js_get_set_ne _ _ _ _ _ Hset0) by lia.
  - rewrite step_ret.
    destruct (Hrest rb rl0) as (merged & evs & Hrun & Hres).
    exists merged, rb, rl0, (Log "entering mergeat" :: evs).
    split; [rewrite Hrun; subst tr1; by rewrite <- app_assoc|].
    destruct Hres as (Hr1 & Hr2 & Hr3). do 3 (split; [done|]).
    split; [done|]. split.
    { rewrite (js_get_set_eq _ _ _ _ Hset0). f_equal. lia. }
    split; [done|].
    intros j Hj. split; [done|].
    by rewrite (js_get_set_ne _ _ _ _ _ Hset0) by lia.
Qed.


(** ** The run stack *)

(** The runs on the stack, bottom first, each with its base and its
    length: the first [stackSize] entries of [runBase] and [runLen].
    What the two arrays hold beyond is left over from runs popped
    before. *)
Definition stack_is (R : list (Z * Z)) (st : state) : Prop :=
  stackSize st = Z.of_nat (length R) /\
  (exists junk, runBase st = R.*1 ++ junk) /\
  (exists junk, runLen st = R.*2 ++ junk).

(** The elements that the runs of the stack cover. *)
Definition total (R : list (Z * Z)) : Z := foldr Z.add 0 R.*2.

Definition is_unawaited (e : event) : bool :=
  match e with Unawaited _ => true | _ => false end.

(** What [mergeCollapse] is to establish for the three runs at the top:
    [runLen[n - 1] > runLen[n] + runLen[n + 1]] and
    [runLen[n] > runLen[n + 1]]. *)
Definition collapsed (R : list (Z * Z)) : Prop :=
  match rev R.*2 with
  | z :: y :: x :: _ => y + z < x /\ z < y
  | z :: y :: [] => z < y
  | _ => True
  end.

(** Every run starts within the array. *)
Definition bases_within (a : list T) (R : list (Z * Z)) : Prop :=
  Forall (fun r => 0 <= r.1 < Z.of_nat (length a)) R.

Lemma js_get_within (a : list T) (i : Z) :
  0 <= i < Z.of_nat (length a) -> exists x, JS.get a i = Some x.
Proof.
  intros Hi. unfold JS.get. destruct (Z.ltb_spec i 0); [lia|].
  apply lookup_lt_is_Some_2. lia.
Qed.

Lemma total_app (R1 R2 : list (Z * Z)) : total (R1 ++ R2) = total R1 + total R2.
Proof.
  unfold total. rewrite fmap_app. induction (R1.*2) as [|x l IH]; cbn [foldr app]; lia.
Qed.

(** [mergeAt(n)] up to its first suspension, for the two runs at the
    top of the stack. *)
Lemma mergeAt_unawaited_second (R0 : list (Z * Z)) (b1 l1 b2 l2 : Z) (st : state) :
  stack_is (R0 ++ [(b1, l1); (b2, l2)]) st ->
  bases_within (global_a st) (R0 ++ [(b1, l1); (b2, l2)]) ->
  exists st' evs,
    mergeAt_unawaited (Z.of_nat (length R0)) st = Ok (tt, st') /\
    stack_is (R0 ++ [(b1, l1 + l2)]) st' /\
    global_a st' = global_a st /\
    trace st' = trace st ++ evs /\
    List.filter is_unawaited evs = [Unawaited (Z.of_nat (length R0))].
Proof.
  destruct st as [a rb rl ss tr]. intros (Hs & [jb Hb] & [jl Hl]) Hin.
  cbn [stackSize runBase runLen global_a trace] in *.
  rewrite length_app in Hs. cbn [length] in Hs. subst ss.
  rewrite fmap_app in Hb, Hl. cbn [fmap list_fmap fst snd] in Hb, Hl. subst rb rl.
  apply Forall_app in Hin as [_ Hin].
  inversion Hin as [|? ? H1 Hin']; subst. inversion Hin' as [|? ? H2 _]; subst.
  cbn [fst] in H1, H2.
  destruct (js_get_within a b1 H1) as [x1 Hx1].
  destruct (js_get_within a b2 H2) as [x2 Hx2].
  assert (Hlb : length R0.*1 = length R0) by apply length_fmap.
  assert (Hll : length R0.*2 = length R0) by apply length_fmap.
  unfold mergeAt_unawaited. rewrite step_log.
  rewrite <- !app_assoc.
  rewrite (step_runBase_get _ b1)
    by (by rewrite (js_get_app _ _ _ 0%nat) by lia).
  rewrite (step_runLen_get _ l1)
    by (by rewrite (js_get_app _ _ _ 0%nat) by lia).
  rewrite (step_runBase_get _ b2)
    by (by rewrite (js_get_app _ _ _ 1%nat) by lia).
  rewrite (step_runLen_get _ l2)
    by (by rewrite (js_get_app _ _ _ 1%nat) by lia).
  rewrite (step_runLen_set _ _ (R0.*2 ++ [l1 + l2; l2] ++ jl))
    by (by rewrite (js_set_app _ _ _ 0%nat) by (cbn [length app]; lia)).
  rewrite step_get_stackSize.
  destruct (Z.eqb_spec (Z.of_nat (length R0)) (Z.of_nat (length R0 + 2) - 3)); [lia|].
  rewrite step_ret, step_put_stackSize.
  rewrite (step_a_get _ x2) by done.
  rewrite step_log.
  rewrite (step_a_get _ x1) by (by rewrite Z.add_0_r).
  rewrite step_emit.
  eexists. eexists. split; [reflexivity|]. cbn [global_a trace].
  split; [|split; [done|split]].
  - split; [|split]; cbn [stackSize runBase runLen].
    + rewrite length_app. cbn [length]. lia.
    + exists (b2 :: jb). rewrite fmap_app. cbn [fmap list_fmap fst].
      by rewrite <- !app_assoc.
    + exists (l2 :: jl). rewrite fmap_app. cbn [fmap list_fmap snd].
      by rewrite <- !app_assoc.
  - rewrite <- !app_assoc. reflexivity.
  - reflexivity.
Qed.

(** The same for the second and third run from the top: the top run
    slides down one slot. *)
Lemma mergeAt_unawaited_third (R0 : list (Z * Z)) (b1 l1 b2 l2 b3 l3 : Z)
    (st : state) :
  stack_is (R0 ++ [(b1, l1); (b2, l2); (b3, l3)]) st ->
  bases_within (global_a st) (R0 ++ [(b1, l1); (b2, l2); (b3, l3)]) ->
  exists st' evs,
    mergeAt_unawaited (Z.of_nat (length R0)) st = Ok (tt, st') /\
    stack_is (R0 ++ [(b1, l1 + l2); (b3, l3)]) st' /\
    global_a st' = global_a st /\
    trace st' = trace st ++ evs /\
    List.filter is_unawaited evs = [Unawaited (Z.of_nat (length R0))].
Proof.
  destruct st as [a rb rl ss tr]. intros (Hs & [jb Hb] & [jl Hl]) Hin.
  cbn [stackSize runBase runLen global_a trace] in *.
  rewrite length_app in Hs. cbn [length] in Hs. subst ss.
  rewrite fmap_app in Hb, Hl. cbn [fmap list_fmap fst snd] in Hb, Hl. subst rb rl.
  apply Forall_app in Hin as [_ Hin].
  inversion Hin as [|? ? H1 Hin']; subst. inversion Hin' as [|? ? H2 _]; subst.
  cbn [fst] in H1, H2.
  destruct (js_get_within a b1 H1) as [x1 Hx1].
  destruct (js_get_within a b2 H2) as [x2 Hx2].
  assert (Hlb : length R0.*1 = length R0) by apply length_fmap.
  assert (Hll : length R0.*2 = length R0) by apply length_fmap.
  unfold mergeAt_unawaited. rewrite step_log.
  rewrite <- !app_assoc.
  rewrite (step_runBase_get _ b1)
    by (by rewrite (js_get_app _ _ _ 0%nat) by lia).
  rewrite (step_runLen_get _ l1)
    by (by rewrite (js_get_app _ _ _ 0%nat) by lia).
  rewrite (step_runBase_get _ b2)
    by (by rewrite (js_get_app _ _ _ 1%nat) by lia).
  rewrite (step_runLen_get _ l2)
    by (by rewrite (js_get_app _ _ _ 1%nat) by lia).
  rewrite (step_runLen_set _ _ (R0.*2 ++ [l1 + l2; l2; l3] ++ jl))
    by (by rewrite (js_set_app _ _ _ 0%nat) by (cbn [length app]; lia)).
  rewrite step_get_stackSize.
  destruct (Z.eqb_spec (Z.of_nat (length R0)) (Z.of_nat (length R0 + 3) - 3)); [|lia].
  rewrite !bind_assoc.
  rewrite (step_runBase_get _ b3)
    by (by rewrite (js_get_app _ _ _ 2%nat) by lia).
  rewrite bind_assoc.
  rewrite (step_runBase_set _ _ (R0.*1 ++ [b1; b3; b3] ++ jb))
    by (by rewrite (js_set_app _ _ _ 1%nat) by (cbn [length app]; lia)).
  rewrite bind_assoc.
  rewrite (step_runLen_get _ l3)
    by (by rewrite (js_get_app _ _ _ 2%nat) by lia).
  rewrite (step_runLen_set _ _ (R0.*2 ++ [l1 + l2; l3; l3] ++ jl))
    by (by rewrite (js_set_app _ _ _ 1%nat) by (cbn [length app]; lia)).
  rewrite step_put_stackSize.
  rewrite (step_a_get _ x2) by done.
  rewrite step_log.
  rewrite (step_a_get _ x1) by (by rewrite Z.add_0_r).
  rewrite step_emit.
  eexists. eexists. split; [reflexivity|]. cbn [global_a trace].
  split; [|split; [done|split]].
  - split; [|split]; cbn [stackSize runBase runLen].
    + rewrite length_app. cbn [length]. lia.
    + exists (b3 :: jb). rewrite fmap_app. cbn [fmap list_fmap fst].
      by rewrite <- !app_assoc.
    + exists (l3 :: jl). rewrite fmap_app. cbn [fmap list_fmap snd].
      by rewrite <- !app_assoc.
  - rewrite <- !app_assoc. reflexivity.
  - reflexivity.
Qed.

Lemma step_stackSize {B} (k : Z -> M B) (st : state) :
  bind get_stackSize k st = k (stackSize st) st.
Proof. by destruct st. Qed.

Lemma step_runLen {B} (i v : Z) (k : Z -> M B) (st : state) :
  JS.get (runLen st) i = Some v -> bind (runLen_get i) k st = k v st.
Proof. destruct st. apply step_runLen_get. Qed.

Lemma stack_len (R : list (Z * Z)) (st : state) (i : nat) (b l : Z) (j : Z) :
  stack_is R st -> R !! i = Some (b, l) -> j = Z.of_nat i ->
  JS.get (runLen st) j = Some l.
Proof.
  intros (_ & _ & [junk ->]) Hi ->. rewrite (js_get_at _ _ i) by done.
  rewrite lookup_app_l by (rewrite length_fmap; by eapply lookup_lt_Some).
  by rewrite list_lookup_fmap, Hi.
Qed.

Lemma head_bases (R0 A B : list (Z * Z)) :
  head A.*1 = head B.*1 -> head (R0 ++ A).*1 = head (R0 ++ B).*1.
Proof. by destruct R0. Qed.

Lemma collapsed_three (R0 : list (Z * Z)) (b0 l0 b1 l1 b2 l2 : Z) :
  l1 + l2 < l0 -> l2 < l1 -> collapsed (R0 ++ [(b0, l0); (b1, l1); (b2, l2)]).
Proof.
  intros H1 H2. unfold collapsed. rewrite fmap_app, rev_app_distr. by cbn.
Qed.

(** What a sequence of merges started on the stack [R] leaves. *)
Definition merges_started (R R' : list (Z * Z)) (st st' : state) : Prop :=
  stack_is R' st' /\ bases_within (global_a st') R' /\
  global_a st' = global_a st /\
  (exists evs, trace st' = trace st ++ evs /\
               length (List.filter is_unawaited evs) = (length R - length R')%nat) /\
  total R' = total R /\ head R'.*1 = head R.*1 /\
  (length R' <= length R)%nat /\ (R <> [] -> R' <> []).

Lemma merges_started_refl (R : list (Z * Z)) (st : state) :
  stack_is R st -> bases_within (global_a st) R -> merges_started R R st st.
Proof.
  intros Hs Hb. split; [done|]. split; [done|]. split; [done|]. split.
  { exists []. rewrite app_nil_r. split; [done|]. cbn [List.filter length]. lia. }
  done.
Qed.

Lemma merges_started_step (R R1 R' : list (Z * Z)) (st st1 st' : state) evs1 :
  stack_is R1 st1 -> global_a st1 = global_a st ->
  trace st1 = trace st ++ evs1 ->
  length (List.filter is_unawaited evs1) = 1%nat ->
  S (length R1) = length R -> R1 <> [] ->
  total R1 = total R -> head R1.*1 = head R.*1 ->
  merges_started R1 R' st1 st' ->
  merges_started R R' st st'.
Proof.
  intros Hs1 Ha1 Ht1 Hu1 Hlen Hne1 Htot Hhead
         (Hs & Hb & Ha & (evs & Ht & Hu) & Htot' & Hhead' & Hle & Hne).
  split; [done|]. split; [done|]. split; [congruence|]. split.
  { exists (evs1 ++ evs). split; [rewrite Ht, Ht1; by rewrite <- app_assoc|].
    rewrite List.filter_app, length_app. lia. }
  split; [congruence|]. split; [congruence|]. split; [lia|].
  intros _. by apply Hne.
Qed.

(** One merge started: the stack [R] has become [R1]. *)
Definition one_merge (R R1 : list (Z * Z)) (st st1 : state) : Prop :=
  stack_is R1 st1 /\ bases_within (global_a st1) R1 /\
  global_a st1 = global_a st /\
  (exists evs1, trace st1 = trace st ++ evs1 /\
                length (List.filter is_unawaited evs1) = 1%nat) /\
  S (length R1) = length R /\ R1 <> [] /\
  total R1 = total R /\ head R1.*1 = head R.*1.

Lemma merges_started_next (R R1 R' : list (Z * Z)) (st st1 st' : state) :
  one_merge R R1 st st1 -> merges_started R1 R' st1 st' ->
  merges_started R R' st st'.
Proof.
  intros (Hs1 & _ & Ha1 & (evs1 & Ht1 & Hu1) & Hlen & Hne & Htot & Hhead) Hrest.
  by apply (merges_started_step R R1 R' st st1 st' evs1).
Qed.

Lemma merge_second (R0 : list (Z * Z)) (b1 l1 b2 l2 : Z) (st : state) :
  stack_is (R0 ++ [(b1, l1); (b2, l2)]) st ->
  bases_within (global_a st) (R0 ++ [(b1, l1); (b2, l2)]) ->
  exists st1,
    mergeAt_unawaited (Z.of_nat (length R0)) st = Ok (tt, st1) /\
    one_merge (R0 ++ [(b1, l1); (b2, l2)]) (R0 ++ [(b1, l1 + l2)]) st st1.
Proof.
  intros Hs Hb.
  destruct (mergeAt_unawaited_second R0 b1 l1 b2 l2 st Hs Hb)
    as (st1 & evs & Hrun & Hs1 & Ha & Ht & Hu).
  exists st1. split; [done|]. split; [done|]. split.
  { rewrite Ha. apply Forall_app in Hb as [Hb0 Hb1]. apply Forall_app. split; [done|].
    inversion Hb1 as [|? ? Hx1 _]; subst. constructor; [exact Hx1|constructor]. }
  split; [done|]. split; [exists evs; split; [done|by rewrite Hu]|].
  split; [rewrite !length_app; cbn [length]; lia|].
  split; [by destruct R0|]. split.
  - rewrite !total_app. unfold total. cbn. lia.
  - by apply head_bases.
Qed.

Lemma merge_third (R0 : list (Z * Z)) (b1 l1 b2 l2 b3 l3 : Z) (st : state) :
  stack_is (R0 ++ [(b1, l1); (b2, l2); (b3, l3)]) st ->
  bases_within (global_a st) (R0 ++ [(b1, l1); (b2, l2); (b3, l3)]) ->
  exists st1,
    mergeAt_unawaited (Z.of_nat (length R0)) st = Ok (tt, st1) /\
    one_merge (R0 ++ [(b1, l1); (b2, l2); (b3, l3)])
              (R0 ++ [(b1, l1 + l2); (b3, l3)]) st st1.
Proof.
  intros Hs Hb.
  destruct (mergeAt_unawaited_third R0 b1 l1 b2 l2 b3 l3 st Hs Hb)
    as (st1 & evs & Hrun & Hs1 & Ha & Ht & Hu).
  exists st1. split; [done|]. split; [done|]. split.
  { rewrite Ha. apply Forall_app in Hb as [Hb0 Hb1]. apply Forall_app. split; [done|].
    inversion Hb1 as [|? ? Hx1 Hb2]; subst. inversion Hb2 as [|? ? _ Hb3]; subst.
    inversion Hb3 as [|? ? Hx3 _]; subst.
    constructor; [exact Hx1|]. constructor; [exact Hx3|constructor]. }
  split; [done|]. split; [exists evs; split; [done|by rewrite Hu]|].
  split; [rewrite !length_app; cbn [length]; lia|].
  split; [by destruct R0|]. split.
  - rewrite !total_app. unfold total. cbn. lia.
  - by apply head_bases.
Qed.

Lemma stack_len_tail (R l : list (Z * Z)) (st : state) (i : nat) (b v : Z) (j : Z) :
  stack_is (R ++ l) st -> l !! i = Some (b, v) -> j = Z.of_nat (length R + i) ->
  JS.get (runLen st) j = Some v.
Proof.
  intros Hs Hi ->. apply (stack_len (R ++ l) st (length R + i) b v); [done| |done].
  rewrite lookup_app_r by lia. rewrite <- Hi. f_equal. lia.
Qed.

Lemma mergeCollapse_spec (fuel : nat) :
  forall (R : list (Z * Z)) (st : state),
    stack_is R st -> bases_within (global_a st) R -> (length R < fuel)%nat ->
    exists R' st',
      mergeCollapse fuel st = Ok (tt, st') /\
      merges_started R R' st st' /\ collapsed R'.
Proof.
  induction fuel as [|fuel IH]; intros R st Hs Hb Hfuel; [lia|].
  cbn [mergeCollapse]. rewrite step_stackSize.
  pose proof Hs as (Hsize & _). rewrite Hsize.
  destruct R as [|[b2 l2] R _] using rev_ind.
  { ztest; [cbn [length] in *; lia|]. exists [], st. split; [done|].
    split; [by apply merges_started_refl|done]. }
  destruct R as [|[b1 l1] R _] using rev_ind.
  { cbn [length app]. ztest; [lia|]. exists [(b2, l2)], st. split; [done|].
    split; [by apply merges_started_refl|done]. }
  rewrite <- app_assoc in *. cbn [app] in *.
  rewrite length_app in *. cbn [length] in *.
  ztest; [|lia]. cbv zeta.
  (* after one merge *)
  assert (Hnext : forall R1 st1 i,
             mergeAt_unawaited i st = Ok (tt, st1) ->
             one_merge (R ++ [(b1, l1); (b2, l2)]) R1 st st1 ->
             exists R' st',
               bind (mergeAt_unawaited i) (fun _ => mergeCollapse fuel) st
               = Ok (tt, st') /\
               merges_started (R ++ [(b1, l1); (b2, l2)]) R' st st' /\ collapsed R').
  { intros R1 st1 i Hrun Hone.
    pose proof Hone as (Hs1 & Hb1 & _ & _ & Hlen & _).
    rewrite length_app in Hlen. cbn [length] in Hlen.
    destruct (IH R1 st1 Hs1 Hb1 ltac:(lia)) as (R' & st' & Hrest & Hm & Hc).
    exists R', st'. split; [by rewrite (step_ok _ _ _ _ _ Hrun)|].
    split; [by eapply merges_started_next|done]. }
  destruct (Z.ltb_spec 0 (Z.of_nat (length R + 2) - 2)) as [Hn|Hn].
  - (* three runs or more *)
    destruct R as [|[b0 l0] R _] using rev_ind; [cbn [length] in Hn; lia|].
    rewrite <- app_assoc in *. cbn [app] in *.
    rewrite length_app in *. cbn [length] in *.
    rewrite !bind_assoc.
    rewrite (step_runLen _ l0)
      by (eapply (stack_len_tail _ _ st 0%nat); [exact Hs|reflexivity|cbn [length]; lia]).
    rewrite bind_assoc.
    rewrite (step_runLen _ l1)
      by (eapply (stack_len_tail _ _ st 1%nat); [exact Hs|reflexivity|cbn [length]; lia]).
    rewrite bind_assoc.
    rewrite (step_runLen _ l2)
      by (eapply (stack_len_tail _ _ st 2%nat); [exact Hs|reflexivity|cbn [length]; lia]).
    rewrite step_ret.
    destruct (Z.leb_spec l0 (l1 + l2)) as [Hc1|Hc1].
    + rewrite (step_runLen _ l0)
        by (eapply (stack_len_tail _ _ st 0%nat); [exact Hs|reflexivity|cbn [length]; lia]).
      rewrite (step_runLen _ l2)
        by (eapply (stack_len_tail _ _ st 2%nat); [exact Hs|reflexivity|cbn [length]; lia]).
      cbv zeta.
      destruct (Z.ltb_spec l0 l2).
      * destruct (merge_third R b0 l0 b1 l1 b2 l2 st Hs Hb) as (st1 & Hrun & Hone).
        replace (Z.of_nat (length R + 1 + 2) - 2 - 1) with (Z.of_nat (length R)) by lia.
        exact (Hnext _ st1 _ Hrun Hone).
      * replace (R ++ [(b0, l0); (b1, l1); (b2, l2)])
          with ((R ++ [(b0, l0)]) ++ [(b1, l1); (b2, l2)]) in *
          by (by rewrite <- app_assoc).
        destruct (merge_second (R ++ [(b0, l0)]) b1 l1 b2 l2 st Hs Hb)
          as (st1 & Hrun & Hone).
        rewrite length_app in Hrun. cbn [length] in Hrun.
        replace (Z.of_nat (length R + 1 + 2) - 2) with (Z.of_nat (length R + 1)) by lia.
        exact (Hnext _ st1 _ Hrun Hone).
    + rewrite (step_runLen _ l1)
        by (eapply (stack_len_tail _ _ st 1%nat); [exact Hs|reflexivity|cbn [length]; lia]).
      rewrite (step_runLen _ l2)
        by (eapply (stack_len_tail _ _ st 2%nat); [exact Hs|reflexivity|cbn [length]; lia]).
      destruct (Z.leb_spec l1 l2).
      * replace (R ++ [(b0, l0); (b1, l1); (b2, l2)])
          with ((R ++ [(b0, l0)]) ++ [(b1, l1); (b2, l2)]) in *
          by (by rewrite <- app_assoc).
        destruct (merge_second (R ++ [(b0, l0)]) b1 l1 b2 l2 st Hs Hb)
          as (st1 & Hrun & Hone).
        rewrite length_app in Hrun. cbn [length] in Hrun.
        replace (Z.of_nat (length R + 1 + 2) - 2) with (Z.of_nat (length R + 1)) by lia.
        exact (Hnext _ st1 _ Hrun Hone).
      * exists (R ++ [(b0, l0); (b1, l1); (b2, l2)]), st. split; [done|].
        split; [by apply merges_started_refl|]. apply collapsed_three; lia.
  - (* two runs *)
    destruct R as [|r0 R _] using rev_ind;
      [|rewrite length_app in Hn; cbn [length] in Hn; lia].
    cbn [app length] in *. rewrite step_ret.
    rewrite (step_runLen _ l1)
      by (eapply (stack_len_tail [] _ st 0%nat); [exact Hs|reflexivity|cbn [length]; lia]).
    rewrite (step_runLen _ l2)
      by (eapply (stack_len_tail [] _ st 1%nat); [exact Hs|reflexivity|cbn [length]; lia]).
    destruct (Z.leb_spec l1 l2).
    + destruct (merge_second [] b1 l1 b2 l2 st Hs Hb) as (st1 & Hrun & Hone).
      exact (Hnext _ st1 _ Hrun Hone).
    + exists [(b1, l1); (b2, l2)], st. split; [done|].
      split; [by apply merges_started_refl|]. unfold collapsed. cbn. lia.
Qed.

Lemma mergeForceCollapse_spec (fuel : nat) :
  forall (R : list (Z * Z)) (st : state),
    stack_is R st -> bases_within (global_a st) R -> (length R < fuel)%nat ->
    exists R' st',
      mergeForceCollapse fuel st = Ok (tt, st') /\
      merges_started R R' st st' /\ (length R' <= 1)%nat.
Proof.
  induction fuel as [|fuel IH]; intros R st Hs Hb Hfuel; [lia|].
  cbn [mergeForceCollapse]. rewrite step_stackSize.
  pose proof Hs as (Hsize & _). rewrite Hsize.
  destruct R as [|[b2 l2] R _] using rev_ind.
  { ztest; [cbn [length] in *; lia|]. exists [], st. split; [done|].
    split; [by apply merges_started_refl|cbn [length]; lia]. }
  destruct R as [|[b1 l1] R _] using rev_ind.
  { cbn [length app]. ztest; [lia|]. exists [(b2, l2)], st. split; [done|].
    split; [by apply merges_started_refl|cbn [length]; lia]. }
  rewrite <- app_assoc in *. cbn [app] in *.
  rewrite length_app in *. cbn [length] in *.
  ztest; [|lia]. cbv zeta.
  assert (Hnext : forall R1 st1 i,
             mergeAt_unawaited i st = Ok (tt, st1) ->
             one_merge (R ++ [(b1, l1); (b2, l2)]) R1 st st1 ->
             exists R' st',
               bind (mergeAt_unawaited i) (fun _ => mergeForceCollapse fuel) st
               = Ok (tt, st') /\
               merges_started (R ++ [(b1, l1); (b2, l2)]) R' st st'
               /\ (length R' <= 1)%nat).
  { intros R1 st1 i Hrun Hone.
    pose proof Hone as (Hs1 & Hb1 & _ & _ & Hlen & _).
    rewrite length_app in Hlen. cbn [length] in Hlen.
    destruct (IH R1 st1 Hs1 Hb1 ltac:(lia)) as (R' & st' & Hrest & Hm & Hc).
    exists R', st'. split; [by rewrite (step_ok _ _ _ _ _ Hrun)|].
    split; [by eapply merges_started_next|done]. }
  destruct (Z.ltb_spec 0 (Z.of_nat (length R + 2) - 2)) as [Hn|Hn].
  - destruct R as [|[b0 l0] R _] using rev_ind; [cbn [length] in Hn; lia|].
    rewrite <- app_assoc in *. cbn [app] in *.
    rewrite length_app in *. cbn [length] in *.
    rewrite !bind_assoc.
    rewrite (step_runLen _ l0)
      by (eapply (stack_len_tail _ _ st 0%nat); [exact Hs|reflexivity|cbn [length]; lia]).
    rewrite bind_assoc.
    rewrite (step_runLen _ l2)
      by (eapply (stack_len_tail _ _ st 2%nat); [exact Hs|reflexivity|cbn [length]; lia]).
    rewrite step_ret. cbv zeta.
    destruct (Z.ltb_spec l0 l2).
    + destruct (merge_third R b0 l0 b1 l1 b2 l2 st Hs Hb) as (st1 & Hrun & Hone).
      replace (Z.of_nat (length R + 1 + 2) - 2 - 1) with (Z.of_nat (length R)) by lia.
      exact (Hnext _ st1 _ Hrun Hone).
    + replace (R ++ [(b0, l0); (b1, l1); (b2, l2)])
        with ((R ++ [(b0, l0)]) ++ [(b1, l1); (b2, l2)]) in *
        by (by rewrite <- app_assoc).
      destruct (merge_second (R ++ [(b0, l0)]) b1 l1 b2 l2 st Hs Hb)
        as (st1 & Hrun & Hone).
      rewrite length_app in Hrun. cbn [length] in Hrun.
      replace (Z.of_nat (length R + 1 + 2) - 2) with (Z.of_nat (length R + 1)) by lia.
      exact (Hnext _ st1 _ Hrun Hone).
  - destruct R as [|r0 R _] using rev_ind;
      [|rewrite length_app in Hn; cbn [length] in Hn; lia].
    cbn [app length] in *. rewrite step_ret. cbv zeta.
    destruct (merge_second [] b1 l1 b2 l2 st Hs Hb) as (st1 & Hrun & Hone).
    exact (Hnext _ st1 _ Hrun Hone).
Qed.

(** [mergeCollapse] on a stack of runs that start within the array
    returns with the three runs at the top as the loop wants them,
    [runLen[n - 1] > runLen[n] + runLen[n + 1]] and
    [runLen[n] > runLen[n + 1]] for [n = stackSize - 2].  Each merge on
    the way is started and not awaited: the trace has one [Unawaited]
    entry for every run the stack has lost, and the array is still as it
    was when [mergeCollapse] returns.  The runs left start at the same
    base and cover as many elements as before. *)
Theorem mergeCollapse_restores_invariant (R : list (Z * Z)) (st : state)
    (fuel : nat) :
  stack_is R st -> bases_within (global_a st) R -> (length R < fuel)%nat ->
  exists R' st' evs,
    mergeCollapse fuel st = Ok (tt, st') /\
    stack_is R' st' /\ collapsed R' /\
    total R' = total R /\ head R'.*1 = head R.*1 /\
    global_a st' = global_a st /\
    trace st' = trace st ++ evs /\
    length (List.filter is_unawaited evs) = (length R - length R')%nat.
Proof.
  intros Hs Hb Hfuel.
  destruct (mergeCollapse_spec fuel R st Hs Hb Hfuel)
    as (R' & st' & Hrun & (Hs' & _ & Ha & (evs & Ht & Hu) & Htot & Hhead & _) & Hc).
  by exists R', st', evs.
Qed.

(** [mergeForceCollapse] on a stack of one or more runs that start
    within the array returns with one run on the stack, which starts
    where the first did and has the length of all together.  None of
    the merges is awaited: there is one [Unawaited] entry for every run
    but one, and the array is still as it was when the function
    returns. *)
Theorem mergeForceCollapse_leaves_one_run (b l : Z) (R : list (Z * Z))
    (st : state) (fuel : nat) :
  stack_is ((b, l) :: R) st -> bases_within (global_a st) ((b, l) :: R) ->
  (S (length R) < fuel)%nat ->
  exists st' evs,
    mergeForceCollapse fuel st = Ok (tt, st') /\
    stack_is [(b, total ((b, l) :: R))] st' /\
    global_a st' = global_a st /\
    trace st' = trace st ++ evs /\
    length (List.filter is_unawaited evs) = length R.
Proof.
  intros Hs Hb Hfuel.
  destruct (mergeForceCollapse_spec fuel ((b, l) :: R) st Hs Hb Hfuel)
    as (R' & st' & Hrun
        & (Hs' & _ & Ha & (evs & Ht & Hu) & Htot & Hhead & _ & Hne) & Hone).
  destruct R' as [|[b' l'] [|r R']]; [by destruct Hne| |cbn [length] in Hone; lia].
  cbn in Hhead. injection Hhead as ->.
  assert (l' = total ((b, l) :: R)) as -> by (rewrite <- Htot; unfold total; cbn; lia).
  exists st', evs. do 4 (split; [done|]).
  rewrite Hu. cbn [length]. lia.
Qed.

End Further.

(** * The further properties on numbers *)

Lemma timsort_comparisons_witness :
  exists out st,
    timsort numeric 4 [3; 1; 2] = Ok (out, st) /\
    comparisons (trace st)
    <= Z.of_nat (length [3; 1; 2]) * (Z.log2 (Z.of_nat (length [3; 1; 2])) + 1).
Proof.
  apply (timsort_comparisons numeric [3; 1; 2] 4%nat).
  - simpl. lia.
  - simpl. lia.
Defined.

(** A comparator that is no order at all. *)
Definition always_below (x y : Z) : Z := -1.

Lemma timsort_permutes_witness :
  exists out st,
    timsort always_below 4 [3; 1; 2] = Ok (out, st) /\
    global_a st = out /\ out ≡ₚ [3; 1; 2] /\ length out = length [3; 1; 2].
Proof.
  apply (timsort_permutes always_below [3; 1; 2] 4%nat).
  - simpl. lia.
  - simpl. lia.
Defined.

Lemma reverseRange_reverses_witness :
  reverseRange 4 (Z.of_nat (length [9])) (Z.of_nat (length [9] + length [1; 2; 3]))
    (mkState ([9] ++ [1; 2; 3] ++ [0]) [] [] 0 [])
  = Ok (tt, mkState ([9] ++ rev [1; 2; 3] ++ [0]) [] [] 0
              ([] ++ [Reversed (Z.of_nat (length [9]))
                               (Z.of_nat (length [9] + length [1; 2; 3]))])).
Proof.
  apply (reverseRange_reverses [9] [1; 2; 3] [0] 4%nat [] [] 0 []).
  simpl. lia.
Defined.

Lemma arraycopy_moves_witness :
  arraycopy [1; 2; 3; 4] (Z.of_nat 0) [1; 2; 3; 4] (Z.of_nat 1) (Z.of_nat 3)
  = Ok (take 1 [1; 2; 3; 4] ++ take 3 (drop 0 [1; 2; 3; 4])
          ++ drop (1 + 3) [1; 2; 3; 4]).
Proof.
  apply (arraycopy_moves [1; 2; 3; 4] [1; 2; 3; 4] 0 1 3).
  - simpl. lia.
  - simpl. lia.
Defined.

Lemma binarySort_range_witness :
  exists out evs,
    binarySort numeric 5 (Z.of_nat (length [9]))
      (Z.of_nat (length [9] + length [1; 4] + length [3; 2]))
      (Z.of_nat (length [9] + length [1; 4]))
      (mkState ([9] ++ [1; 4] ++ [3; 2] ++ [0]) [] [] 0 [])
    = Ok (tt, mkState ([9] ++ out ++ [0]) [] [] 0 ([] ++ evs)) /\
    ascending numeric out /\
    stable numeric ([1; 4] ++ [3; 2]) out /\
    out ≡ₚ [1; 4] ++ [3; 2].
Proof.
  apply (binarySort_range numeric [9] [1; 4] [3; 2] [0] 5%nat [] [] 0 []
           numeric_total_order).
  - unfold ascending, le, numeric. repeat constructor; lia.
  - simpl. lia.
  - simpl. lia.
Defined.

Lemma countRun_finds_the_run_witness :
  exists (k : nat) run' evs,
    (k <= 4)%nat /\ (1 <= 4 -> 1 <= k)%nat /\
    countRunAndMakeAscending numeric 7
      (Z.of_nat (length [9])) (Z.of_nat (length [9]) + 1 + Z.of_nat 4)
      (mkState ([9] ++ 5 :: [4; 3; 6; 1]) [] [] 0 [])
    = Ok (1 + Z.of_nat k,
          mkState ([9] ++ run' ++ drop k [4; 3; 6; 1]) [] [] 0 ([] ++ evs)) /\
    (run' = 5 :: take k [4; 3; 6; 1] /\ ascending numeric (5 :: take k [4; 3; 6; 1])
     \/ run' = rev (5 :: take k [4; 3; 6; 1])
        /\ descending numeric (5 :: take k [4; 3; 6; 1]) /\ (1 <= k)%nat) /\
    ascending numeric run' /\ stable numeric (5 :: take k [4; 3; 6; 1]) run' /\
    ((k < 4)%nat ->
     ~ ascending numeric (5 :: take (S k) [4; 3; 6; 1]) /\
     ~ descending numeric (5 :: take (S k) [4; 3; 6; 1])).
Proof.
  apply (countRun_finds_the_run numeric [9] 5 [4; 3; 6; 1] 7%nat 4%nat [] [] 0 []
           numeric_total_order).
  - simpl. lia.
  - simpl. lia.
Defined.

Lemma ascending_3_5_7 : ascending numeric [3; 5; 7].
Proof. unfold ascending, le, numeric. repeat constructor; lia. Qed.

Lemma ascending_2_4_6 : ascending numeric [2; 4; 6].
Proof. unfold ascending, le, numeric. repeat constructor; lia. Qed.

Lemma head_2_below_3 (y0 x0 : Z) :
  head [2; 4; 6] = Some y0 -> head [3; 5; 7] = Some x0 -> numeric y0 x0 < 0.
Proof. intros [= <-] [= <-]. unfold numeric. lia. Qed.

Lemma last_7_above (z y : Z) :
  last [3; 5; 7] = Some z -> y ∈ [2; 4; 6] -> numeric y z < 0.
Proof.
  intros [= <-] Hy. unfold numeric.
  repeat (apply elem_of_cons in Hy as [->|Hy]; [lia|]).
  by apply elem_of_nil in Hy.
Qed.

Lemma mergeLo_merges_witness :
  exists merged evs,
    mergeLo numeric 7 (Z.of_nat (length [1])) (Z.of_nat (length [3; 5; 7]))
      (Z.of_nat (length [1] + length [3; 5; 7])) (Z.of_nat (length [2; 4; 6]))
      (mkState ([1] ++ [3; 5; 7] ++ [2; 4; 6] ++ [9]) [] [] 0 [])
    = Ok (tt, mkState ([1] ++ merged ++ [9]) [] [] 0 ([] ++ evs)) /\
    ascending numeric merged /\
    stable numeric ([3; 5; 7] ++ [2; 4; 6]) merged /\
    merged ≡ₚ [3; 5; 7] ++ [2; 4; 6].
Proof.
  apply (mergeLo_merges numeric [1] [3; 5; 7] [2; 4; 6] [9] 7%nat [] [] 0 []
           numeric_total_order ascending_3_5_7 ascending_2_4_6
           head_2_below_3 last_7_above).
  - simpl. lia.
  - simpl. lia.
  - simpl. lia.
  - simpl. lia.
  - simpl. lia.
Defined.

Lemma mergeHi_merges_witness :
  exists merged evs,
    mergeHi numeric 7 (Z.of_nat (length [1])) (Z.of_nat (length [3; 5; 7]))
      (Z.of_nat (length [1] + length [3; 5; 7])) (Z.of_nat (length [2; 4; 6]))
      (mkState ([1] ++ [3; 5; 7] ++ [2; 4; 6] ++ [9]) [] [] 0 [])
    = Ok (tt, mkState ([1] ++ merged ++ [9]) [] [] 0 ([] ++ evs)) /\
    ascending numeric merged /\
    stable numeric ([3; 5; 7] ++ [2; 4; 6]) merged /\
    merged ≡ₚ [3; 5; 7] ++ [2; 4; 6].
Proof.
  apply (mergeHi_merges numeric [1] [3; 5; 7] [2; 4; 6] [9] 7%nat [] [] 0 []
           numeric_total_order ascending_3_5_7 ascending_2_4_6
           head_2_below_3 last_7_above).
  - simpl. lia.
  - simpl. lia.
  - simpl. lia.
  - simpl. lia.
  - simpl. lia.
Defined.

Lemma mergeAt_merges_witness :
  exists merged rb' rl' evs,
    mergeAt numeric 7 0
      (mkState ([1] ++ [3; 5; 7] ++ [2; 4; 6] ++ [9]) [1; 4; 7] [3; 3; 1] 3 [])
    = Ok (tt, mkState ([1] ++ merged ++ [9]) rb' rl' (3 - 1) ([] ++ evs)) /\
    ascending numeric merged /\
    stable numeric ([3; 5; 7] ++ [2; 4; 6]) merged /\
    merged ≡ₚ [3; 5; 7] ++ [2; 4; 6] /\
    JS.get rb' 0 = Some (Z.of_nat (length [1])) /\
    JS.get rl' 0 = Some (Z.of_nat (length [3; 5; 7] + length [2; 4; 6])) /\
    (0 = 3 - 3 -> JS.get rb' (0 + 1) = JS.get [1; 4; 7] (0 + 2)
                  /\ JS.get rl' (0 + 1) = JS.get [3; 3; 1] (0 + 2)) /\
    (forall j, j < 0 -> JS.get rb' j = JS.get [1; 4; 7] j
                        /\ JS.get rl' j = JS.get [3; 3; 1] j).
Proof.
  apply (mergeAt_merges numeric [1] [3; 5; 7] [2; 4; 6] [9] 7%nat 0 [1; 4; 7]
           [3; 3; 1] 3 [] numeric_total_order ascending_3_5_7 ascending_2_4_6).
  - simpl. lia.
  - simpl. lia.
  - simpl. lia.
  - simpl. lia.
  - simpl. lia.
  - reflexivity.
  - reflexivity.
  - reflexivity.
  - reflexivity.
  - intros _. split; eexists; reflexivity.
Defined.

Lemma sort_sorts_range_witness :
  exists out st',
    sort numeric 4 (Z.of_nat (length [9])) (Z.of_nat (length [9] + length [3; 1; 2]))
      (mkState ([9] ++ [3; 1; 2] ++ [0]) [] [] 0 [])
    = Ok (tt, st') /\
    global_a st' = [9] ++ out ++ [0] /\
    ascending numeric out /\ stable numeric [3; 1; 2] out /\ out ≡ₚ [3; 1; 2].
Proof.
  apply (sort_sorts_range numeric [9] [3; 1; 2] [0] 4%nat [] [] 0 []
           numeric_total_order).
  - simpl. lia.
  - simpl. lia.
Defined.

Lemma falling_3_2_1 : falling numeric [3; 2; 1].
Proof.
  intros i x y Hx Hy. unfold numeric.
  destruct i as [|[|i]]; cbn in Hx, Hy.
  - injection Hx as <-. injection Hy as <-. lia.
  - injection Hx as <-. injection Hy as <-. lia.
  - destruct i; discriminate Hy.
Qed.

Lemma timsort_descending_input_witness :
  exists st,
    timsort numeric 4 [3; 2; 1] = Ok (rev [3; 2; 1], st) /\
    global_a st = rev [3; 2; 1] /\
    trace st = Log "entering sort"
               :: Log "entering count run and make ascending"
               :: adjacent_compares [3; 2; 1]
               ++ Reversed 0 (Z.of_nat (length [3; 2; 1]))
               :: Log "entering binary sort"
               :: (if Z.of_nat (length [3; 2; 1]) <? MIN_MERGE then []
                   else [Pushed 0 (Z.of_nat (length [3; 2; 1])) 1]) /\
    length (List.filter is_comparison (trace st)) = (length [3; 2; 1] - 1)%nat.
Proof.
  apply (timsort_descending_input numeric [3; 2; 1] 4%nat).
  - simpl. lia.
  - simpl. lia.
  - simpl. lia.
  - exact falling_3_2_1.
Defined.

(** Three runs of two elements each on the stack. *)
Definition three_runs : state (T := Z) :=
  mkState [5; 1; 4; 2; 3; 9] [0; 2; 4] [2; 2; 2] 3 [].

Lemma three_runs_stack : stack_is [(0, 2); (2, 2); (4, 2)] three_runs.
Proof. split; [reflexivity|]. split; exists []; reflexivity. Qed.

Lemma three_runs_within :
  bases_within (global_a three_runs) [(0, 2); (2, 2); (4, 2)].
Proof. unfold bases_within. repeat constructor; simpl; lia. Qed.

Lemma mergeCollapse_restores_invariant_witness :
  exists R' st' evs,
    mergeCollapse 4 three_runs = Ok (tt, st') /\
    stack_is R' st' /\ collapsed R' /\
    total R' = total [(0, 2); (2, 2); (4, 2)] /\
    head R'.*1 = head [(0, 2); (2, 2); (4, 2)].*1 /\
    global_a st' = global_a three_runs /\
    trace st' = trace three_runs ++ evs /\
    length (List.filter is_unawaited evs)
    = (length [(0, 2); (2, 2); (4, 2)] - length R')%nat.
Proof.
  apply (mergeCollapse_restores_invariant [(0, 2); (2, 2); (4, 2)] three_runs 4%nat
           three_runs_stack three_runs_within).
  simpl. lia.
Defined.

Lemma mergeForceCollapse_leaves_one_run_witness :
  exists st' evs,
    mergeForceCollapse 4 three_runs = Ok (tt, st') /\
    stack_is [(0, total ((0, 2) :: [(2, 2); (4, 2)]))] st' /\
    global_a st' = global_a three_runs /\
    trace st' = trace three_runs ++ evs /\
    length (List.filter is_unawaited evs) = length [(2, 2); (4, 2)].
Proof.
  apply (mergeForceCollapse_leaves_one_run 0 2 [(2, 2); (4, 2)] three_runs 4%nat
           three_runs_stack three_runs_within).
  simpl. lia.
Defined.

(** Nothing to sort and nothing done yet. *)
Definition idle : state (T := Z) := init_state [].

Lemma gallop_comparisons_witness :
  (exists (k : nat) evs,
      gallopLeft numeric 6 4 ([9] ++ [1; 3; 4; 4; 6] ++ [0])
        (Z.of_nat (length [9])) (Z.of_nat (length [1; 3; 4; 4; 6])) (Z.of_nat 3)
        idle
      = Ok (Z.of_nat k,
            mkState (global_a idle) (runBase idle)
                    (runLen idle) (stackSize idle)
                    (trace idle ++ Log "entering gallop left" :: evs)) /\
      (k <= length [1; 3; 4; 4; 6])%nat /\ Forall is_compare evs /\
      Z.of_nat (length evs) <= 2 * Z.log2 (Z.of_nat (length [1; 3; 4; 4; 6])) + 2) /\
  (exists (k : nat) evs,
      gallopRight numeric 6 4 ([9] ++ [1; 3; 4; 4; 6] ++ [0])
        (Z.of_nat (length [9])) (Z.of_nat (length [1; 3; 4; 4; 6])) (Z.of_nat 3)
        idle
      = Ok (Z.of_nat k,
            mkState (global_a idle) (runBase idle)
                    (runLen idle) (stackSize idle)
                    (trace idle ++ Log "entering gallop right" :: evs)) /\
      (k <= length [1; 3; 4; 4; 6])%nat /\ Forall is_compare evs /\
      Z.of_nat (length evs) <= 2 * Z.log2 (Z.of_nat (length [1; 3; 4; 4; 6])) + 2).
Proof.
  apply (gallop_comparisons numeric 4 [9] [1; 3; 4; 4; 6] [0] 3 6 idle).
  - simpl. lia.
  - simpl. lia.
  - simpl. lia.
Defined.

Lemma sorted_1_2_3 : ascending numeric [1; 2; 3].
Proof. unfold ascending, le, numeric. repeat constructor; lia. Qed.

Lemma stable_3_1_2 : stable numeric [3; 1; 2] [1; 2; 3].
Proof.
  intros x. unfold eqvb, numeric. cbn [List.filter].
  destruct (Z.eqb_spec (x - 1) 0), (Z.eqb_spec (x - 2) 0), (Z.eqb_spec (x - 3) 0);
    try reflexivity; lia.
Qed.

Lemma permutation_3_1_2 : [1; 2; 3] ≡ₚ [3; 1; 2].
Proof. symmetry. apply (Permutation_cons_append [1; 2] 3). Qed.

Lemma timsort_result_unique_witness :
  exists st, timsort numeric 4 [3; 1; 2] = Ok ([1; 2; 3], st) /\ global_a st = [1; 2; 3].
Proof.
  apply (timsort_result_unique numeric [3; 1; 2] [1; 2; 3] 4%nat numeric_total_order).
  - simpl. lia.
  - simpl. lia.
  - exact sorted_1_2_3.
  - exact stable_3_1_2.
  - exact permutation_3_1_2.
Defined.

Lemma mergeLo_mergeHi_agree_witness :
  exists a' evs_lo evs_hi,
    mergeLo numeric 7 (Z.of_nat (length [1])) (Z.of_nat (length [3; 5; 7]))
      (Z.of_nat (length [1] + length [3; 5; 7])) (Z.of_nat (length [2; 4; 6]))
      (mkState ([1] ++ [3; 5; 7] ++ [2; 4; 6] ++ [9]) [] [] 0 [])
    = Ok (tt, mkState a' [] [] 0 ([] ++ evs_lo)) /\
    mergeHi numeric 7 (Z.of_nat (length [1])) (Z.of_nat (length [3; 5; 7]))
      (Z.of_nat (length [1] + length [3; 5; 7])) (Z.of_nat (length [2; 4; 6]))
      (mkState ([1] ++ [3; 5; 7] ++ [2; 4; 6] ++ [9]) [] [] 0 [])
    = Ok (tt, mkState a' [] [] 0 ([] ++ evs_hi)).
Proof.
  apply (mergeLo_mergeHi_agree numeric [1] [3; 5; 7] [2; 4; 6] [9] 7%nat [] [] 0 []
           numeric_total_order ascending_3_5_7 ascending_2_4_6
           head_2_below_3 last_7_above).
  - simpl. lia.
  - simpl. lia.
  - simpl. lia.
  - simpl. lia.
  - simpl. lia.
Defined.

Lemma ascending_1_3_4_4_6 : ascending numeric [1; 3; 4; 4; 6].
Proof. unfold ascending, le, numeric. repeat constructor; lia. Qed.

Lemma gallops_bracket_the_equals_witness :
  exists (kl kr : nat) stl str,
    gallopLeft numeric 6 4 ([9] ++ [1; 3; 4; 4; 6] ++ [0])
      (Z.of_nat (length [9])) (Z.of_nat (length [1; 3; 4; 4; 6])) (Z.of_nat 1) idle
    = Ok (Z.of_nat kl, stl) /\
    gallopRight numeric 6 4 ([9] ++ [1; 3; 4; 4; 6] ++ [0])
      (Z.of_nat (length [9])) (Z.of_nat (length [1; 3; 4; 4; 6])) (Z.of_nat 1) idle
    = Ok (Z.of_nat kr, str) /\
    (kl <= kr <= length [1; 3; 4; 4; 6])%nat /\
    forall (i : nat) (x : Z),
      [1; 3; 4; 4; 6] !! i = Some x -> (numeric 4 x = 0 <-> (kl <= i < kr)%nat).
Proof.
  apply (gallops_bracket_the_equals numeric 4 [9] [1; 3; 4; 4; 6] [0] 1 6 idle
           numeric_total_order ascending_1_3_4_4_6).
  - simpl. lia.
  - simpl. lia.
  - simpl. lia.
Defined.
